(** * SOL25 front end: lexer, parser, semantic analyzer and XML emitter

    A shallow embedding of [src/parser/parse.py].  Python strings are
    sequences of code points; the model takes the characters of the
    Latin-1 range, one [ascii] per code point, so a Python [str] is a
    [string].  Python integers that count positions are [nat].

    A call of [error_exit(code, message)] ends the process with that
    exit code; the message goes to the error stream and is not modelled.
    An exception nobody catches ends the process with a traceback. *)

From stdpp Require Import gmap strings list pretty.
From Stdlib Require Import Ascii String.

Local Open Scope string_scope.
Local Open Scope list_scope.

(** ** Outcomes of a computation *)

Inductive exception : Type :=
| AttributeError
| IndexError
| KeyError.

(** The outcome of a call: a value, [sys.exit] with a code, an uncaught
    exception, or [OutOfFuel]: the bound that the model puts on the
    depth of a recursion is reached.  The model has no recursion limit
    of its own.  Where a definition takes its bound as an argument, the
    bound stands for the depth that the interpreter allows, and
    [OutOfFuel] for the RecursionError of CPython. *)
Inductive result (A : Type) : Type :=
| Ok (a : A)
| Exit (code : nat)
| Raise (e : exception)
| OutOfFuel.
Arguments Ok {A} a.
Arguments Exit {A} code.
Arguments Raise {A} e.
Arguments OutOfFuel {A}.

Definition bind {A B : Type} (m : result A) (k : A → result B) : result B :=
  match m with
  | Ok a => k a
  | Exit c => Exit c
  | Raise e => Raise e
  | OutOfFuel => OutOfFuel
  end.

Declare Scope result_scope.
Delimit Scope result_scope with result.
Notation "x <- c ;; k" := (bind c (λ x, k))
  (at level 100, c at next level, right associativity) : result_scope.
Notation "c1 ;; c2" := (bind c1 (λ _, c2))
  (at level 100, right associativity) : result_scope.
Local Open Scope result_scope.

(** ** Error codes *)

Definition ERR_MISSING_PARAM : nat := 10.
Definition ERR_OPEN_INPUT : nat := 11.
Definition ERR_OPEN_OUTPUT : nat := 12.
Definition ERR_LEXICAL : nat := 21.
Definition ERR_SYNTACTIC : nat := 22.
Definition ERR_MISSING_MAIN : nat := 31.
Definition ERR_UNDEFINED_VAR : nat := 32.
Definition ERR_ARITY : nat := 33.
Definition ERR_VAR_COLLISION : nat := 34.
Definition ERR_SEMANTIC_OTHER : nat := 35.
Definition ERR_INTERNAL : nat := 99.

Definition error_exit {A : Type} (code : nat) : result A := Exit code.

(** ** Characters and strings *)

Definition ord (c : ascii) : nat := nat_of_ascii c.

Definition in_range (lo hi : nat) (c : ascii) : bool :=
  (lo <=? ord c)%nat && (ord c <=? hi)%nat.

Definition dquote : ascii := ascii_of_nat 34.
Definition squote : ascii := ascii_of_nat 39.
Definition backslash : ascii := ascii_of_nat 92.
Definition newline : ascii := ascii_of_nat 10.
Definition colon : ascii := ":"%char.

(** [\s] of a Python 3 [str] pattern. *)
Definition is_space (c : ascii) : bool :=
  in_range 9 13 c || in_range 28 32 c || (ord c =? 133)%nat || (ord c =? 160)%nat.

(** [\d] of a Python 3 [str] pattern: the decimal digits of the range. *)
Definition is_digit (c : ascii) : bool := in_range 48 57 c.

(** [[a-zA-Z_]] and [[a-zA-Z0-9_]]. *)
Definition is_ident_start (c : ascii) : bool :=
  in_range 97 122 c || in_range 65 90 c || (ord c =? 95)%nat.
Definition is_ident_char (c : ascii) : bool :=
  in_range 97 122 c || in_range 65 90 c || in_range 48 57 c || (ord c =? 95)%nat.

(** [str.isupper] and [str.islower] of a one-character string. *)
Definition char_isupper (c : ascii) : bool :=
  in_range 65 90 c || in_range 192 214 c || in_range 216 222 c.
Definition char_islower (c : ascii) : bool :=
  in_range 97 122 c || (ord c =? 170)%nat || (ord c =? 181)%nat || (ord c =? 186)%nat
  || in_range 223 246 c || in_range 248 255 c.

(** [s[0]]: an empty string raises [IndexError]. *)
Definition first_char (s : string) : result ascii :=
  match s with
  | "" => Raise IndexError
  | String c _ => Ok c
  end.

(** [c in s] for a character. *)
Fixpoint contains_char (c : ascii) (s : string) : bool :=
  match s with
  | "" => false
  | String d s' => Ascii.eqb d c || contains_char c s'
  end.

(** [s.count(c)] for a character. *)
Fixpoint count_char (c : ascii) (s : string) : nat :=
  match s with
  | "" => 0
  | String d s' => (if Ascii.eqb d c then 1 else 0) + count_char c s'
  end.

(** [s.endswith(c)] for a character. *)
Fixpoint endswith (c : ascii) (s : string) : bool :=
  match s with
  | "" => false
  | String d "" => Ascii.eqb d c
  | String _ s' => endswith c s'
  end.

(** [s[:-1]]. *)
Fixpoint drop_last (s : string) : string :=
  match s with
  | "" => ""
  | String _ "" => ""
  | String d s' => String d (drop_last s')
  end.

(** [s[1:-1]]. *)
Definition strip_ends (s : string) : string :=
  match s with
  | "" => ""
  | String _ s' => drop_last s'
  end.

(** [x in (a, b, ...)] for strings. *)
Definition mem_string (x : string) (l : list string) : bool :=
  existsb (String.eqb x) l.

(** [s.startswith(prefix)] *)
Fixpoint startswith (prefix s : string) : bool :=
  match prefix with
  | "" => true
  | String c prefix' =>
      match s with
      | "" => false
      | String d s' => Ascii.eqb c d && startswith prefix' s'
      end
  end.

(** The longest prefix of characters of a class, and what follows it. *)
Fixpoint span (p : ascii → bool) (s : string) : string * string :=
  match s with
  | "" => ("", "")
  | String c s' =>
      if p c then let '(a, b) := span p s' in (String c a, b) else ("", s)
  end.

(** ** Tokens *)

Inductive token_type : Type :=
| WHITESPACE | COMMENT | ASSIGN | NUMBER | STRING | IDENT | COLON
| LBRACKET | RBRACKET | LBRACE | RBRACE | LPAREN | RPAREN | PIPE | DOT
| OTHER.

Global Instance token_type_eq_dec : EqDecision token_type.
Proof. solve_decision. Defined.

Record Token : Type := mkToken {
  tok_type : token_type;
  tok_value : string;
  tok_pos : nat
}.

(** ** String literals *)

(** The loop of [process_string_literal] over [content]. *)
Fixpoint process_content (content : string) : result string :=
  match content with
  | "" => Ok ""
  | String c rest =>
      if Ascii.eqb c backslash then
        match rest with
        | "" => error_exit ERR_LEXICAL
        | String esc_char rest' =>
            if Ascii.eqb esc_char squote then
              r <- process_content rest' ;; Ok (String squote r)
            else if Ascii.eqb esc_char "n" then
              r <- process_content rest' ;; Ok (String newline r)
            else if Ascii.eqb esc_char backslash then
              r <- process_content rest' ;; Ok (String backslash r)
            else error_exit ERR_LEXICAL
        end
      else if (ord c <=? 31)%nat then error_exit ERR_LEXICAL
      else r <- process_content rest ;; Ok (String c r)
  end.

Definition process_string_literal (literal : string) : result string :=
  process_content (strip_ends literal).

(** ** Lexer *)

Module Lexer.

(** A recogniser takes the text at the current position and returns the
    text it matches and the text after it. *)
Definition recogniser : Type := string → option (string * string).

Definition cons_match (c : ascii) (m : string * string) : string * string :=
  (String c (fst m), snd m).

(** [p+] for a character class. *)
Definition re_plus (p : ascii → bool) : recogniser := λ s,
  match s with
  | "" => None
  | String c _ => if p c then Some (span p s) else None
  end.

(** A fixed text. *)
Fixpoint re_lit (lit : string) : recogniser := λ s,
  match lit with
  | "" => Some ("", s)
  | String c lit' =>
      match s with
      | "" => None
      | String d s' =>
          if Ascii.eqb c d then cons_match d <$> re_lit lit' s' else None
      end
  end.

(** [(?:\\.|[^q\\])*q], the text after an opening quote [q].  The two
    alternatives of the group start with different characters and
    neither starts with [q], so the repetition has one way to advance
    and no shorter repetition is followed by [q]: the scan is
    deterministic.  With [re.DOTALL] the escaped character is any
    character. *)
Fixpoint scan_quoted (q : ascii) (s : string) : option (string * string) :=
  match s with
  | "" => None
  | String c s' =>
      if Ascii.eqb c q then Some (String c "", s')
      else if Ascii.eqb c backslash then
        match s' with
        | "" => None
        | String d s'' => cons_match c <$> (cons_match d <$> scan_quoted q s'')
        end
      else cons_match c <$> scan_quoted q s'
  end.

(** [q(?:\\.|[^q\\])*q] *)
Definition re_quoted (q : ascii) : recogniser := λ s,
  match s with
  | "" => None
  | String c s' => if Ascii.eqb c q then cons_match c <$> scan_quoted q s' else None
  end.

(** [[+-]?\d+] *)
Definition re_number : recogniser := λ s,
  match s with
  | "" => None
  | String c s' =>
      if Ascii.eqb c "+" || Ascii.eqb c "-" then cons_match c <$> re_plus is_digit s'
      else re_plus is_digit s
  end.

(** [[a-zA-Z_][a-zA-Z0-9_]*] *)
Definition re_ident : recogniser := λ s,
  match s with
  | "" => None
  | String c s' =>
      if is_ident_start c then Some (cons_match c (span is_ident_char s')) else None
  end.

(** [.] with [re.DOTALL] *)
Definition re_any : recogniser := λ s,
  match s with
  | "" => None
  | String c s' => Some (String c "", s')
  end.

Definition token_specification : list (token_type * recogniser) :=
  [ (WHITESPACE, re_plus is_space);
    (COMMENT, re_quoted dquote);
    (ASSIGN, re_lit ":=");
    (NUMBER, re_number);
    (STRING, re_quoted squote);
    (IDENT, re_ident);
    (COLON, re_lit ":");
    (LBRACKET, re_lit "[");
    (RBRACKET, re_lit "]");
    (LBRACE, re_lit "{");
    (RBRACE, re_lit "}");
    (LPAREN, re_lit "(");
    (RPAREN, re_lit ")");
    (PIPE, re_lit "|");
    (DOT, re_lit ".");
    (OTHER, re_any) ].

(** The alternation of named groups: the first alternative that matches
    wins; the result is [lastgroup], the matched text and the text from
    [match.end()]. *)
Fixpoint first_match (spec : list (token_type * recogniser)) (s : string)
  : option (token_type * string * string) :=
  match spec with
  | [] => None
  | (name, re) :: spec' =>
      match re s with
      | Some (v, rest) => Some (name, v, rest)
      | None => first_match spec' s
      end
  end.

Definition master_pattern_match (s : string) : option (token_type * string * string) :=
  first_match token_specification s.

(** The loop of [tokenize]; [rest] is [code[pos:]].  Every match takes
    at least one character, so [fuel] bounds the iterations. *)
Fixpoint tokenize_from (fuel : nat) (rest : string) (pos : nat) : result (list Token) :=
  match rest with
  | "" => Ok []
  | String _ _ =>
      match fuel with
      | 0 => OutOfFuel
      | S fuel' =>
          match master_pattern_match rest with
          | None => error_exit ERR_LEXICAL
          | Some (type_, value, rest') =>
              let pos' := pos + String.length value in
              match type_ with
              | WHITESPACE => tokenize_from fuel' rest' pos'
              | COMMENT =>
                  toks <- tokenize_from fuel' rest' pos' ;;
                  Ok (mkToken COMMENT value pos :: toks)
              | STRING =>
                  processed_value <- process_string_literal value ;;
                  toks <- tokenize_from fuel' rest' pos' ;;
                  Ok (mkToken STRING processed_value pos :: toks)
              | OTHER => error_exit ERR_LEXICAL
              | _ =>
                  toks <- tokenize_from fuel' rest' pos' ;;
                  Ok (mkToken type_ value pos :: toks)
              end
          end
      end
  end.

Definition tokenize (code : string) : result (list Token) :=
  tokenize_from (String.length code) code 0.

End Lexer.

(** ** Abstract syntax tree *)

(** The class [Parameter] of the source. *)
Record Param : Type := mkParam {
  param_name : string;
  param_order : nat
}.

(** [Assignment.var] is a [Var] node; its two fields are kept in the
    assignment.  A [Block] carries no position. *)
#[local] Set Warnings "-register-all".
Inductive expr : Type :=
| Var (name : string) (pos : nat)
| Literal (literal_class : string) (value : string) (pos : nat)
| BlockExpr (b : Block)
| Send (selector : string) (target : expr) (args : list expr) (pos : nat)
with Block : Type :=
| mkBlock (parameters : list Param) (assigns : list Assignment)
with Assignment : Type :=
| mkAssignment (var_name : string) (var_pos : nat) (e : expr) (order : nat).

Definition parameters (b : Block) : list Param :=
  match b with mkBlock ps _ => ps end.
Definition assigns (b : Block) : list Assignment :=
  match b with mkBlock _ asg => asg end.
Definition assign_var (a : Assignment) : string :=
  match a with mkAssignment n _ _ _ => n end.
Definition assign_expr (a : Assignment) : expr :=
  match a with mkAssignment _ _ e _ => e end.
Definition assign_order (a : Assignment) : nat :=
  match a with mkAssignment _ _ _ o => o end.

Record Method : Type := mkMethod {
  m_selector : string;
  m_block : Block
}.

Record ClassDef : Type := mkClassDef {
  cls_name : string;
  cls_parent : string;
  cls_methods : list Method
}.

Record Program : Type := mkProgram {
  classes : list ClassDef;
  description : option string
}.

(** [expr.pos]: a [Block] has no such attribute. *)
Definition expr_pos (e : expr) : result nat :=
  match e with
  | Var _ p => Ok p
  | Literal _ _ p => Ok p
  | Send _ _ _ p => Ok p
  | BlockExpr _ => Raise AttributeError
  end.

Definition reserved : list string :=
  ["self"; "super"; "true"; "false"; "nil"; "class"].

(** ** Parser *)

Module Parser.

Record state : Type := mkState {
  tokens : list Token;
  pos : nat;
  last_token_end : nat
}.

(** A method of the parser object: it reads and updates the object's
    fields and returns, exits or raises. *)
Definition M (A : Type) : Type := state → result (A * state).

Definition ret {A : Type} (a : A) : M A := λ st, Ok (a, st).

Definition bindM {A B : Type} (m : M A) (k : A → M B) : M B := λ st,
  match m st with
  | Ok (a, st') => k a st'
  | Exit c => Exit c
  | Raise e => Raise e
  | OutOfFuel => OutOfFuel
  end.

Declare Scope parser_scope.
Delimit Scope parser_scope with parser.
Notation "x <- c ;; k" := (bindM c (λ x, k))
  (at level 100, c at next level, right associativity) : parser_scope.
Notation "c1 ;; c2" := (bindM c1 (λ _, c2))
  (at level 100, right associativity) : parser_scope.
Local Open Scope parser_scope.

Definition lift {A : Type} (r : result A) : M A := λ st,
  match r with
  | Ok a => Ok (a, st)
  | Exit c => Exit c
  | Raise e => Raise e
  | OutOfFuel => OutOfFuel
  end.

Definition out_of_fuel {A : Type} : M A := λ _, OutOfFuel.

Definition current_token : M (option Token) := λ st,
  Ok (tokens st !! pos st, st).

Definition get_last_token_end : M nat := λ st, Ok (last_token_end st, st).

Definition error {A : Type} : M A := λ _, error_exit ERR_SYNTACTIC.

(** [if cond: self.error(...)] *)
Definition error_if (cond : bool) : M unit :=
  if cond then error else ret tt.

Definition consume (expected_type : option token_type) : M Token :=
  token <- current_token ;;
  match token with
  | None => error
  | Some token =>
      error_if (match expected_type with
                | Some ty => bool_decide (tok_type token ≠ ty)
                | None => false
                end) ;;
      λ st, Ok (token, mkState (tokens st) (pos st + 1)
                               (tok_pos token + String.length (tok_value token)))
  end.

(** [self.current_token is not None and self.current_token.type == ty] *)
Definition current_is (ty : token_type) : M bool :=
  token <- current_token ;;
  ret (match token with
       | Some t => bool_decide (tok_type t = ty)
       | None => false
       end).

(** [self.pos + 1 < len(self.tokens) and self.tokens[self.pos + 1].type == ty] *)
Definition next_is (ty : token_type) : M bool := λ st,
  Ok (match tokens st !! (pos st + 1) with
      | Some t => bool_decide (tok_type t = ty)
      | None => false
      end, st).

(** The loop of [parse_selector]. *)
Fixpoint parse_selector_loop (fuel : nat) (selector : string) : M string :=
  match fuel with
  | 0 => out_of_fuel
  | S fuel' =>
      token <- current_token ;;
      match token with
      | Some t =>
          if bool_decide (tok_type t = COLON) then
            last_end <- get_last_token_end ;;
            error_if (bool_decide (tok_pos t ≠ last_end)) ;;
            consume (Some COLON) ;;
            let selector := selector +:+ ":" in
            is_ident <- current_is IDENT ;;
            if is_ident then
              token <- current_token ;;
              last_end <- get_last_token_end ;;
              error_if (match token with
                        | Some t2 => bool_decide (tok_pos t2 ≠ last_end)
                        | None => false
                        end) ;;
              token2 <- consume (Some IDENT) ;;
              parse_selector_loop fuel' (selector +:+ tok_value token2)
            else parse_selector_loop fuel' selector
          else ret selector
      | None => ret selector
      end
  end.

Definition parse_selector (fuel : nat) : M string :=
  token <- consume (Some IDENT) ;;
  c <- lift (first_char (tok_value token)) ;;
  error_if (negb (char_islower c)) ;;
  selector <- parse_selector_loop fuel (tok_value token) ;;
  error_if (negb (contains_char colon selector) && mem_string selector reserved) ;;
  ret selector.

(** The loop over the parameter declarations of [parse_block]. *)
Fixpoint parse_parameters (fuel : nat) (order : nat) : M (list Param) :=
  match fuel with
  | 0 => out_of_fuel
  | S fuel' =>
      is_colon <- current_is COLON ;;
      if is_colon then
        colon_token <- consume (Some COLON) ;;
        token <- current_token ;;
        match token with
        | None => error
        | Some t =>
            error_if (bool_decide (tok_type t ≠ IDENT)) ;;
            error_if (bool_decide
              (tok_pos t ≠ tok_pos colon_token + String.length (tok_value colon_token))) ;;
            param_token <- consume (Some IDENT) ;;
            c <- lift (first_char (tok_value param_token)) ;;
            error_if (negb (char_islower c || Ascii.eqb c "_")) ;;
            error_if (mem_string (tok_value param_token) reserved) ;;
            ps <- parse_parameters fuel' (order + 1) ;;
            ret (mkParam (tok_value param_token) order :: ps)
        end
      else ret []
  end.

(** The header of a block, after the opening bracket. *)
Definition parse_block_header (fuel : nat) : M (list Param) :=
  is_pipe <- current_is PIPE ;;
  if is_pipe then consume (Some PIPE) ;; ret []
  else
    is_colon <- current_is COLON ;;
    if is_colon then
      ps <- parse_parameters fuel 1 ;;
      is_pipe <- current_is PIPE ;;
      error_if (negb is_pipe) ;;
      consume (Some PIPE) ;;
      ret ps
    else error.

(** [parse_expr_base] on an identifier token. *)
Definition ident_expr (token : Token) : M expr :=
  if String.eqb (tok_value token) "true" then ret (Literal "True" "true" (tok_pos token))
  else if String.eqb (tok_value token) "false" then ret (Literal "False" "false" (tok_pos token))
  else if String.eqb (tok_value token) "nil" then ret (Literal "Nil" "nil" (tok_pos token))
  else
    c <- lift (first_char (tok_value token)) ;;
    if char_isupper c then ret (Literal "class" (tok_value token) (tok_pos token))
    else ret (Var (tok_value token) (tok_pos token)).

(** One selector part [ident ":" argument] of a send tail: the colon must
    follow the identifier without a gap. *)
Definition consume_keyword : M string :=
  ident_token <- consume (Some IDENT) ;;
  token <- current_token ;;
  error_if (match token with
            | None => true
            | Some t =>
                bool_decide (tok_type t ≠ COLON)
                || bool_decide (tok_pos t ≠
                     tok_pos ident_token + String.length (tok_value ident_token))
            end) ;;
  consume (Some COLON) ;;
  ret (tok_value ident_token).

Fixpoint parse_block (fuel : nat) : M Block :=
  match fuel with
  | 0 => out_of_fuel
  | S fuel' =>
      consume (Some LBRACKET) ;;
      parameters <- parse_block_header fuel' ;;
      assigns <- parse_assigns fuel' 1 ;;
      consume (Some RBRACKET) ;;
      ret (mkBlock parameters assigns)
  end

(** The loop over the commands of [parse_block]. *)
with parse_assigns (fuel : nat) (order : nat) : M (list Assignment) :=
  match fuel with
  | 0 => out_of_fuel
  | S fuel' =>
      token <- current_token ;;
      match token with
      | None => ret []
      | Some t =>
          if bool_decide (tok_type t ≠ RBRACKET) then
            assign <- parse_assignment fuel' order ;;
            rest <- parse_assigns fuel' (order + 1) ;;
            ret (assign :: rest)
          else ret []
      end
  end

with parse_assignment (fuel : nat) (order : nat) : M Assignment :=
  match fuel with
  | 0 => out_of_fuel
  | S fuel' =>
      var_token <- consume (Some IDENT) ;;
      error_if (mem_string (tok_value var_token)
                  ["class"; "self"; "super"; "nil"; "true"; "false"]) ;;
      consume (Some ASSIGN) ;;
      expr_node <- parse_expr fuel' ;;
      consume (Some DOT) ;;
      ret (mkAssignment (tok_value var_token) (tok_pos var_token) expr_node order)
  end

with parse_expr (fuel : nat) : M expr :=
  match fuel with
  | 0 => out_of_fuel
  | S fuel' =>
      base <- parse_expr_base fuel' ;;
      parse_expr_tail fuel' base
  end

with parse_expr_base (fuel : nat) : M expr :=
  match fuel with
  | 0 => out_of_fuel
  | S fuel' =>
      token <- current_token ;;
      match token with
      | None => error
      | Some t =>
          match tok_type t with
          | LPAREN =>
              consume (Some LPAREN) ;;
              e <- parse_expr fuel' ;;
              consume (Some RPAREN) ;;
              ret e
          | LBRACKET => b <- parse_block fuel' ;; ret (BlockExpr b)
          | NUMBER =>
              token <- consume (Some NUMBER) ;;
              ret (Literal "Integer" (tok_value token) (tok_pos token))
          | STRING =>
              token <- consume (Some STRING) ;;
              ret (Literal "String" (tok_value token) (tok_pos token))
          | IDENT =>
              token <- consume (Some IDENT) ;;
              ident_expr token
          | _ => error
          end
      end
  end

(** The loop of [parse_expr_tail]. *)
with parse_expr_tail (fuel : nat) (base : expr) : M expr :=
  match fuel with
  | 0 => out_of_fuel
  | S fuel' =>
      token <- current_token ;;
      match token with
      | None => ret base
      | Some t =>
          match tok_type t with
          | IDENT =>
              keyword <- next_is COLON ;;
              if keyword then
                base <- _parse_send_tail fuel' base ;;
                parse_expr_tail fuel' base
              else
                token <- consume (Some IDENT) ;;
                parse_expr_tail fuel' (Send (tok_value token) base [] (tok_pos token))
          | COLON =>
              base <- _parse_send_tail fuel' base ;;
              parse_expr_tail fuel' base
          | _ => ret base
          end
      end
  end

with _parse_send_tail (fuel : nat) (base : expr) : M expr :=
  match fuel with
  | 0 => out_of_fuel
  | S fuel' =>
      token <- current_token ;;
      match token with
      | None => lift (Raise AttributeError)
      | Some t =>
          first_parts <-
            (if bool_decide (tok_type t = IDENT) then
               ident <- consume_keyword ;; ret [ident; ":"]
             else
               error_if (bool_decide (tok_type t ≠ COLON)) ;;
               consume (Some COLON) ;;
               ret [":"]) ;;
          arg_expr <- parse_expr_base fuel' ;;
          more <- send_tail_loop fuel' ;;
          let selector_parts := first_parts ++ fst more in
          let args := arg_expr :: snd more in
          let selector := String.concat "" selector_parts in
          base_pos <- lift (expr_pos base) ;;
          ret (Send selector base args base_pos)
      end
  end

(** The loop of [_parse_send_tail] over the further selector parts: the
    parts and the arguments it appends. *)
with send_tail_loop (fuel : nat) : M (list string * list expr) :=
  match fuel with
  | 0 => out_of_fuel
  | S fuel' =>
      is_ident <- current_is IDENT ;;
      keyword <- next_is COLON ;;
      if is_ident && keyword then
        ident <- consume_keyword ;;
        arg_expr <- parse_expr_base fuel' ;;
        more <- send_tail_loop fuel' ;;
        ret (ident :: ":" :: fst more, arg_expr :: snd more)
      else ret ([], [])
  end.

Definition parse_method (fuel : nat) : M Method :=
  selector <- parse_selector fuel ;;
  block <- parse_block fuel ;;
  ret (mkMethod selector block).

(** The loop over the methods of [parse_class]. *)
Fixpoint parse_methods (fuel : nat) : M (list Method) :=
  match fuel with
  | 0 => out_of_fuel
  | S fuel' =>
      token <- current_token ;;
      match token with
      | None => ret []
      | Some t =>
          if bool_decide (tok_type t ≠ RBRACE) then
            method <- parse_method fuel' ;;
            rest <- parse_methods fuel' ;;
            ret (method :: rest)
          else ret []
      end
  end.

(** [not v[0].isupper() or "_" in v] *)
Definition invalid_class_identifier (v : string) : M bool :=
  c <- lift (first_char v) ;;
  ret (negb (char_isupper c) || contains_char "_" v).

Definition parse_class (fuel : nat) : M ClassDef :=
  token <- consume (Some IDENT) ;;
  error_if (negb (String.eqb (tok_value token) "class")) ;;
  class_name_token <- consume (Some IDENT) ;;
  bad <- invalid_class_identifier (tok_value class_name_token) ;;
  error_if bad ;;
  consume (Some COLON) ;;
  parent_token <- consume (Some IDENT) ;;
  bad <- invalid_class_identifier (tok_value parent_token) ;;
  error_if bad ;;
  consume (Some LBRACE) ;;
  methods <- parse_methods fuel ;;
  consume (Some RBRACE) ;;
  ret (mkClassDef (tok_value class_name_token) (tok_value parent_token) methods).

(** The loop over the classes of [parse]. *)
Fixpoint parse_classes (fuel : nat) : M (list ClassDef) :=
  match fuel with
  | 0 => out_of_fuel
  | S fuel' =>
      token <- current_token ;;
      match token with
      | None => ret []
      | Some _ =>
          cls <- parse_class fuel' ;;
          rest <- parse_classes fuel' ;;
          ret (cls :: rest)
      end
  end.

(** [min(comment_tokens, key=lambda t: t.pos)]: the first token of the
    least position. *)
Fixpoint min_by_pos (l : list Token) : option Token :=
  match l with
  | [] => None
  | t :: l' =>
      match min_by_pos l' with
      | Some m => if (tok_pos m <? tok_pos t)%nat then Some m else Some t
      | None => Some t
      end
  end.

(** [s.strip(c)] *)
Fixpoint lstrip (c : ascii) (s : string) : string :=
  match s with
  | "" => ""
  | String d s' => if Ascii.eqb d c then lstrip c s' else s
  end.
Fixpoint rstrip (c : ascii) (s : string) : string :=
  match s with
  | "" => ""
  | String d s' =>
      match rstrip c s' with
      | "" => if Ascii.eqb d c then "" else String d ""
      | r => String d r
      end
  end.
Definition strip (c : ascii) (s : string) : string := rstrip c (lstrip c s).

Definition is_comment (t : Token) : bool := bool_decide (tok_type t = COMMENT).

(** The recursion bound of [parse]: every call below the top level and
    every loop iteration other than the last takes a token first, apart
    from a bounded number of calls. *)
Definition parse_fuel (n : nat) : nat := 4 * n + 8.

Definition parse (toks : list Token) : result Program :=
  let description : option string :=
    (λ first_comment, strip dquote (tok_value first_comment))
      <$> min_by_pos (filter (λ t, is_comment t = true) toks) in
  let toks := filter (λ t, is_comment t = false) toks in
  match parse_classes (parse_fuel (List.length toks)) (mkState toks 0 0) with
  | Ok (classes, _) => Ok (mkProgram classes description)
  | Exit c => Exit c
  | Raise e => Raise e
  | OutOfFuel => OutOfFuel
  end.

End Parser.

(** ** Built-in classes *)

Definition builtin_parents : gmap string (option string) :=
  list_to_map
    [ ("Object", None);
      ("Nil", Some "Object");
      ("Integer", Some "Object");
      ("String", Some "Object");
      ("Block", Some "Object");
      ("True", Some "Object");
      ("False", Some "Object") ].

Definition builtin_methods : gmap string (gset string) :=
  list_to_map
    [ ("Object", list_to_set ["new"; "from:"; "identicalTo:"; "equalTo:"; "asString";
                              "isNumber"; "isString"; "isBlock"; "isNil"]);
      ("Nil", list_to_set ["asString"]);
      ("Integer", list_to_set ["equalTo:"; "greaterThan:"; "plus:"; "minus:";
                               "multiplyBy:"; "divBy:"; "asString"; "asInteger";
                               "timesRepeat:"]);
      ("String", list_to_set ["read"; "print"; "equalTo:"; "asString"; "asInteger";
                              "concatenateWith:"; "startsWith:"; "endsBefore:"]);
      ("Block", list_to_set ["value"; "value:"; "value:value:"]);
      ("True", list_to_set ["not"; "and:"; "or:"; "ifTrue:ifFalse:"]);
      ("False", list_to_set ["not"; "and:"; "or:"; "ifTrue:ifFalse:"]) ].

(** ** Semantic analyzer *)

Module SemanticAnalyzer.

(** The values of the environment of a block. *)
Inductive role : Type := param | local.

Global Instance role_eq_dec : EqDecision role.
Proof. solve_decision. Defined.

(** The fields of the analyzer object.  [class_names] lists the keys of
    [class_map] in the order of their insertion, the order in which a
    Python dictionary is iterated. *)
Record analyzer : Type := mkAnalyzer {
  dynamic_attrs : gmap string (gset string);
  global_classes : gset string;
  class_map : gmap string ClassDef;
  class_names : list string
}.

Definition set_dynamic_attrs (self : analyzer) (d : gmap string (gset string)) : analyzer :=
  mkAnalyzer d (global_classes self) (class_map self) (class_names self).

(** [self.dynamic_attrs[cls_name].add(attr_name)]: a missing key raises. *)
Definition add_dynamic_attr (self : analyzer) (cls_name attr_name : string) : result analyzer :=
  match dynamic_attrs self !! cls_name with
  | Some attrs =>
      Ok (set_dynamic_attrs self (<[cls_name := attrs ∪ {[attr_name]}]> (dynamic_attrs self)))
  | None => Raise KeyError
  end.

(** [isinstance(e, Var) and e.name == "self"] *)
Definition is_self (e : expr) : bool :=
  match e with
  | Var name _ => String.eqb name "self"
  | _ => false
  end.

(** The built-in chain ends at [Object] after one step; the bound is the
    size of the table. *)
Fixpoint lookup_builtin_method_from (fuel : nat) (cls_name selector : string) : result bool :=
  match fuel with
  | 0 => OutOfFuel
  | S fuel' =>
      if bool_decide (selector ∈ default ∅ (builtin_methods !! cls_name)) then Ok true
      else
        match default None (builtin_parents !! cls_name) with
        | Some parent => lookup_builtin_method_from fuel' parent selector
        | None => Ok false
        end
  end.

Definition lookup_builtin_method (cls_name selector : string) : result bool :=
  lookup_builtin_method_from (S (size builtin_parents)) cls_name selector.

(** [any(m.selector == selector for m in methods)] *)
Definition has_method (methods : list Method) (selector : string) : bool :=
  existsb (λ m, String.eqb (m_selector m) selector) methods.

Fixpoint lookup_method_from (fuel : nat) (self : analyzer) (cls_name selector : string)
  : result bool :=
  match fuel with
  | 0 => OutOfFuel
  | S fuel' =>
      match class_map self !! cls_name with
      | Some cls_node =>
          if has_method (cls_methods cls_node) selector then Ok true
          else
            let parent := cls_parent cls_node in
            if bool_decide (is_Some (class_map self !! parent)) then
              lookup_method_from fuel' self parent selector
            else lookup_builtin_method parent selector
      | None => lookup_builtin_method cls_name selector
      end
  end.

(** The hierarchy has no cycle when the method is called, so the chain
    of user-defined classes is no longer than their number. *)
Definition lookup_method (self : analyzer) (cls_name selector : string) : result bool :=
  lookup_method_from (S (size (class_map self))) self cls_name selector.

(** [_dfs_check] returns its answer and the dictionary [visited] it
    updates. *)
Fixpoint _dfs_check (fuel : nat) (self : analyzer) (cls_name : string)
    (visited : gmap string nat) : result (bool * gmap string nat) :=
  match fuel with
  | 0 => OutOfFuel
  | S fuel' =>
      let visited := <[cls_name := 1]> visited in
      match class_map self !! cls_name with
      | None => Raise KeyError
      | Some cls =>
          let parent := cls_parent cls in
          if bool_decide (is_Some (class_map self !! parent)) then
            let state := default 0 (visited !! parent) in
            if (state =? 1)%nat then Ok (true, visited)
            else if (state =? 0)%nat then
              r <- _dfs_check fuel' self parent visited ;;
              if fst r then Ok (true, snd r)
              else Ok (false, <[cls_name := 2]> (snd r))
            else Ok (false, <[cls_name := 2]> visited)
          else Ok (false, <[cls_name := 2]> visited)
      end
  end.

(** The loop of [check_circular_inheritance] over the keys of
    [class_map]. *)
Fixpoint check_circular_loop (self : analyzer) (names : list string)
    (visited : gmap string nat) : result unit :=
  match names with
  | [] => Ok tt
  | cls_name :: names' =>
      if (default 0 (visited !! cls_name) =? 0)%nat then
        r <- _dfs_check (S (size (class_map self))) self cls_name visited ;;
        if fst r then error_exit ERR_SEMANTIC_OTHER
        else check_circular_loop self names' (snd r)
      else check_circular_loop self names' visited
  end.

Definition check_circular_inheritance (self : analyzer) : result unit :=
  check_circular_loop self (class_names self) ∅.

Fixpoint collect_dynamic_attributes_expr (self : analyzer) (e : expr)
    (current_class : ClassDef) {struct e} : result analyzer :=
  match e with
  | Send selector target args _ =>
      self <- (if is_self target && endswith colon selector
               then add_dynamic_attr self (cls_name current_class) (drop_last selector)
               else Ok self) ;;
      self <- collect_dynamic_attributes_expr self target current_class ;;
      (fix for_args (self : analyzer) (args : list expr) {struct args} : result analyzer :=
         match args with
         | [] => Ok self
         | arg :: args' =>
             self <- collect_dynamic_attributes_expr self arg current_class ;;
             for_args self args'
         end) self args
  | BlockExpr b => collect_dynamic_attributes self b current_class
  | Var _ _ => Ok self
  | Literal _ _ _ => Ok self
  end

with collect_dynamic_attributes (self : analyzer) (block : Block)
    (current_class : ClassDef) {struct block} : result analyzer :=
  match block with
  | mkBlock _ assigns =>
      (fix for_assigns (self : analyzer) (assigns : list Assignment) {struct assigns}
         : result analyzer :=
         match assigns with
         | [] => Ok self
         | assign :: assigns' =>
             self <- collect_dynamic_attributes_assign self assign current_class ;;
             for_assigns self assigns'
         end) self assigns
  end

(** The body of the loop of [collect_dynamic_attributes]. *)
with collect_dynamic_attributes_assign (self : analyzer) (assign : Assignment)
    (current_class : ClassDef) {struct assign} : result analyzer :=
  match assign with
  | mkAssignment _ _ e _ => collect_dynamic_attributes_expr self e current_class
  end.

Fixpoint collect_class_dynamic_attributes_loop (self : analyzer) (methods : list Method)
    (cls : ClassDef) : result analyzer :=
  match methods with
  | [] => Ok self
  | method :: methods' =>
      self <- collect_dynamic_attributes self (m_block method) cls ;;
      collect_class_dynamic_attributes_loop self methods' cls
  end.

Definition collect_class_dynamic_attributes (self : analyzer) (cls : ClassDef)
  : result analyzer :=
  collect_class_dynamic_attributes_loop self (cls_methods cls) cls.

(** The first method of the class with the selector, the search loop of
    the self-send case. *)
Definition find_method (methods : list Method) (selector : string) : option Method :=
  List.find (λ m, String.eqb (m_selector m) selector) methods.

(** [e.name[0].isupper()] for a [Var], as the conditions on the target
    of a send read it. *)
Definition var_isupper (name : string) : result bool :=
  c <- first_char name ;; Ok (char_isupper c).

(** [if not self.lookup_method(cls_name, selector): error_exit(...)] *)
Definition require_method (self : analyzer) (cls_name selector : string) : result unit :=
  found <- lookup_method self cls_name selector ;;
  if found then Ok tt else error_exit ERR_UNDEFINED_VAR.

(** The special handling of a message sent to [self]. *)
Definition analyze_self_send (self : analyzer) (selector : string) (nargs : nat)
    (current_class : ClassDef) : result analyzer :=
  match find_method (cls_methods current_class) selector with
  | Some method_found =>
      let expected_arity := List.length (parameters (m_block method_found)) in
      if bool_decide (expected_arity ≠ nargs) then error_exit ERR_ARITY else Ok self
  | None =>
      if endswith colon selector then
        if bool_decide (nargs ≠ 1) then error_exit ERR_ARITY
        else add_dynamic_attr self (cls_name current_class) (drop_last selector)
      else
        if bool_decide (nargs ≠ 0) then error_exit ERR_ARITY
        else
          match dynamic_attrs self !! cls_name current_class with
          | None => Raise KeyError
          | Some attrs =>
              if bool_decide (selector ∉ attrs) then error_exit ERR_UNDEFINED_VAR
              else Ok self
          end
  end.

Fixpoint analyze_expr (self : analyzer) (e : expr) (env : gmap string role)
    (current_class : ClassDef) {struct e} : result analyzer :=
  match e with
  | Var name _ =>
      if bool_decide (is_Some (env !! name)) then Ok self
      else
        upper <- var_isupper name ;;
        if upper then
          if bool_decide (name ∉ global_classes self) then error_exit ERR_UNDEFINED_VAR
          else Ok self
        else error_exit ERR_UNDEFINED_VAR
  | Literal literal_class value _ =>
      if String.eqb literal_class "class"
         && bool_decide (value ∉ global_classes self)
         && bool_decide (builtin_methods !! value = None)
      then error_exit ERR_UNDEFINED_VAR
      else Ok self
  | BlockExpr _ => Ok self
  | Send selector target args _ =>
      (if mem_string selector reserved then error_exit ERR_SYNTACTIC else Ok tt) ;;
      self <- analyze_expr self target env current_class ;;
      self <- (fix for_args (self : analyzer) (args : list expr) {struct args}
                 : result analyzer :=
                 match args with
                 | [] => Ok self
                 | arg :: args' =>
                     self <- analyze_expr self arg env current_class ;;
                     for_args self args'
                 end) self args ;;
      self <- (if is_self target
               then analyze_self_send self selector (List.length args) current_class
               else Ok self) ;;
      match target with
      | Literal literal_class cls_name _ =>
          (if String.eqb literal_class "class"
           then require_method self cls_name selector else Ok tt) ;;
          Ok self
      | Var cls_name _ =>
          upper <- var_isupper cls_name ;;
          (if upper then require_method self cls_name selector else Ok tt) ;;
          Ok self
      | _ => Ok self
      end
  end.

(** The check for duplicate formal parameters. *)
Fixpoint check_params (params : list Param) (seen_params : gset string) : result unit :=
  match params with
  | [] => Ok tt
  | p :: params' =>
      if bool_decide (param_name p ∈ seen_params) then error_exit ERR_SEMANTIC_OTHER
      else check_params params' (seen_params ∪ {[param_name p]})
  end.

(** [{param.name: "param" for param in block.parameters}] *)
Definition params_env (params : list Param) : gmap string role :=
  foldl (λ env p, <[param_name p := param]> env) ∅ params.

(** The loop of [analyze_block] over the assignments. *)
Fixpoint analyze_assigns (self : analyzer) (assigns : list Assignment)
    (env : gmap string role) (current_class : ClassDef) : result analyzer :=
  match assigns with
  | [] => Ok self
  | assign :: assigns' =>
      if bool_decide (env !! assign_var assign = Some param)
      then error_exit ERR_VAR_COLLISION
      else
        self <- analyze_expr self (assign_expr assign) env current_class ;;
        let env :=
          if bool_decide (is_Some (env !! assign_var assign)) then env
          else <[assign_var assign := local]> env in
        analyze_assigns self assigns' env current_class
  end.

Definition analyze_block (self : analyzer) (block : Block) (current_class : ClassDef)
  : result analyzer :=
  check_params (parameters block) ∅ ;;
  let env := <["self" := param]> (params_env (parameters block)) in
  self <- collect_dynamic_attributes self block current_class ;;
  analyze_assigns self (assigns block) env current_class.

(** The first loop of [analyze]: the dictionary [seen] and the order of
    its keys. *)
Fixpoint check_duplicate_classes (classes : list ClassDef)
    (seen : gmap string ClassDef) (order : list string)
  : result (gmap string ClassDef * list string) :=
  match classes with
  | [] => Ok (seen, order)
  | cls :: classes' =>
      if bool_decide (is_Some (seen !! cls_name cls)) then error_exit ERR_SEMANTIC_OTHER
      else check_duplicate_classes classes' (<[cls_name cls := cls]> seen)
                                   (order ++ [cls_name cls])
  end.

Fixpoint check_duplicate_methods_in (methods : list Method) (seen_methods : gset string)
  : result unit :=
  match methods with
  | [] => Ok tt
  | method :: methods' =>
      if bool_decide (m_selector method ∈ seen_methods) then error_exit ERR_SEMANTIC_OTHER
      else check_duplicate_methods_in methods' (seen_methods ∪ {[m_selector method]})
  end.

Fixpoint check_duplicate_methods (classes : list ClassDef) : result unit :=
  match classes with
  | [] => Ok tt
  | cls :: classes' =>
      check_duplicate_methods_in (cls_methods cls) ∅ ;;
      check_duplicate_methods classes'
  end.

(** The inner loop of the check for [Main]: [main_found] after it. *)
Fixpoint find_run (methods : list Method) (main_found : bool) : result bool :=
  match methods with
  | [] => Ok main_found
  | method :: methods' =>
      if String.eqb (m_selector method) "run" then
        if bool_decide (List.length (parameters (m_block method)) ≠ 0)
        then error_exit ERR_ARITY
        else find_run methods' true
      else find_run methods' main_found
  end.

Fixpoint find_main (classes : list ClassDef) (main_found : bool) : result bool :=
  match classes with
  | [] => Ok main_found
  | cls :: classes' =>
      if String.eqb (cls_name cls) "Main" then
        main_found <- find_run (cls_methods cls) main_found ;;
        find_main classes' main_found
      else find_main classes' main_found
  end.

Definition builtin_classes : gset string :=
  list_to_set ["Object"; "Integer"; "String"; "Nil"; "True"; "False"; "Block"].

Fixpoint check_parents (self : analyzer) (classes : list ClassDef) : result unit :=
  match classes with
  | [] => Ok tt
  | cls :: classes' =>
      if negb (String.eqb (cls_parent cls) "Object")
         && bool_decide (cls_parent cls ∉ global_classes self)
         && bool_decide (cls_parent cls ∉ builtin_classes)
      then error_exit ERR_UNDEFINED_VAR
      else check_parents self classes'
  end.

(** [for cls in program.classes: self.dynamic_attrs[cls.name] = set()] *)
Definition init_dynamic_attrs (self : analyzer) (classes : list ClassDef) : analyzer :=
  set_dynamic_attrs self
    (foldl (λ d cls, <[cls_name cls := ∅]> d) (dynamic_attrs self) classes).

Fixpoint collect_all (self : analyzer) (classes : list ClassDef) : result analyzer :=
  match classes with
  | [] => Ok self
  | cls :: classes' =>
      self <- collect_class_dynamic_attributes self cls ;;
      collect_all self classes'
  end.

Fixpoint analyze_methods (self : analyzer) (methods : list Method) (cls : ClassDef)
  : result analyzer :=
  match methods with
  | [] => Ok self
  | method :: methods' =>
      self <- analyze_block self (m_block method) cls ;;
      analyze_methods self methods' cls
  end.

Fixpoint analyze_classes (self : analyzer) (classes : list ClassDef) : result analyzer :=
  match classes with
  | [] => Ok self
  | cls :: classes' =>
      self <- analyze_methods self (cls_methods cls) cls ;;
      analyze_classes self classes'
  end.

(** The analyzer after the constructor and the first checks of
    [analyze], when [seen] is stored. *)
Definition with_classes (seen : gmap string ClassDef) (order : list string) : analyzer :=
  mkAnalyzer ∅ (dom seen) seen order.

(** The dynamic-attribute harvest of [analyze]: the tables are set up
    and every method of every class is traversed once. *)
Definition harvest (self : analyzer) (program : Program) : result analyzer :=
  collect_all (init_dynamic_attrs self (classes program)) (classes program).

Definition analyze (program : Program) : result analyzer :=
  seen <- check_duplicate_classes (classes program) ∅ [] ;;
  check_duplicate_methods (classes program) ;;
  main_found <- find_main (classes program) false ;;
  (if main_found then Ok tt else error_exit ERR_MISSING_MAIN) ;;
  let self := with_classes (fst seen) (snd seen) in
  check_parents self (classes program) ;;
  check_circular_inheritance self ;;
  self <- harvest self program ;;
  analyze_classes self (classes program).

End SemanticAnalyzer.

(** ** XML generation *)

(** [s.replace(old, new)] for a non-empty [old]: the occurrences are
    taken from the left and do not overlap.  [skip] counts the
    characters of an occurrence still to pass. *)
Fixpoint replace_from (old new : string) (skip : nat) (s : string) : string :=
  match s with
  | "" => ""
  | String c s' =>
      match skip with
      | S k => replace_from old new k s'
      | 0 =>
          if startswith old s
          then new +:+ replace_from old new (String.length old - 1) s'
          else String c (replace_from old new 0 s')
      end
  end.

Definition replace (old new s : string) : string := replace_from old new 0 s.

Definition str_of_char (c : ascii) : string := String c "".

(** An element of [xml.etree.ElementTree]: tag, attributes in the order
    of their insertion, children.  No element of this program has text. *)
Inductive Element : Type :=
| mkElement (tag : string) (attrib : list (string * string)) (children : list Element).

(** [_escape_attrib] of ElementTree. *)
Definition escape_attrib (text : string) : string :=
  let text := replace "&" "&amp;" text in
  let text := replace "<" "&lt;" text in
  let text := replace ">" "&gt;" text in
  let text := replace (str_of_char dquote) "&quot;" text in
  let text := replace (str_of_char (ascii_of_nat 13)) "&#13;" text in
  let text := replace (str_of_char newline) "&#10;" text in
  let text := replace (str_of_char (ascii_of_nat 9)) "&#09;" text in
  text.

Definition serialize_attrib (kv : string * string) : string :=
  " " +:+ fst kv +:+ "=" +:+ str_of_char dquote +:+ escape_attrib (snd kv)
  +:+ str_of_char dquote.

(** [ET.tostring(root, encoding="utf-8").decode("utf-8")]: no
    declaration, and an element without children is written in the
    short form. *)
Fixpoint tostring (elem : Element) : string :=
  match elem with
  | mkElement tag attrib children =>
      let start := "<" +:+ tag +:+ String.concat "" (map serialize_attrib attrib) in
      match children with
      | [] => start +:+ " />"
      | _ =>
          start +:+ ">"
          +:+ (fix for_children (l : list Element) : string :=
                 match l with
                 | [] => ""
                 | child :: l' => tostring child +:+ for_children l'
                 end) children
          +:+ "</" +:+ tag +:+ ">"
      end
  end.

(** [sorted(l, key=...)]: a stable sort. *)
Section Sorted.
Context {A : Type} (key : A → nat).

Fixpoint insert_sorted (x : A) (l : list A) : list A :=
  match l with
  | [] => [x]
  | y :: l' => if (key y <=? key x)%nat then y :: insert_sorted x l' else x :: l
  end.

Definition sorted (l : list A) : list A :=
  foldl (λ acc x, insert_sorted x acc) [] l.

End Sorted.

(** [str(n)] *)
Definition str (n : nat) : string := pretty n.

(** The value attribute of a literal, as [generate_xml_expr] sets it. *)
Definition literal_value (literal_class value : string) : string :=
  if String.eqb literal_class "String" then
    let value := replace (str_of_char squote) "&apos;" value in
    replace (str_of_char backslash) (String backslash (String backslash "")) value
  else value.

(** [generate_xml_expr] appends to its parent; here it returns the
    element it appends.  The assignments are sorted by their order after
    their elements are built: the sort is stable and reads the key only,
    so it commutes with building the elements. *)
Fixpoint generate_xml_expr (e : expr) {struct e} : Element :=
  match e with
  | Literal literal_class value _ =>
      mkElement "literal"
        [("class", literal_class); ("value", literal_value literal_class value)] []
  | Var name _ => mkElement "var" [("name", name)] []
  | BlockExpr b => generate_xml_block b
  | Send selector target args _ =>
      mkElement "send" [("selector", selector)]
        (mkElement "expr" [] [generate_xml_expr target]
         :: (fix for_args (index : nat) (args : list expr) {struct args} : list Element :=
               match args with
               | [] => []
               | arg_expr :: args' =>
                   mkElement "arg" [("order", str index)]
                     [mkElement "expr" [] [generate_xml_expr arg_expr]]
                   :: for_args (index + 1) args'
               end) 1 args)
  end

with generate_xml_block (block : Block) {struct block} : Element :=
  match block with
  | mkBlock parameters assigns =>
      mkElement "block" [("arity", str (List.length parameters))]
        (map (λ p, mkElement "parameter"
                     [("name", param_name p); ("order", str (param_order p))] [])
             (sorted param_order parameters)
         ++ map snd (sorted fst
              ((fix for_assigns (assigns : list Assignment) {struct assigns}
                  : list (nat * Element) :=
                  match assigns with
                  | [] => []
                  | assign :: assigns' =>
                      (assign_order assign, generate_xml_assign assign)
                      :: for_assigns assigns'
                  end) assigns)))
  end

with generate_xml_assign (assign : Assignment) {struct assign} : Element :=
  match assign with
  | mkAssignment var_name _ e order =>
      mkElement "assign" [("order", str order)]
        [mkElement "var" [("name", var_name)] [];
         mkElement "expr" [] [generate_xml_expr e]]
  end.

Definition generate_xml_method (method : Method) : Element :=
  mkElement "method" [("selector", m_selector method)]
    [generate_xml_block (m_block method)].

Definition generate_xml_class (cls : ClassDef) : Element :=
  mkElement "class" [("name", cls_name cls); ("parent", cls_parent cls)]
    (map generate_xml_method (cls_methods cls)).

(** [\w] of a Python 3 [str] pattern. *)
Definition is_word (c : ascii) : bool :=
  is_ident_char c || (ord c =? 170)%nat || (ord c =? 178)%nat || (ord c =? 179)%nat
  || (ord c =? 181)%nat || in_range 185 186 c || in_range 188 190 c
  || in_range 192 214 c || in_range 216 246 c || in_range 248 255 c.

(** Groups 2 and 3 of the pattern: the text before the next double
    quote and the text after that quote. *)
Fixpoint until_dquote (s : string) : option (string * string) :=
  match s with
  | "" => None
  | String c s' =>
      if Ascii.eqb c dquote then Some ("", s')
      else Lexer.cons_match c <$> until_dquote s'
  end.

Definition value_eq : string := "value=" +:+ str_of_char dquote.

(** A whitespace character, [value=] and a quoted value at the start of
    the text: the text up to and with the opening quote, the value, the
    text after the closing quote. *)
Definition value_here (t : string) : option (string * string * string) :=
  match t with
  | "" => None
  | String c t' =>
      if is_space c then
        match Lexer.re_lit value_eq t' with
        | Some (_, r) =>
            match until_dquote r with
            | Some (v, rest) => Some (String c value_eq, v, rest)
            | None => None
            end
        | None => None
        end
      else None
  end.

(** The pattern after its first eight characters, at the start of the
    text.  The repetition [[^>]*] is greedy: the longest run of
    characters other than [>] is tried first, so the match that starts
    latest wins. *)
Fixpoint find_value (t : string) : option (string * string * string) :=
  match t with
  | "" => None
  | String c t' =>
      if Ascii.eqb c ">" then None
      else
        match find_value t' with
        | Some (p, v, rest) => Some (String c p, v, rest)
        | None => value_here t
        end
  end.

(** The pattern of [replace_in_literals] at the start of the text:
    groups 1 and 2 and the text after group 3. *)
Definition match_literal (s : string) : option (string * string * string) :=
  match Lexer.re_lit "<literal" s with
  | Some (_, t) =>
      match t with
      | String c _ =>
          if is_word c then None
          else
            match find_value t with
            | Some (p, v, rest) => Some ("<literal" +:+ p, v, rest)
            | None => None
            end
      | "" => None
      end
  | None => None
  end.

Definition replacer (value : string) : string :=
  replace "&#10;" (String backslash "n")
    (replace "&amp;apos;" (String backslash "&apos;") value).

(** [pattern.sub(replacer, xml_str)]: the matches are taken from the
    left and do not overlap.  [skip] counts the characters of a match
    still to pass. *)
Fixpoint sub_literals (skip : nat) (s : string) : string :=
  match s with
  | "" => ""
  | String c s' =>
      match skip with
      | S k => sub_literals k s'
      | 0 =>
          match match_literal s with
          | Some (prefix, value, rest) =>
              prefix +:+ replacer value +:+ str_of_char dquote
              +:+ sub_literals (String.length s' - String.length rest) s'
          | None => String c (sub_literals 0 s')
          end
      end
  end.

Definition replace_in_literals (xml_str : string) : string := sub_literals 0 xml_str.

Definition xml_declaration : string :=
  "<?xml version=" +:+ str_of_char dquote +:+ "1.0" +:+ str_of_char dquote
  +:+ " encoding=" +:+ str_of_char dquote +:+ "UTF-8" +:+ str_of_char dquote
  +:+ "?>" +:+ str_of_char newline.

Definition generate_xml (program : Program) : string :=
  let attrib :=
    match description program with
    | Some (String c d) =>
        [("language", "SOL25"); ("description", replace " " "&nbsp;" (String c d))]
    | _ => [("language", "SOL25")]
    end in
  let root := mkElement "program" attrib (map generate_xml_class (classes program)) in
  xml_declaration +:+ replace_in_literals (tostring root).

(** ** The program *)

(** The pipeline of [main] after the arguments are checked: the text
    printed on success. *)
Definition run (code : string) : result string :=
  tokens <- Lexer.tokenize code ;;
  ast <- Parser.parse tokens ;;
  SemanticAnalyzer.analyze ast ;;
  Ok (replace "&amp;nbsp;" " " (generate_xml ast)).

Definition usage : string :=
  "Usage: parse.py [--help]" +:+ str_of_char newline
  +:+ "The script analyzes SOL25 source code, performs lexical, syntactic and semantic analysis,"
  +:+ str_of_char newline
  +:+ "and then outputs an XML representation of the abstract syntax tree.".

(** [main]: [argv] is [sys.argv] and [stdin] the text of the standard
    input; the result is the text handed to [print]. *)
Definition main (argv : list string) (stdin : string) : result string :=
  match argv with
  | [_; a] =>
      if mem_string a ["-h"; "--help"] then Ok usage
      else error_exit ERR_MISSING_PARAM
  | [_] => run stdin
  | _ => error_exit ERR_MISSING_PARAM
  end.

(** The exit status of the process: an uncaught exception ends it with
    status 1. *)
Definition exit_code {A : Type} (r : result A) : option nat :=
  match r with
  | Ok _ => Some 0
  | Exit c => Some c
  | Raise _ => Some 1
  | OutOfFuel => None
  end.

(** ** The expressions of a tree *)

(** Every expression node below an expression, the expression itself
    first; the nodes inside block literals are among them. *)
Fixpoint expr_nodes (e : expr) {struct e} : list expr :=
  e :: match e with
       | Send _ target args _ =>
           expr_nodes target
           ++ (fix for_args (args : list expr) {struct args} : list expr :=
                 match args with
                 | [] => []
                 | arg :: args' => expr_nodes arg ++ for_args args'
                 end) args
       | BlockExpr b => block_nodes b
       | Var _ _ => []
       | Literal _ _ _ => []
       end

with block_nodes (block : Block) {struct block} : list expr :=
  match block with
  | mkBlock _ assigns =>
      (fix for_assigns (assigns : list Assignment) {struct assigns} : list expr :=
         match assigns with
         | [] => []
         | assign :: assigns' => assign_nodes assign ++ for_assigns assigns'
         end) assigns
  end

with assign_nodes (assign : Assignment) {struct assign} : list expr :=
  match assign with
  | mkAssignment _ _ e _ => expr_nodes e
  end.

Definition method_nodes (m : Method) : list expr := block_nodes (m_block m).
Definition class_nodes (cls : ClassDef) : list expr := flat_map method_nodes (cls_methods cls).
Definition program_nodes (p : Program) : list expr := flat_map class_nodes (classes p).

(** The expression nodes the second traversal of the analyzer visits:
    [analyze_expr] descends into the target and the arguments of a send
    and stops at a block literal. *)
Fixpoint visited_nodes (e : expr) {struct e} : list expr :=
  e :: match e with
       | Send _ target args _ =>
           visited_nodes target
           ++ (fix for_args (args : list expr) {struct args} : list expr :=
                 match args with
                 | [] => []
                 | arg :: args' => visited_nodes arg ++ for_args args'
                 end) args
       | _ => []
       end.

Definition method_visited_nodes (m : Method) : list expr :=
  flat_map (λ a, visited_nodes (assign_expr a)) (assigns (m_block m)).
Definition class_visited_nodes (cls : ClassDef) : list expr :=
  flat_map method_visited_nodes (cls_methods cls).

(** A message sent to [self] with the given selector. *)
Definition is_self_send (selector : string) (e : expr) : bool :=
  match e with
  | Send s target _ _ => SemanticAnalyzer.is_self target && String.eqb s selector
  | _ => false
  end.

(** The front of [main]: the tree the parser returns for a source text. *)
Definition parse_source (code : string) : result Program :=
  tokens <- Lexer.tokenize code ;;
  Parser.parse tokens.

(** The whole pipeline accepts the source text: the process prints the
    XML document and ends with status 0. *)
Definition accepted (code : string) : bool :=
  match run code with
  | Ok _ => true
  | _ => false
  end.

(** A double-quoted text. *)
Definition q (s : string) : string := str_of_char dquote +:+ s +:+ str_of_char dquote.

(** Every character of the text is of the class. *)
Fixpoint all_chars (p : ascii → bool) (s : string) : bool :=
  match s with
  | "" => true
  | String c s' => p c && all_chars p s'
  end.

(** The text holds no whitespace character. *)
Definition no_whitespace (code : string) : bool :=
  all_chars (λ c, negb (is_space c)) code.

(** No token of the list has the type. *)
Definition no_token_of (ty : token_type) (toks : list Token) : bool :=
  forallb (λ t, bool_decide (tok_type t ≠ ty)) toks.

(** The values of the tokens, concatenated in order. *)
Definition concat_values (toks : list Token) : string :=
  String.concat "" (map tok_value toks).

(** The claim of C6 at one source text. *)
Definition lexer_round_trip (code : string) : Prop :=
  ∀ toks, Lexer.tokenize code = Ok toks →
    no_whitespace code = true → no_token_of COMMENT toks = true →
    concat_values toks = code.

(** The value of an identifier token holds no colon. *)
Definition ident_ok (t : Token) : Prop :=
  tok_type t = IDENT → count_char colon (tok_value t) = 0.

(** A send has as many arguments as its selector has colons. *)
Definition send_arity_ok (e : expr) : Prop :=
  match e with
  | Send selector _ args _ => List.length args = count_char colon selector
  | _ => True
  end.

(** The position of a send is the position of its target. *)
Definition send_pos_of_target (e : expr) : Prop :=
  match e with
  | Send _ target _ pos => expr_pos target = Ok pos
  | _ => True
  end.

(** The same for the sends with arguments, the keyword sends. *)
Definition keyword_send_pos_of_target (e : expr) : Prop :=
  match e with
  | Send _ target (_ :: _) pos => expr_pos target = Ok pos
  | _ => True
  end.

(** The position of a send without arguments, a unary send, is the
    position of an identifier token that spells its selector. *)
Definition unary_send_pos_of_selector (toks : list Token) (e : expr) : Prop :=
  match e with
  | Send selector _ [] pos =>
      ∃ t, t ∈ toks ∧ tok_type t = IDENT ∧ tok_value t = selector ∧ tok_pos t = pos
  | _ => True
  end.

(** What the parser guarantees of every node it builds. *)
Definition node_ok (toks : list Token) (e : expr) : Prop :=
  send_arity_ok e ∧ keyword_send_pos_of_target e ∧ unary_send_pos_of_selector toks e.

(** The claim of C4 at one source text. *)
Definition sends_at_target_pos (code : string) : Prop :=
  ∀ ast, parse_source code = Ok ast → Forall send_pos_of_target (program_nodes ast).

(** A variable or a literal. *)
Definition leaf (e : expr) : Prop :=
  match e with
  | Var _ _ | Literal _ _ _ => True
  | _ => False
  end.

(** The colons of the parts of a selector. *)
Definition count_parts (parts : list string) : nat :=
  sum_list_with (count_char colon) parts.

(** What the expression parsers keep: the token list is the same after
    a call, and every node of the result is as [node_ok] says. *)
Definition keeps (toks : list Token) {A : Type} (nodes : A → list expr)
    (m : Parser.M A) : Prop :=
  ∀ st a st', m st = Ok (a, st') → Parser.tokens st = toks →
    Parser.tokens st' = toks ∧ Forall (node_ok toks) (nodes a).

(** A recogniser splits the text it is given. *)
Definition splits (re : Lexer.recogniser) : Prop :=
  ∀ s v r, re s = Some (v, r) → s = v +:+ r.

(** The claim of C3 at one source text: in the tree of an accepted
    program every method has as many parameters as its selector has
    colons. *)
Definition colons_match_parameters (code : string) : Prop :=
  ∀ ast, parse_source code = Ok ast → accepted code = true →
    ∀ C m, C ∈ classes ast → m ∈ cls_methods C →
      count_char colon (m_selector m) = List.length (parameters (m_block m)).

(** ** Dynamic attributes *)

(** The attribute a node registers in the harvest: the selector without
    its last character, for a message sent to [self] whose selector ends
    with a colon. *)
Definition registers (e : expr) : option string :=
  match e with
  | Send selector target _ _ =>
      if SemanticAnalyzer.is_self target && endswith colon selector
      then Some (drop_last selector) else None
  | _ => None
  end.

(** The attributes the nodes of a list register. *)
Definition names (nodes : list expr) : gset string :=
  list_to_set (omap registers nodes).

(** The analyzer after the attributes [N] are added to the set of the
    class [k], when the class has a set. *)
Definition bump (self : SemanticAnalyzer.analyzer) (k : string) (N : gset string)
  : SemanticAnalyzer.analyzer :=
  SemanticAnalyzer.set_dynamic_attrs self
    (match SemanticAnalyzer.dynamic_attrs self !! k with
     | Some attrs => <[k := attrs ∪ N]> (SemanticAnalyzer.dynamic_attrs self)
     | None => SemanticAnalyzer.dynamic_attrs self
     end).

(** The loops of the two traversals, named. *)
Definition collect_args (current_class : ClassDef) :=
  fix for_args (self : SemanticAnalyzer.analyzer) (args : list expr) {struct args}
    : result SemanticAnalyzer.analyzer :=
    match args with
    | [] => Ok self
    | arg :: args' =>
        self <- SemanticAnalyzer.collect_dynamic_attributes_expr self arg current_class ;;
        for_args self args'
    end.

Definition collect_assigns (current_class : ClassDef) :=
  fix for_assigns (self : SemanticAnalyzer.analyzer) (assigns : list Assignment)
    {struct assigns} : result SemanticAnalyzer.analyzer :=
    match assigns with
    | [] => Ok self
    | assign :: assigns' =>
        self <- SemanticAnalyzer.collect_dynamic_attributes_assign self assign current_class ;;
        for_assigns self assigns'
    end.

Definition analyze_args (env : gmap string SemanticAnalyzer.role) (current_class : ClassDef) :=
  fix for_args (self : SemanticAnalyzer.analyzer) (args : list expr) {struct args}
    : result SemanticAnalyzer.analyzer :=
    match args with
    | [] => Ok self
    | arg :: args' =>
        self <- SemanticAnalyzer.analyze_expr self arg env current_class ;;
        for_args self args'
    end.

(** The attributes the classes of the name [k] register. *)
Definition class_attrs (cs : list ClassDef) (k : string) : gset string :=
  ⋃ (map (λ C, if bool_decide (cls_name C = k) then names (class_nodes C) else ∅) cs).

(** [analyze] up to the harvest: the analyzer when the analysis of the
    blocks starts. *)
Definition prepare (program : Program) : result SemanticAnalyzer.analyzer :=
  seen <- SemanticAnalyzer.check_duplicate_classes (classes program) ∅ [] ;;
  SemanticAnalyzer.check_duplicate_methods (classes program) ;;
  main_found <- SemanticAnalyzer.find_main (classes program) false ;;
  (if main_found then Ok tt else error_exit ERR_MISSING_MAIN) ;;
  let self := SemanticAnalyzer.with_classes (fst seen) (snd seen) in
  SemanticAnalyzer.check_parents self (classes program) ;;
  SemanticAnalyzer.check_circular_inheritance self ;;
  SemanticAnalyzer.harvest self program.

(** What the second traversal has checked of a node it visited. *)
Definition node_checked (self : SemanticAnalyzer.analyzer) (C : ClassDef) (e : expr) : Prop :=
  match e with
  | Send selector target args _ =>
      SemanticAnalyzer.is_self target = true →
      SemanticAnalyzer.find_method (cls_methods C) selector = None →
      if endswith colon selector then List.length args = 1
      else List.length args = 0
           ∧ ∃ attrs, SemanticAnalyzer.dynamic_attrs self !! cls_name C = Some attrs
                      ∧ selector ∈ attrs
  | _ => True
  end.

(** The value of a successful computation, or a default. *)
Definition ok_or {A : Type} (d : A) (r : result A) : A :=
  match r with
  | Ok a => a
  | _ => d
  end.

(** The claim of C1 at one source text: an attribute is registered for a
    message to [self] only when its selector has exactly one colon. *)
Definition registers_single_colon_only (code : string) : Prop :=
  ∀ ast self, parse_source code = Ok ast → SemanticAnalyzer.analyze ast = Ok self →
    ∀ C selector target args pos attrs,
      C ∈ classes ast → Send selector target args pos ∈ class_nodes C →
      SemanticAnalyzer.is_self target = true → endswith colon selector = true →
      SemanticAnalyzer.dynamic_attrs self !! cls_name C = Some attrs →
      drop_last selector ∈ attrs →
      count_char colon selector = 1.

(** Some method of the class holds a message to [self] with the
    selector. *)
Definition sends_to_self (C : ClassDef) (selector : string) : Prop :=
  ∃ target args pos, Send selector target args pos ∈ class_nodes C
                     ∧ SemanticAnalyzer.is_self target = true.

(** Some method of the class holds a setter [self x: e]. *)
Definition has_setter (C : ClassDef) (x : string) : Prop :=
  ∃ target arg pos, Send (x +:+ ":") target [arg] pos ∈ class_nodes C
                    ∧ SemanticAnalyzer.is_self target = true.

(** The claim of C2 at one source text.  A getter is accepted when its
    analysis, in the analyzer of the second traversal, succeeds. *)
Definition dynamic_attribute_law (code : string) : Prop :=
  ∀ ast self, parse_source code = Ok ast → prepare ast = Ok self →
    ∀ C x target pos env,
      C ∈ classes ast → Send x target [] pos ∈ class_nodes C →
      SemanticAnalyzer.is_self target = true →
      env !! "self" = Some SemanticAnalyzer.param →
      (has_setter C x →
         SemanticAnalyzer.analyze_expr self (Send x target [] pos) env C = Ok self)
      ∧ (¬ has_setter C x → SemanticAnalyzer.has_method (cls_methods C) x = false →
         SemanticAnalyzer.analyze_expr self (Send x target [] pos) env C
         = Exit ERR_UNDEFINED_VAR).

(** ** The value attribute of a literal *)

(** The text in which every character is replaced by a text. *)
Fixpoint string_bind (f : ascii → string) (s : string) : string :=
  match s with
  | "" => ""
  | String c s' => f c +:+ string_bind f s'
  end.

(** [old] replaced by [new], for a character [old]. *)
Definition subst_char (old : ascii) (new : string) (c : ascii) : string :=
  if Ascii.eqb c old then new else str_of_char c.

(** What the value attribute of a string literal holds for a character
    of the decoded value, after [generate_xml_expr] and the escaping of
    ElementTree. *)
Definition escaped_char (c : ascii) : string :=
  if Ascii.eqb c squote then "&amp;apos;"
  else if Ascii.eqb c backslash then String backslash (String backslash "")
  else if Ascii.eqb c "&" then "&amp;"
  else if Ascii.eqb c "<" then "&lt;"
  else if Ascii.eqb c ">" then "&gt;"
  else if Ascii.eqb c dquote then "&quot;"
  else if Ascii.eqb c (ascii_of_nat 13) then "&#13;"
  else if Ascii.eqb c newline then "&#10;"
  else if Ascii.eqb c (ascii_of_nat 9) then "&#09;"
  else str_of_char c.

(** The same after the post-pass over the literals. *)
Definition emitted_char (c : ascii) : string :=
  if Ascii.eqb c squote then String backslash "&apos;"
  else if Ascii.eqb c newline then String backslash "n"
  else escaped_char c.

(** The same after the first replacement of the post-pass. *)
Definition unescaped_apos_char (c : ascii) : string :=
  if Ascii.eqb c squote then String backslash "&apos;" else escaped_char c.

(** The character is no ampersand. *)
Definition not_amp (c : ascii) : bool := negb (Ascii.eqb c "&").

(** The text ends with a whitespace character and [value=]. *)
Fixpoint ends_ws_value_eq (s : string) : bool :=
  match s with
  | "" => false
  | String c s' => (is_space c && String.eqb s' "value=") || ends_ws_value_eq s'
  end.

(** The escaped text of an attribute holds none of these. *)
Definition not_dquote (c : ascii) : bool := negb (Ascii.eqb c dquote).
Definition not_gt (c : ascii) : bool := negb (Ascii.eqb c ">").
Definition not_lt (c : ascii) : bool := negb (Ascii.eqb c "<").
Definition not_space (c : ascii) : bool := negb (is_space c).

(** A literal element as ElementTree writes it, for the escaped texts of
    its two attributes. *)
Definition literal_text (K E : string) : string :=
  "<literal class=" +:+ q K +:+ " value=" +:+ q E +:+ " />".

(** The same after the post-pass. *)
Definition literal_text_post (K E : string) : string :=
  "<literal class=" +:+ q K +:+ " value=" +:+ q (replacer E) +:+ " />".

(** A text in which no [<] starts the tag [literal]: every [<] is
    followed, in the text, by a character other than [l]. *)
Fixpoint markup (m : string) : bool :=
  match m with
  | "" => true
  | String c m' =>
      (if Ascii.eqb c "<"
       then match m' with
            | "" => false
            | String d _ => negb (Ascii.eqb d "l")
            end
       else true)
      && markup m'
  end.

(** What ElementTree writes for a character of an attribute. *)
Definition attrib_char (c : ascii) : string :=
  if Ascii.eqb c "&" then "&amp;"
  else if Ascii.eqb c "<" then "&lt;"
  else if Ascii.eqb c ">" then "&gt;"
  else if Ascii.eqb c dquote then "&quot;"
  else if Ascii.eqb c (ascii_of_nat 13) then "&#13;"
  else if Ascii.eqb c newline then "&#10;"
  else if Ascii.eqb c (ascii_of_nat 9) then "&#09;"
  else str_of_char c.

(** A tag other than [literal]: it starts with another letter than [l]
    and holds no [<]. *)
Definition plain_tag (tag : string) : bool :=
  match tag with
  | "" => false
  | String c _ => negb (Ascii.eqb c "l") && all_chars not_lt tag
  end.

(** The elements [generate_xml] builds: a literal element with its two
    attributes, whose escaped value does not end with a whitespace
    character and [value=], or an element with a plain tag. *)
#[local] Set Warnings "-register-all".
Inductive wf_element : Element → Prop :=
| wf_literal (K v : string) :
    ends_ws_value_eq (escape_attrib v) = false →
    wf_element (mkElement "literal" [("class", K); ("value", v)] [])
| wf_node (tag : string) (attrib : list (string * string)) (children : list Element) :
    plain_tag tag = true →
    Forall (λ kv, all_chars not_lt (fst kv) = true) attrib →
    Forall wf_element children →
    wf_element (mkElement tag attrib children).

(** The loop of [tostring] over the children, named. *)
Definition tostring_children :=
  fix for_children (l : list Element) : string :=
    match l with
    | [] => ""
    | child :: l' => tostring child +:+ for_children l'
    end.

(** The document after the post-pass, for the elements of [wf_element]:
    the value of every literal element has gone through [replacer]. *)
Fixpoint tostring_post (elem : Element) : string :=
  match elem with
  | mkElement tag attrib children =>
      if String.eqb tag "literal" then
        match attrib with
        | [(_, K); (_, v)] => literal_text_post (escape_attrib K) (escape_attrib v)
        | _ => tostring elem
        end
      else
        let start := "<" +:+ tag +:+ String.concat "" (map serialize_attrib attrib) in
        match children with
        | [] => start +:+ " />"
        | _ =>
            start +:+ ">"
            +:+ (fix for_children (l : list Element) : string :=
                   match l with
                   | [] => ""
                   | child :: l' => tostring_post child +:+ for_children l'
                   end) children
            +:+ "</" +:+ tag +:+ ">"
        end
  end.

Definition tostring_post_children :=
  fix for_children (l : list Element) : string :=
    match l with
    | [] => ""
    | child :: l' => tostring_post child +:+ for_children l'
    end.

(** The loops of [generate_xml_expr] and [generate_xml_block], named. *)
Definition xml_args :=
  fix for_args (index : nat) (args : list expr) {struct args} : list Element :=
    match args with
    | [] => []
    | arg_expr :: args' =>
        mkElement "arg" [("order", str index)]
          [mkElement "expr" [] [generate_xml_expr arg_expr]]
        :: for_args (index + 1) args'
    end.

Definition xml_assigns :=
  fix for_assigns (assigns : list Assignment) {struct assigns} : list (nat * Element) :=
    match assigns with
    | [] => []
    | assign :: assigns' =>
        (assign_order assign, generate_xml_assign assign) :: for_assigns assigns'
    end.

(** The root element of [generate_xml]. *)
Definition root_element (program : Program) : Element :=
  mkElement "program"
    match description program with
    | Some (String c d) =>
        [("language", "SOL25"); ("description", replace " " "&nbsp;" (String c d))]
    | _ => [("language", "SOL25")]
    end
    (map generate_xml_class (classes program)).

(** The escaped value of the literal does not end with a whitespace
    character and [value=]: the pattern of [replace_in_literals] then
    finds the value attribute of its element. *)
Definition tame_literal (e : expr) : bool :=
  match e with
  | Literal literal_class value _ =>
      negb (ends_ws_value_eq (escape_attrib (literal_value literal_class value)))
  | _ => true
  end.

(** [t in s] *)
Fixpoint contains (t s : string) : bool :=
  startswith t s
  || match s with
     | "" => false
     | String _ s' => contains t s'
     end.

Definition occurs_in (t s : string) : Prop := ∃ a b, s = a +:+ t +:+ b.

(** The reading of the value attribute in which the apostrophe is
    written as the entity alone. *)
Definition entity_char (c : ascii) : string :=
  if Ascii.eqb c squote then "&apos;"
  else if Ascii.eqb c backslash then String backslash (String backslash "")
  else attrib_char c.

Definition apostrophe_as_entity (code : string) : Prop :=
  ∀ ast xml v pos,
    parse_source code = Ok ast → run code = Ok xml →
    Literal "String" v pos ∈ program_nodes ast →
    contains (literal_text "String" (string_bind entity_char v)) xml = true.

(** ** The shape of the tokens *)

(** A text in quotes: it starts with the quote and ends with it, and the
    two are not the same character of the text. *)
Definition quoted (qc : ascii) (v : string) : bool :=
  match v with
  | "" => false
  | String c v' => Ascii.eqb c qc && endswith qc v'
  end.

(** A letter or an underscore, then letters, digits and underscores. *)
Definition ident_shape (v : string) : bool :=
  match v with
  | "" => false
  | String c v' => is_ident_start c && all_chars is_ident_char v'
  end.

Definition digits (v : string) : bool :=
  match v with
  | "" => false
  | String _ _ => all_chars is_digit v
  end.

(** An optional sign, then one digit or more. *)
Definition number_shape (v : string) : bool :=
  match v with
  | "" => false
  | String c v' => if Ascii.eqb c "+" || Ascii.eqb c "-" then digits v' else digits v
  end.

(** The text a group of the master pattern matches. *)
Definition raw_shape (ty : token_type) (v : string) : bool :=
  match ty with
  | WHITESPACE => negb (String.eqb v "") && all_chars is_space v
  | COMMENT => quoted dquote v
  | ASSIGN => String.eqb v ":="
  | NUMBER => number_shape v
  | STRING => quoted squote v
  | IDENT => ident_shape v
  | COLON => String.eqb v ":"
  | LBRACKET => String.eqb v "["
  | RBRACKET => String.eqb v "]"
  | LBRACE => String.eqb v "{"
  | RBRACE => String.eqb v "}"
  | LPAREN => String.eqb v "("
  | RPAREN => String.eqb v ")"
  | PIPE => String.eqb v "|"
  | DOT => String.eqb v "."
  | OTHER => (String.length v =? 1)%nat
  end.

(** A character a string literal holds after decoding: no control
    character other than the line feed. *)
Definition decoded_char (c : ascii) : bool := (31 <? ord c)%nat || Ascii.eqb c newline.

(** The value of a token the lexer emits. *)
Definition token_shape (t : Token) : bool :=
  match tok_type t with
  | WHITESPACE | OTHER => false
  | STRING => all_chars decoded_char (tok_value t)
  | ty => raw_shape ty (tok_value t)
  end.

(** A character of a string literal that stands for itself. *)
Definition plain_char (c : ascii) : bool :=
  negb (Ascii.eqb c backslash) && (31 <? ord c)%nat.

(** The characters of a source text without string literals and
    comments. *)
Definition source_char (c : ascii) : bool :=
  is_space c || is_ident_char c || contains_char c ":=+-[]{}()|.".

(** The positions of the tokens grow. *)
Definition positions_grow (toks : list Token) : Prop :=
  ∀ i j t t', (i < j)%nat → toks !! i = Some t → toks !! j = Some t' →
    (tok_pos t < tok_pos t')%nat.

(** ** The shape of a parsed tree *)

(** The elements of the list are numbered from [first] on, in the order
    of the list. *)
Definition numbered_from {A : Type} (order : A → nat) (first : nat) (l : list A) : Prop :=
  map order l = seq first (List.length l).

(** The name of a block parameter: it starts with a lowercase letter or
    an underscore and is no reserved word. *)
Definition param_ok (p : Param) : bool :=
  match param_name p with
  | "" => false
  | String c _ =>
      (char_islower c || Ascii.eqb c "_") && negb (mem_string (param_name p) reserved)
  end.

(** What the parser guarantees of a block: the parameters and the
    assignments are numbered from 1 on, the parameters have the names
    [param_ok] allows, and no assignment has a reserved word for its
    variable. *)
Definition block_shape (b : Block) : Prop :=
  numbered_from param_order 1 (parameters b)
  ∧ numbered_from assign_order 1 (assigns b)
  ∧ Forall (λ p, param_ok p = true) (parameters b)
  ∧ Forall (λ a, mem_string (assign_var a) reserved = false) (assigns b).

(** The name of a variable node: an identifier that does not start with
    an uppercase letter and is none of [true], [false] and [nil]. *)
Definition var_ok (name : string) : bool :=
  ident_shape name
  && match name with
     | "" => false
     | String c _ => negb (char_isupper c)
     end
  && negb (mem_string name ["true"; "false"; "nil"]).

(** The class and the value of a literal node. *)
Definition literal_ok (literal_class value : string) : bool :=
  (String.eqb literal_class "Integer" && number_shape value)
  || (String.eqb literal_class "String" && all_chars decoded_char value)
  || (String.eqb literal_class "True" && String.eqb value "true")
  || (String.eqb literal_class "False" && String.eqb value "false")
  || (String.eqb literal_class "Nil" && String.eqb value "nil")
  || (String.eqb literal_class "class" && ident_shape value
      && match value with
         | "" => false
         | String c _ => char_isupper c
         end).

Definition is_block (e : expr) : bool :=
  match e with
  | BlockExpr _ => true
  | _ => false
  end.

(** What the parser guarantees of a node, beside [node_ok]: a variable
    and a literal are as above, a block literal is a block as above, and
    a send with arguments has no block literal for its target. *)
Definition node_shape (e : expr) : Prop :=
  match e with
  | Var name _ => var_ok name = true
  | Literal literal_class value _ => literal_ok literal_class value = true
  | BlockExpr b => block_shape b
  | Send _ target args _ => args ≠ [] → is_block target = false
  end.

(** The name of a class or of a parent: it starts with an uppercase
    letter and holds no underscore. *)
Definition class_name_ok (v : string) : bool :=
  match v with
  | "" => false
  | String c _ => char_isupper c && negb (contains_char "_" v)
  end.

(** The selector of a method: it starts with a lowercase letter, and
    without colon it is no reserved word. *)
Definition selector_ok (selector : string) : bool :=
  match selector with
  | "" => false
  | String c _ =>
      char_islower c && negb (negb (contains_char colon selector) && mem_string selector reserved)
  end.

(** What the parser guarantees of a class. *)
Definition class_shape (C : ClassDef) : Prop :=
  class_name_ok (cls_name C) = true ∧ class_name_ok (cls_parent C) = true
  ∧ Forall (λ m, selector_ok (m_selector m) = true ∧ block_shape (m_block m))
      (cls_methods C).

(** The blocks of a program: the bodies of the methods and the block
    literals. *)
Definition block_of (e : expr) : option Block :=
  match e with
  | BlockExpr b => Some b
  | _ => None
  end.

Definition program_blocks (p : Program) : list Block :=
  flat_map (λ C, map m_block (cls_methods C)) (classes p) ++ omap block_of (program_nodes p).

(** ** The outcomes of the parser *)

(** The tokens the parser has not consumed. *)
Definition remaining (st : Parser.state) : nat :=
  List.length (Parser.tokens st) - Parser.pos st.

(** A call of a parser method ends: with a result as [Q] says, with the
    syntactic error, or with an exception of [E]; the bound on the
    recursion is not reached. *)
Definition ends (E : exception → Prop) {A : Type} (Q : A → Parser.state → Prop)
    (m : Parser.M A) (st : Parser.state) : Prop :=
  match m st with
  | Ok (a, st') => Q a st'
  | Exit c => c = ERR_SYNTACTIC
  | Raise e => E e
  | OutOfFuel => False
  end.

(** The same for a computation without state. *)
Definition ends_with (E : exception → Prop) (codes : list nat) {A : Type} (r : result A)
  : Prop :=
  match r with
  | Ok _ => True
  | Exit c => c ∈ codes
  | Raise e => E e
  | OutOfFuel => False
  end.

(** ** The checks of the analyzer *)

(** The classes of the program have distinct names, and the methods of
    every class distinct selectors. *)
Definition distinct_classes (p : Program) : Prop :=
  NoDup (map cls_name (classes p)).

Definition distinct_methods (p : Program) : Prop :=
  Forall (λ C, NoDup (map m_selector (cls_methods C))) (classes p).

(** The program has a class [Main] with a method [run]. *)
Definition has_main_run (p : Program) : bool :=
  existsb (λ C, String.eqb (cls_name C) "Main"
                && existsb (λ m, String.eqb (m_selector m) "run") (cls_methods C))
    (classes p).

(** No method [run] of a class [Main] has a parameter. *)
Definition run_without_parameters (p : Program) : Prop :=
  Forall (λ C, cls_name C = "Main" →
               Forall (λ m, m_selector m = "run" → parameters (m_block m) = [])
                 (cls_methods C))
    (classes p).

(** The parent of the class is built in or a class of the program. *)
Definition parent_known (p : Program) (C : ClassDef) : Prop :=
  cls_parent C ∈ SemanticAnalyzer.builtin_classes
  ∨ cls_parent C ∈ map cls_name (classes p).

Definition parents_known (p : Program) : Prop := Forall (parent_known p) (classes p).

(** The walk from a class to its parent, [n] times: it leaves the
    classes of the dictionary. *)
Fixpoint leaves (class_map : gmap string ClassDef) (n : nat) (k : string) : bool :=
  match n with
  | 0 => bool_decide (class_map !! k = None)
  | S n' =>
      match class_map !! k with
      | None => true
      | Some cls => leaves class_map n' (cls_parent cls)
      end
  end.

(** The dictionary [seen] of the first loop of [analyze] after the
    classes. *)
Definition seen_after (seen : gmap string ClassDef) (cs : list ClassDef)
  : gmap string ClassDef :=
  foldl (λ m C, <[cls_name C := C]> m) seen cs.

(** The class leaves the classes of the dictionary after at most [n]
    steps from a class to its parent. *)
Inductive grounded (class_map : gmap string ClassDef) : nat → string → Prop :=
| grounded_out (n : nat) (k : string) (cls : ClassDef) :
    class_map !! k = Some cls → class_map !! cls_parent cls = None →
    grounded class_map (S n) k
| grounded_step (n : nat) (k : string) (cls : ClassDef) :
    class_map !! k = Some cls → grounded class_map n (cls_parent cls) →
    grounded class_map (S n) k.

(** The state of a class in the dictionary [visited] of the search. *)
Definition state_of (visited : gmap string nat) (k : string) : nat :=
  default 0 (visited !! k).

(** The classes of the dictionary the search has not visited. *)
Definition unvisited (class_map : gmap string ClassDef) (visited : gmap string nat)
  : gset string :=
  filter (λ k, state_of visited k = 0) (dom class_map).

(** What the search keeps: the processed classes are those of [G], they
    are classes of the dictionary, and each leaves the dictionary after
    at most as many steps as [G] has classes; every state is 1 or 2. *)
Definition search_inv (class_map : gmap string ClassDef) (visited : gmap string nat)
    (G : gset string) : Prop :=
  (∀ k, state_of visited k = 2 ↔ k ∈ G)
  ∧ G ⊆ dom class_map
  ∧ (∀ k, k ∈ G → grounded class_map (size G) k)
  ∧ (∀ k, state_of visited k = 0 ∨ state_of visited k = 1 ∨ state_of visited k = 2).

(** ** The analysis of the method bodies *)

(** The names of the parameters of a block. *)
Definition param_names (b : Block) : list string := map param_name (parameters b).

(** What [analyze_block] requires of the parameters and of the targets
    of the assignments: the parameters have distinct names, and no
    assignment has [self] or a parameter for its variable. *)
Definition block_checked (b : Block) : Prop :=
  NoDup (param_names b)
  ∧ Forall (λ a, assign_var a ≠ "self" ∧ assign_var a ∉ param_names b) (assigns b).

(** [name[0].isupper()] for a name that is not empty. *)
Definition starts_upper (name : string) : bool :=
  match name with
  | "" => false
  | String c _ => char_isupper c
  end.

(** What the analysis requires of a node in the expression of the
    assignment that follows the assignments [pre] of the block [b]: a
    variable is [self], a parameter, the variable of an earlier
    assignment or, with an uppercase initial, a class of the program; a
    class literal names a class of the program or a built-in class; the
    selector of a send is no reserved word. *)
Definition reference_ok (p : Program) (b : Block) (pre : list Assignment) (e : expr)
  : Prop :=
  match e with
  | Var name _ =>
      name = "self" ∨ name ∈ param_names b ∨ name ∈ map assign_var pre
      ∨ (starts_upper name = true ∧ name ∈ map cls_name (classes p))
  | Literal literal_class value _ =>
      literal_class = "class" →
      value ∈ map cls_name (classes p) ∨ is_Some (builtin_methods !! value)
  | Send selector _ _ _ => mem_string selector reserved = false
  | BlockExpr _ => True
  end.

(** The class a message is sent to, when the target is a class literal
    or a variable with an uppercase initial. *)
Definition class_target (e : expr) : option string :=
  match e with
  | Literal literal_class value _ =>
      if String.eqb literal_class "class" then Some value else None
  | Var name _ => if starts_upper name then Some name else None
  | _ => None
  end.

(** The class has the method in the table of the built-in classes: in
    its own entry or, below [Object], in the entry of [Object]. *)
Definition builtin_understands (cls selector : string) : Prop :=
  selector ∈ default ∅ (builtin_methods !! cls)
  ∨ (builtin_parents !! cls = Some (Some "Object")
     ∧ selector ∈ default ∅ (builtin_methods !! "Object")).

(** The class understands the selector: a class of the program defines
    the method or inherits it from its parent; any other name is looked
    up in the table of the built-in classes. *)
Inductive understands (p : Program) : string → string → Prop :=
| understands_own (C : ClassDef) (selector : string) :
    C ∈ classes p → selector ∈ map m_selector (cls_methods C) →
    understands p (cls_name C) selector
| understands_inherited (C : ClassDef) (selector : string) :
    C ∈ classes p → understands p (cls_parent C) selector →
    understands p (cls_name C) selector
| understands_builtin (cls selector : string) :
    cls ∉ map cls_name (classes p) → builtin_understands cls selector →
    understands p cls selector.

(** ** The outcomes of the analyzer *)

(** A computation of the analyzer ends: with a result as [Q] says, with
    one of the exit codes, or with an IndexError when [E] holds; no key
    is missing and the bound on the recursion is not reached. *)
Definition finishes (E : Prop) (codes : list nat) {A : Type} (Q : A → Prop)
    (r : result A) : Prop :=
  match r with
  | Ok a => Q a
  | Exit c => c ∈ codes
  | Raise e => e = IndexError ∧ E
  | OutOfFuel => False
  end.

Definition analyzer_codes : list nat :=
  [ERR_SYNTACTIC; ERR_MISSING_MAIN; ERR_UNDEFINED_VAR; ERR_ARITY; ERR_VAR_COLLISION;
   ERR_SEMANTIC_OTHER].

(** A variable node with the empty name is among the nodes. *)
Definition unnamed_var (nodes : list expr) : Prop := ∃ pos, Var "" pos ∈ nodes.

(** The analyzer when the blocks are analysed: from every class of the
    dictionary the walk to the parent leaves the dictionary, and every
    class of [cs] has its set of attributes. *)
Definition ready (cs : list ClassDef) (self : SemanticAnalyzer.analyzer) : Prop :=
  (∀ k, is_Some (SemanticAnalyzer.class_map self !! k) →
        grounded (SemanticAnalyzer.class_map self)
          (size (SemanticAnalyzer.class_map self)) k)
  ∧ ∀ C, C ∈ cs → is_Some (SemanticAnalyzer.dynamic_attrs self !! cls_name C).

(** The dictionary and the set of the classes are the same in the two
    analyzers. *)
Definition same_classes (self self' : SemanticAnalyzer.analyzer) : Prop :=
  SemanticAnalyzer.class_map self' = SemanticAnalyzer.class_map self
  ∧ SemanticAnalyzer.global_classes self' = SemanticAnalyzer.global_classes self.

(** The environment of [analyze_block] before the assignments, and
    after the assignments [pre]. *)
Definition block_env (b : Block) : gmap string SemanticAnalyzer.role :=
  <["self" := SemanticAnalyzer.param]> (SemanticAnalyzer.params_env (parameters b)).

Definition env_after (env : gmap string SemanticAnalyzer.role) (pre : list Assignment)
  : gmap string SemanticAnalyzer.role :=
  foldl (λ env a, if bool_decide (is_Some (env !! assign_var a)) then env
                  else <[assign_var a := SemanticAnalyzer.local]> env) env pre.

(** What [analyze_expr] has checked of a node it visited in the
    environment [env]. *)
Definition ref_checked (self : SemanticAnalyzer.analyzer)
    (env : gmap string SemanticAnalyzer.role) (e : expr) : Prop :=
  match e with
  | Var name _ =>
      is_Some (env !! name)
      ∨ (starts_upper name = true ∧ name ∈ SemanticAnalyzer.global_classes self)
  | Literal literal_class value _ =>
      literal_class = "class" →
      value ∈ SemanticAnalyzer.global_classes self ∨ is_Some (builtin_methods !! value)
  | Send selector target _ _ =>
      mem_string selector reserved = false
      ∧ ∀ cls, class_target target = Some cls →
               SemanticAnalyzer.lookup_method self cls selector = Ok true
  | BlockExpr _ => True
  end.

(** What [analyze_block] has checked of a block. *)
Definition body_checked (self : SemanticAnalyzer.analyzer) (b : Block) : Prop :=
  block_checked b
  ∧ ∀ pre a post, assigns b = pre ++ a :: post →
      Forall (ref_checked self (env_after (block_env b) pre))
        (visited_nodes (assign_expr a)).

(** ** The order of the children of a block element *)

(** The element of a parameter. *)
Definition xml_parameter (p : Param) : Element :=
  mkElement "parameter" [("name", param_name p); ("order", str (param_order p))] [].

(** The block element with the parameters and the assignments in the
    order of the lists of the block. *)
Definition block_in_order (b : Block) : Element :=
  mkElement "block" [("arity", str (List.length (parameters b)))]
    (map xml_parameter (parameters b) ++ map generate_xml_assign (assigns b)).

(** ** The arity check of a message to [self] *)

(** What the analysis has established of a node it visited in a method
    of the class: a message to [self] that names a method of the class
    has as many arguments as that method has parameters. *)
Definition call_checked (C : ClassDef) (e : expr) : Prop :=
  match e with
  | Send selector target args _ =>
      SemanticAnalyzer.is_self target = true →
      ∀ m, SemanticAnalyzer.find_method (cls_methods C) selector = Some m →
           List.length (parameters (m_block m)) = List.length args
  | _ => True
  end.

(** The method is [run] of a class [Main], or a message to [self] that
    the analysis visits in the class names it. *)
Definition arity_compared (C : ClassDef) (m : Method) : Prop :=
  (cls_name C = "Main" ∧ m_selector m = "run")
  ∨ ∃ target args pos,
      Send (m_selector m) target args pos ∈ class_visited_nodes C
      ∧ SemanticAnalyzer.is_self target = true.

(** ** The depth of the recursion *)

(** The loop of [check_circular_inheritance] when the interpreter allows
    [limit] nested calls of [_dfs_check]: where the source would need a
    deeper call, CPython raises RecursionError and the model returns
    [OutOfFuel].  [check_circular_loop] is this loop with a limit that
    is never reached. *)
Fixpoint check_circular_loop_within (limit : nat) (self : SemanticAnalyzer.analyzer)
    (names : list string) (visited : gmap string nat) : result unit :=
  match names with
  | [] => Ok tt
  | cls_name :: names' =>
      if (default 0 (visited !! cls_name) =? 0)%nat then
        r <- SemanticAnalyzer._dfs_check limit self cls_name visited ;;
        if fst r then error_exit ERR_SEMANTIC_OTHER
        else check_circular_loop_within limit self names' (snd r)
      else check_circular_loop_within limit self names' visited
  end.

(** * Properties *)

#[local] Set Warnings "-clear-no-such-hyp".

(** ** Outcomes *)

Lemma bind_Ok {A B : Type} (m : result A) (k : A → result B) (b : B) :
  bind m k = Ok b → ∃ a, m = Ok a ∧ k a = Ok b.
Proof. destruct m; simpl; intros H; try discriminate. eauto. Qed.

(** Splits a hypothesis [bind m k = Ok b] into its two steps. *)
Ltac bind_inv H :=
  let a := fresh "a" in
  let Ha := fresh "Hstep" in
  apply bind_Ok in H; destruct H as (a & Ha & H).

Lemma run_Ok (code xml : string) :
  run code = Ok xml →
  ∃ ast self, parse_source code = Ok ast ∧ SemanticAnalyzer.analyze ast = Ok self.
Proof.
  unfold run, parse_source. intros H.
  bind_inv H. bind_inv H. bind_inv H.
  exists a0, a1. rewrite Hstep. simpl. auto.
Qed.

Lemma accepted_true (code : string) :
  accepted code = true →
  ∃ ast self, parse_source code = Ok ast ∧ SemanticAnalyzer.analyze ast = Ok self.
Proof.
  unfold accepted. destruct (run code) eqn:Hrun; try discriminate.
  intros _. eapply run_Ok, Hrun.
Qed.

Lemma String_eqb_true (a b : string) : String.eqb a b = true → a = b.
Proof. apply String.eqb_eq. Qed.

(** ** The presence of [Main] and [run] *)

Module MainFacts.
Import SemanticAnalyzer.

Lemma find_run_Ok (methods : list Method) (found found' : bool) :
  find_run methods found = Ok found' →
  ∀ m, m ∈ methods → m_selector m = "run" →
       List.length (parameters (m_block m)) = 0.
Proof.
  revert found. induction methods as [|m0 methods IH]; intros found H m Hin Hsel.
  - inversion Hin.
  - simpl in H. apply elem_of_cons in Hin as [->|Hin].
    + rewrite Hsel in H. simpl in H. case_bool_decide; [discriminate|]. lia.
    + destruct (String.eqb (m_selector m0) "run").
      * case_bool_decide; [discriminate|]. eauto.
      * eauto.
Qed.

Lemma find_main_Ok (cs : list ClassDef) (found found' : bool) :
  find_main cs found = Ok found' →
  ∀ C m, C ∈ cs → cls_name C = "Main" → m ∈ cls_methods C → m_selector m = "run" →
         List.length (parameters (m_block m)) = 0.
Proof.
  revert found. induction cs as [|C0 cs IH]; intros found H C m HC Hname Hm Hsel.
  - inversion HC.
  - simpl in H. apply elem_of_cons in HC as [->|HC].
    + rewrite Hname in H. simpl in H. bind_inv H.
      eapply find_run_Ok; eauto.
    + destruct (String.eqb (cls_name C0) "Main").
      * bind_inv H. eauto.
      * eauto.
Qed.

Lemma analyze_find_main (p : Program) (self : analyzer) :
  analyze p = Ok self → ∃ found, find_main (classes p) false = Ok found.
Proof.
  unfold analyze. intros H. bind_inv H. bind_inv H. bind_inv H. eauto.
Qed.

End MainFacts.

(** ** Programs the pipeline accepts *)


(** ** The order of the checks of the analyzer *)

(** C5, counterexample: the two classes alone do not end the process
    with status 35. *)
Lemma C5_counterexample :
  exit_code (main ["parse.py"] "class A:B{} class B:A{}") ≠ Some ERR_SEMANTIC_OTHER.
Proof. vm_compute. discriminate. Qed.

(** C5, amended: for the source text [class A:B{} class B:A{}] the
    process ends with status 31, since the presence of [Main] with [run]
    is checked before the inheritance cycle; after a class [Main] with a
    method [run] the same two classes end it with status 35. *)
Theorem C5_cycle_after_main :
  exit_code (main ["parse.py"] "class A:B{} class B:A{}") = Some ERR_MISSING_MAIN
  ∧ exit_code (main ["parse.py"]
                 "class Main : Object { run [|]} class A : B {} class B : A {}")
    = Some ERR_SEMANTIC_OTHER.
Proof. split; vm_compute; reflexivity. Qed.

(** ** A send whose selector is a bare colon *)

(** C10: the parser accepts [x := 1 : 2.] and builds a send with the
    selector [:] and one argument; the program passes the semantic
    analysis and the XML document carries the selector. *)
Theorem C10_bare_colon_selector :
  ∃ code : string,
    parse_source code
    = Ok (mkProgram
            [mkClassDef "Main" "Object"
               [mkMethod "run"
                  (mkBlock []
                     [mkAssignment "x" 23
                        (Send ":" (Literal "Integer" "1" 26)
                              [Literal "Integer" "2" 30] 26) 1])]]
            None)
    ∧ accepted code = true
    ∧ main ["parse.py"] code
      = Ok (xml_declaration
            +:+ "<program language=" +:+ q "SOL25" +:+ ">"
            +:+ "<class name=" +:+ q "Main" +:+ " parent=" +:+ q "Object" +:+ ">"
            +:+ "<method selector=" +:+ q "run" +:+ ">"
            +:+ "<block arity=" +:+ q "0" +:+ ">"
            +:+ "<assign order=" +:+ q "1" +:+ ">"
            +:+ "<var name=" +:+ q "x" +:+ " />"
            +:+ "<expr><send selector=" +:+ q ":" +:+ ">"
            +:+ "<expr><literal class=" +:+ q "Integer" +:+ " value=" +:+ q "1"
            +:+ " /></expr>"
            +:+ "<arg order=" +:+ q "1" +:+ ">"
            +:+ "<expr><literal class=" +:+ q "Integer" +:+ " value=" +:+ q "2"
            +:+ " /></expr></arg>"
            +:+ "</send></expr></assign></block></method></class></program>").
Proof.
  exists "class Main:Object{run[|x:=1 : 2.]}".
  split; [|split]; vm_compute; reflexivity.
Qed.

(** ** The target of an assignment *)

(** C9, the defect: [parse_assignment] compares the target of an
    assignment with the reserved words only, where [parse_selector] and
    the parameters of a block examine the first letter.  The assignment
    [X := 1.] is parsed, the program passes the analysis and the process
    ends with status 0, where the claim has ERR_SYNTACTIC.  The variable
    [X] can never be read, since [X] in an expression is a class
    literal: after [X := 1.] the assignment [y := X.] ends the process
    with status 32.  A capitalised selector and a capitalised parameter
    end it with status 22. *)
Theorem C9_capitalised_target :
  parse_source "class Main:Object{run[|X:=1.]}"
  = Ok (mkProgram
          [mkClassDef "Main" "Object"
             [mkMethod "run"
                (mkBlock [] [mkAssignment "X" 23 (Literal "Integer" "1" 26) 1])]]
          None)
  ∧ exit_code (main ["parse.py"] "class Main:Object{run[|X:=1.]}") = Some 0
  ∧ exit_code (main ["parse.py"] "class Main:Object{run[|X:=1.y:=X.]}")
    = Some ERR_UNDEFINED_VAR
  ∧ exit_code (main ["parse.py"] "class Main:Object{Run[|]}") = Some ERR_SYNTACTIC
  ∧ exit_code (main ["parse.py"] "class Main:Object{run[:X|]}") = Some ERR_SYNTACTIC.
Proof. repeat split; vm_compute; reflexivity. Qed.

(** ** The lexer *)

Module LexerFacts.
Import Lexer.

Lemma append_cons (c : ascii) (a b : string) : String c a +:+ b = String c (a +:+ b).
Proof. reflexivity. Qed.

Lemma append_nil (b : string) : "" +:+ b = b.
Proof. reflexivity. Qed.

Lemma append_nil_r (a : string) : a +:+ "" = a.
Proof. induction a as [|c a IH]; [reflexivity|]. by rewrite append_cons, IH. Qed.

Lemma span_app (p : ascii → bool) (s : string) :
  fst (span p s) +:+ snd (span p s) = s.
Proof.
  induction s as [|c s IH]; simpl; [reflexivity|].
  destruct (p c); [|reflexivity].
  destruct (span p s) as [a b]. simpl in *. by rewrite append_cons, IH.
Qed.

Lemma span_all (p : ascii → bool) (s : string) : all_chars p (fst (span p s)) = true.
Proof.
  induction s as [|c s IH]; simpl; [reflexivity|].
  destruct (p c) eqn:Hc; [|reflexivity].
  destruct (span p s) as [a b]. simpl in *. by rewrite Hc.
Qed.

Lemma cons_match_fmap (c : ascii) (o : option (string * string)) (v r : string) :
  cons_match c <$> o = Some (v, r) → ∃ v', v = String c v' ∧ o = Some (v', r).
Proof.
  destruct o as [[v' r']|]; simpl; [|discriminate].
  unfold cons_match. simpl. intros [= <- <-]. eauto.
Qed.

Lemma re_plus_splits (p : ascii → bool) : splits (re_plus p).
Proof.
  intros [|c s] v r; simpl; [discriminate|].
  destruct (p c); [|discriminate].
  pose proof (span_app p s) as Hs.
  destruct (span p s) as [a b]. simpl in *. intros [= <- <-].
  by rewrite append_cons, Hs.
Qed.

Lemma re_lit_splits (lit : string) : splits (re_lit lit).
Proof.
  induction lit as [|c lit IH]; intros s v r; simpl.
  - intros [= <- <-]. reflexivity.
  - destruct s as [|d s]; [discriminate|].
    destruct (Ascii.eqb c d); [|discriminate].
    intros H. apply cons_match_fmap in H as (v' & -> & H).
    apply IH in H. by rewrite H, append_cons.
Qed.

Lemma scan_quoted_app (qc : ascii) (n : nat) (s v r : string) :
  (String.length s ≤ n)%nat → scan_quoted qc s = Some (v, r) → s = v +:+ r.
Proof.
  revert s v r. induction n as [|n IH]; intros s v r Hlen;
    destruct s as [|c s]; simpl in *; try discriminate; try lia.
  destruct (Ascii.eqb c qc).
  - intros [= <- <-]. reflexivity.
  - destruct (Ascii.eqb c backslash).
    + destruct s as [|d s]; [discriminate|]. intros H.
      apply cons_match_fmap in H as (v' & -> & H).
      apply cons_match_fmap in H as (v'' & -> & H).
      apply IH in H; [|simpl in Hlen; lia]. by rewrite H, !append_cons.
    + intros H. apply cons_match_fmap in H as (v' & -> & H).
      apply IH in H; [|lia]. by rewrite H, append_cons.
Qed.

Lemma re_quoted_splits (qc : ascii) : splits (re_quoted qc).
Proof.
  intros [|c s] v r; simpl; [discriminate|].
  destruct (Ascii.eqb c qc); [|discriminate].
  intros H. apply cons_match_fmap in H as (v' & -> & H).
  apply (scan_quoted_app qc (String.length s)) in H; [|lia]. by rewrite H, append_cons.
Qed.

Lemma re_number_splits : splits re_number.
Proof.
  intros [|c s] v r; [discriminate|]. unfold re_number.
  destruct (Ascii.eqb c "+" || Ascii.eqb c "-").
  - intros H. apply cons_match_fmap in H as (v' & -> & H).
    apply re_plus_splits in H. by rewrite H, append_cons.
  - apply re_plus_splits.
Qed.

Lemma re_ident_splits : splits re_ident.
Proof.
  intros [|c s] v r; simpl; [discriminate|].
  destruct (is_ident_start c); [|discriminate].
  pose proof (span_app is_ident_char s) as Hs.
  unfold cons_match. intros [= <- <-]. simpl. by rewrite append_cons, Hs.
Qed.

Lemma re_any_splits : splits re_any.
Proof. intros [|c s] v r; simpl; [discriminate|]. intros [= <- <-]. reflexivity. Qed.

Lemma first_match_In (spec : list (token_type * recogniser)) (s v r : string)
    (ty : token_type) :
  first_match spec s = Some (ty, v, r) →
  ∃ re, (ty, re) ∈ spec ∧ re s = Some (v, r).
Proof.
  induction spec as [|[name re] spec IH]; simpl; [discriminate|].
  destruct (re s) as [[v' r']|] eqn:Hre.
  - intros [= <- <- <-]. exists re. split; [apply list_elem_of_here | done].
  - intros H. apply IH in H as (re' & Hin & H). exists re'.
    split; [by apply list_elem_of_further | done].
Qed.

Lemma token_specification_splits :
  Forall (λ x : token_type * recogniser, splits (snd x)) token_specification.
Proof.
  unfold token_specification.
  repeat (constructor;
    [ first [ apply re_plus_splits | apply re_quoted_splits | apply re_lit_splits
            | apply re_number_splits | apply re_ident_splits | apply re_any_splits ] |]).
  constructor.
Qed.

Lemma token_specification_group (ty : token_type) (re : recogniser) :
  (ty, re) ∈ token_specification →
  (ty = WHITESPACE → re = re_plus is_space) ∧ (ty = IDENT → re = re_ident).
Proof.
  unfold token_specification. rewrite !elem_of_cons, elem_of_nil.
  intros H; split; intros ->; repeat (destruct H as [H|H]); congruence || done.
Qed.

(** What a match of the master pattern tells, by the group that matched. *)
Lemma master_pattern_match_cases (s v r : string) (ty : token_type) :
  master_pattern_match s = Some (ty, v, r) →
  s = v +:+ r
  ∧ (ty = WHITESPACE → re_plus is_space s = Some (v, r))
  ∧ (ty = IDENT → re_ident s = Some (v, r)).
Proof.
  intros H. apply first_match_In in H as (re & Hin & H).
  pose proof token_specification_splits as Hall.
  rewrite Forall_forall in Hall. 
  split; [exact (Hall _ Hin _ _ _ H)|].
  apply token_specification_group in Hin as [Hws Hid].
  split; intros Hty; [rewrite <- (Hws Hty) | rewrite <- (Hid Hty)]; exact H.
Qed.

Lemma all_chars_app (p : ascii → bool) (a b : string) :
  all_chars p (a +:+ b) = all_chars p a && all_chars p b.
Proof.
  induction a as [|c a IH]; [reflexivity|].
  rewrite append_cons. simpl. rewrite IH. by destruct (p c).
Qed.

Lemma concat_values_cons (t : Token) (toks : list Token) :
  concat_values (t :: toks) = tok_value t +:+ concat_values toks.
Proof.
  unfold concat_values. simpl. destruct (map tok_value toks) eqn:E; simpl.
  - by rewrite append_nil_r.
  - reflexivity.
Qed.

(** The round trip of the loop: without whitespace and string literals
    the values of the tokens spell the text that was read. *)
Lemma tokenize_from_round_trip (fuel : nat) (rest : string) (pos : nat) (toks : list Token) :
  tokenize_from fuel rest pos = Ok toks →
  no_whitespace rest = true →
  no_token_of STRING toks = true →
  concat_values toks = rest.
Proof.
  revert rest pos toks. induction fuel as [|fuel IH]; intros rest pos toks;
    destruct rest as [|c rest]; simpl tokenize_from;
    try (intros [= <-]; reflexivity); try discriminate.
  destruct (master_pattern_match (String c rest)) as [[[ty v] r]|] eqn:Hm; [|discriminate].
  apply master_pattern_match_cases in Hm as (Hsplit & Hws & _).
  intros Htok Hnows Hnostr.
  rewrite Hsplit in Hnows |- *. unfold no_whitespace in Hnows.
  rewrite all_chars_app in Hnows. apply andb_true_iff in Hnows as [Hv Hr].
  assert (Hnot : ty ≠ WHITESPACE).
  { intros ->. specialize (Hws eq_refl). rewrite Hsplit in Hws.
    destruct v as [|d v]; simpl in Hws.
    - destruct r as [|d r]; [discriminate|].
      simpl in Hws. destruct (is_space d) eqn:Hd; [|discriminate].
      destruct (span is_space r) as [a b]. discriminate.
    - simpl in Hv. destruct (is_space d); [discriminate|discriminate]. }
  destruct ty; try congruence; try discriminate.
  all: try (bind_inv Htok; injection Htok as <-;
            rewrite concat_values_cons; simpl tok_value;
            simpl in Hnostr; f_equal; eapply IH; eauto; fail).
  bind_inv Htok. bind_inv Htok. injection Htok as <-. simpl in Hnostr. discriminate.
Qed.

End LexerFacts.

(** C6, counterexample: the token of the string literal ['a'] carries
    the decoded value [a], without the quotes. *)
Lemma C6_counterexample : ¬ lexer_round_trip "'a'".
Proof.
  intros H.
  specialize (H [mkToken STRING "a" 0] ltac:(vm_compute; reflexivity)
                ltac:(vm_compute; reflexivity) ltac:(vm_compute; reflexivity)).
  vm_compute in H. discriminate H.
Qed.

(** C6, amended: for every source text without whitespace that the lexer
    accepts and for which it emits neither a comment token nor a string
    token, the values of the tokens, concatenated in order, are the
    source text.  A string token carries the decoded value of its literal
    and does not reproduce it. *)
Theorem C6_round_trip_without_strings (code : string) (toks : list Token) :
  Lexer.tokenize code = Ok toks →
  no_whitespace code = true →
  no_token_of COMMENT toks = true →
  no_token_of STRING toks = true →
  concat_values toks = code.
Proof.
  intros Htok Hws _ Hstr. eapply LexerFacts.tokenize_from_round_trip; eauto.
Qed.

Lemma C6_round_trip_without_strings_witness :
  concat_values
    [mkToken IDENT "x" 0; mkToken ASSIGN ":=" 1; mkToken NUMBER "-12" 3; mkToken DOT "." 6]
  = "x:=-12.".
Proof.
  apply (C6_round_trip_without_strings "x:=-12."
           [mkToken IDENT "x" 0; mkToken ASSIGN ":=" 1; mkToken NUMBER "-12" 3;
            mkToken DOT "." 6]); vm_compute; reflexivity.
Defined.

(** ** The parser *)

Module ParserFacts.
Import Parser.
Local Open Scope parser_scope.

Lemma bindM_Ok {A B : Type} (m : M A) (k : A → M B) (st st' : state) (b : B) :
  bindM m k st = Ok (b, st') → ∃ a st1, m st = Ok (a, st1) ∧ k a st1 = Ok (b, st').
Proof.
  unfold bindM. destruct (m st) as [[a st1]| | |]; try discriminate. eauto.
Qed.

Lemma ret_Ok {A : Type} (a b : A) (st st' : state) :
  ret a st = Ok (b, st') → b = a ∧ st' = st.
Proof. unfold ret. intros [= -> ->]. auto. Qed.

Lemma lift_Ok {A : Type} (r : result A) (a : A) (st st' : state) :
  lift r st = Ok (a, st') → r = Ok a ∧ st' = st.
Proof. unfold lift. destruct r; try discriminate. intros [= -> ->]. auto. Qed.

Lemma current_token_Ok (o : option Token) (st st' : state) :
  current_token st = Ok (o, st') → o = tokens st !! pos st ∧ st' = st.
Proof. unfold current_token. intros [= <- <-]. auto. Qed.

Lemma get_last_token_end_Ok (n : nat) (st st' : state) :
  get_last_token_end st = Ok (n, st') → st' = st.
Proof. unfold get_last_token_end. intros [= <- <-]. auto. Qed.

Lemma error_if_Ok (cond : bool) (u : unit) (st st' : state) :
  error_if cond st = Ok (u, st') → cond = false ∧ st' = st.
Proof. unfold error_if. destruct cond; [discriminate|]. intros [= <-]. auto. Qed.

Lemma current_is_Ok (ty : token_type) (b : bool) (st st' : state) :
  current_is ty st = Ok (b, st') → st' = st.
Proof. unfold current_is, bindM, current_token, ret. intros [= <- <-]. auto. Qed.

Lemma next_is_Ok (ty : token_type) (b : bool) (st st' : state) :
  next_is ty st = Ok (b, st') → st' = st.
Proof. unfold next_is. intros [= <- <-]. auto. Qed.

Lemma consume_Ok (ty : option token_type) (t : Token) (st st' : state) :
  consume ty st = Ok (t, st') →
  tokens st !! pos st = Some t ∧ tokens st' = tokens st
  ∧ ∀ x, ty = Some x → tok_type t = x.
Proof.
  unfold consume. intros H.
  apply bindM_Ok in H as (o & st1 & Hcur & H).
  apply current_token_Ok in Hcur as [-> ->].
  destruct (tokens st !! pos st) as [t0|]; [|discriminate].
  apply bindM_Ok in H as (u & st2 & Herr & H).
  apply error_if_Ok in Herr as [Hc ->].
  injection H as <- <-. simpl. repeat split.
  intros x ->. by apply bool_decide_eq_false, dec_stable in Hc.
Qed.


#[local] Arguments bindM : simpl never.
#[local] Arguments ret : simpl never.
#[local] Arguments lift : simpl never.
#[local] Arguments consume : simpl never.
#[local] Arguments current_token : simpl never.
#[local] Arguments error_if : simpl never.
#[local] Arguments current_is : simpl never.
#[local] Arguments next_is : simpl never.
#[local] Arguments get_last_token_end : simpl never.
#[local] Arguments error : simpl never.
#[local] Arguments out_of_fuel : simpl never.
#[local] Arguments consume_keyword : simpl never.
#[local] Arguments ident_expr : simpl never.
#[local] Arguments parse_block_header : simpl never.

(** Substitutes the equations between variables other than token lists. *)
Ltac psubst :=
  repeat match goal with
  | H : ?x = _ |- _ =>
      is_var x; lazymatch type of x with list Token => fail | _ => subst x end
  | H : _ = ?x |- _ =>
      is_var x; lazymatch type of x with list Token => fail | _ => subst x end
  end.

(** Takes the successful run of a parser method apart, step by step. *)
Ltac pinv :=
  repeat match goal with
  | H : bindM _ _ _ = Ok _ |- _ =>
      let H1 := fresh "Hstep" in
      apply bindM_Ok in H; destruct H as (? & ? & H1 & H); cbv beta in H
  | H : ret _ _ = Ok _ |- _ => apply ret_Ok in H; destruct H as [? ?]; psubst
  | H : lift _ _ = Ok _ |- _ => apply lift_Ok in H; destruct H as [H ?]; psubst
  | H : current_token _ = Ok _ |- _ =>
      apply current_token_Ok in H; destruct H as [? ?]; psubst
  | H : get_last_token_end _ = Ok _ |- _ => apply get_last_token_end_Ok in H; psubst
  | H : error_if _ _ = Ok _ |- _ => apply error_if_Ok in H; destruct H as [H ?]; psubst
  | H : current_is _ _ = Ok _ |- _ => apply current_is_Ok in H; psubst
  | H : next_is _ _ = Ok _ |- _ => apply next_is_Ok in H; psubst
  | H : consume _ _ = Ok _ |- _ => apply consume_Ok in H; destruct H as (? & ? & ?)
  | H : error _ = Ok _ |- _ => discriminate H
  | H : out_of_fuel _ = Ok _ |- _ => discriminate H
  | H : (if ?b then _ else _) _ = Ok _ |- _ => destruct b eqn:?
  | H : (match ?o with Some _ => _ | None => _ end) _ = Ok _ |- _ => destruct o eqn:?
  end.

Lemma consume_keyword_Ok (ident : string) (st st' : state) :
  consume_keyword st = Ok (ident, st') →
  tokens st' = tokens st
  ∧ ∃ t, t ∈ tokens st ∧ tok_type t = IDENT ∧ tok_value t = ident.
Proof.
  unfold consume_keyword. intros H. pinv.
  split; [congruence|].
  eexists. split; [eapply list_elem_of_lookup_2; eauto|]. auto.
Qed.

Lemma ident_expr_Ok (t : Token) (e : expr) (st st' : state) :
  ident_expr t st = Ok (e, st') → st' = st ∧ leaf e.
Proof.
  unfold ident_expr. intros H. pinv; simpl; auto.
Qed.

Lemma parse_parameters_tokens (fuel order : nat) (ps : list Param) (st st' : state) :
  parse_parameters fuel order st = Ok (ps, st') → tokens st' = tokens st.
Proof.
  revert order ps st st'. induction fuel as [|fuel IH]; intros order ps st st' H;
    simpl in H; pinv; try congruence.
  match goal with
  | H : parse_parameters fuel _ _ = Ok _ |- _ => apply IH in H
  end. congruence.
Qed.

Lemma parse_block_header_tokens (fuel : nat) (ps : list Param) (st st' : state) :
  parse_block_header fuel st = Ok (ps, st') → tokens st' = tokens st.
Proof.
  unfold parse_block_header. intros H. pinv; try congruence.
  match goal with
  | H : parse_parameters _ _ _ = Ok _ |- _ => apply parse_parameters_tokens in H
  end. congruence.
Qed.


Lemma expr_nodes_Send (selector : string) (target : expr) (args : list expr) (p : nat) :
  expr_nodes (Send selector target args p)
  = Send selector target args p :: expr_nodes target ++ flat_map expr_nodes args.
Proof. reflexivity. Qed.

Lemma block_nodes_mkBlock (ps : list Param) (asg : list Assignment) :
  block_nodes (mkBlock ps asg) = flat_map assign_nodes asg.
Proof. reflexivity. Qed.

Lemma leaf_nodes (e : expr) : leaf e → expr_nodes e = [e].
Proof. destruct e; simpl; intros H; try reflexivity; contradiction. Qed.

Lemma count_char_app (c : ascii) (a b : string) :
  count_char c (a +:+ b) = count_char c a + count_char c b.
Proof.
  induction a as [|d a IH]; [reflexivity|].
  rewrite LexerFacts.append_cons. simpl. rewrite IH. lia.
Qed.

Lemma count_char_concat (parts : list string) :
  count_char colon (String.concat "" parts) = count_parts parts.
Proof.
  unfold count_parts. induction parts as [|a parts IH]; [reflexivity|].
  simpl. destruct parts as [|b parts].
  - simpl. lia.
  - rewrite !count_char_app, IH. reflexivity.
Qed.

Lemma count_parts_app (l1 l2 : list string) :
  count_parts (l1 ++ l2) = count_parts l1 + count_parts l2.
Proof. unfold count_parts. by rewrite sum_list_with_app. Qed.

Section Invariant.
Context (toks : list Token) (Hid : Forall ident_ok toks).

Lemma leaf_ok (e : expr) : leaf e → Forall (node_ok toks) (expr_nodes e).
Proof.
  intros H. rewrite (leaf_nodes e H). constructor; [|constructor].
  destruct e; try contradiction; repeat split.
Qed.

Lemma ident_colons (t : Token) :
  t ∈ toks → tok_type t = IDENT → count_char colon (tok_value t) = 0.
Proof. intros Hin Hty. rewrite Forall_forall in Hid. by apply Hid. Qed.

Lemma unary_ok (token : Token) (base : expr) :
  token ∈ toks → tok_type token = IDENT →
  Forall (node_ok toks) (expr_nodes base) →
  Forall (node_ok toks) (expr_nodes (Send (tok_value token) base [] (tok_pos token))).
Proof.
  intros Hin Hty Hbase. rewrite expr_nodes_Send. constructor.
  - repeat split; simpl.
    + symmetry. by apply ident_colons.
    + by exists token.
  - simpl. by rewrite app_nil_r.
Qed.

Lemma keyword_ok (selector : string) (base arg : expr) (args : list expr) (p : nat) :
  S (List.length args) = count_char colon selector →
  expr_pos base = Ok p →
  Forall (node_ok toks) (expr_nodes base) →
  Forall (node_ok toks) (expr_nodes arg) →
  Forall (node_ok toks) (flat_map expr_nodes args) →
  Forall (node_ok toks) (expr_nodes (Send selector base (arg :: args) p)).
Proof.
  intros Hlen Hpos Hbase Harg Hargs. rewrite expr_nodes_Send. constructor.
  - repeat split; simpl; done.
  - simpl. repeat (apply Forall_app; split); done.
Qed.

Lemma parser_keeps (fuel : nat) :
  keeps toks block_nodes (parse_block fuel)
  ∧ (∀ order, keeps toks (flat_map assign_nodes) (parse_assigns fuel order))
  ∧ (∀ order, keeps toks assign_nodes (parse_assignment fuel order))
  ∧ keeps toks expr_nodes (parse_expr fuel)
  ∧ keeps toks expr_nodes (parse_expr_base fuel)
  ∧ (∀ base, Forall (node_ok toks) (expr_nodes base) →
             keeps toks expr_nodes (parse_expr_tail fuel base))
  ∧ (∀ base, Forall (node_ok toks) (expr_nodes base) →
             keeps toks expr_nodes (_parse_send_tail fuel base))
  ∧ (∀ st r st', send_tail_loop fuel st = Ok (r, st') → tokens st = toks →
       tokens st' = toks
       ∧ Forall (node_ok toks) (flat_map expr_nodes (snd r))
       ∧ count_parts (fst r) = List.length (snd r)).
Proof.
  induction fuel as [|fuel (IHblock & IHassigns & IHassign & IHexpr & IHbase & IHtail
                             & IHsend & IHloop)].
  { unfold keeps.
    split; [|split; [|split; [|split; [|split; [|split; [|split]]]]]];
      intros; discriminate. }
  unfold keeps in *.
  split; [|split; [|split; [|split; [|split; [|split; [|split]]]]]].
  - (* parse_block *)
    intros st b st' H Hst. simpl in H. pinv.
    match goal with H : parse_block_header _ _ = Ok _ |- _ =>
      apply parse_block_header_tokens in H end.
    match goal with H : parse_assigns _ _ _ = Ok _ |- _ =>
      apply IHassigns in H; [destruct H as [? ?]|congruence] end.
    rewrite block_nodes_mkBlock. split; [congruence|done].
  - (* parse_assigns *)
    intros order st l st' H Hst. simpl in H. pinv; try (split; [congruence|constructor]).
    match goal with H : parse_assignment _ _ _ = Ok _ |- _ =>
      apply IHassign in H; [destruct H as [? ?]|congruence] end.
    match goal with H : parse_assigns _ _ _ = Ok _ |- _ =>
      apply IHassigns in H; [destruct H as [? ?]|congruence] end.
    split; [congruence|]. simpl. by apply Forall_app.
  - (* parse_assignment *)
    intros order st a st' H Hst. simpl in H. pinv.
    match goal with H : parse_expr _ _ = Ok _ |- _ =>
      apply IHexpr in H; [destruct H as [? ?]|congruence] end.
    split; [congruence|done].
  - (* parse_expr *)
    intros st e st' H Hst. simpl in H. pinv.
    match goal with H : parse_expr_base _ _ = Ok _ |- _ =>
      apply IHbase in H; [destruct H as [? ?]|congruence] end.
    eapply IHtail; eauto.
  - (* parse_expr_base *)
    intros st e st' H Hst. simpl in H. pinv.
    destruct (tok_type _) eqn:Hty in H; pinv.
    + split; [congruence|by apply leaf_ok].
    + split; [congruence|by apply leaf_ok].
    + match goal with H : ident_expr _ _ = Ok _ |- _ =>
        apply ident_expr_Ok in H; destruct H as [-> ?] end.
      split; [congruence|by apply leaf_ok].
    + match goal with H : parse_block _ _ = Ok _ |- _ =>
        apply IHblock in H; [destruct H as [? ?]|congruence] end.
      split; [congruence|]. simpl. constructor; [repeat split|done].
    + match goal with H : parse_expr _ _ = Ok _ |- _ =>
        apply IHexpr in H; [destruct H as [? ?]|congruence] end.
      split; [congruence|done].
  - (* parse_expr_tail *)
    intros base Hbase st e st' H Hst. simpl in H. pinv; [|by split].
    destruct (tok_type _) eqn:Hty in H; pinv; try (by split).
    + match goal with H : _parse_send_tail _ _ _ = Ok _ |- _ =>
        apply IHsend in H; [destruct H as [? ?]|done|congruence] end.
      eapply IHtail; eauto.
    + eapply IHtail; [|eassumption|congruence].
      apply unary_ok; [|by eauto|done].
      eapply list_elem_of_lookup_2. rewrite <- Hst. eassumption.
    + match goal with H : _parse_send_tail _ _ _ = Ok _ |- _ =>
        apply IHsend in H; [destruct H as [? ?]|done|congruence] end.
      eapply IHtail; eauto.
  - (* _parse_send_tail *)
    intros base Hbase st e st' H Hst. simpl in H. pinv; try discriminate.
    + match goal with H : consume_keyword _ = Ok _ |- _ =>
        apply consume_keyword_Ok in H; destruct H as (? & kw & Hin & Hty & <-) end.
      match goal with H : parse_expr_base _ _ = Ok _ |- _ =>
        apply IHbase in H; [destruct H as [? ?]|congruence] end.
      match goal with H : send_tail_loop _ _ = Ok _ |- _ =>
        apply IHloop in H; [destruct H as (? & ? & Hcount)|congruence] end.
      split; [congruence|]. apply keyword_ok; try done.
      rewrite count_char_concat, count_parts_app, Hcount.
      unfold count_parts. simpl. rewrite (ident_colons kw); [lia| |done].
      by rewrite <- Hst.
    + match goal with H : parse_expr_base _ _ = Ok _ |- _ =>
        apply IHbase in H; [destruct H as [? ?]|congruence] end.
      match goal with H : send_tail_loop _ _ = Ok _ |- _ =>
        apply IHloop in H; [destruct H as (? & ? & Hcount)|congruence] end.
      split; [congruence|]. apply keyword_ok; try done.
      rewrite count_char_concat, count_parts_app, Hcount.
      unfold count_parts. simpl. lia.
  - (* send_tail_loop *)
    intros st r st' H Hst. simpl in H. pinv.
    + match goal with H : consume_keyword _ = Ok _ |- _ =>
        apply consume_keyword_Ok in H; destruct H as (? & kw & Hin & Hty & <-) end.
      match goal with H : parse_expr_base _ _ = Ok _ |- _ =>
        apply IHbase in H; [destruct H as [? ?]|congruence] end.
      match goal with H : send_tail_loop _ _ = Ok _ |- _ =>
        apply IHloop in H; [destruct H as (? & ? & Hcount)|congruence] end.
      split; [congruence|]. split; simpl.
      * by apply Forall_app.
      * unfold count_parts in *. simpl. rewrite Hcount, (ident_colons kw); [lia| |done].
        by rewrite <- Hst.
    + split; [congruence|]. split; [constructor|reflexivity].
Qed.


Lemma parse_selector_loop_tokens (fuel : nat) (sel sel' : string) (st st' : state) :
  parse_selector_loop fuel sel st = Ok (sel', st') → tokens st' = tokens st.
Proof.
  revert sel sel' st st'. induction fuel as [|fuel IH]; intros sel sel' st st' H;
    simpl in H; pinv; try congruence.
  all: match goal with
       | H : parse_selector_loop _ _ _ = Ok _ |- _ => apply IH in H
       end; congruence.
Qed.

Lemma parse_selector_tokens (fuel : nat) (sel : string) (st st' : state) :
  parse_selector fuel st = Ok (sel, st') → tokens st' = tokens st.
Proof.
  unfold parse_selector. intros H. pinv.
  match goal with
  | H : parse_selector_loop _ _ _ = Ok _ |- _ => apply parse_selector_loop_tokens in H
  end. congruence.
Qed.

Lemma parse_block_keeps (fuel : nat) (st st' : state) (b : Block) :
  parse_block fuel st = Ok (b, st') → tokens st = toks →
  tokens st' = toks ∧ Forall (node_ok toks) (block_nodes b).
Proof. apply (proj1 (parser_keeps fuel)). Qed.

Lemma parse_method_keeps (fuel : nat) (st st' : state) (m : Method) :
  parse_method fuel st = Ok (m, st') → tokens st = toks →
  tokens st' = toks ∧ Forall (node_ok toks) (method_nodes m).
Proof.
  intros H Hst. unfold parse_method in H. pinv.
  match goal with
  | H : parse_selector _ _ = Ok _ |- _ => apply parse_selector_tokens in H
  end.
  match goal with
  | H : parse_block _ _ = Ok _ |- _ =>
      apply parse_block_keeps in H; [destruct H as [? ?]|congruence]
  end.
  split; [congruence|done].
Qed.

Lemma parse_methods_keeps (fuel : nat) (st st' : state) (l : list Method) :
  parse_methods fuel st = Ok (l, st') → tokens st = toks →
  tokens st' = toks ∧ Forall (node_ok toks) (flat_map method_nodes l).
Proof.
  revert st st' l.
  induction fuel as [|fuel IH]; intros st st' l H Hst; simpl in H; pinv;
    try (split; [congruence|constructor]).
  match goal with
  | H : parse_method _ _ = Ok _ |- _ =>
      apply parse_method_keeps in H; [destruct H as [? ?]|congruence]
  end.
  match goal with
  | H : parse_methods _ _ = Ok _ |- _ => apply IH in H; [destruct H as [? ?]|congruence]
  end.
  split; [congruence|]. simpl. by apply Forall_app.
Qed.

#[local] Arguments invalid_class_identifier : simpl never.

Lemma invalid_class_identifier_Ok (v : string) (b : bool) (st st' : state) :
  invalid_class_identifier v st = Ok (b, st') → st' = st.
Proof. unfold invalid_class_identifier. intros H. by pinv. Qed.

Lemma parse_class_keeps (fuel : nat) (st st' : state) (c : ClassDef) :
  parse_class fuel st = Ok (c, st') → tokens st = toks →
  tokens st' = toks ∧ Forall (node_ok toks) (class_nodes c).
Proof.
  intros H Hst. unfold parse_class in H. pinv.
  repeat match goal with
  | H : invalid_class_identifier _ _ = Ok _ |- _ =>
      apply invalid_class_identifier_Ok in H; psubst
  end.
  match goal with
  | H : parse_methods _ _ = Ok _ |- _ =>
      apply parse_methods_keeps in H; [destruct H as [? ?]|congruence]
  end.
  split; [congruence|done].
Qed.

Lemma parse_classes_keeps (fuel : nat) (st st' : state) (l : list ClassDef) :
  parse_classes fuel st = Ok (l, st') → tokens st = toks →
  tokens st' = toks ∧ Forall (node_ok toks) (flat_map class_nodes l).
Proof.
  revert st st' l.
  induction fuel as [|fuel IH]; intros st st' l H Hst; simpl in H; pinv;
    try (split; [congruence|constructor]).
  match goal with
  | H : parse_class _ _ = Ok _ |- _ =>
      apply parse_class_keeps in H; [destruct H as [? ?]|congruence]
  end.
  match goal with
  | H : parse_classes _ _ = Ok _ |- _ => apply IH in H; [destruct H as [? ?]|congruence]
  end.
  split; [congruence|]. simpl. by apply Forall_app.
Qed.

End Invariant.

Lemma node_ok_mono (toks toks' : list Token) (e : expr) :
  (∀ t, t ∈ toks → t ∈ toks') → node_ok toks e → node_ok toks' e.
Proof.
  intros Hsub (Ha & Hk & Hu). repeat split; try done.
  destruct e as [| | |selector target [|arg args] p]; simpl in *; try done.
  destruct Hu as (t & Hin & Ht). exists t. auto.
Qed.

(** Every node of a tree the parser returns is as [node_ok] says. *)
Lemma parse_nodes_ok (toks : list Token) (ast : Program) :
  Forall ident_ok toks → parse toks = Ok ast →
  Forall (node_ok toks) (program_nodes ast).
Proof.
  intros Hid H. unfold parse in H.
  set (toks' := filter (λ t, is_comment t = false) toks) in *.
  destruct (parse_classes _ _) as [[cs st']| | |] eqn:Hcs; try discriminate.
  injection H as <-.
  assert (Hid' : Forall ident_ok toks').
  { rewrite Forall_forall in Hid |- *. intros t Ht. apply Hid.
    unfold toks' in Ht. by apply list_elem_of_filter in Ht as [_ Ht]. }
  apply (parse_classes_keeps toks' Hid') in Hcs as [_ Hnodes]; [|reflexivity].
  unfold program_nodes. simpl.
  eapply Forall_impl; [exact Hnodes|].
  intros e. apply node_ok_mono. intros t Ht.
  unfold toks' in Ht. by apply list_elem_of_filter in Ht as [_ Ht].
Qed.

End ParserFacts.

(** ** Identifier tokens *)

Module TokenFacts.
Import Lexer.

Lemma ident_char_not_colon (c : ascii) : is_ident_char c = true → Ascii.eqb c colon = false.
Proof.
  intros H. destruct (Ascii.eqb c colon) eqn:Hc; [|reflexivity].
  apply Ascii.eqb_eq in Hc. subst c. vm_compute in H. discriminate H.
Qed.

Lemma all_ident_no_colon (v : string) :
  all_chars is_ident_char v = true → count_char colon v = 0.
Proof.
  induction v as [|c v IH]; simpl; [reflexivity|].
  intros H. apply andb_true_iff in H as [Hc Hv].
  by rewrite (ident_char_not_colon c Hc), IH.
Qed.

Lemma ident_start_char (c : ascii) : is_ident_start c = true → is_ident_char c = true.
Proof.
  unfold is_ident_start, is_ident_char.
  destruct (in_range 97 122 c), (in_range 65 90 c), (in_range 48 57 c); simpl; auto.
Qed.

Lemma re_ident_all (s v r : string) :
  re_ident s = Some (v, r) → all_chars is_ident_char v = true.
Proof.
  destruct s as [|c s]; simpl; [discriminate|].
  destruct (is_ident_start c) eqn:Hc; [|discriminate].
  unfold cons_match. intros [= <- <-]. simpl.
  by rewrite (ident_start_char c Hc), LexerFacts.span_all.
Qed.

Lemma tokenize_from_ident_ok (fuel : nat) (rest : string) (pos : nat) (toks : list Token) :
  tokenize_from fuel rest pos = Ok toks → Forall ident_ok toks.
Proof.
  revert rest pos toks. induction fuel as [|fuel IH]; intros rest pos toks;
    destruct rest as [|c rest]; simpl tokenize_from;
    try (intros [= <-]; constructor); try discriminate.
  destruct (master_pattern_match (String c rest)) as [[[ty v] r]|] eqn:Hm; [|discriminate].
  apply LexerFacts.master_pattern_match_cases in Hm as (_ & _ & Hid).
  intros Htok.
  destruct ty; try discriminate; eauto.
  all: repeat bind_inv Htok; injection Htok as <-; constructor; eauto.
  all: try (intros Hty; simpl in Hty; discriminate Hty).
  intros _. simpl. apply all_ident_no_colon. eapply re_ident_all. by apply Hid.
Qed.

Lemma tokenize_ident_ok (code : string) (toks : list Token) :
  tokenize code = Ok toks → Forall ident_ok toks.
Proof. apply tokenize_from_ident_ok. Qed.

End TokenFacts.

Lemma parse_source_Ok (code : string) (ast : Program) :
  parse_source code = Ok ast →
  ∃ toks, Lexer.tokenize code = Ok toks ∧ Parser.parse toks = Ok ast.
Proof. unfold parse_source. intros H. bind_inv H. eauto. Qed.

(** ** The sends of a parsed tree *)

(** C8: in every tree the parser returns for a source text, whether the
    semantic analysis accepts it or not, every send has as many
    arguments as its selector has colons. *)
Theorem C8_selector_arity (code : string) (ast : Program) :
  parse_source code = Ok ast →
  Forall send_arity_ok (program_nodes ast).
Proof.
  intros H. apply parse_source_Ok in H as (toks & Htok & Hparse).
  apply TokenFacts.tokenize_ident_ok in Htok.
  eapply Forall_impl; [eapply ParserFacts.parse_nodes_ok; eauto|].
  intros e He. apply He.
Qed.

Lemma C8_selector_arity_witness :
  Forall send_arity_ok
    (program_nodes
       (mkProgram
          [mkClassDef "Main" "Object"
             [mkMethod "run"
                (mkBlock []
                   [mkAssignment "y" 23
                      (Send "bar"
                         (Send "x:foo:" (Var "self" 26)
                            [Literal "Integer" "1" 33;
                             Send "plus:" (Literal "Integer" "3" 40)
                               [Literal "Integer" "4" 47] 40] 26) [] 50) 1])]]
          None)).
Proof.
  apply (C8_selector_arity "class Main:Object{run[|y:=self x:1 foo:(3 plus:4) bar.]}").
  vm_compute. reflexivity.
Defined.




(** ** Induction on expressions *)

Section expr_induction.
Context (P : expr → Prop) (Q : Block → Prop) (R : Assignment → Prop).
Context (HVar : ∀ n p, P (Var n p)).
Context (HLiteral : ∀ c v p, P (Literal c v p)).
Context (HBlockExpr : ∀ b, Q b → P (BlockExpr b)).
Context (HSend : ∀ s t args p, P t → Forall P args → P (Send s t args p)).
Context (HBlock : ∀ ps asg, Forall R asg → Q (mkBlock ps asg)).
Context (HAssign : ∀ n p e o, P e → R (mkAssignment n p e o)).

Fixpoint expr_mutind (e : expr) {struct e} : P e :=
  match e with
  | Var n p => HVar n p
  | Literal c v p => HLiteral c v p
  | BlockExpr b => HBlockExpr b (block_mutind b)
  | Send s t args p =>
      HSend s t args p (expr_mutind t)
        ((fix for_args (l : list expr) {struct l} : Forall P l :=
            match l with
            | [] => List.Forall_nil P
            | a :: l' => @List.Forall_cons _ P a l' (expr_mutind a) (for_args l')
            end) args)
  end

with block_mutind (b : Block) {struct b} : Q b :=
  match b with
  | mkBlock ps asg =>
      HBlock ps asg
        ((fix for_assigns (l : list Assignment) {struct l} : Forall R l :=
            match l with
            | [] => List.Forall_nil R
            | a :: l' => @List.Forall_cons _ R a l' (assign_mutind a) (for_assigns l')
            end) asg)
  end

with assign_mutind (a : Assignment) {struct a} : R a :=
  match a with
  | mkAssignment n p e o => HAssign n p e o (expr_mutind e)
  end.

End expr_induction.

Module AnalyzerFacts.
Import SemanticAnalyzer.

#[local] Arguments names : simpl never.
#[local] Arguments bump : simpl never.

Lemma set_dynamic_attrs_id (self : analyzer) : set_dynamic_attrs self (dynamic_attrs self) = self.
Proof. by destruct self. Qed.

Lemma bump_empty (self : analyzer) (k : string) : bump self k ∅ = self.
Proof.
  unfold bump. destruct (dynamic_attrs self !! k) as [attrs|] eqn:Hk.
  - rewrite (right_id_L ∅ (∪)), insert_id by done. apply set_dynamic_attrs_id.
  - apply set_dynamic_attrs_id.
Qed.

Lemma bump_bump (self : analyzer) (k : string) (N1 N2 : gset string) :
  bump (bump self k N1) k N2 = bump self k (N1 ∪ N2).
Proof.
  unfold bump, set_dynamic_attrs. simpl.
  destruct (dynamic_attrs self !! k) as [attrs|] eqn:Hk.
  - rewrite lookup_insert_eq, insert_insert_eq, (assoc_L (∪)). reflexivity.
  - rewrite Hk. reflexivity.
Qed.

Lemma add_dynamic_attr_bump (self self' : analyzer) (k a : string) :
  add_dynamic_attr self k a = Ok self' → self' = bump self k {[a]}.
Proof.
  unfold add_dynamic_attr, bump. destruct (dynamic_attrs self !! k); [|discriminate].
  by intros [= <-].
Qed.

Lemma names_nil : names [] = ∅.
Proof. reflexivity. Qed.

Lemma names_app (l1 l2 : list expr) : names (l1 ++ l2) = names l1 ∪ names l2.
Proof. unfold names. by rewrite omap_app, list_to_set_app_L. Qed.

Lemma names_cons (e : expr) (l : list expr) :
  names (e :: l) = match registers e with Some a => {[a]} | None => ∅ end ∪ names l.
Proof.
  unfold names. simpl. destruct (registers e); simpl; [reflexivity|].
  by rewrite (left_id_L ∅ (∪)).
Qed.


Lemma collect_Send (self : analyzer) (selector : string) (target : expr)
    (args : list expr) (p : nat) (C : ClassDef) :
  collect_dynamic_attributes_expr self (Send selector target args p) C
  = (self <- (if is_self target && endswith colon selector
              then add_dynamic_attr self (cls_name C) (drop_last selector)
              else Ok self) ;;
     self <- collect_dynamic_attributes_expr self target C ;;
     collect_args C self args).
Proof. reflexivity. Qed.

Lemma collect_mkBlock (self : analyzer) (ps : list Param) (asg : list Assignment)
    (C : ClassDef) :
  collect_dynamic_attributes self (mkBlock ps asg) C = collect_assigns C self asg.
Proof. reflexivity. Qed.

Lemma collect_args_bump (C : ClassDef) (args : list expr) :
  Forall (λ e, ∀ self self', collect_dynamic_attributes_expr self e C = Ok self' →
                             self' = bump self (cls_name C) (names (expr_nodes e))) args →
  ∀ self self', collect_args C self args = Ok self' →
                self' = bump self (cls_name C) (names (flat_map expr_nodes args)).
Proof.
  induction 1 as [|e args He _ IH]; intros self self' H; simpl in H.
  - injection H as <-. simpl. by rewrite names_nil, bump_empty.
  - bind_inv H. apply He in Hstep. apply IH in H. subst.
    simpl. by rewrite bump_bump, names_app.
Qed.

Lemma collect_assigns_bump (C : ClassDef) (asg : list Assignment) :
  Forall (λ a, ∀ self self', collect_dynamic_attributes_assign self a C = Ok self' →
                             self' = bump self (cls_name C) (names (assign_nodes a))) asg →
  ∀ self self', collect_assigns C self asg = Ok self' →
                self' = bump self (cls_name C) (names (flat_map assign_nodes asg)).
Proof.
  induction 1 as [|a asg Ha _ IH]; intros self self' H; simpl in H.
  - injection H as <-. simpl. by rewrite names_nil, bump_empty.
  - bind_inv H. apply Ha in Hstep. apply IH in H. subst.
    simpl. by rewrite bump_bump, names_app.
Qed.

(** The first traversal adds to the set of the class the attributes
    that the nodes of the expression register, and nothing else. *)
Lemma collect_expr_bump (C : ClassDef) (e : expr) (self self' : analyzer) :
  collect_dynamic_attributes_expr self e C = Ok self' →
  self' = bump self (cls_name C) (names (expr_nodes e)).
Proof.
  revert self self'.
  induction e as [n p|c v p|b IHb|s t args p IHt IHargs|ps asg IHasg|n p e o IHe]
    using expr_mutind with
    (Q := λ b, ∀ self self', collect_dynamic_attributes self b C = Ok self' →
                             self' = bump self (cls_name C) (names (block_nodes b)))
    (R := λ a, ∀ self self', collect_dynamic_attributes_assign self a C = Ok self' →
                             self' = bump self (cls_name C) (names (assign_nodes a)));
    intros self self' Hc.
  - simpl in Hc. injection Hc as <-. simpl. rewrite names_cons. simpl.
    by rewrite (left_id_L ∅ (∪)), names_nil, bump_empty.
  - simpl in Hc. injection Hc as <-. simpl. rewrite names_cons. simpl.
    by rewrite (left_id_L ∅ (∪)), names_nil, bump_empty.
  - simpl in Hc. apply IHb in Hc. subst. simpl. rewrite names_cons. simpl.
    by rewrite (left_id_L ∅ (∪)).
  - rewrite collect_Send in Hc. bind_inv Hc. bind_inv Hc.
    apply IHt in Hstep0. eapply collect_args_bump in Hc; [|eassumption].
    rewrite ParserFacts.expr_nodes_Send, names_cons, names_app. subst.
    rewrite !bump_bump. unfold registers.
    destruct (is_self t && endswith colon s).
    + apply add_dynamic_attr_bump in Hstep. subst. by rewrite bump_bump, !(assoc_L (∪)).
    + injection Hstep as <-. by rewrite (left_id_L ∅ (∪)).
  - rewrite collect_mkBlock in Hc. eapply collect_assigns_bump in Hc; eauto.
  - simpl in Hc. by apply IHe in Hc.
Qed.

Lemma collect_block_bump (C : ClassDef) (b : Block) (self self' : analyzer) :
  collect_dynamic_attributes self b C = Ok self' →
  self' = bump self (cls_name C) (names (block_nodes b)).
Proof.
  destruct b as [ps asg]. rewrite collect_mkBlock. apply collect_assigns_bump.
  apply Forall_forall. intros [n p e o] _ s s' H. simpl in H.
  by apply collect_expr_bump in H.
Qed.


Lemma lookup_bump (self : analyzer) (k k' : string) (N : gset string) :
  dynamic_attrs (bump self k N) !! k'
  = if decide (k = k') then (λ attrs, attrs ∪ N) <$> dynamic_attrs self !! k'
    else dynamic_attrs self !! k'.
Proof.
  unfold bump. simpl. destruct (decide (k = k')) as [->|Hne].
  - destruct (dynamic_attrs self !! k') eqn:Hk; simpl.
    + by rewrite lookup_insert_eq.
    + by rewrite Hk.
  - destruct (dynamic_attrs self !! k); [|done]. by rewrite lookup_insert_ne.
Qed.

Lemma collect_class_bump (C : ClassDef) (self self' : analyzer) :
  collect_class_dynamic_attributes self C = Ok self' →
  self' = bump self (cls_name C) (names (class_nodes C)).
Proof.
  unfold collect_class_dynamic_attributes, class_nodes.
  generalize (cls_methods C) as ms. intros ms. revert self self'.
  induction ms as [|m ms IH]; intros self self' H; simpl in H.
  - injection H as <-. simpl. by rewrite names_nil, bump_empty.
  - bind_inv H. apply collect_block_bump in Hstep. apply IH in H. subst.
    simpl. by rewrite bump_bump, names_app.
Qed.

Lemma collect_all_lookup (cs : list ClassDef) (self self' : analyzer) (k : string) :
  collect_all self cs = Ok self' →
  dynamic_attrs self' !! k = (λ attrs, attrs ∪ class_attrs cs k) <$> dynamic_attrs self !! k.
Proof.
  revert self self'. induction cs as [|C cs IH]; intros self self' H; simpl in H.
  - injection H as <-. unfold class_attrs. simpl.
    destruct (dynamic_attrs self !! k); simpl; [|done]. by rewrite (right_id_L ∅ (∪)).
  - bind_inv H. apply collect_class_bump in Hstep. apply IH in H. subst.
    rewrite H, lookup_bump. unfold class_attrs. simpl.
    destruct (dynamic_attrs self !! k) as [attrs|]; simpl.
    + case_decide; case_bool_decide; try congruence; simpl; f_equal.
      * by rewrite (assoc_L (∪)).
      * by rewrite (left_id_L ∅ (∪)).
    + by case_decide.
Qed.

Lemma init_dynamic_attrs_lookup (cs : list ClassDef) (self : analyzer) (k : string) :
  dynamic_attrs (init_dynamic_attrs self cs) !! k
  = if bool_decide (k ∈ map cls_name cs) then Some ∅ else dynamic_attrs self !! k.
Proof.
  unfold init_dynamic_attrs. simpl. generalize (dynamic_attrs self) as d.
  induction cs as [|C cs IH]; intros d; simpl.
  - done.
  - rewrite IH. destruct (decide (k ∈ map cls_name cs)) as [Hin|Hnotin].
    + rewrite !bool_decide_eq_true_2; [done| |done]. by apply list_elem_of_further.
    + rewrite (bool_decide_eq_false_2 _ Hnotin).
      destruct (decide (k = cls_name C)) as [->|Hne].
      * rewrite lookup_insert_eq, bool_decide_eq_true_2; [done|]. apply list_elem_of_here.
      * rewrite lookup_insert_ne by done. rewrite bool_decide_eq_false_2; [done|].
        intros Hin. apply elem_of_cons in Hin as [?|?]; done.
Qed.

Lemma class_attrs_NoDup (cs : list ClassDef) (C : ClassDef) :
  NoDup (map cls_name cs) → C ∈ cs →
  class_attrs cs (cls_name C) = names (class_nodes C).
Proof.
  unfold class_attrs. induction cs as [|C0 cs IH]; intros Hnd HC; [inversion HC|].
  simpl in *. apply NoDup_cons in Hnd as [Hnotin Hnd].
  apply elem_of_cons in HC as [->|HC].
  - rewrite bool_decide_eq_true_2 by done.
    assert (Hrest : ⋃ map (λ C, if bool_decide (cls_name C = cls_name C0)
                                then names (class_nodes C) else ∅) cs = (∅ : gset string)).
    { clear IH Hnd. induction cs as [|C1 cs IH]; simpl; [done|].
      rewrite bool_decide_eq_false_2.
      - rewrite IH; [by rewrite (left_id_L ∅ (∪))|].
        intros Hin. apply Hnotin. simpl. by apply list_elem_of_further.
      - intros Heq. apply Hnotin. simpl. rewrite <- Heq. apply list_elem_of_here. }
    by rewrite Hrest, (right_id_L ∅ (∪)).
  - rewrite bool_decide_eq_false_2.
    + by rewrite (left_id_L ∅ (∪)), IH.
    + intros Heq. apply Hnotin. rewrite Heq. by apply list_elem_of_fmap_2.
Qed.

Lemma check_duplicate_classes_NoDup (cs : list ClassDef) (seen : gmap string ClassDef)
    (order : list string) (r : gmap string ClassDef * list string) :
  check_duplicate_classes cs seen order = Ok r →
  NoDup (map cls_name cs) ∧ ∀ C, C ∈ cs → seen !! cls_name C = None.
Proof.
  revert seen order. induction cs as [|C0 cs IH]; intros seen order H; simpl in H.
  - split; [constructor|]. intros C HC. inversion HC.
  - case_bool_decide as Hseen; [discriminate|].
    apply IH in H as [Hnd Hfresh]. split.
    + simpl. apply NoDup_cons. split; [|done].
      intros Hin. apply list_elem_of_fmap in Hin as (C & Heq & HC).
      specialize (Hfresh C HC). rewrite <- Heq, lookup_insert_eq in Hfresh. discriminate.
    + intros C HC. apply elem_of_cons in HC as [->|HC].
      * destruct (seen !! cls_name C0) eqn:E; [|done]. exfalso. apply Hseen. eauto.
      * specialize (Hfresh C HC). destruct (decide (cls_name C0 = cls_name C)) as [Heq|Hne].
        -- rewrite Heq, lookup_insert_eq in Hfresh. discriminate.
        -- by rewrite lookup_insert_ne in Hfresh.
Qed.

(** The analyzer after the harvest: the classes have distinct names, and
    the set of every class holds the attributes its nodes register, no
    more and no less. *)
Lemma prepare_Ok (p : Program) (self : analyzer) :
  prepare p = Ok self →
  NoDup (map cls_name (classes p))
  ∧ ∀ C, C ∈ classes p →
         dynamic_attrs self !! cls_name C = Some (names (class_nodes C)).
Proof.
  unfold prepare. intros H. bind_inv H. bind_inv H. bind_inv H. bind_inv H.
  bind_inv H. bind_inv H.
  apply check_duplicate_classes_NoDup in Hstep as [Hnd _].
  split; [done|]. intros C HC. unfold harvest in H.
  rewrite (collect_all_lookup _ _ _ (cls_name C) H), init_dynamic_attrs_lookup.
  rewrite bool_decide_eq_true_2 by (by apply list_elem_of_fmap_2).
  simpl. by rewrite (left_id_L ∅ (∪)), class_attrs_NoDup.
Qed.

Lemma analyze_prepare (p : Program) (self' : analyzer) :
  analyze p = Ok self' →
  ∃ self, prepare p = Ok self ∧ analyze_classes self (classes p) = Ok self'.
Proof.
  unfold analyze, prepare. intros H.
  bind_inv H. rewrite Hstep. simpl.
  bind_inv H. rewrite Hstep0. simpl.
  bind_inv H. rewrite Hstep1. simpl.
  bind_inv H. rewrite Hstep2. simpl.
  bind_inv H. rewrite Hstep3. simpl.
  bind_inv H. rewrite Hstep4. simpl.
  bind_inv H. rewrite Hstep5. simpl. eauto.
Qed.


Lemma bump_subset (self : analyzer) (k : string) (attrs N : gset string) :
  dynamic_attrs self !! k = Some attrs → N ⊆ attrs → bump self k N = self.
Proof.
  intros Hk HN. unfold bump. rewrite Hk.
  replace (attrs ∪ N) with attrs by set_solver.
  rewrite insert_id by done. apply set_dynamic_attrs_id.
Qed.

Lemma analyze_Send (self : analyzer) (selector : string) (target : expr)
    (args : list expr) (p : nat) (env : gmap string role) (C : ClassDef) :
  analyze_expr self (Send selector target args p) env C
  = ((if mem_string selector reserved then error_exit ERR_SYNTACTIC else Ok tt) ;;
     self <- analyze_expr self target env C ;;
     self <- analyze_args env C self args ;;
     self <- (if is_self target
              then analyze_self_send self selector (List.length args) C
              else Ok self) ;;
     match target with
     | Literal literal_class cls_name _ =>
         (if String.eqb literal_class "class"
          then require_method self cls_name selector else Ok tt) ;;
         Ok self
     | Var cls_name _ =>
         upper <- var_isupper cls_name ;;
         (if upper then require_method self cls_name selector else Ok tt) ;;
         Ok self
     | _ => Ok self
     end).
Proof. reflexivity. Qed.

Lemma visited_nodes_Send (selector : string) (target : expr) (args : list expr) (p : nat) :
  visited_nodes (Send selector target args p)
  = Send selector target args p :: visited_nodes target ++ flat_map visited_nodes args.
Proof. reflexivity. Qed.

Lemma analyze_self_send_Ok (self self' : analyzer) (selector : string) (target : expr)
    (args : list expr) (p : nat) (C : ClassDef) (attrs : gset string) :
  dynamic_attrs self !! cls_name C = Some attrs →
  names [Send selector target args p] ⊆ attrs →
  (if is_self target then analyze_self_send self selector (List.length args) C
   else Ok self) = Ok self' →
  self' = self ∧ node_checked self C (Send selector target args p).
Proof.
  intros Hk Hsub H. unfold node_checked.
  destruct (is_self target) eqn:Hself; [|injection H as <-; split; [done|discriminate]].
  unfold analyze_self_send in H.
  destruct (find_method (cls_methods C) selector) as [m|] eqn:Hm.
  - case_bool_decide; [discriminate|]. injection H as <-. split; [done|discriminate].
  - destruct (endswith colon selector) eqn:Hend.
    + case_bool_decide as Hn; [discriminate|].
      apply add_dynamic_attr_bump in H. subst self'. split.
      * eapply bump_subset; [eassumption|].
        rewrite names_cons in Hsub. unfold registers in Hsub.
        rewrite Hself, Hend in Hsub. simpl in Hsub. set_solver.
      * intros _ _. first [done | by apply dec_stable in Hn].
    + case_bool_decide as Hn; [discriminate|]. rewrite Hk in H.
      case_bool_decide as Hin; [discriminate|]. injection H as <-.
      split; [done|]. intros _ _. split; [first [done | by apply dec_stable in Hn]|].
      exists attrs. split; [done|]. first [done | by apply dec_stable in Hin].
Qed.

Lemma analyze_args_Ok (C : ClassDef) (attrs : gset string) (env : gmap string role)
    (args : list expr) :
  Forall (λ e, ∀ self self', dynamic_attrs self !! cls_name C = Some attrs →
                 names (expr_nodes e) ⊆ attrs →
                 analyze_expr self e env C = Ok self' →
                 self' = self ∧ Forall (node_checked self C) (visited_nodes e)) args →
  ∀ self self', dynamic_attrs self !! cls_name C = Some attrs →
    names (flat_map expr_nodes args) ⊆ attrs →
    analyze_args env C self args = Ok self' →
    self' = self ∧ Forall (node_checked self C) (flat_map visited_nodes args).
Proof.
  induction 1 as [|e args He _ IH]; intros self self' Hk Hsub H; simpl in H.
  - injection H as <-. split; [done|constructor].
  - bind_inv H. simpl in Hsub. rewrite names_app in Hsub.
    apply He in Hstep as [-> Hv]; [|done|set_solver].
    apply IH in H as [-> Hvs]; [|done|set_solver].
    split; [done|]. simpl. by apply Forall_app.
Qed.

(** In an analyzer that holds the attributes of the class, the second
    traversal changes nothing and checks every node it visits. *)
Lemma analyze_expr_Ok (C : ClassDef) (attrs : gset string) (env : gmap string role)
    (e : expr) (self self' : analyzer) :
  dynamic_attrs self !! cls_name C = Some attrs →
  names (expr_nodes e) ⊆ attrs →
  analyze_expr self e env C = Ok self' →
  self' = self ∧ Forall (node_checked self C) (visited_nodes e).
Proof.
  revert self self'.
  induction e as [n p|c v p|b _|s t args p IHt IHargs|ps asg _|n p e o _]
    using expr_mutind with (Q := λ _, True) (R := λ _, True);
    try done; intros self self' Hk Hsub Ha.
  - simpl in Ha. split; [|by repeat constructor].
    case_bool_decide; [by injection Ha|]. bind_inv Ha.
    destruct a; [|discriminate]. case_bool_decide; [discriminate|]. by injection Ha.
  - simpl in Ha. split; [|by repeat constructor].
    destruct (_ && _); [discriminate|]. by injection Ha.
  - simpl in Ha. injection Ha as <-. split; [done|by repeat constructor].
  - rewrite analyze_Send in Ha. rewrite ParserFacts.expr_nodes_Send in Hsub.
    rewrite names_cons, names_app in Hsub.
    bind_inv Ha. bind_inv Ha. bind_inv Ha. bind_inv Ha.
    apply IHt in Hstep0 as [-> Hvt]; [|done|set_solver].
    eapply analyze_args_Ok in Hstep1 as [-> Hvargs]; [|eassumption|done|set_solver].
    eapply (analyze_self_send_Ok _ _ s t args p) in Hstep2 as [-> Hnode];
      [|eassumption|rewrite names_cons, names_nil; set_solver].
    assert (self' = self) as ->.
    { destruct t; try (by injection Ha).
      - bind_inv Ha. bind_inv Ha. by injection Ha.
      - bind_inv Ha. by injection Ha. }
    split; [done|]. rewrite visited_nodes_Send. constructor; [done|].
    by apply Forall_app.
Qed.

Lemma analyze_assigns_Ok (C : ClassDef) (attrs : gset string) (asg : list Assignment) :
  ∀ (env : gmap string role) (self self' : analyzer),
    dynamic_attrs self !! cls_name C = Some attrs →
    names (flat_map assign_nodes asg) ⊆ attrs →
    analyze_assigns self asg env C = Ok self' →
    self' = self
    ∧ Forall (node_checked self C) (flat_map (λ a, visited_nodes (assign_expr a)) asg).
Proof.
  induction asg as [|a asg IH]; intros env self self' Hk Hsub H; simpl in H.
  - injection H as <-. split; [done|constructor].
  - case_bool_decide; [discriminate|]. bind_inv H.
    simpl in Hsub. rewrite names_app in Hsub. destruct a as [n p e o]. simpl in *.
    eapply analyze_expr_Ok in Hstep as [-> Hv]; [|eassumption|set_solver].
    apply IH in H as [-> Hvs]; [|done|set_solver].
    split; [done|]. by apply Forall_app.
Qed.

Lemma analyze_block_Ok (C : ClassDef) (attrs : gset string) (b : Block)
    (self self' : analyzer) :
  dynamic_attrs self !! cls_name C = Some attrs →
  names (block_nodes b) ⊆ attrs →
  analyze_block self b C = Ok self' →
  self' = self
  ∧ Forall (node_checked self C) (flat_map (λ a, visited_nodes (assign_expr a)) (assigns b)).
Proof.
  intros Hk Hsub H. unfold analyze_block in H. bind_inv H. bind_inv H.
  apply collect_block_bump in Hstep0.
  rewrite (bump_subset _ _ attrs) in Hstep0 by done. subst.
  destruct b as [ps asg]. eapply analyze_assigns_Ok in H; eauto.
Qed.

Lemma analyze_methods_Ok (C : ClassDef) (attrs : gset string) (ms : list Method)
    (self self' : analyzer) :
  dynamic_attrs self !! cls_name C = Some attrs →
  names (flat_map method_nodes ms) ⊆ attrs →
  analyze_methods self ms C = Ok self' →
  self' = self ∧ Forall (node_checked self C) (flat_map method_visited_nodes ms).
Proof.
  revert self self'. induction ms as [|m ms IH]; intros self self' Hk Hsub H; simpl in H.
  - injection H as <-. split; [done|constructor].
  - bind_inv H. simpl in Hsub. rewrite names_app in Hsub.
    eapply analyze_block_Ok in Hstep as [-> Hv]; [|eassumption|set_solver].
    apply IH in H as [-> Hvs]; [|done|set_solver].
    split; [done|]. simpl. by apply Forall_app.
Qed.

Lemma analyze_classes_Ok (cs : list ClassDef) (self self' : analyzer) :
  (∀ C, C ∈ cs → dynamic_attrs self !! cls_name C = Some (names (class_nodes C))) →
  analyze_classes self cs = Ok self' →
  self' = self ∧ ∀ C, C ∈ cs → Forall (node_checked self C) (class_visited_nodes C).
Proof.
  revert self self'. induction cs as [|C0 cs IH]; intros self self' Hk H; simpl in H.
  - injection H as <-. split; [done|]. intros C HC. inversion HC.
  - bind_inv H.
    eapply analyze_methods_Ok in Hstep as [-> Hv];
      [|apply Hk, list_elem_of_here|reflexivity].
    apply IH in H as [-> Hvs]; [|intros C HC; by apply Hk, list_elem_of_further].
    split; [done|]. intros C HC. apply elem_of_cons in HC as [->|HC]; auto.
Qed.

(** The whole analysis: the analyzer it returns is the analyzer after
    the harvest, and every node the second traversal visits is checked
    against it. *)
Lemma analyze_Ok (p : Program) (self : analyzer) :
  analyze p = Ok self →
  prepare p = Ok self
  ∧ ∀ C, C ∈ classes p → Forall (node_checked self C) (class_visited_nodes C).
Proof.
  intros H. apply analyze_prepare in H as (self0 & Hprep & H).
  pose proof (prepare_Ok _ _ Hprep) as [_ Hk].
  apply analyze_classes_Ok in H as [-> Hv]; auto.
Qed.


Lemma elem_of_names (a : string) (l : list expr) :
  a ∈ names l ↔ ∃ e, e ∈ l ∧ registers e = Some a.
Proof. unfold names. rewrite elem_of_list_to_set, list_elem_of_omap. done. Qed.

Lemma registers_Some (e : expr) (a : string) :
  registers e = Some a ↔
  ∃ selector target args pos,
    e = Send selector target args pos ∧ is_self target = true
    ∧ endswith colon selector = true ∧ a = drop_last selector.
Proof.
  split.
  - destruct e as [| | |selector target args pos]; simpl; try discriminate.
    destruct (is_self target) eqn:Hs; [|discriminate].
    destruct (endswith colon selector) eqn:He; [|discriminate].
    intros [= <-]. by exists selector, target, args, pos.
  - intros (selector & target & args & pos & -> & Hs & He & ->). simpl.
    by rewrite Hs, He.
Qed.

Lemma endswith_append (x : string) : endswith colon (x +:+ ":") = true.
Proof.
  induction x as [|c x IH]; [reflexivity|].
  rewrite LexerFacts.append_cons. simpl. rewrite IH.
  by destruct (x +:+ ":") eqn:E; [destruct x; discriminate|].
Qed.

Lemma drop_last_append (x : string) : drop_last (x +:+ ":") = x.
Proof.
  induction x as [|c x IH]; [reflexivity|].
  rewrite LexerFacts.append_cons. simpl. rewrite IH.
  by destruct (x +:+ ":") eqn:E; [destruct x; discriminate|].
Qed.

Lemma endswith_drop_last (s : string) :
  endswith colon s = true → s = drop_last s +:+ ":".
Proof.
  induction s as [|c s IH]; simpl; [discriminate|].
  destruct s as [|d s].
  - intros H. apply Ascii.eqb_eq in H. by subst.
  - intros H. rewrite LexerFacts.append_cons. f_equal. by apply IH.
Qed.

(** The attribute [x] is in the set of the class exactly when a message
    [x:] to [self] occurs in its methods. *)
Lemma elem_of_class_names (C : ClassDef) (x : string) :
  x ∈ names (class_nodes C) ↔ sends_to_self C (x +:+ ":").
Proof.
  unfold sends_to_self. rewrite elem_of_names. split.
  - intros (e & He & Hr). apply registers_Some in Hr
      as (selector & target & args & pos & -> & Hs & Hend & ->).
    exists target, args, pos. by rewrite <- endswith_drop_last.
  - intros (target & args & pos & Hin & Hs). eexists. split; [exact Hin|].
    simpl. by rewrite Hs, endswith_append, drop_last_append.
Qed.

Lemma find_method_has_method (ms : list Method) (x : string) :
  has_method ms x = false ↔ find_method ms x = None.
Proof.
  unfold has_method, find_method. induction ms as [|m ms IH]; simpl; [done|].
  destruct (String.eqb (m_selector m) x); simpl; [split; discriminate|done].
Qed.

(** The analysis of a getter [self x], for a name that is no reserved
    word and ends with no colon. *)
Lemma analyze_getter (self : analyzer) (C : ClassDef) (x : string) (p pos : nat)
    (env : gmap string role) :
  is_Some (env !! "self") → mem_string x reserved = false → endswith colon x = false →
  analyze_expr self (Send x (Var "self" p) [] pos) env C
  = analyze_self_send self x 0 C.
Proof.
  intros Henv Hres Hend. rewrite analyze_Send, Hres. simpl.
  rewrite bool_decide_eq_true_2 by done. simpl.
  by destruct (analyze_self_send self x 0 C).
Qed.

End AnalyzerFacts.

Section DynamicAttributes.
Import SemanticAnalyzer.

(** ** The dynamic-attribute law *)

(** C1, counterexample: the message [self a: 1 b: 2] is accepted, since
    the class has a method [a:b:], and the harvest registers [a:b]. *)
Lemma C1_counterexample :
  ¬ registers_single_colon_only "class Main:Object{run[|x:=self a:1 b:2.]a:b:[:p :q|]}".
Proof.
  intros H.
  set (C := mkClassDef "Main" "Object"
       [mkMethod "run"
          (mkBlock []
             [mkAssignment "x" 23
                (Send "a:b:" (Var "self" 26)
                   [Literal "Integer" "1" 33; Literal "Integer" "2" 37] 26) 1]);
        mkMethod "a:b:" (mkBlock [mkParam "p" 1; mkParam "q" 2] [])]).
  destruct (analyze (mkProgram [C] None)) as [self| | |] eqn:Ha;
    try (vm_compute in Ha; discriminate Ha).
  pose proof (AnalyzerFacts.analyze_Ok _ _ Ha) as [Hprep _].
  apply AnalyzerFacts.prepare_Ok in Hprep as [_ Hk].
  specialize (H (mkProgram [C] None) self ltac:(vm_compute; reflexivity) Ha
                C "a:b:" (Var "self" 26)
                [Literal "Integer" "1" 33; Literal "Integer" "2" 37] 26
                (names (class_nodes C))).
  assert (Hcount : count_char colon "a:b:" = 1); [|discriminate Hcount].
  apply H.
  - apply list_elem_of_here.
  - apply list_elem_of_here.
  - reflexivity.
  - reflexivity.
  - apply Hk, list_elem_of_here.
  - apply AnalyzerFacts.elem_of_names. eexists. split; [apply list_elem_of_here|].
    reflexivity.
Qed.

(** C1, amended: in every program the analyzer accepts, the dynamic
    attributes of a class are the selectors, without the trailing colon,
    of the messages sent to [self] anywhere in its methods with a
    selector that ends with a colon, whatever the number of colons; and
    every such message that the analysis visits and that matches no
    method of the class has exactly one argument, since the setter check
    rejects any other number with ERR_ARITY. *)
Theorem C1_registered_attributes (ast : Program) (self : analyzer) (C : ClassDef) :
  analyze ast = Ok self → C ∈ classes ast →
  (∃ attrs, dynamic_attrs self !! cls_name C = Some attrs
     ∧ ∀ a, a ∈ attrs ↔
            ∃ selector target args pos,
              Send selector target args pos ∈ class_nodes C
              ∧ is_self target = true ∧ endswith colon selector = true
              ∧ a = drop_last selector)
  ∧ (∀ selector target args pos,
       Send selector target args pos ∈ class_visited_nodes C →
       is_self target = true → endswith colon selector = true →
       find_method (cls_methods C) selector = None →
       List.length args = 1)
  ∧ (∀ selector nargs,
       endswith colon selector = true → nargs ≠ 1 →
       find_method (cls_methods C) selector = None →
       analyze_self_send self selector nargs C = Exit ERR_ARITY).
Proof.
  intros Ha HC. apply AnalyzerFacts.analyze_Ok in Ha as [Hprep Hchecked].
  apply AnalyzerFacts.prepare_Ok in Hprep as [_ Hk].
  split; [|split].
  - exists (names (class_nodes C)). split; [by apply Hk|].
    intros a. rewrite AnalyzerFacts.elem_of_names. split.
    + intros (e & He & Hr). apply AnalyzerFacts.registers_Some in Hr
        as (selector & target & args & pos & -> & Hr).
      by exists selector, target, args, pos.
    + intros (selector & target & args & pos & Hin & Hr). eexists. split; [exact Hin|].
      apply AnalyzerFacts.registers_Some. by exists selector, target, args, pos.
  - intros selector target args pos Hin Hs Hend Hm.
    specialize (Hchecked C HC). rewrite Forall_forall in Hchecked.
    specialize (Hchecked _ Hin Hs Hm). by rewrite Hend in Hchecked.
  - intros selector nargs Hend Hn Hm. unfold analyze_self_send.
    rewrite Hm, Hend. by rewrite bool_decide_eq_true_2.
Qed.

Lemma C1_registered_attributes_witness :
  ∃ attrs,
    dynamic_attrs
      (ok_or (mkAnalyzer ∅ ∅ ∅ [])
         (analyze
            (mkProgram
               [mkClassDef "Main" "Object"
                  [mkMethod "run"
                     (mkBlock []
                        [mkAssignment "x" 23
                           (Send "a:b:" (Var "self" 26)
                              [Literal "Integer" "1" 33; Literal "Integer" "2" 37] 26) 1]);
                   mkMethod "a:b:" (mkBlock [mkParam "p" 1; mkParam "q" 2] [])]]
               None))) !! "Main" = Some attrs
    ∧ "a:b" ∈ attrs.
Proof.
  destruct (C1_registered_attributes
    (mkProgram
       [mkClassDef "Main" "Object"
          [mkMethod "run"
             (mkBlock []
                [mkAssignment "x" 23
                   (Send "a:b:" (Var "self" 26)
                      [Literal "Integer" "1" 33; Literal "Integer" "2" 37] 26) 1]);
           mkMethod "a:b:" (mkBlock [mkParam "p" 1; mkParam "q" 2] [])]]
       None)
    (ok_or (mkAnalyzer ∅ ∅ ∅ [])
       (analyze
          (mkProgram
             [mkClassDef "Main" "Object"
                [mkMethod "run"
                   (mkBlock []
                      [mkAssignment "x" 23
                         (Send "a:b:" (Var "self" 26)
                            [Literal "Integer" "1" 33; Literal "Integer" "2" 37] 26) 1]);
                 mkMethod "a:b:" (mkBlock [mkParam "p" 1; mkParam "q" 2] [])]]
             None)))
    (mkClassDef "Main" "Object"
       [mkMethod "run"
          (mkBlock []
             [mkAssignment "x" 23
                (Send "a:b:" (Var "self" 26)
                   [Literal "Integer" "1" 33; Literal "Integer" "2" 37] 26) 1]);
        mkMethod "a:b:" (mkBlock [mkParam "p" 1; mkParam "q" 2] [])])
    ltac:(vm_compute; reflexivity) ltac:(apply list_elem_of_here))
    as [(attrs & Hk & Hiff) _].
  exists attrs. split; [exact Hk|]. apply Hiff.
  exists "a:b:", (Var "self" 26), [Literal "Integer" "1" 33; Literal "Integer" "2" 37], 26.
  repeat split. apply list_elem_of_here.
Defined.

(** C2, counterexample: the class holds the setter [self nil: 1], and
    the getter [self nil] is rejected, with ERR_SYNTACTIC, because its
    selector is a reserved word. *)
Lemma C2_counterexample :
  ¬ dynamic_attribute_law "class Main:Object{run[|a:=self nil:1.b:=self nil.]}".
Proof.
  intros H.
  set (C := mkClassDef "Main" "Object"
       [mkMethod "run"
          (mkBlock []
             [mkAssignment "a" 23
                (Send "nil:" (Var "self" 26) [Literal "Integer" "1" 35] 26) 1;
              mkAssignment "b" 37 (Send "nil" (Var "self" 40) [] 45) 2])]).
  specialize (H (mkProgram [C] None)
                (ok_or (mkAnalyzer ∅ ∅ ∅ []) (prepare (mkProgram [C] None)))
                ltac:(vm_compute; reflexivity) ltac:(vm_compute; reflexivity)
                C "nil" (Var "self" 40) 45 {["self" := param]}).
  destruct H as [H _].
  - apply list_elem_of_here.
  - apply list_elem_of_further, list_elem_of_further, list_elem_of_further,
      list_elem_of_here.
  - reflexivity.
  - reflexivity.
  - assert (Hset : has_setter C "nil").
    { exists (Var "self" 26), (Literal "Integer" "1" 35), 26.
      split; [apply list_elem_of_here|reflexivity]. }
    specialize (H Hset). vm_compute in H. discriminate H.
Qed.

(** C2, amended: let [x] be a name that ends with no colon, and take
    the analyzer as it is during the second traversal.  If [x] is a
    reserved word, the getter [self x] ends the analysis with
    ERR_SYNTACTIC, before anything else is examined.  Otherwise: if the
    class defines no method [x], the getter is accepted when a message
    [x:] to [self] occurs anywhere in the methods of the class, before
    or after the getter, in the same method or in another one, and ends
    the analysis with ERR_UNDEFINED_VAR when none occurs; if the class
    defines a method [x], the getter is a call of it: accepted when the
    method has no parameter, ERR_ARITY otherwise.  The second traversal
    leaves the analyzer as the harvest left it, and in an accepted
    program every getter it visits, for which the class has no method,
    has such a message in the class. *)
Theorem C2_getter_needs_setter (ast : Program) (self : analyzer) (C : ClassDef)
    (x : string) (p pos : nat) (env : gmap string role) :
  prepare ast = Ok self → C ∈ classes ast →
  is_Some (env !! "self") → endswith colon x = false →
  (mem_string x reserved = true →
     analyze_expr self (Send x (Var "self" p) [] pos) env C = Exit ERR_SYNTACTIC)
  ∧ (mem_string x reserved = false →
     (find_method (cls_methods C) x = None → sends_to_self C (x +:+ ":") →
        analyze_expr self (Send x (Var "self" p) [] pos) env C = Ok self)
     ∧ (find_method (cls_methods C) x = None → ¬ sends_to_self C (x +:+ ":") →
        analyze_expr self (Send x (Var "self" p) [] pos) env C = Exit ERR_UNDEFINED_VAR)
     ∧ (∀ m, find_method (cls_methods C) x = Some m →
        analyze_expr self (Send x (Var "self" p) [] pos) env C
        = if bool_decide (List.length (parameters (m_block m)) ≠ 0)
          then Exit ERR_ARITY else Ok self)
     ∧ (∀ self', analyze ast = Ok self' →
          self' = self
          ∧ ∀ target pos',
              Send x target [] pos' ∈ class_visited_nodes C →
              is_self target = true → find_method (cls_methods C) x = None →
              sends_to_self C (x +:+ ":"))).
Proof.
  intros Hprep HC Henv Hend. split.
  { intros Hres. rewrite AnalyzerFacts.analyze_Send, Hres. reflexivity. }
  intros Hres.
  pose proof (AnalyzerFacts.prepare_Ok _ _ Hprep) as [_ Hk]. specialize (Hk C HC).
  rewrite (AnalyzerFacts.analyze_getter self C x p pos env Henv Hres Hend).
  unfold analyze_self_send. split; [|split; [|split]].
  - intros Hm Hset. rewrite Hm, Hend, Hk. simpl.
    rewrite bool_decide_eq_false_2; [done|].
    intros Hnot. apply Hnot. by apply AnalyzerFacts.elem_of_class_names.
  - intros Hm Hset. rewrite Hm, Hend, Hk. simpl.
    rewrite bool_decide_eq_true_2; [done|].
    intros Hin. apply Hset. by apply AnalyzerFacts.elem_of_class_names.
  - intros m Hm. by rewrite Hm.
  - intros self' Ha. apply AnalyzerFacts.analyze_Ok in Ha as [Hprep' Hchecked].
    rewrite Hprep in Hprep'. injection Hprep' as <-. split; [done|].
    intros target pos' Hin Hs Hm.
    specialize (Hchecked C HC). rewrite Forall_forall in Hchecked.
    specialize (Hchecked _ Hin Hs Hm). rewrite Hend in Hchecked.
    destruct Hchecked as (_ & attrs & Hk' & Hx).
    rewrite Hk in Hk'. injection Hk' as <-.
    by apply AnalyzerFacts.elem_of_class_names.
Qed.

Lemma C2_getter_needs_setter_witness :
  analyze_expr
    (ok_or (mkAnalyzer ∅ ∅ ∅ [])
       (prepare
          (mkProgram
             [mkClassDef "Main" "Object"
                [mkMethod "run"
                   (mkBlock []
                      [mkAssignment "b" 23 (Send "x" (Var "self" 26) [] 31) 1;
                       mkAssignment "a" 33
                         (Send "x:" (Var "self" 36) [Literal "Integer" "1" 43] 36) 2]);
                 mkMethod "get"
                   (mkBlock [] [mkAssignment "c" 51 (Send "x" (Var "self" 54) [] 59) 1])]]
             None)))
    (Send "x" (Var "self" 54) [] 59) {["self" := param]}
    (mkClassDef "Main" "Object"
       [mkMethod "run"
          (mkBlock []
             [mkAssignment "b" 23 (Send "x" (Var "self" 26) [] 31) 1;
              mkAssignment "a" 33
                (Send "x:" (Var "self" 36) [Literal "Integer" "1" 43] 36) 2]);
        mkMethod "get"
          (mkBlock [] [mkAssignment "c" 51 (Send "x" (Var "self" 54) [] 59) 1])])
  = Ok (ok_or (mkAnalyzer ∅ ∅ ∅ [])
       (prepare
          (mkProgram
             [mkClassDef "Main" "Object"
                [mkMethod "run"
                   (mkBlock []
                      [mkAssignment "b" 23 (Send "x" (Var "self" 26) [] 31) 1;
                       mkAssignment "a" 33
                         (Send "x:" (Var "self" 36) [Literal "Integer" "1" 43] 36) 2]);
                 mkMethod "get"
                   (mkBlock [] [mkAssignment "c" 51 (Send "x" (Var "self" 54) [] 59) 1])]]
             None)))
  ∧ analyze_expr
      (ok_or (mkAnalyzer ∅ ∅ ∅ [])
         (prepare
            (mkProgram
             [mkClassDef "Main" "Object"
                [mkMethod "run"
                   (mkBlock []
                      [mkAssignment "b" 23 (Send "x" (Var "self" 26) [] 31) 1;
                       mkAssignment "a" 33
                         (Send "x:" (Var "self" 36) [Literal "Integer" "1" 43] 36) 2]);
                 mkMethod "get"
                   (mkBlock [] [mkAssignment "c" 51 (Send "x" (Var "self" 54) [] 59) 1])]]
             None)))
      (Send "nil" (Var "self" 54) [] 59) {["self" := param]}
      (mkClassDef "Main" "Object"
       [mkMethod "run"
          (mkBlock []
             [mkAssignment "b" 23 (Send "x" (Var "self" 26) [] 31) 1;
              mkAssignment "a" 33
                (Send "x:" (Var "self" 36) [Literal "Integer" "1" 43] 36) 2]);
        mkMethod "get"
          (mkBlock [] [mkAssignment "c" 51 (Send "x" (Var "self" 54) [] 59) 1])])
    = Exit ERR_SYNTACTIC.
Proof.
  split.
  - destruct (C2_getter_needs_setter
                (mkProgram
             [mkClassDef "Main" "Object"
                [mkMethod "run"
                   (mkBlock []
                      [mkAssignment "b" 23 (Send "x" (Var "self" 26) [] 31) 1;
                       mkAssignment "a" 33
                         (Send "x:" (Var "self" 36) [Literal "Integer" "1" 43] 36) 2]);
                 mkMethod "get"
                   (mkBlock [] [mkAssignment "c" 51 (Send "x" (Var "self" 54) [] 59) 1])]]
             None)
                (ok_or (mkAnalyzer ∅ ∅ ∅ [])
                   (prepare
                      (mkProgram
             [mkClassDef "Main" "Object"
                [mkMethod "run"
                   (mkBlock []
                      [mkAssignment "b" 23 (Send "x" (Var "self" 26) [] 31) 1;
                       mkAssignment "a" 33
                         (Send "x:" (Var "self" 36) [Literal "Integer" "1" 43] 36) 2]);
                 mkMethod "get"
                   (mkBlock [] [mkAssignment "c" 51 (Send "x" (Var "self" 54) [] 59) 1])]]
             None)))
                (mkClassDef "Main" "Object"
       [mkMethod "run"
          (mkBlock []
             [mkAssignment "b" 23 (Send "x" (Var "self" 26) [] 31) 1;
              mkAssignment "a" 33
                (Send "x:" (Var "self" 36) [Literal "Integer" "1" 43] 36) 2]);
        mkMethod "get"
          (mkBlock [] [mkAssignment "c" 51 (Send "x" (Var "self" 54) [] 59) 1])])
                "x" 54 59 {["self" := param]}) as [_ H].
    + vm_compute. reflexivity.
    + apply list_elem_of_here.
    + exists param. reflexivity.
    + reflexivity.
    + destruct (H eq_refl) as [Hok _]. apply Hok; [reflexivity|].
      exists (Var "self" 36), [Literal "Integer" "1" 43], 36.
      split; [|reflexivity].
      apply list_elem_of_further, list_elem_of_further, list_elem_of_here.
  - destruct (C2_getter_needs_setter
                (mkProgram
             [mkClassDef "Main" "Object"
                [mkMethod "run"
                   (mkBlock []
                      [mkAssignment "b" 23 (Send "x" (Var "self" 26) [] 31) 1;
                       mkAssignment "a" 33
                         (Send "x:" (Var "self" 36) [Literal "Integer" "1" 43] 36) 2]);
                 mkMethod "get"
                   (mkBlock [] [mkAssignment "c" 51 (Send "x" (Var "self" 54) [] 59) 1])]]
             None)
                (ok_or (mkAnalyzer ∅ ∅ ∅ [])
                   (prepare
                      (mkProgram
             [mkClassDef "Main" "Object"
                [mkMethod "run"
                   (mkBlock []
                      [mkAssignment "b" 23 (Send "x" (Var "self" 26) [] 31) 1;
                       mkAssignment "a" 33
                         (Send "x:" (Var "self" 36) [Literal "Integer" "1" 43] 36) 2]);
                 mkMethod "get"
                   (mkBlock [] [mkAssignment "c" 51 (Send "x" (Var "self" 54) [] 59) 1])]]
             None)))
                (mkClassDef "Main" "Object"
       [mkMethod "run"
          (mkBlock []
             [mkAssignment "b" 23 (Send "x" (Var "self" 26) [] 31) 1;
              mkAssignment "a" 33
                (Send "x:" (Var "self" 36) [Literal "Integer" "1" 43] 36) 2]);
        mkMethod "get"
          (mkBlock [] [mkAssignment "c" 51 (Send "x" (Var "self" 54) [] 59) 1])])
                "nil" 54 59 {["self" := param]}) as [H _].
    + vm_compute. reflexivity.
    + apply list_elem_of_here.
    + exists param. reflexivity.
    + reflexivity.
    + apply H. reflexivity.
Defined.

End DynamicAttributes.

(** ** The document *)

Section element_induction.
Context (P : Element → Prop).
Context (Hnode : ∀ tag attrib children, Forall P children → P (mkElement tag attrib children)).

Fixpoint element_nested_ind (e : Element) {struct e} : P e :=
  match e with
  | mkElement tag attrib children =>
      Hnode tag attrib children
        ((fix for_children (l : list Element) {struct l} : Forall P l :=
            match l with
            | [] => List.Forall_nil P
            | c :: l' => @List.Forall_cons _ P c l' (element_nested_ind c) (for_children l')
            end) children)
  end.

End element_induction.

Module XmlFacts.
Import LexerFacts.

Lemma append_assoc (a b c : string) : (a +:+ b) +:+ c = a +:+ (b +:+ c).
Proof. induction a as [|d a IH]; [reflexivity|]. by rewrite !append_cons, IH. Qed.

Lemma string_bind_app (f : ascii → string) (a b : string) :
  string_bind f (a +:+ b) = string_bind f a +:+ string_bind f b.
Proof.
  induction a as [|c a IH]; [reflexivity|].
  rewrite append_cons. simpl. by rewrite IH, append_assoc.
Qed.

Lemma string_bind_bind (f g : ascii → string) (s : string) :
  string_bind f (string_bind g s) = string_bind (λ c, string_bind f (g c)) s.
Proof.
  induction s as [|c s IH]; [reflexivity|].
  simpl. by rewrite string_bind_app, IH.
Qed.

Lemma string_bind_ext (f g : ascii → string) (s : string) :
  (∀ c, f c = g c) → string_bind f s = string_bind g s.
Proof. intros H. induction s as [|c s IH]; [reflexivity|]. simpl. by rewrite H, IH. Qed.

Lemma startswith_char (c d : ascii) (s : string) :
  startswith (str_of_char c) (String d s) = Ascii.eqb d c.
Proof. simpl. rewrite andb_true_r. apply Ascii.eqb_sym. Qed.

(** The replacement of a character is a replacement character by
    character. *)
Lemma replace_char (old : ascii) (new s : string) :
  replace (str_of_char old) new s = string_bind (subst_char old new) s.
Proof.
  unfold replace. induction s as [|c s IH]; [reflexivity|].
  cbn [replace_from string_bind]. rewrite startswith_char. unfold subst_char.
  destruct (Ascii.eqb c old); simpl; by rewrite IH.
Qed.

Lemma literal_value_escaped (v : string) :
  escape_attrib (literal_value "String" v) = string_bind escaped_char v.
Proof.
  unfold escape_attrib, literal_value. simpl String.eqb. cbv iota.
  change "&" with (str_of_char "&"). change "<" with (str_of_char "<").
  change ">" with (str_of_char ">").
  rewrite !replace_char, !string_bind_bind.
  apply string_bind_ext. intros c.
  destruct c as [[] [] [] [] [] [] [] []]; vm_compute; reflexivity.
Qed.


(** A replacement that acts on the image of every character apart acts
    on the image of a text character by character. *)
Lemma replace_from_bind (pat rep : string) (G G' : ascii → string) (ok : ascii → bool) :
  (∀ c w, ok c = true →
          replace_from pat rep 0 (G c +:+ w) = G' c +:+ replace_from pat rep 0 w) →
  ∀ v w, all_chars ok v = true →
         replace_from pat rep 0 (string_bind G v +:+ w)
         = string_bind G' v +:+ replace_from pat rep 0 w.
Proof.
  intros Hchar v w. induction v as [|c v IH]; [reflexivity|].
  simpl. intros H. apply andb_true_iff in H as [Hc Hv].
  by rewrite !append_assoc, Hchar, IH.
Qed.

Lemma replace_bind (pat rep : string) (G G' : ascii → string) (ok : ascii → bool) (v : string) :
  (∀ c w, ok c = true →
          replace_from pat rep 0 (G c +:+ w) = G' c +:+ replace_from pat rep 0 w) →
  all_chars ok v = true →
  replace pat rep (string_bind G v) = string_bind G' v.
Proof.
  intros Hchar Hv. unfold replace.
  rewrite <- (append_nil_r (string_bind G v)), (replace_from_bind _ _ _ _ _ Hchar) by done.
  simpl. by rewrite append_nil_r.
Qed.

Lemma replace_apos_char (c : ascii) (w : string) :
  not_amp c = true →
  replace_from "&amp;apos;" (String backslash "&apos;") 0 (escaped_char c +:+ w)
  = unescaped_apos_char c +:+ replace_from "&amp;apos;" (String backslash "&apos;") 0 w.
Proof.
  destruct c as [[] [] [] [] [] [] [] []]; intros H;
    try discriminate H; vm_compute; reflexivity.
Qed.

Lemma replace_newline_char (c : ascii) (w : string) :
  not_amp c = true →
  replace_from "&#10;" (String backslash "n") 0 (unescaped_apos_char c +:+ w)
  = emitted_char c +:+ replace_from "&#10;" (String backslash "n") 0 w.
Proof.
  destruct c as [[] [] [] [] [] [] [] []]; intros H;
    try discriminate H; vm_compute; reflexivity.
Qed.

Lemma replace_nbsp_char (c : ascii) (w : string) :
  not_amp c = true →
  replace_from "&amp;nbsp;" " " 0 (emitted_char c +:+ w)
  = emitted_char c +:+ replace_from "&amp;nbsp;" " " 0 w.
Proof.
  destruct c as [[] [] [] [] [] [] [] []]; intros H;
    try discriminate H; vm_compute; reflexivity.
Qed.

(** The post-pass on the escaped value of a string literal without
    ampersand. *)
Lemma replacer_escaped (v : string) :
  all_chars not_amp v = true →
  replacer (string_bind escaped_char v) = string_bind emitted_char v.
Proof.
  intros Hv. unfold replacer.
  rewrite (replace_bind _ _ _ unescaped_apos_char not_amp) by
    (try done; apply replace_apos_char).
  apply (replace_bind _ _ _ _ not_amp); [apply replace_newline_char|done].
Qed.


Lemma length_append (a b : string) :
  String.length (a +:+ b) = String.length a + String.length b.
Proof. induction a as [|c a IH]; [reflexivity|]. rewrite append_cons. simpl. by rewrite IH. Qed.

Lemma until_dquote_app (E w : string) :
  all_chars not_dquote E = true →
  until_dquote (E +:+ String dquote w) = Some (E, w).
Proof.
  induction E as [|c E IH]; [reflexivity|].
  rewrite append_cons. simpl. unfold not_dquote at 1. intros H.
  apply andb_true_iff in H as [Hc HE]. apply negb_true_iff in Hc.
  by rewrite Hc, IH.
Qed.

(** A text without quote that is read up to a quote by a fixed text
    without quote, followed by a quote, is that text. *)
Lemma re_lit_quoted (lit E w : string) (r : string * string) :
  all_chars not_dquote lit = true → all_chars not_dquote E = true →
  Lexer.re_lit (lit +:+ str_of_char dquote) (E +:+ String dquote w) = Some r → E = lit.
Proof.
  revert E r. induction lit as [|a lit IH]; intros E r Hlit HE H.
  - destruct E as [|c E]; [reflexivity|]. exfalso.
    rewrite append_cons, append_nil in H. unfold str_of_char in H.
    simpl in HE. apply andb_true_iff in HE as [Hc _]. unfold not_dquote in Hc.
    apply negb_true_iff in Hc. rewrite Ascii.eqb_sym in Hc.
    cbn [Lexer.re_lit] in H. by rewrite Hc in H.
  - simpl in Hlit. apply andb_true_iff in Hlit as [Ha Hlit].
    unfold not_dquote in Ha. apply negb_true_iff in Ha.
    destruct E as [|c E].
    + exfalso. rewrite append_cons, append_nil in H. cbn [Lexer.re_lit] in H.
      by rewrite Ha in H.
    + rewrite !append_cons in H. simpl in HE.
      apply andb_true_iff in HE as [_ HE]. cbn [Lexer.re_lit] in H.
      destruct (Ascii.eqb a c) eqn:Hac; [|discriminate H].
      apply Ascii.eqb_eq in Hac as ->. destruct r as [rv rr].
      apply cons_match_fmap in H as (v' & _ & H).
      f_equal. eapply IH; eauto.
Qed.


Lemma find_value_tail (E rest : string) :
  all_chars not_dquote E = true → all_chars not_gt E = true →
  ends_ws_value_eq E = false →
  find_value (E +:+ String dquote (" />" +:+ rest)) = None.
Proof.
  induction E as [|c E IH]; intros Hdq Hgt Hends.
  - vm_compute. reflexivity.
  - simpl in Hdq, Hgt, Hends.
    apply andb_true_iff in Hdq as [_ Hdq]. apply andb_true_iff in Hgt as [Hc Hgt].
    apply orb_false_iff in Hends as [Hhere Hends].
    unfold not_gt in Hc. apply negb_true_iff in Hc.
    rewrite append_cons. cbn [find_value]. rewrite Hc, IH by done.
    unfold value_here. destruct (is_space c); [|reflexivity].
    destruct (Lexer.re_lit value_eq _) as [[m r]|] eqn:Hre; [|reflexivity].
    apply re_lit_quoted in Hre; [|reflexivity|done]. subst E. discriminate Hhere.
Qed.

Lemma find_value_prefix (a w p v r : string) :
  all_chars not_gt a = true →
  find_value w = Some (p, v, r) → find_value (a +:+ w) = Some (a +:+ p, v, r).
Proof.
  intros Ha Hw. induction a as [|c a IH]; [done|].
  simpl in Ha. apply andb_true_iff in Ha as [Hc Ha].
  unfold not_gt in Hc. apply negb_true_iff in Hc.
  rewrite !append_cons. cbn [find_value]. by rewrite Hc, IH.
Qed.

Lemma find_value_None_prefix (a w : string) :
  all_chars not_gt a = true → all_chars not_space a = true →
  find_value w = None → find_value (a +:+ w) = None.
Proof.
  intros Ha Hs Hw. induction a as [|c a IH]; [done|].
  simpl in Ha, Hs. apply andb_true_iff in Ha as [Hc Ha].
  apply andb_true_iff in Hs as [Hsc Hs].
  unfold not_gt in Hc. apply negb_true_iff in Hc.
  unfold not_space in Hsc. apply negb_true_iff in Hsc.
  rewrite !append_cons. cbn [find_value]. rewrite Hc, IH by done.
  unfold value_here. by rewrite Hsc.
Qed.

Lemma literal_text_shape (K E rest : string) :
  literal_text K E +:+ rest
  = "<literal" +:+ ((" class=" +:+ (str_of_char dquote +:+ (K +:+ str_of_char dquote)))
                    +:+ (" value=" +:+ String dquote (E +:+ String dquote (" />" +:+ rest)))).
Proof.
  unfold literal_text, q, str_of_char.
  rewrite !append_assoc, !append_cons, !append_nil. reflexivity.
Qed.

(** The pattern of the post-pass on a literal element finds the value
    attribute of the element, when the escaped value does not end with a
    whitespace character and [value=]. *)
Lemma match_literal_text (K E rest : string) :
  all_chars not_gt K = true →
  all_chars not_dquote E = true → all_chars not_gt E = true →
  ends_ws_value_eq E = false →
  match_literal (literal_text K E +:+ rest)
  = Some ("<literal class=" +:+ q K +:+ " value=" +:+ str_of_char dquote, E,
          " />" +:+ rest).
Proof.
  intros HK Hdq Hgt Hends.
  assert (Htail : find_value (" value=" +:+ String dquote (E +:+ String dquote (" />" +:+ rest)))
                  = Some (" value=" +:+ str_of_char dquote, E, " />" +:+ rest)).
  { change (" value=" +:+ String dquote (E +:+ String dquote (" />" +:+ rest)))
      with (String " " ("value=" +:+ String dquote (E +:+ String dquote (" />" +:+ rest)))).
    cbn [find_value]. change (Ascii.eqb " " ">") with false. cbv iota.
    change ("value=" +:+ String dquote (E +:+ String dquote (" />" +:+ rest)))
      with ((value_eq) +:+ (E +:+ String dquote (" />" +:+ rest))).
    rewrite find_value_None_prefix;
      [|reflexivity|reflexivity|by apply find_value_tail].
    unfold value_here. change (is_space " ") with true. cbv iota.
    assert (Hre : Lexer.re_lit value_eq (value_eq +:+ (E +:+ String dquote (" />" +:+ rest)))
                  = Some (value_eq, E +:+ String dquote (" />" +:+ rest))).
    { vm_compute. reflexivity. }
    rewrite Hre, until_dquote_app by done. reflexivity. }
  rewrite literal_text_shape. unfold match_literal.
  assert (Hlit : ∀ t, Lexer.re_lit "<literal" ("<literal" +:+ t) = Some ("<literal", t)).
  { intros t. vm_compute. reflexivity. }
  rewrite Hlit. rewrite (append_assoc " class="). rewrite (append_cons " " "class=").
  change (is_word " ") with false. cbv iota.
  rewrite <- (append_cons " " "class="), <- (append_assoc " class=").
  assert (Ha : all_chars not_gt
                 (" class=" +:+ (str_of_char dquote +:+ (K +:+ str_of_char dquote))) = true).
  { rewrite !LexerFacts.all_chars_app, HK. reflexivity. }
  rewrite (find_value_prefix _ _ _ _ _ Ha Htail).
  repeat f_equal; unfold q, str_of_char;
    rewrite ?append_assoc, ?append_cons, ?append_nil; reflexivity.
Qed.


Lemma sub_literals_skip (a w : string) :
  sub_literals (String.length a) (a +:+ w) = sub_literals 0 w.
Proof. induction a as [|c a IH]; [reflexivity|]. rewrite append_cons. simpl. exact IH. Qed.

Lemma match_literal_markup (c d : ascii) (m w : string) :
  (if Ascii.eqb c "<" then negb (Ascii.eqb d "l") else true) = true →
  match_literal (String c (String d m)) = None.
Proof.
  intros H. unfold match_literal. cbn [Lexer.re_lit].
  rewrite (Ascii.eqb_sym "<" c). destruct (Ascii.eqb c "<"); [|reflexivity].
  rewrite (Ascii.eqb_sym "l" d). apply negb_true_iff in H. by rewrite H.
Qed.

Lemma match_literal_single (c : ascii) (w : string) :
  Ascii.eqb c "<" = false → match_literal (String c w) = None.
Proof.
  intros H. unfold match_literal. cbn [Lexer.re_lit].
  by rewrite (Ascii.eqb_sym "<" c), H.
Qed.

(** The post-pass leaves markup as it is. *)
Lemma sub_literals_markup (m w : string) :
  markup m = true → sub_literals 0 (m +:+ w) = m +:+ sub_literals 0 w.
Proof.
  induction m as [|c m IH]; [reflexivity|].
  intros H. simpl in H. apply andb_true_iff in H as [Hc Hm].
  rewrite !append_cons. cbn [sub_literals].
  assert (Hnone : match_literal (String c (m +:+ w)) = None).
  { destruct (Ascii.eqb c "<") eqn:Hlt.
    - destruct m as [|d m]; [discriminate Hc|]. rewrite append_cons.
      apply (match_literal_markup c d (m +:+ w) w). by rewrite Hlt.
    - by apply match_literal_single. }
  by rewrite Hnone, IH.
Qed.

Lemma markup_app (a b : string) :
  markup a = true → markup b = true → markup (a +:+ b) = true.
Proof.
  intros Ha Hb. induction a as [|c a IH]; [done|].
  simpl in Ha. apply andb_true_iff in Ha as [Hc Ha].
  rewrite append_cons. simpl. rewrite IH by done. rewrite andb_true_r.
  destruct (Ascii.eqb c "<"); [|reflexivity].
  destruct a as [|d a]; [discriminate Hc|]. by rewrite append_cons.
Qed.

Lemma markup_no_lt (s : string) : all_chars not_lt s = true → markup s = true.
Proof.
  induction s as [|c s IH]; [reflexivity|].
  simpl. intros H. apply andb_true_iff in H as [Hc Hs].
  unfold not_lt in Hc. apply negb_true_iff in Hc. by rewrite Hc, IH.
Qed.

(** The post-pass on a literal element and the text after it. *)
Lemma sub_literals_literal (K E rest : string) :
  all_chars not_gt K = true →
  all_chars not_dquote E = true → all_chars not_gt E = true →
  ends_ws_value_eq E = false →
  sub_literals 0 (literal_text K E +:+ rest)
  = literal_text_post K E +:+ sub_literals 0 rest.
Proof.
  intros HK Hdq Hgt Hends.
  pose proof (match_literal_text K E rest HK Hdq Hgt Hends) as Hm.
  rewrite literal_text_shape in Hm |- *.
  change ("<literal" +:+ ?x) with (String "<" ("literal" +:+ x)) in Hm |- *.
  cbn [sub_literals]. rewrite Hm.
  set (a := "literal" +:+ ((" class=" +:+ (str_of_char dquote +:+ (K +:+ str_of_char dquote)))
                           +:+ (" value=" +:+ String dquote (E +:+ str_of_char dquote)))).
  assert (Hsplit : "literal" +:+ ((" class=" +:+ (str_of_char dquote +:+ (K +:+ str_of_char dquote)))
                     +:+ (" value=" +:+ String dquote (E +:+ String dquote (" />" +:+ rest))))
                   = a +:+ (" />" +:+ rest)).
  { unfold a, str_of_char. rewrite !append_assoc, !append_cons, !append_nil.
    rewrite !append_assoc, !append_cons, !append_nil. reflexivity. }
  rewrite Hsplit, length_append.
  replace (String.length a + String.length (" />" +:+ rest) - String.length (" />" +:+ rest))
    with (String.length a) by lia.
  rewrite sub_literals_skip.
  change (sub_literals 0 (" />" +:+ rest)) with (" />" +:+ sub_literals 0 rest).
  unfold literal_text_post, q, str_of_char.
  rewrite !append_assoc, !append_cons, !append_nil. reflexivity.
Qed.


Lemma all_chars_bind (P : ascii → bool) (f : ascii → string) (v : string) :
  (∀ c, all_chars P (f c) = true) → all_chars P (string_bind f v) = true.
Proof.
  intros H. induction v as [|c v IH]; [reflexivity|].
  simpl. by rewrite all_chars_app, H, IH.
Qed.

Lemma escape_attrib_bind (v : string) : escape_attrib v = string_bind attrib_char v.
Proof.
  unfold escape_attrib.
  change "&" with (str_of_char "&"). change "<" with (str_of_char "<").
  change ">" with (str_of_char ">").
  rewrite !replace_char, !string_bind_bind.
  apply string_bind_ext. intros c.
  destruct c as [[] [] [] [] [] [] [] []]; vm_compute; reflexivity.
Qed.

Lemma escape_attrib_not_lt (v : string) : all_chars not_lt (escape_attrib v) = true.
Proof.
  rewrite escape_attrib_bind. apply all_chars_bind. intros c.
  destruct c as [[] [] [] [] [] [] [] []]; vm_compute; reflexivity.
Qed.

Lemma escape_attrib_not_gt (v : string) : all_chars not_gt (escape_attrib v) = true.
Proof.
  rewrite escape_attrib_bind. apply all_chars_bind. intros c.
  destruct c as [[] [] [] [] [] [] [] []]; vm_compute; reflexivity.
Qed.

Lemma escape_attrib_not_dquote (v : string) : all_chars not_dquote (escape_attrib v) = true.
Proof.
  rewrite escape_attrib_bind. apply all_chars_bind. intros c.
  destruct c as [[] [] [] [] [] [] [] []]; vm_compute; reflexivity.
Qed.

Lemma tostring_node (tag : string) (attrib : list (string * string))
    (children : list Element) :
  tostring (mkElement tag attrib children)
  = match children with
    | [] => ("<" +:+ tag +:+ String.concat "" (map serialize_attrib attrib)) +:+ " />"
    | _ => ("<" +:+ tag +:+ String.concat "" (map serialize_attrib attrib)) +:+ ">"
           +:+ tostring_children children +:+ "</" +:+ tag +:+ ">"
    end.
Proof. by destruct children. Qed.

Lemma tostring_post_node (tag : string) (attrib : list (string * string))
    (children : list Element) :
  String.eqb tag "literal" = false →
  tostring_post (mkElement tag attrib children)
  = match children with
    | [] => ("<" +:+ tag +:+ String.concat "" (map serialize_attrib attrib)) +:+ " />"
    | _ => ("<" +:+ tag +:+ String.concat "" (map serialize_attrib attrib)) +:+ ">"
           +:+ tostring_post_children children +:+ "</" +:+ tag +:+ ">"
    end.
Proof. intros H. simpl. rewrite H. by destruct children. Qed.

Lemma tostring_literal (K v : string) :
  tostring (mkElement "literal" [("class", K); ("value", v)] [])
  = literal_text (escape_attrib K) (escape_attrib v).
Proof.
  rewrite tostring_node. unfold literal_text, serialize_attrib, q. simpl.
  rewrite !append_assoc, !append_cons, !append_nil. reflexivity.
Qed.

Lemma plain_tag_not_literal (tag : string) :
  plain_tag tag = true → String.eqb tag "literal" = false.
Proof.
  destruct tag as [|c tag]; [done|]. simpl. intros H.
  apply andb_true_iff in H as [Hc _]. apply negb_true_iff in Hc. by rewrite Hc.
Qed.

Lemma concat_attrib_not_lt (attrib : list (string * string)) :
  Forall (λ kv, all_chars not_lt (fst kv) = true) attrib →
  all_chars not_lt (String.concat "" (map serialize_attrib attrib)) = true.
Proof.
  induction 1 as [|[k v] attrib Hk _ IH]; [reflexivity|].
  assert (Hone : all_chars not_lt (serialize_attrib (k, v)) = true).
  { unfold serialize_attrib. simpl in *.
    by rewrite !all_chars_app, Hk, escape_attrib_not_lt. }
  simpl. destruct (map serialize_attrib attrib) eqn:E; [done|].
  rewrite !all_chars_app, Hone. simpl in IH |- *. by rewrite IH.
Qed.

Lemma markup_lt (d : ascii) (s : string) :
  Ascii.eqb d "l" = false → markup (String d s) = true →
  markup (String "<" (String d s)) = true.
Proof.
  intros Hd Hs.
  change (markup (String "<" (String d s)))
    with (negb (Ascii.eqb d "l") && markup (String d s)).
  by rewrite Hd, Hs.
Qed.

(** The start of an element with a plain tag is markup. *)
Lemma markup_start (tag : string) (attrib : list (string * string)) (close : string) :
  plain_tag tag = true →
  Forall (λ kv, all_chars not_lt (fst kv) = true) attrib →
  all_chars not_lt close = true →
  markup ("<" +:+ tag +:+ String.concat "" (map serialize_attrib attrib) +:+ close) = true.
Proof.
  intros Htag Hattrib Hclose. destruct tag as [|c tag]; [done|].
  unfold plain_tag in Htag. apply andb_true_iff in Htag as [Hc Htag].
  apply negb_true_iff in Hc.
  change (markup (String "<" (String c (tag +:+ String.concat "" (map serialize_attrib attrib) +:+ close))) = true).
  apply markup_lt; [done|]. apply markup_no_lt.
  change (all_chars not_lt (String c tag +:+ String.concat "" (map serialize_attrib attrib) +:+ close) = true).
  by rewrite !all_chars_app, Htag, concat_attrib_not_lt, Hclose.
Qed.

Lemma markup_end (tag : string) :
  plain_tag tag = true → markup ("</" +:+ tag +:+ ">") = true.
Proof.
  intros Htag. destruct tag as [|c tag]; [done|].
  unfold plain_tag in Htag. apply andb_true_iff in Htag as [_ Htag].
  change (markup (String "<" (String "/" (String c tag +:+ ">"))) = true).
  apply markup_lt; [reflexivity|]. apply markup_no_lt.
  change (all_chars not_lt ("/" +:+ String c tag +:+ ">") = true).
  by rewrite !all_chars_app, Htag.
Qed.

Lemma sub_literals_children (cs : list Element) :
  Forall (λ e, ∀ w, sub_literals 0 (tostring e +:+ w) = tostring_post e +:+ sub_literals 0 w) cs →
  ∀ w, sub_literals 0 (tostring_children cs +:+ w)
       = tostring_post_children cs +:+ sub_literals 0 w.
Proof.
  induction 1 as [|e cs He _ IH]; intros w; [reflexivity|].
  cbn [tostring_children tostring_post_children].
  by rewrite !append_assoc, He, IH.
Qed.

(** The post-pass over the elements that [generate_xml] builds, with the
    text after them. *)
Lemma sub_literals_tostring (e : Element) :
  wf_element e → ∀ w, sub_literals 0 (tostring e +:+ w) = tostring_post e +:+ sub_literals 0 w.
Proof.
  induction e as [tag attrib children IH] using element_nested_ind.
  intros Hwf w. inversion Hwf as [K v Hends|tag' attrib' children' Htag Hattrib Hchildren];
    subst.
  - rewrite tostring_literal. simpl tostring_post.
    apply sub_literals_literal; auto using escape_attrib_not_gt, escape_attrib_not_dquote.
  - rewrite tostring_node, (tostring_post_node _ _ _ (plain_tag_not_literal _ Htag)).
    destruct children as [|child children].
    + rewrite sub_literals_markup; [reflexivity|].
      rewrite !append_assoc. by apply markup_start.
    + set (cs := child :: children) in *. clearbody cs.
      assert (Hcs : ∀ w, sub_literals 0 (tostring_children cs +:+ w)
                         = tostring_post_children cs +:+ sub_literals 0 w).
      { apply sub_literals_children.
        apply Forall_forall. intros e He. 
        apply (proj1 (Forall_forall _ _) IH e He).
        apply (proj1 (Forall_forall _ _) Hchildren e He). }
      set (start := "<" +:+ tag +:+ String.concat "" (map serialize_attrib attrib)).
      assert (Hstart : markup (start +:+ ">") = true).
      { unfold start. rewrite !append_assoc. by apply markup_start. }
      assert (Hend : markup ("</" +:+ tag +:+ ">") = true) by (by apply markup_end).
      rewrite <- (append_assoc start ">").
      rewrite (append_assoc (start +:+ ">")).
      rewrite (sub_literals_markup _ _ Hstart).
      rewrite (append_assoc (tostring_children cs)), Hcs.
      rewrite (sub_literals_markup _ _ Hend).
      by rewrite <- !append_assoc.
Qed.


(** *** Occurrences *)

Lemma occurs_in_refl (t : string) : occurs_in t t.
Proof. exists "", "". by rewrite append_nil_r. Qed.

Lemma occurs_in_app_l (t a b : string) : occurs_in t a → occurs_in t (a +:+ b).
Proof.
  intros (x & y & ->). exists x, (y +:+ b). by rewrite !append_assoc.
Qed.

Lemma occurs_in_app_r (t a b : string) : occurs_in t b → occurs_in t (a +:+ b).
Proof.
  intros (x & y & ->). exists (a +:+ x), y. by rewrite !append_assoc.
Qed.

Lemma startswith_app (t w : string) : startswith t (t +:+ w) = true.
Proof.
  induction t as [|c t IH]; [reflexivity|].
  rewrite append_cons. simpl. by rewrite Ascii.eqb_refl, IH.
Qed.

Lemma contains_occurs_in (t s : string) : occurs_in t s → contains t s = true.
Proof.
  intros (a & b & ->). induction a as [|c a IH].
  - rewrite append_nil. destruct (t +:+ b) eqn:E; simpl; rewrite <- E, startswith_app; done.
  - rewrite append_cons. cbn [contains]. rewrite IH. apply orb_true_r.
Qed.

Lemma occurs_in_children (t : string) (c : Element) (cs : list Element) :
  c ∈ cs → occurs_in t (tostring_post c) → occurs_in t (tostring_post_children cs).
Proof.
  induction 1 as [c cs|c d cs _ IH]; intros Hc; cbn [tostring_post_children].
  - by apply occurs_in_app_l.
  - by apply occurs_in_app_r, IH.
Qed.

Lemma occurs_in_node (t tag : string) (attrib : list (string * string))
    (c : Element) (children : list Element) :
  String.eqb tag "literal" = false →
  c ∈ children → occurs_in t (tostring_post c) →
  occurs_in t (tostring_post (mkElement tag attrib children)).
Proof.
  intros Htag Hin Hc. rewrite tostring_post_node by done.
  destruct children as [|d children]; [by apply elem_of_nil in Hin|].
  apply occurs_in_app_r, occurs_in_app_r, occurs_in_app_l.
  by apply (occurs_in_children t c).
Qed.

(** *** The elements of a program *)

Lemma elem_of_insert_sorted {A : Type} (key : A → nat) (x y : A) (l : list A) :
  y ∈ insert_sorted key x l ↔ y = x ∨ y ∈ l.
Proof.
  induction l as [|z l IH]; simpl.
  - rewrite list_elem_of_singleton. set_solver.
  - destruct (key z <=? key x)%nat; set_solver.
Qed.

Lemma elem_of_sorted {A : Type} (key : A → nat) (y : A) (l : list A) :
  y ∈ sorted key l ↔ y ∈ l.
Proof.
  unfold sorted.
  assert (H : ∀ acc, y ∈ foldl (λ acc x, insert_sorted key x acc) acc l ↔ y ∈ acc ∨ y ∈ l).
  { induction l as [|x l IH]; intros acc; simpl; [set_solver|].
    rewrite IH, elem_of_insert_sorted. set_solver. }
  rewrite H. set_solver.
Qed.

Lemma generate_xml_expr_Send (s : string) (t : expr) (args : list expr) (p : nat) :
  generate_xml_expr (Send s t args p)
  = mkElement "send" [("selector", s)]
      (mkElement "expr" [] [generate_xml_expr t] :: xml_args 1 args).
Proof. reflexivity. Qed.

Lemma generate_xml_block_mkBlock (ps : list Param) (asg : list Assignment) :
  generate_xml_block (mkBlock ps asg)
  = mkElement "block" [("arity", str (List.length ps))]
      (map (λ p, mkElement "parameter"
                   [("name", param_name p); ("order", str (param_order p))] [])
           (sorted param_order ps)
       ++ map snd (sorted fst (xml_assigns asg))).
Proof. reflexivity. Qed.

Lemma xml_assigns_map (asg : list Assignment) :
  xml_assigns asg = map (λ a, (assign_order a, generate_xml_assign a)) asg.
Proof. induction asg as [|a asg IH]; [reflexivity|]. simpl. by rewrite <- IH. Qed.

Lemma elem_of_xml_args (x : Element) (args : list expr) (i : nat) :
  x ∈ xml_args i args →
  ∃ j arg, arg ∈ args
           ∧ x = mkElement "arg" [("order", str j)]
                   [mkElement "expr" [] [generate_xml_expr arg]].
Proof.
  revert i. induction args as [|a args IH]; intros i; cbn [xml_args].
  - by intros ?%elem_of_nil.
  - rewrite elem_of_cons. intros [->|(j & arg & Harg & ->)%IH].
    + exists i, a. split; [apply list_elem_of_here|done].
    + exists j, arg. split; [by apply list_elem_of_further|done].
Qed.

Lemma xml_args_elem_of (arg : expr) (args : list expr) (i : nat) :
  arg ∈ args →
  ∃ j, mkElement "arg" [("order", str j)] [mkElement "expr" [] [generate_xml_expr arg]]
       ∈ xml_args i args.
Proof.
  revert i. induction args as [|a args IH]; intros i; cbn [xml_args].
  - by intros ?%elem_of_nil.
  - rewrite elem_of_cons. intros [->|Harg].
    + exists i. apply list_elem_of_here.
    + destruct (IH (i + 1) Harg) as [j Hj]. exists j. by apply list_elem_of_further.
Qed.

Lemma elem_of_flat_map {A B : Type} (f : A → list B) (y : B) (l : list A) :
  y ∈ flat_map f l ↔ ∃ x, x ∈ l ∧ y ∈ f x.
Proof.
  induction l as [|a l IH]; simpl.
  - split; [by intros ?%elem_of_nil|]. by intros (x & ?%elem_of_nil & _).
  - rewrite elem_of_app, IH. split.
    + intros [H|(x & Hx & H)]; [exists a|exists x]; split; auto.
      * apply list_elem_of_here.
      * by apply list_elem_of_further.
    + intros (x & [->|Hx]%elem_of_cons & H); [by left|right; by exists x].
Qed.

(** The elements of a program in which every literal is tame are those
    of [wf_element]. *)
Lemma wf_generate_xml_expr (e : expr) :
  (∀ x, x ∈ expr_nodes e → tame_literal x = true) → wf_element (generate_xml_expr e).
Proof.
  induction e using expr_mutind with
    (Q := λ b, (∀ x, x ∈ block_nodes b → tame_literal x = true)
               → wf_element (generate_xml_block b))
    (R := λ a, (∀ x, x ∈ assign_nodes a → tame_literal x = true)
               → wf_element (generate_xml_assign a)).
  - intros _. apply wf_node; [reflexivity|repeat constructor..].
  - intros H. simpl. apply wf_literal.
    specialize (H _ (list_elem_of_here _ _)). simpl in H.
    by apply negb_true_iff in H.
  - intros H. simpl. apply IHe. intros x Hx. apply H. simpl. by apply list_elem_of_further.
  - intros Hn. rewrite generate_xml_expr_Send. rewrite ParserFacts.expr_nodes_Send in Hn.
    apply wf_node; [reflexivity|repeat constructor|].
    constructor.
    + apply wf_node; [reflexivity|repeat constructor|]. repeat constructor.
      apply IHe. intros x Hx. apply Hn. apply list_elem_of_further, elem_of_app. by left.
    + apply Forall_forall. intros x (j & arg & Harg & ->)%elem_of_xml_args.
      repeat constructor.
      apply (proj1 (Forall_forall _ _) H arg Harg).
      intros x Hx. apply Hn. apply list_elem_of_further, elem_of_app. right.
      apply elem_of_flat_map. by exists arg.
  - intros Hn. rewrite generate_xml_block_mkBlock. rewrite ParserFacts.block_nodes_mkBlock in Hn.
    apply wf_node; [reflexivity|repeat constructor|].
    apply Forall_app. split.
    + apply Forall_forall. intros x (p & -> & _)%list_elem_of_fmap.
      apply wf_node; [reflexivity|repeat constructor..].
    + apply Forall_forall. intros x ([o y] & -> & Hy)%list_elem_of_fmap.
      apply elem_of_sorted in Hy. rewrite xml_assigns_map in Hy.
      apply list_elem_of_fmap in Hy as (a & [= -> ->] & Ha).
      apply (proj1 (Forall_forall _ _) H a Ha).
      intros x Hx. apply Hn. apply elem_of_flat_map. by exists a.
  - intros Hn. simpl. apply wf_node; [reflexivity|repeat constructor|].
    repeat constructor. by apply IHe.
Qed.


Lemma wf_generate_xml_block (b : Block) :
  (∀ x, x ∈ block_nodes b → tame_literal x = true) → wf_element (generate_xml_block b).
Proof.
  intros H. apply (wf_generate_xml_expr (BlockExpr b)).
  intros x [->|Hx]%elem_of_cons; [reflexivity|by apply H].
Qed.

Lemma wf_root_element (program : Program) :
  (∀ x, x ∈ program_nodes program → tame_literal x = true) →
  wf_element (root_element program).
Proof.
  intros H. unfold root_element. apply wf_node; [reflexivity| |].
  - destruct (description program) as [[|c d]|]; repeat constructor.
  - apply Forall_forall. intros x (cls & -> & Hcls)%list_elem_of_fmap.
    apply wf_node; [reflexivity|repeat constructor|].
    apply Forall_forall. intros x (m & -> & Hm)%list_elem_of_fmap.
    repeat constructor. apply wf_generate_xml_block.
    intros x Hx. apply H. apply elem_of_flat_map. exists cls. split; [done|].
    apply elem_of_flat_map. by exists m.
Qed.

(** A literal of an expression is written below the element of the
    expression. *)
Lemma occurs_in_generate_xml_expr (K v : string) (pos : nat) (e : expr) :
  Literal K v pos ∈ expr_nodes e →
  occurs_in (tostring_post (generate_xml_expr (Literal K v pos)))
    (tostring_post (generate_xml_expr e)).
Proof.
  set (t := tostring_post (generate_xml_expr (Literal K v pos))).
  induction e using expr_mutind with
    (Q := λ b, Literal K v pos ∈ block_nodes b
               → occurs_in t (tostring_post (generate_xml_block b)))
    (R := λ a, Literal K v pos ∈ assign_nodes a
               → occurs_in t (tostring_post (generate_xml_assign a))).
  - intros [[=]|[]%elem_of_nil]%elem_of_cons.
  - intros [[= <- <- <-]|[]%elem_of_nil]%elem_of_cons. apply occurs_in_refl.
  - intros [[=]|Hx]%elem_of_cons. by apply IHe.
  - rewrite ParserFacts.expr_nodes_Send, generate_xml_expr_Send.
    intros [[=]|[Hx|(arg & Harg & Hx)%elem_of_flat_map]%elem_of_app]%elem_of_cons.
    + eapply occurs_in_node; [reflexivity|apply list_elem_of_here|].
      eapply occurs_in_node; [reflexivity|apply list_elem_of_here|]. by apply IHe.
    + destruct (xml_args_elem_of arg args 1 Harg) as [j Hj].
      eapply occurs_in_node; [reflexivity|apply list_elem_of_further, Hj|].
      eapply occurs_in_node; [reflexivity|apply list_elem_of_here|].
      eapply occurs_in_node; [reflexivity|apply list_elem_of_here|].
      by apply (proj1 (Forall_forall _ _) H arg Harg).
  - rewrite ParserFacts.block_nodes_mkBlock, generate_xml_block_mkBlock.
    intros (a & Ha & Hx)%elem_of_flat_map.
    eapply occurs_in_node; [reflexivity| |apply (proj1 (Forall_forall _ _) H a Ha Hx)].
    apply elem_of_app. right.
    apply (list_elem_of_fmap_2 snd _ (assign_order a, generate_xml_assign a)).
    apply elem_of_sorted. rewrite xml_assigns_map.
    by apply (list_elem_of_fmap_2 (λ a, (assign_order a, generate_xml_assign a))).
  - intros Hx. simpl assign_nodes in Hx. simpl generate_xml_assign.
    eapply occurs_in_node; [reflexivity|apply list_elem_of_further, list_elem_of_here|].
    eapply occurs_in_node; [reflexivity|apply list_elem_of_here|]. by apply IHe.
Qed.

Lemma occurs_in_root_element (K v : string) (pos : nat) (program : Program) :
  Literal K v pos ∈ program_nodes program →
  occurs_in (tostring_post (generate_xml_expr (Literal K v pos)))
    (tostring_post (root_element program)).
Proof.
  intros (cls & Hcls & (m & Hm & Hx)%elem_of_flat_map)%elem_of_flat_map.
  unfold root_element.
  eapply occurs_in_node;
    [reflexivity|apply (list_elem_of_fmap_2 generate_xml_class _ cls Hcls)|].
  eapply occurs_in_node;
    [reflexivity|apply (list_elem_of_fmap_2 generate_xml_method _ m Hm)|].
  eapply occurs_in_node; [reflexivity|apply list_elem_of_here|].
  apply (occurs_in_generate_xml_expr K v pos (BlockExpr (m_block m))).
  by apply list_elem_of_further.
Qed.

(** The document of a program in which every literal is tame. *)
Lemma generate_xml_post (program : Program) :
  (∀ x, x ∈ program_nodes program → tame_literal x = true) →
  generate_xml program = xml_declaration +:+ tostring_post (root_element program).
Proof.
  intros H. change (generate_xml program)
    with (xml_declaration +:+ sub_literals 0 (tostring (root_element program))).
  rewrite <- (append_nil_r (tostring (root_element program))).
  rewrite (sub_literals_tostring _ (wf_root_element _ H)). simpl sub_literals.
  by rewrite append_nil_r.
Qed.

(** The element of a string literal without ampersand, after the
    post-pass. *)
Lemma tostring_post_string_literal (v : string) (pos : nat) :
  all_chars not_amp v = true →
  tostring_post (generate_xml_expr (Literal "String" v pos))
  = literal_text "String" (string_bind emitted_char v).
Proof.
  intros Hv. cbn [generate_xml_expr tostring_post]. simpl String.eqb. cbv iota.
  rewrite literal_value_escaped. unfold literal_text_post.
  rewrite replacer_escaped by done. reflexivity.
Qed.

(** *** The last replacement of [main] *)

Lemma startswith_length (p a x : string) :
  all_chars not_lt p = true → startswith p (a +:+ String "<" x) = true →
  (String.length p ≤ String.length a)%nat.
Proof.
  revert a. induction p as [|c p IH]; intros a Hp H; simpl; [lia|].
  simpl in Hp. apply andb_true_iff in Hp as [Hc Hp].
  destruct a as [|d a].
  - rewrite append_nil in H. simpl in H. apply andb_true_iff in H as [H _].
    apply Ascii.eqb_eq in H as ->. discriminate Hc.
  - rewrite append_cons in H. simpl in H. apply andb_true_iff in H as [_ H].
    specialize (IH a Hp H). simpl. lia.
Qed.

Lemma replace_from_before (pat rep a x : string) (k : nat) :
  all_chars not_lt pat = true → (k ≤ String.length a)%nat →
  ∃ a', replace_from pat rep k (a +:+ String "<" x)
        = a' +:+ replace_from pat rep 0 (String "<" x).
Proof.
  intros Hpat. revert k. induction a as [|c a IH]; intros k Hk.
  - simpl in Hk. assert (k = 0) as -> by lia. by exists "".
  - rewrite append_cons. destruct k as [|k]; cbn [replace_from].
    + destruct (startswith pat (String c (a +:+ String "<" x))) eqn:Hs.
      * apply (startswith_length pat (String c a) x Hpat) in Hs. simpl in Hs.
        destruct (IH (String.length pat - 1)) as [a' Ha']; [lia|].
        exists (rep +:+ a'). by rewrite Ha', append_assoc.
      * destruct (IH 0) as [a' Ha']; [lia|].
        exists (String c a'). by rewrite Ha', append_cons.
    + simpl in Hk. destruct (IH k) as [a' Ha']; [lia|]. by exists a'.
Qed.

Lemma replace_nbsp_literal_text (v w : string) :
  all_chars not_amp v = true →
  replace_from "&amp;nbsp;" " " 0 (literal_text "String" (string_bind emitted_char v) +:+ w)
  = literal_text "String" (string_bind emitted_char v) +:+ replace_from "&amp;nbsp;" " " 0 w.
Proof.
  intros Hv. unfold literal_text, q. rewrite !append_assoc.
  set (E := string_bind emitted_char v).
  change (replace_from "&amp;nbsp;" " " 0
            ("<literal class=" +:+ str_of_char dquote +:+ "String" +:+ str_of_char dquote
             +:+ " value=" +:+ str_of_char dquote +:+ E +:+ str_of_char dquote +:+ " />" +:+ w))
    with ("<literal class=" +:+ str_of_char dquote +:+ "String" +:+ str_of_char dquote
          +:+ " value=" +:+ str_of_char dquote
          +:+ replace_from "&amp;nbsp;" " " 0 (E +:+ str_of_char dquote +:+ " />" +:+ w)).
  unfold E. rewrite (replace_from_bind _ _ _ emitted_char not_amp replace_nbsp_char) by done.
  reflexivity.
Qed.

Lemma occurs_in_replace_nbsp (v s : string) :
  all_chars not_amp v = true →
  occurs_in (literal_text "String" (string_bind emitted_char v)) s →
  occurs_in (literal_text "String" (string_bind emitted_char v))
    (replace "&amp;nbsp;" " " s).
Proof.
  intros Hv (a & b & ->). unfold replace.
  assert (Hshape : ∃ x, literal_text "String" (string_bind emitted_char v) = String "<" x)
    by (by eexists).
  destruct Hshape as [x Hx].
  destruct (replace_from_before "&amp;nbsp;" " " a (x +:+ b) 0) as [a' Ha'];
    [reflexivity|lia|].
  rewrite Hx, append_cons, Ha', <- append_cons, <- Hx.
  rewrite replace_nbsp_literal_text by done.
  by eexists _, _.
Qed.

Lemma run_generate_xml (code xml : string) (ast : Program) :
  parse_source code = Ok ast → run code = Ok xml →
  xml = replace "&amp;nbsp;" " " (generate_xml ast).
Proof.
  unfold run, parse_source. intros Hp H.
  bind_inv H. rewrite Hstep in Hp. simpl in Hp. rewrite Hp in H. simpl in H.
  bind_inv H. by injection H as <-.
Qed.

End XmlFacts.

(** ** String literals in the document *)




(** The hypothesis on the literals is needed: the value of the first
    literal ends with a space and [value=], the pattern of
    [replace_in_literals] takes the text after it for its value, and the
    entity stays as ElementTree escaped it. *)
Example untamed_literal_keeps_entity :
  contains "it&amp;apos;s value="
    (ok_or "" (run "class Main:Object{run[|x:='it\'s value='.y:='q'.]}")) = true
  ∧ contains (string_bind emitted_char "it's value=")
      (ok_or "" (run "class Main:Object{run[|x:='it\'s value='.y:='q'.]}")) = false.
Proof. split; vm_compute; reflexivity. Qed.

(** The hypothesis on the ampersand is needed: the entity written in the
    source text is rewritten as an apostrophe is. *)
Example ampersand_entity_rewritten :
  contains (literal_text "String" (String backslash "&apos;"))
    (ok_or "" (run "class Main:Object{run[|x:='&apos;'.]}")) = true
  ∧ contains (literal_text "String" (string_bind emitted_char "&apos;"))
      (ok_or "" (run "class Main:Object{run[|x:='&apos;'.]}")) = false.
Proof. split; vm_compute; reflexivity. Qed.

Module LexerShape.
Import Lexer LexerFacts.

Lemma re_lit_value (lit s v r : string) : re_lit lit s = Some (v, r) → v = lit.
Proof.
  revert s v r. induction lit as [|c lit IH]; intros s v r; simpl.
  - by intros [= <- <-].
  - destruct s as [|d s]; [discriminate|].
    destruct (Ascii.eqb c d) eqn:Hcd; [|discriminate].
    apply Ascii.eqb_eq in Hcd as ->.
    intros H. apply cons_match_fmap in H as (v' & -> & H). by rewrite (IH _ _ _ H).
Qed.

Lemma re_plus_shape (p : ascii → bool) (s v r : string) :
  re_plus p s = Some (v, r) → v ≠ "" ∧ all_chars p v = true.
Proof.
  destruct s as [|c s]; simpl; [discriminate|].
  destruct (p c) eqn:Hc; [|discriminate].
  pose proof (span_all p s) as Hall.
  destruct (span p s) as [a b]. simpl in *. intros [= <- <-].
  split; [done|]. simpl. by rewrite Hc.
Qed.

Lemma scan_quoted_endswith (qc : ascii) (n : nat) (s v r : string) :
  (String.length s ≤ n)%nat → scan_quoted qc s = Some (v, r) → endswith qc v = true.
Proof.
  revert s v r. induction n as [|n IH]; intros s v r Hlen;
    destruct s as [|c s]; simpl in *; try discriminate; try lia.
  destruct (Ascii.eqb c qc) eqn:Hq.
  - intros [= <- <-]. simpl. exact Hq.
  - destruct (Ascii.eqb c backslash).
    + destruct s as [|d s]; [discriminate|]. intros H.
      apply cons_match_fmap in H as (v' & -> & H).
      apply cons_match_fmap in H as (v'' & -> & H).
      apply IH in H; [|simpl in Hlen; lia].
      destruct v'' as [|e v'']; [discriminate|]. exact H.
    + intros H. apply cons_match_fmap in H as (v' & -> & H).
      apply IH in H; [|lia]. destruct v' as [|e v']; [discriminate|]. exact H.
Qed.

Lemma re_quoted_shape (qc : ascii) (s v r : string) :
  re_quoted qc s = Some (v, r) → quoted qc v = true.
Proof.
  destruct s as [|c s]; simpl; [discriminate|].
  destruct (Ascii.eqb c qc) eqn:Hq; [|discriminate].
  intros H. apply cons_match_fmap in H as (v' & -> & H).
  apply (scan_quoted_endswith qc (String.length s)) in H; [|lia].
  simpl. by rewrite Hq, H.
Qed.

Lemma re_number_shape (s v r : string) : re_number s = Some (v, r) → number_shape v = true.
Proof.
  destruct s as [|c s]; [discriminate|]. unfold re_number.
  destruct (Ascii.eqb c "+" || Ascii.eqb c "-") eqn:Hsign.
  - intros H. apply cons_match_fmap in H as (v' & -> & H).
    apply re_plus_shape in H as [Hne Hall]. simpl. rewrite Hsign.
    destruct v'; [done|exact Hall].
  - intros H. pose proof H as H'. apply re_plus_shape in H as [Hne Hall].
    destruct v as [|d v]; [done|].
    assert (d = c) as ->.
    { simpl in H'. destruct (is_digit c); [|discriminate].
      destruct (span is_digit s). by injection H' as <- _. }
    simpl. rewrite Hsign. exact Hall.
Qed.

Lemma re_ident_shape (s v r : string) : re_ident s = Some (v, r) → ident_shape v = true.
Proof.
  destruct s as [|c s]; simpl; [discriminate|].
  destruct (is_ident_start c) eqn:Hc; [|discriminate].
  pose proof (span_all is_ident_char s) as Hall.
  unfold cons_match. intros [= <- <-]. simpl. by rewrite Hc, Hall.
Qed.

Lemma re_any_shape (s v r : string) : re_any s = Some (v, r) → String.length v = 1.
Proof. destruct s; simpl; [discriminate|]. by intros [= <- <-]. Qed.

Lemma re_space_shape (s v r : string) :
  re_plus is_space s = Some (v, r) → raw_shape WHITESPACE v = true.
Proof.
  intros [Hne Hall]%re_plus_shape. simpl. rewrite Hall. by destruct v.
Qed.

(** The recogniser of every group. *)
Lemma token_specification_shape :
  Forall (λ x : token_type * recogniser,
            ∀ s v r, snd x s = Some (v, r) → raw_shape (fst x) v = true)
    token_specification.
Proof.
  unfold token_specification.
  repeat (constructor;
    [ intros s v r H; cbn [fst snd] in *;
      first [ by apply re_space_shape in H
            | by apply re_quoted_shape in H
            | by apply re_number_shape in H
            | by apply re_ident_shape in H
            | by (apply re_any_shape in H; apply Nat.eqb_eq)
            | by (apply re_lit_value in H as ->) ] |]).
  constructor.
Qed.

Lemma raw_shape_nonempty (ty : token_type) (v : string) : raw_shape ty v = true → v ≠ "".
Proof. destruct ty, v; simpl; done. Qed.

(** A match of the master pattern: the text is split, and the matched
    part is as its group says; it is not empty. *)
Lemma master_pattern_match_shape (s v r : string) (ty : token_type) :
  master_pattern_match s = Some (ty, v, r) →
  s = v +:+ r ∧ raw_shape ty v = true ∧ (String.length r < String.length s)%nat.
Proof.
  intros H. pose proof H as (Hsplit & _)%master_pattern_match_cases.
  apply first_match_In in H as (re & Hin & H).
  pose proof token_specification_shape as Hall. rewrite Forall_forall in Hall.
  pose proof (Hall _ Hin _ _ _ H) as Hshape. cbn [fst] in Hshape.
  split; [done|]. split; [done|].
  apply raw_shape_nonempty in Hshape. rewrite Hsplit.
  destruct v as [|c v]; [done|].
  rewrite XmlFacts.length_append. simpl. lia.
Qed.


(** *** String literals *)

(** The loop over the content ends with the decoded text or with the
    lexical error. *)
Lemma process_content_outcome (n : nat) (content : string) :
  (String.length content ≤ n)%nat →
  (∃ r, process_content content = Ok r
        ∧ all_chars decoded_char r = true
        ∧ (String.length r ≤ String.length content)%nat)
  ∨ process_content content = Exit ERR_LEXICAL.
Proof.
  revert content. induction n as [|n IH]; intros [|c rest] Hlen; simpl in Hlen; try lia.
  - left. by exists "".
  - left. by exists "".
  - simpl. destruct (Ascii.eqb c backslash) eqn:Hb.
    + destruct rest as [|e rest']; [by right|].
      assert (Hrest : (String.length rest' ≤ n)%nat) by (simpl in Hlen; lia).
      destruct (IH rest' Hrest) as [(r & -> & Hall & Hr)| ->].
      * destruct (Ascii.eqb e squote); [|destruct (Ascii.eqb e "n");
          [|destruct (Ascii.eqb e backslash); [|by right]]];
          left; simpl; eexists; (split; [reflexivity|]); simpl; rewrite Hall;
          (split; [reflexivity|lia]).
      * right. by destruct (Ascii.eqb e squote), (Ascii.eqb e "n"), (Ascii.eqb e backslash).
    + destruct (ord c <=? 31)%nat eqn:Hc; [by right|].
      destruct (IH rest) as [(r & -> & Hall & Hr)| ->]; [lia| |by right].
      left. simpl. eexists. split; [reflexivity|]. simpl. rewrite Hall.
      split; [|lia]. unfold decoded_char.
      apply Nat.leb_gt in Hc. apply Nat.ltb_lt in Hc. by rewrite Hc.
Qed.

(** A content of characters that stand for themselves is its own
    decoding. *)
Lemma process_content_plain (content : string) :
  all_chars plain_char content = true → process_content content = Ok content.
Proof.
  induction content as [|c rest IH]; [reflexivity|].
  simpl. unfold plain_char at 1. intros H.
  apply andb_true_iff in H as [H Hrest]. apply andb_true_iff in H as [Hb Hc].
  apply negb_true_iff in Hb. rewrite Hb.
  apply Nat.ltb_lt in Hc. apply Nat.leb_gt in Hc. rewrite Hc.
  by rewrite (IH Hrest).
Qed.

(** After a prefix of such characters the loop is at the next
    character. *)
Lemma process_content_app (pre rest : string) :
  all_chars plain_char pre = true →
  process_content (pre +:+ rest)
  = (r <- process_content rest ;; Ok (pre +:+ r))%result.
Proof.
  induction pre as [|c pre IH]; intros H.
  - rewrite append_nil. by destruct (process_content rest).
  - simpl in H. apply andb_true_iff in H as [H Hpre].
    unfold plain_char in H. apply andb_true_iff in H as [Hb Hc].
    apply negb_true_iff in Hb.
    apply Nat.ltb_lt in Hc. apply Nat.leb_gt in Hc.
    rewrite append_cons. simpl. rewrite Hb, Hc, (IH Hpre).
    by destruct (process_content rest).
Qed.

Lemma strip_ends_quoted (qc : ascii) (content : string) :
  strip_ends (String qc (content +:+ String qc "")) = content.
Proof.
  simpl. induction content as [|c content IH]; [reflexivity|].
  rewrite append_cons. simpl. rewrite IH.
  by destruct content.
Qed.

(** *** The loop of the lexer *)

(** One turn of the loop that ends well. *)
Lemma tokenize_from_step (fuel : nat) (c : ascii) (rest : string) (pos : nat)
    (toks : list Token) :
  tokenize_from (S fuel) (String c rest) pos = Ok toks →
  ∃ ty v r toks',
    master_pattern_match (String c rest) = Some (ty, v, r)
    ∧ tokenize_from fuel r (pos + String.length v) = Ok toks'
    ∧ ty ≠ OTHER
    ∧ ((ty = WHITESPACE ∧ toks = toks')
       ∨ (ty = STRING ∧ ∃ pv, process_string_literal v = Ok pv
                              ∧ toks = mkToken STRING pv pos :: toks')
       ∨ (ty ≠ WHITESPACE ∧ ty ≠ STRING ∧ toks = mkToken ty v pos :: toks')).
Proof.
  cbn [tokenize_from].
  destruct (master_pattern_match (String c rest)) as [[[ty v] r]|] eqn:Hm; [|discriminate].
  intros H. exists ty, v, r.
  destruct ty; try discriminate;
    try (bind_inv H; injection H as <-; eexists; split; [reflexivity|];
         split; [eassumption|]; split; [done|]; right; right; done).
  - exists toks. split; [reflexivity|]. split; [done|]. split; [done|]. by left.
  - bind_inv H. bind_inv H. injection H as <-. eexists. split; [reflexivity|].
    split; [eassumption|]. split; [done|]. right. left. split; [done|]. by eexists.
Qed.


Lemma process_string_literal_outcome (literal : string) :
  (∃ r, process_string_literal literal = Ok r ∧ all_chars decoded_char r = true)
  ∨ process_string_literal literal = Exit ERR_LEXICAL.
Proof.
  unfold process_string_literal.
  destruct (process_content_outcome _ (strip_ends literal) (le_n _))
    as [(r & Hr & Hall & _)|Hr]; [left; by exists r|by right].
Qed.

(** The loop ends when the fuel is the length of the text: every match
    takes a character or more. *)
Lemma tokenize_from_outcome (fuel : nat) (rest : string) (pos : nat) :
  (String.length rest ≤ fuel)%nat →
  (∃ toks, tokenize_from fuel rest pos = Ok toks)
  ∨ tokenize_from fuel rest pos = Exit ERR_LEXICAL.
Proof.
  revert rest pos. induction fuel as [|fuel IH]; intros [|c rest] pos Hlen;
    try (left; by exists []); [simpl in Hlen; lia|].
  cbn [tokenize_from].
  destruct (master_pattern_match (String c rest)) as [[[ty v] r]|] eqn:Hm; [|by right].
  apply master_pattern_match_shape in Hm as (_ & _ & Hr).
  assert (Hr' : (String.length r ≤ fuel)%nat) by lia.
  specialize (IH r (pos + String.length v) Hr').
  destruct ty; try (by right);
    try (destruct IH as [[toks ->]| ->]; [left; by eexists|by right]).
  destruct (process_string_literal_outcome v) as [(pv & -> & _)| ->]; [|by right].
  destruct IH as [[toks ->]| ->]; [left; by eexists|by right].
Qed.

(** The tokens of the loop are as [token_shape] says. *)
Lemma tokenize_from_shape (fuel : nat) (rest : string) (pos : nat) (toks : list Token) :
  tokenize_from fuel rest pos = Ok toks → Forall (λ t, token_shape t = true) toks.
Proof.
  revert rest pos toks. induction fuel as [|fuel IH]; intros [|c rest] pos toks H;
    try (injection H as <-; constructor); try discriminate.
  apply tokenize_from_step in H
    as (ty & v & r & toks' & Hm & Hrest & Hother & Hcase).
  apply master_pattern_match_shape in Hm as (_ & Hshape & _).
  apply IH in Hrest.
  destruct Hcase as [[-> ->]|[(-> & pv & Hpv & ->)|(Hws & Hstr & ->)]]; [done| |].
  - constructor; [|done]. unfold token_shape. simpl.
    destruct (process_string_literal_outcome v) as [(pv' & Hpv' & Hall)|Hpv']; congruence.
  - constructor; [|done]. unfold token_shape. simpl. by destruct ty.
Qed.

Lemma positions_grow_cons (t : Token) (toks : list Token) :
  Forall (λ t', (tok_pos t < tok_pos t')%nat) toks → positions_grow toks →
  positions_grow (t :: toks).
Proof.
  intros Hall Hgrow [|i] [|j] a b Hij Ha Hb; try lia; simpl in *.
  - injection Ha as <-. rewrite Forall_forall in Hall. apply Hall.
    by eapply list_elem_of_lookup_2.
  - apply (Hgrow i j); [lia|done|done].
Qed.

(** The positions of the tokens of the loop: in the text that is left,
    and growing. *)
Lemma tokenize_from_positions (fuel : nat) (rest : string) (pos : nat) (toks : list Token) :
  tokenize_from fuel rest pos = Ok toks →
  Forall (λ t, (pos ≤ tok_pos t < pos + String.length rest)%nat) toks
  ∧ positions_grow toks.
Proof.
  revert rest pos toks. induction fuel as [|fuel IH]; intros [|c rest] pos toks H;
    try (injection H as <-; split; [constructor|by intros [|i] j a b _ Ha]);
    try discriminate.
  apply tokenize_from_step in H
    as (ty & v & r & toks' & Hm & Hrest & Hother & Hcase).
  apply master_pattern_match_shape in Hm as (Hsplit & Hshape & _).
  apply raw_shape_nonempty in Hshape.
  assert (Hv : (0 < String.length v)%nat) by (destruct v; [done|simpl; lia]).
  assert (Hlen : String.length (String c rest) = String.length v + String.length r)
    by (by rewrite Hsplit, XmlFacts.length_append).
  apply IH in Hrest as [Hin Hsorted].
  assert (Hin' : Forall (λ t, (pos ≤ tok_pos t < pos + String.length (String c rest))%nat)
                   toks').
  { eapply Forall_impl; [exact Hin|]. intros t Ht. simpl in Ht. lia. }
  assert (Hcons : ∀ ty' v', 
    Forall (λ t, (pos ≤ tok_pos t < pos + String.length (String c rest))%nat)
      (mkToken ty' v' pos :: toks')
    ∧ positions_grow (mkToken ty' v' pos :: toks')).
  { intros ty' v'. split.
    - constructor; [simpl; lia|done].
    - apply positions_grow_cons; [|done]. eapply Forall_impl; [exact Hin|].
      intros t Ht. simpl in *. lia. }
  destruct Hcase as [[-> ->]|[(-> & pv & Hpv & ->)|(Hws & Hstr & ->)]]; auto.
Qed.

(** The value of a token other than a string literal is the text of
    the source at the position of the token. *)
Lemma substring_app (pre v r : string) :
  substring (String.length pre) (String.length v) (pre +:+ v +:+ r) = v.
Proof.
  induction pre as [|c pre IH]; [|exact IH].
  change (substring 0 (String.length v) (v +:+ r) = v).
  induction v as [|d v IHv]; [by destruct r|].
  rewrite append_cons. simpl. by rewrite IHv.
Qed.

Lemma tokenize_from_substring (fuel : nat) (pre rest : string) (toks : list Token) :
  tokenize_from fuel rest (String.length pre) = Ok toks →
  Forall (λ t, tok_type t ≠ STRING →
               substring (tok_pos t) (String.length (tok_value t)) (pre +:+ rest)
               = tok_value t) toks.
Proof.
  revert pre rest toks. induction fuel as [|fuel IH]; intros pre [|c rest] toks H;
    try (injection H as <-; constructor); try discriminate.
  apply tokenize_from_step in H
    as (ty & v & r & toks' & Hm & Hrest & Hother & Hcase).
  apply master_pattern_match_shape in Hm as (Hsplit & _ & _).
  rewrite <- XmlFacts.length_append in Hrest. apply IH in Hrest.
  rewrite Hsplit. rewrite XmlFacts.append_assoc in Hrest.
  destruct Hcase as [[-> ->]|[(-> & pv & Hpv & ->)|(Hws & Hstr & ->)]]; [done| |].
  - constructor; [done|done].
  - constructor; [|done]. intros _. simpl. apply substring_app.
Qed.

Lemma source_char_space (v : string) :
  all_chars is_space v = true → all_chars source_char v = true.
Proof.
  induction v as [|c v IH]; [done|]. simpl. intros [Hc Hv]%andb_true_iff.
  unfold source_char at 1. by rewrite Hc, IH.
Qed.

Lemma source_char_ident (v : string) :
  all_chars is_ident_char v = true → all_chars source_char v = true.
Proof.
  induction v as [|c v IH]; [done|]. simpl. intros [Hc Hv]%andb_true_iff.
  unfold source_char at 1. rewrite Hc, IH by done. by rewrite orb_true_r.
Qed.

Lemma source_char_digit (v : string) :
  all_chars is_digit v = true → all_chars source_char v = true.
Proof.
  intros H. apply source_char_ident. revert H.
  induction v as [|c v IH]; [done|]. simpl. intros [Hc Hv]%andb_true_iff.
  rewrite IH by done. unfold is_ident_char, is_digit in *. rewrite Hc.
  by rewrite !orb_true_r.
Qed.

(** The text of a token that is neither a string literal, a comment nor
    the group of the other characters. *)
Lemma raw_shape_source (ty : token_type) (v : string) :
  raw_shape ty v = true → ty ≠ STRING → ty ≠ COMMENT → ty ≠ OTHER →
  all_chars source_char v = true.
Proof.
  intros H Hs Hc Ho. destruct ty; try done; simpl in H;
    try (apply String_eqb_true in H as ->; reflexivity).
  - apply andb_true_iff in H as [_ H]. by apply source_char_space.
  - destruct v as [|c v]; [done|]. simpl in H.
    destruct (Ascii.eqb c "+" || Ascii.eqb c "-") eqn:Hsign.
    + simpl. destruct v as [|d v]; [done|]. rewrite (source_char_digit _ H).
      apply orb_true_iff in Hsign as [->%Ascii.eqb_eq| ->%Ascii.eqb_eq]; reflexivity.
    + by apply source_char_digit.
  - destruct v as [|c v]; [done|]. simpl in H. apply andb_true_iff in H as [Hc' Hv].
    simpl. rewrite (source_char_ident _ Hv). unfold source_char.
    rewrite (TokenFacts.ident_start_char _ Hc'). by rewrite orb_true_r.
Qed.

Lemma tokenize_from_alphabet (fuel : nat) (rest : string) (pos : nat) (toks : list Token) :
  tokenize_from fuel rest pos = Ok toks →
  no_token_of STRING toks = true → no_token_of COMMENT toks = true →
  all_chars source_char rest = true.
Proof.
  revert rest pos toks. induction fuel as [|fuel IH]; intros [|c rest] pos toks H;
    try done.
  apply tokenize_from_step in H
    as (ty & v & r & toks' & Hm & Hrest & Hother & Hcase).
  apply master_pattern_match_shape in Hm as (Hsplit & Hshape & _).
  intros Hnos Hnoc. rewrite Hsplit, all_chars_app.
  destruct Hcase as [[-> ->]|[(-> & pv & Hpv & ->)|(Hws & Hstr & ->)]].
  - rewrite (IH _ _ _ Hrest) by done.
    by rewrite (raw_shape_source _ _ Hshape).
  - simpl in Hnos. discriminate.
  - unfold no_token_of in Hnos, Hnoc. simpl in Hnos, Hnoc.
    apply andb_true_iff in Hnos as [_ Hnos]. apply andb_true_iff in Hnoc as [Hc Hnoc].
    rewrite (IH _ _ _ Hrest) by done.
    rewrite (raw_shape_source _ _ Hshape); try done.
    intros ->. by apply bool_decide_eq_true in Hc.
Qed.

End LexerShape.

(** ** The lexer *)

(** X1.  The lexer ends on every source text, with the list of tokens
    or with the lexical error (exit 21): it raises no exception and
    exits with no other code. *)
Theorem lexer_outcome (code : string) :
  (∃ toks, Lexer.tokenize code = Ok toks) ∨ Lexer.tokenize code = Exit ERR_LEXICAL.
Proof. apply LexerShape.tokenize_from_outcome. lia. Qed.

(** X2.  The positions of the tokens the lexer returns grow strictly
    along the list, and every one is a position of the source text. *)
Theorem lexer_positions (code : string) (toks : list Token) :
  Lexer.tokenize code = Ok toks →
  positions_grow toks ∧ Forall (λ t, (tok_pos t < String.length code)%nat) toks.
Proof.
  intros H. apply LexerShape.tokenize_from_positions in H as [Hin Hgrow].
  split; [done|]. eapply Forall_impl; [exact Hin|]. intros t Ht. simpl in Ht. lia.
Qed.

Lemma lexer_positions_witness :
  positions_grow (ok_or [] (Lexer.tokenize "x := 'a' foo: 12."))
  ∧ Forall (λ t, (tok_pos t < 17)%nat) (ok_or [] (Lexer.tokenize "x := 'a' foo: 12.")).
Proof.
  apply (lexer_positions "x := 'a' foo: 12."). vm_compute. reflexivity.
Defined.

(** X3.  The value of every token other than a string literal is the
    text of the source that starts at the position of the token. *)
Theorem lexer_values_in_source (code : string) (toks : list Token) :
  Lexer.tokenize code = Ok toks →
  Forall (λ t, tok_type t ≠ STRING →
               substring (tok_pos t) (String.length (tok_value t)) code = tok_value t)
    toks.
Proof. intros H. by apply (LexerShape.tokenize_from_substring _ "") in H. Qed.

Lemma lexer_values_in_source_witness :
  Forall (λ t, tok_type t ≠ STRING →
               substring (tok_pos t) (String.length (tok_value t)) "x := 'a' foo: 12."
               = tok_value t)
    (ok_or [] (Lexer.tokenize "x := 'a' foo: 12.")).
Proof.
  apply (lexer_values_in_source "x := 'a' foo: 12."). vm_compute. reflexivity.
Defined.

(** X4.  The lexer emits no whitespace token and no token of the group
    of the other characters; an identifier is a letter or an underscore
    followed by letters, digits and underscores, a number is an optional
    sign and digits, a comment is in double quotes, every punctuation
    token has its one spelling, and the decoded value of a string
    literal holds no control character other than the line feed. *)
Theorem lexer_token_shape (code : string) (toks : list Token) :
  Lexer.tokenize code = Ok toks → Forall (λ t, token_shape t = true) toks.
Proof. apply LexerShape.tokenize_from_shape. Qed.

Lemma lexer_token_shape_witness :
  Forall (λ t, token_shape t = true) (ok_or [] (Lexer.tokenize "x := 'a' foo: 12.")).
Proof.
  apply (lexer_token_shape "x := 'a' foo: 12."). vm_compute. reflexivity.
Defined.

(** X5.  A source text the lexer accepts without finding a string
    literal or a comment holds only whitespace, letters, digits,
    underscores and the characters of the punctuation tokens. *)
Theorem lexer_alphabet (code : string) (toks : list Token) :
  Lexer.tokenize code = Ok toks →
  no_token_of STRING toks = true → no_token_of COMMENT toks = true →
  all_chars source_char code = true.
Proof. apply LexerShape.tokenize_from_alphabet. Qed.

Lemma lexer_alphabet_witness : all_chars source_char "x := y foo: -12." = true.
Proof.
  apply (lexer_alphabet "x := y foo: -12." (ok_or [] (Lexer.tokenize "x := y foo: -12.")));
    vm_compute; reflexivity.
Defined.

(** X6.  A string literal whose content holds no backslash and no
    control character decodes to its content. *)
Theorem string_literal_plain (content : string) :
  all_chars plain_char content = true →
  process_string_literal (String squote (content +:+ String squote "")) = Ok content.
Proof.
  intros H. unfold process_string_literal. rewrite LexerShape.strip_ends_quoted.
  by apply LexerShape.process_content_plain.
Qed.

Lemma string_literal_plain_witness :
  process_string_literal (String squote ("a b" +:+ String squote "")) = Ok "a b".
Proof. apply (string_literal_plain "a b"). vm_compute. reflexivity. Defined.

(** X7.  After a prefix without backslash and control character, the
    three escape sequences of a string literal decode to an apostrophe,
    a line feed and a backslash, and decoding goes on after them. *)
Theorem string_literal_escapes (pre rest : string) :
  all_chars plain_char pre = true →
  process_string_literal
    (String squote ((pre +:+ String backslash (String squote rest)) +:+ String squote ""))
  = (r <- process_string_literal (String squote (rest +:+ String squote "")) ;;
     Ok (pre +:+ String squote r))%result
  ∧ process_string_literal
      (String squote ((pre +:+ String backslash (String "n" rest)) +:+ String squote ""))
    = (r <- process_string_literal (String squote (rest +:+ String squote "")) ;;
       Ok (pre +:+ String newline r))%result
  ∧ process_string_literal
      (String squote ((pre +:+ String backslash (String backslash rest)) +:+ String squote ""))
    = (r <- process_string_literal (String squote (rest +:+ String squote "")) ;;
       Ok (pre +:+ String backslash r))%result.
Proof.
  intros H. unfold process_string_literal.
  rewrite !LexerShape.strip_ends_quoted.
  rewrite !(LexerShape.process_content_app pre) by done.
  repeat split; simpl; by destruct (process_content rest).
Qed.

Lemma string_literal_escapes_witness :
  process_string_literal
    (String squote (("it" +:+ String backslash (String squote "s")) +:+ String squote ""))
  = Ok ("it" +:+ String squote "s").
Proof.
  apply (proj1 (string_literal_escapes "it" "s" eq_refl)).
Defined.

(** X8.  After a prefix without backslash and control character, a
    control character that is not escaped, a backslash before a
    character other than the apostrophe, [n] and the backslash, and a
    backslash at the end of the content each end the decoding with the
    lexical error. *)
Theorem string_literal_errors (pre rest : string) (c : ascii) :
  all_chars plain_char pre = true →
  ((ord c ≤ 31)%nat →
   process_string_literal (String squote ((pre +:+ String c rest) +:+ String squote ""))
   = Exit ERR_LEXICAL)
  ∧ (c ≠ squote → c ≠ "n"%char → c ≠ backslash →
     process_string_literal
       (String squote ((pre +:+ String backslash (String c rest)) +:+ String squote ""))
     = Exit ERR_LEXICAL)
  ∧ process_string_literal
      (String squote ((pre +:+ String backslash "") +:+ String squote ""))
    = Exit ERR_LEXICAL.
Proof.
  intros H. unfold process_string_literal.
  rewrite !LexerShape.strip_ends_quoted.
  rewrite !(LexerShape.process_content_app pre) by done.
  split; [|split].
  - intros Hc. simpl.
    destruct (Ascii.eqb c backslash) eqn:Hb.
    + apply Ascii.eqb_eq in Hb as ->. vm_compute in Hc. lia.
    + apply Nat.leb_le in Hc. by rewrite Hc.
  - intros H1 H2 H3. simpl.
    apply Ascii.eqb_neq in H1, H2, H3. by rewrite H1, H2, H3.
  - reflexivity.
Qed.

Lemma string_literal_errors_witness :
  process_string_literal
    (String squote (("a" +:+ String newline "b") +:+ String squote ""))
  = Exit ERR_LEXICAL.
Proof.
  apply (proj1 (string_literal_errors "a" "b" newline eq_refl)). vm_compute. lia.
Defined.

Module ParserShape.
Import Parser ParserFacts.
Local Open Scope parser_scope.

#[local] Arguments bindM : simpl never.
#[local] Arguments ret : simpl never.
#[local] Arguments lift : simpl never.
#[local] Arguments consume : simpl never.
#[local] Arguments current_token : simpl never.
#[local] Arguments error_if : simpl never.
#[local] Arguments current_is : simpl never.
#[local] Arguments next_is : simpl never.
#[local] Arguments get_last_token_end : simpl never.
#[local] Arguments error : simpl never.
#[local] Arguments out_of_fuel : simpl never.
#[local] Arguments consume_keyword : simpl never.
#[local] Arguments ident_expr : simpl never.
#[local] Arguments parse_block_header : simpl never.
#[local] Arguments invalid_class_identifier : simpl never.
#[local] Arguments mem_string : simpl never.

Lemma mem_string_assignment (x : string) :
  mem_string x ["class"; "self"; "super"; "nil"; "true"; "false"] = mem_string x reserved.
Proof.
  unfold mem_string, reserved. simpl.
  destruct (String.eqb x "class"), (String.eqb x "self"), (String.eqb x "super"),
    (String.eqb x "nil"), (String.eqb x "true"), (String.eqb x "false"); reflexivity.
Qed.

Lemma first_char_Ok (v : string) (c : ascii) : first_char v = Ok c → ∃ v', v = String c v'.
Proof. destruct v; simpl; [discriminate|]. intros [= ->]. by eexists. Qed.

Section Shape.
Context (toks : list Token) (Hshape : Forall (λ t, token_shape t = true) toks).

Lemma token_at (st : state) (t : Token) :
  tokens st = toks → tokens st !! pos st = Some t → token_shape t = true.
Proof.
  intros <- Ht. rewrite Forall_forall in Hshape. apply Hshape.
  by eapply list_elem_of_lookup_2.
Qed.

Lemma ident_expr_shape (t : Token) (e : expr) (st st' : state) :
  token_shape t = true → tok_type t = IDENT →
  ident_expr t st = Ok (e, st') → node_shape e ∧ is_block e = false.
Proof.
  unfold token_shape. intros Ht Hty. rewrite Hty in Ht. simpl in Ht.
  unfold ident_expr. intros H. pinv; simpl; try done.
  - match goal with H : first_char _ = Ok _ |- _ =>
      apply first_char_Ok in H as [v' Hv] end.
    unfold literal_ok. rewrite Ht, Hv. simpl.
    match goal with H : char_isupper _ = true |- _ => rewrite H end.
    by split.
  - match goal with H : first_char _ = Ok _ |- _ =>
      apply first_char_Ok in H as [v' Hv] end.
    unfold var_ok. rewrite Ht. rewrite Hv at 1. simpl.
    match goal with H : char_isupper _ = false |- _ => rewrite H end.
    unfold mem_string. simpl.
    repeat match goal with H : String.eqb _ _ = false |- _ => rewrite H; clear H end.
    by split.
Qed.

Lemma parse_parameters_shape (fuel order : nat) (ps : list Param) (st st' : state) :
  parse_parameters fuel order st = Ok (ps, st') →
  numbered_from param_order order ps ∧ Forall (λ p, param_ok p = true) ps.
Proof.
  revert order ps st st'. induction fuel as [|fuel IH]; intros order ps st st' H;
    simpl in H; pinv; try (split; [reflexivity|constructor]).
  match goal with
  | H : parse_parameters fuel _ _ = Ok _ |- _ => apply IH in H as [Hnum Hall]
  end.
  split.
  - unfold numbered_from in *. simpl. rewrite Hnum. by rewrite Nat.add_1_r.
  - constructor; [|done]. unfold param_ok. simpl.
    match goal with H : first_char _ = Ok _ |- _ =>
      apply first_char_Ok in H as [v' Hv] end.
    rewrite Hv at 1.
    match goal with H : negb (_ || _) = false |- _ =>
      apply negb_false_iff in H; rewrite H end.
    match goal with H : mem_string _ reserved = false |- _ => by rewrite H end.
Qed.

Lemma parse_block_header_shape (fuel : nat) (ps : list Param) (st st' : state) :
  parse_block_header fuel st = Ok (ps, st') →
  numbered_from param_order 1 ps ∧ Forall (λ p, param_ok p = true) ps.
Proof.
  unfold parse_block_header. intros H. pinv; try (split; [reflexivity|constructor]).
  match goal with
  | H : parse_parameters _ _ _ = Ok _ |- _ => by apply parse_parameters_shape in H
  end.
Qed.

Lemma leaf_shape (e : expr) :
  leaf e → node_shape e → Forall node_shape (expr_nodes e).
Proof. intros H Hn. rewrite (leaf_nodes e H). by repeat constructor. Qed.

Lemma expr_pos_not_block (e : expr) (p : nat) : expr_pos e = Ok p → is_block e = false.
Proof. by destruct e. Qed.

Lemma parser_shape (fuel : nat) :
  (∀ st b st', parse_block fuel st = Ok (b, st') → tokens st = toks →
     tokens st' = toks ∧ block_shape b ∧ Forall node_shape (block_nodes b))
  ∧ (∀ order st l st', parse_assigns fuel order st = Ok (l, st') → tokens st = toks →
       tokens st' = toks ∧ numbered_from assign_order order l
       ∧ Forall (λ a, mem_string (assign_var a) reserved = false) l
       ∧ Forall node_shape (flat_map assign_nodes l))
  ∧ (∀ order st a st', parse_assignment fuel order st = Ok (a, st') → tokens st = toks →
       tokens st' = toks ∧ assign_order a = order
       ∧ mem_string (assign_var a) reserved = false
       ∧ Forall node_shape (assign_nodes a))
  ∧ (∀ st e st', parse_expr fuel st = Ok (e, st') → tokens st = toks →
       tokens st' = toks ∧ Forall node_shape (expr_nodes e))
  ∧ (∀ st e st', parse_expr_base fuel st = Ok (e, st') → tokens st = toks →
       tokens st' = toks ∧ Forall node_shape (expr_nodes e))
  ∧ (∀ base, Forall node_shape (expr_nodes base) →
       ∀ st e st', parse_expr_tail fuel base st = Ok (e, st') → tokens st = toks →
         tokens st' = toks ∧ Forall node_shape (expr_nodes e))
  ∧ (∀ base, Forall node_shape (expr_nodes base) →
       ∀ st e st', _parse_send_tail fuel base st = Ok (e, st') → tokens st = toks →
         tokens st' = toks ∧ Forall node_shape (expr_nodes e))
  ∧ (∀ st r st', send_tail_loop fuel st = Ok (r, st') → tokens st = toks →
       tokens st' = toks ∧ Forall node_shape (flat_map expr_nodes (snd r))).
Proof.
  induction fuel as [|fuel (IHblock & IHassigns & IHassign & IHexpr & IHbase & IHtail
                             & IHsend & IHloop)].
  { split; [|split; [|split; [|split; [|split; [|split; [|split]]]]]];
      intros; discriminate. }
  split; [|split; [|split; [|split; [|split; [|split; [|split]]]]]].
  - (* parse_block *)
    intros st b st' H Hst. simpl in H. pinv.
    match goal with H : parse_block_header _ _ = Ok _ |- _ =>
      pose proof (parse_block_header_tokens _ _ _ _ H);
      apply parse_block_header_shape in H as [? ?] end.
    match goal with H : parse_assigns _ _ _ = Ok _ |- _ =>
      apply IHassigns in H; [destruct H as (? & ? & ? & ?)|congruence] end.
    rewrite block_nodes_mkBlock. split; [congruence|]. split; [|done].
    by repeat split.
  - (* parse_assigns *)
    intros order st l st' H Hst. simpl in H.
    pinv; try (split; [congruence|]; split; [reflexivity|]; split; constructor).
    match goal with H : parse_assignment _ _ _ = Ok _ |- _ =>
      apply IHassign in H; [destruct H as (? & Hord & ? & ?)|congruence] end.
    match goal with H : parse_assigns _ _ _ = Ok _ |- _ =>
      apply IHassigns in H; [destruct H as (? & Hnum & ? & ?)|congruence] end.
    split; [congruence|]. split; [|split].
    + unfold numbered_from in *. simpl. rewrite Hord, Hnum. by rewrite Nat.add_1_r.
    + by constructor.
    + simpl. by apply Forall_app.
  - (* parse_assignment *)
    intros order st a st' H Hst. simpl in H. pinv.
    match goal with H : parse_expr _ _ = Ok _ |- _ =>
      apply IHexpr in H; [destruct H as [? ?]|congruence] end.
    split; [congruence|]. split; [reflexivity|]. split; [|done].
    simpl. by rewrite <- mem_string_assignment.
  - (* parse_expr *)
    intros st e st' H Hst. simpl in H. pinv.
    match goal with H : parse_expr_base _ _ = Ok _ |- _ =>
      apply IHbase in H; [destruct H as [? ?]|congruence] end.
    eapply IHtail; eauto.
  - (* parse_expr_base *)
    intros st e st' H Hst. simpl in H. pinv.
    destruct (tok_type _) eqn:Hty in H; pinv.
    + split; [congruence|]. apply leaf_shape; [done|]. simpl.
      match goal with H : tokens _ !! _ = Some ?t |- context [tok_value ?t] =>
        pose proof (token_at _ _ Hst H) as Hs end.
      unfold token_shape in Hs.
      match goal with H : ∀ x, Some NUMBER = Some x → _ |- _ =>
        rewrite (H _ eq_refl) in Hs end.
      unfold literal_ok. simpl in Hs |- *. by rewrite Hs.
    + split; [congruence|]. apply leaf_shape; [done|]. simpl.
      match goal with H : tokens _ !! _ = Some ?t |- context [tok_value ?t] =>
        pose proof (token_at _ _ Hst H) as Hs end.
      unfold token_shape in Hs.
      match goal with H : ∀ x, Some STRING = Some x → _ |- _ =>
        rewrite (H _ eq_refl) in Hs end.
      unfold literal_ok. simpl. by rewrite Hs.
    + match goal with H : tokens _ !! _ = Some ?t, H' : ident_expr ?t _ = Ok _ |- _ =>
        pose proof (token_at _ _ Hst H) as Hs;
        pose proof (ident_expr_Ok _ _ _ _ H') as [-> Hleaf];
        apply ident_expr_shape in H' as [? ?]; [|done|by auto] end.
      split; [congruence|by apply leaf_shape].
    + match goal with H : parse_block _ _ = Ok _ |- _ =>
        apply IHblock in H; [destruct H as (? & ? & ?)|congruence] end.
      split; [congruence|]. simpl. by constructor.
    + match goal with H : parse_expr _ _ = Ok _ |- _ =>
        apply IHexpr in H; [destruct H as [? ?]|congruence] end.
      split; [congruence|done].
  - (* parse_expr_tail *)
    intros base Hbase st e st' H Hst. simpl in H. pinv; [|by split].
    destruct (tok_type _) eqn:Hty in H; pinv; try (by split).
    + match goal with H : _parse_send_tail _ _ _ = Ok _ |- _ =>
        apply IHsend in H; [destruct H as [? ?]|done|congruence] end.
      eapply IHtail; eauto.
    + eapply IHtail; [|eassumption|congruence].
      rewrite expr_nodes_Send. constructor; [simpl; congruence|]. simpl. by rewrite app_nil_r.
    + match goal with H : _parse_send_tail _ _ _ = Ok _ |- _ =>
        apply IHsend in H; [destruct H as [? ?]|done|congruence] end.
      eapply IHtail; eauto.
  - (* _parse_send_tail *)
    intros base Hbase st e st' H Hst. simpl in H. pinv; try discriminate.
    + match goal with H : consume_keyword _ = Ok _ |- _ =>
        apply consume_keyword_Ok in H; destruct H as (? & kw & Hin & Hty & <-) end.
      match goal with H : parse_expr_base _ _ = Ok _ |- _ =>
        apply IHbase in H; [destruct H as [? ?]|congruence] end.
      match goal with H : send_tail_loop _ _ = Ok _ |- _ =>
        apply IHloop in H; [destruct H as (? & ?)|congruence] end.
      split; [congruence|]. rewrite expr_nodes_Send. constructor.
      * simpl. intros _. by eapply expr_pos_not_block.
      * simpl. repeat (apply Forall_app; split); done.
    + match goal with H : parse_expr_base _ _ = Ok _ |- _ =>
        apply IHbase in H; [destruct H as [? ?]|congruence] end.
      match goal with H : send_tail_loop _ _ = Ok _ |- _ =>
        apply IHloop in H; [destruct H as (? & ?)|congruence] end.
      split; [congruence|]. rewrite expr_nodes_Send. constructor.
      * simpl. intros _. by eapply expr_pos_not_block.
      * simpl. repeat (apply Forall_app; split); done.
  - (* send_tail_loop *)
    intros st r st' H Hst. simpl in H. pinv.
    + match goal with H : consume_keyword _ = Ok _ |- _ =>
        apply consume_keyword_Ok in H; destruct H as (? & kw & Hin & Hty & <-) end.
      match goal with H : parse_expr_base _ _ = Ok _ |- _ =>
        apply IHbase in H; [destruct H as [? ?]|congruence] end.
      match goal with H : send_tail_loop _ _ = Ok _ |- _ =>
        apply IHloop in H; [destruct H as (? & ?)|congruence] end.
      split; [congruence|]. simpl. by apply Forall_app.
    + split; [congruence|]. constructor.
Qed.

Lemma parse_selector_loop_prefix (fuel : nat) (sel sel' : string) (st st' : state) :
  parse_selector_loop fuel sel st = Ok (sel', st') → ∃ x, sel' = sel +:+ x.
Proof.
  revert sel sel' st st'. induction fuel as [|fuel IH]; intros sel sel' st st' H;
    simpl in H; pinv; try (exists ""; by rewrite LexerFacts.append_nil_r).
  all: match goal with
       | H : parse_selector_loop _ _ _ = Ok _ |- _ => apply IH in H as [tail ->]
       end; rewrite ?XmlFacts.append_assoc; by eexists.
Qed.

Lemma parse_selector_shape (fuel : nat) (sel : string) (st st' : state) :
  parse_selector fuel st = Ok (sel, st') → selector_ok sel = true.
Proof.
  unfold parse_selector. intros H. pinv.
  match goal with
  | H : parse_selector_loop _ _ _ = Ok _ |- _ =>
      apply parse_selector_loop_prefix in H as [tail Hx]
  end.
  match goal with H : first_char _ = Ok _ |- _ =>
    apply first_char_Ok in H as [v' Hv] end.
  unfold selector_ok. rewrite Hx at 1. rewrite Hv. rewrite LexerFacts.append_cons.
  match goal with H : negb (char_islower _) = false |- _ =>
    apply negb_false_iff in H; rewrite H end.
  match goal with H : negb (contains_char _ _) && _ = false |- _ => by rewrite H end.
Qed.

(** What the parser guarantees of a method and of a class. *)
Lemma parse_method_shape (fuel : nat) (st st' : state) (m : Method) :
  parse_method fuel st = Ok (m, st') → tokens st = toks →
  tokens st' = toks
  ∧ (selector_ok (m_selector m) = true ∧ block_shape (m_block m))
  ∧ Forall node_shape (method_nodes m).
Proof.
  intros H Hst. unfold parse_method in H. pinv.
  match goal with
  | H : parse_selector _ _ = Ok _ |- _ =>
      pose proof (parse_selector_tokens _ _ _ _ H); apply parse_selector_shape in H
  end.
  match goal with
  | H : parse_block _ _ = Ok _ |- _ =>
      apply (proj1 (parser_shape _)) in H; [destruct H as (? & ? & ?)|congruence]
  end.
  split; [congruence|done].
Qed.

Lemma parse_methods_shape (fuel : nat) (st st' : state) (l : list Method) :
  parse_methods fuel st = Ok (l, st') → tokens st = toks →
  tokens st' = toks
  ∧ Forall (λ m, selector_ok (m_selector m) = true ∧ block_shape (m_block m)) l
  ∧ Forall node_shape (flat_map method_nodes l).
Proof.
  revert st st' l.
  induction fuel as [|fuel IH]; intros st st' l H Hst; simpl in H; pinv;
    try (split; [congruence|split; constructor]).
  match goal with
  | H : parse_method _ _ = Ok _ |- _ =>
      apply parse_method_shape in H; [destruct H as (? & ? & ?)|congruence]
  end.
  match goal with
  | H : parse_methods _ _ = Ok _ |- _ =>
      apply IH in H; [destruct H as (? & ? & ?)|congruence]
  end.
  split; [congruence|]. split; [by constructor|]. simpl. by apply Forall_app.
Qed.

Lemma invalid_class_identifier_false (v : string) (st st' : state) :
  invalid_class_identifier v st = Ok (false, st') → class_name_ok v = true.
Proof.
  unfold invalid_class_identifier. intros H. pinv.
  match goal with H : first_char _ = Ok _ |- _ =>
    apply first_char_Ok in H as [v' Hv] end.
  unfold class_name_ok. rewrite Hv at 1.
  match goal with H : false = _ |- _ => symmetry in H; apply orb_false_iff in H as [H1 H2] end.
  apply negb_false_iff in H1. by rewrite H1, H2.
Qed.

Lemma parse_class_shape (fuel : nat) (st st' : state) (c : ClassDef) :
  parse_class fuel st = Ok (c, st') → tokens st = toks →
  tokens st' = toks ∧ class_shape c ∧ Forall node_shape (class_nodes c).
Proof.
  intros H Hst. unfold parse_class in H. pinv.
  repeat match goal with
  | H : invalid_class_identifier _ _ = Ok _ |- _ =>
      pose proof (invalid_class_identifier_Ok _ _ _ _ H); psubst;
      apply invalid_class_identifier_false in H
  end.
  match goal with
  | H : parse_methods _ _ = Ok _ |- _ =>
      apply parse_methods_shape in H; [destruct H as (? & ? & ?)|congruence]
  end.
  split; [congruence|]. by repeat split.
Qed.

Lemma parse_classes_shape (fuel : nat) (st st' : state) (l : list ClassDef) :
  parse_classes fuel st = Ok (l, st') → tokens st = toks →
  tokens st' = toks ∧ Forall class_shape l ∧ Forall node_shape (flat_map class_nodes l).
Proof.
  revert st st' l.
  induction fuel as [|fuel IH]; intros st st' l H Hst; simpl in H; pinv;
    try (split; [congruence|split; constructor]).
  match goal with
  | H : parse_class _ _ = Ok _ |- _ =>
      apply parse_class_shape in H; [destruct H as (? & ? & ?)|congruence]
  end.
  match goal with
  | H : parse_classes _ _ = Ok _ |- _ =>
      apply IH in H; [destruct H as (? & ? & ?)|congruence]
  end.
  split; [congruence|]. split; [by constructor|]. simpl. by apply Forall_app.
Qed.

End Shape.

(** Every class, method, block and node of a tree the parser returns
    for the tokens of the lexer. *)
Lemma parse_source_shape (code : string) (ast : Program) :
  parse_source code = Ok ast →
  Forall class_shape (classes ast) ∧ Forall node_shape (program_nodes ast).
Proof.
  unfold parse_source. intros H. bind_inv H.
  apply LexerShape.tokenize_from_shape in Hstep.
  unfold parse in H.
  set (toks' := filter (λ t, is_comment t = false) a) in *.
  destruct (parse_classes _ _) as [[cs st']| | |] eqn:Hcs; try discriminate.
  injection H as <-.
  assert (Hshape : Forall (λ t, token_shape t = true) toks').
  { rewrite Forall_forall in Hstep |- *. intros t Ht. apply Hstep.
    unfold toks' in Ht. by apply list_elem_of_filter in Ht as [_ Ht]. }
  by apply (parse_classes_shape toks' Hshape) in Hcs as (_ & Hc & Hnodes).
Qed.

Lemma elem_of_program_blocks (p : Program) (b : Block) :
  b ∈ program_blocks p →
  (∃ C m, C ∈ classes p ∧ m ∈ cls_methods C ∧ b = m_block m)
  ∨ BlockExpr b ∈ program_nodes p.
Proof.
  unfold program_blocks. rewrite elem_of_app. intros [H|H].
  - left. apply XmlFacts.elem_of_flat_map in H as (C & HC & H).
    apply list_elem_of_fmap in H as (m & -> & Hm). by exists C, m.
  - right. apply list_elem_of_omap in H as (e & He & Hb).
    destruct e; try discriminate. by injection Hb as ->.
Qed.

Lemma parse_source_blocks (code : string) (ast : Program) :
  parse_source code = Ok ast → Forall block_shape (program_blocks ast).
Proof.
  intros [Hc Hn]%parse_source_shape. apply Forall_forall.
  intros b [(C & m & HC & Hm & ->)|Hb]%elem_of_program_blocks.
  - destruct (proj1 (Forall_forall _ _) Hc C HC) as (_ & _ & Hms).
    by apply (proj1 (Forall_forall _ _) Hms m Hm).
  - apply (proj1 (Forall_forall _ _) Hn _ Hb).
Qed.


(** Takes the first call of a successful sequence apart and runs it in
    the goal too. *)
Ltac step H :=
  let a := fresh "a" in
  let s := fresh "s" in
  let E := fresh "E" in
  apply bindM_Ok in H as (a & s & E & H); unfold bindM at 1; rewrite E; cbv beta iota.

(** The tail of a keyword message is read without a look at the
    expression before it; the position of that expression is asked for
    at the end, and a block literal has none. *)
Lemma send_tail_after_block (fuel : nat) (base : expr) (b : Block) (st st' : state)
    (e : expr) :
  _parse_send_tail fuel base st = Ok (e, st') →
  _parse_send_tail fuel (BlockExpr b) st = Raise AttributeError.
Proof.
  destruct fuel as [|fuel]; [discriminate|]. simpl. intros H.
  step H. destruct a as [t|]; [|discriminate].
  step H. step H. step H. reflexivity.
Qed.

End ParserShape.

(** ** The trees of the parser *)

(** X9.  In every block of a parsed program, a method body or a block
    literal, the parameters carry the orders 1, 2, ... in the order of
    their declaration, and the assignments the orders 1, 2, ... in the
    order of the source. *)
Theorem parsed_blocks_numbered (code : string) (ast : Program) :
  parse_source code = Ok ast →
  Forall (λ b, numbered_from param_order 1 (parameters b)
               ∧ numbered_from assign_order 1 (assigns b))
    (program_blocks ast).
Proof.
  intros H. apply ParserShape.parse_source_blocks in H.
  eapply Forall_impl; [exact H|]. by intros b (Hp & Ha & _).
Qed.

Lemma parsed_blocks_numbered_witness :
  Forall (λ b, numbered_from param_order 1 (parameters b)
               ∧ numbered_from assign_order 1 (assigns b))
    (program_blocks
       (ok_or (mkProgram [] None)
          (parse_source "class Main:Object{run[|x:=[:a :b|y:=a.z:=b.].]}"))).
Proof.
  apply (parsed_blocks_numbered "class Main:Object{run[|x:=[:a :b|y:=a.z:=b.].]}").
  vm_compute. reflexivity.
Defined.

(** X10.  In every block of a parsed program, every parameter name
    starts with a lowercase letter or an underscore and is no reserved
    word, and no assignment has a reserved word for its variable. *)
Theorem parsed_block_names (code : string) (ast : Program) :
  parse_source code = Ok ast →
  Forall (λ b, Forall (λ p, param_ok p = true) (parameters b)
               ∧ Forall (λ a, mem_string (assign_var a) reserved = false) (assigns b))
    (program_blocks ast).
Proof.
  intros H. apply ParserShape.parse_source_blocks in H.
  eapply Forall_impl; [exact H|]. by intros b (_ & _ & Hp & Ha).
Qed.

Lemma parsed_block_names_witness :
  Forall (λ b, Forall (λ p, param_ok p = true) (parameters b)
               ∧ Forall (λ a, mem_string (assign_var a) reserved = false) (assigns b))
    (program_blocks
       (ok_or (mkProgram [] None)
          (parse_source "class Main:Object{run[|x:=[:a :_b|y:=a.z:=_b.].]}"))).
Proof.
  apply (parsed_block_names "class Main:Object{run[|x:=[:a :_b|y:=a.z:=_b.].]}").
  vm_compute. reflexivity.
Defined.

(** X11.  In a parsed program the name of every class and of every
    parent starts with an uppercase letter and holds no underscore, and
    the selector of every method starts with a lowercase letter and,
    when it has no colon, is no reserved word. *)
Theorem parsed_class_names (code : string) (ast : Program) :
  parse_source code = Ok ast →
  Forall (λ C, class_name_ok (cls_name C) = true
               ∧ class_name_ok (cls_parent C) = true
               ∧ Forall (λ m, selector_ok (m_selector m) = true) (cls_methods C))
    (classes ast).
Proof.
  intros [H _]%ParserShape.parse_source_shape.
  eapply Forall_impl; [exact H|]. intros C (Hn & Hp & Hm). repeat split; try done.
  eapply Forall_impl; [exact Hm|]. by intros m [? _].
Qed.

Lemma parsed_class_names_witness :
  Forall (λ C, class_name_ok (cls_name C) = true
               ∧ class_name_ok (cls_parent C) = true
               ∧ Forall (λ m, selector_ok (m_selector m) = true) (cls_methods C))
    (classes
       (ok_or (mkProgram [] None)
          (parse_source "class Main:Object{run[|]at:put:[:i :v|]}"))).
Proof.
  apply (parsed_class_names "class Main:Object{run[|]at:put:[:i :v|]}").
  vm_compute. reflexivity.
Defined.

(** X12.  Among the expression nodes of a parsed program (the values
    of the assignments, the targets and the arguments of the sends, at
    any depth), the name of every variable node is an identifier that
    does not start with an uppercase letter and is none of [true],
    [false] and [nil], and every literal node is an Integer with a
    signed number, a String with a decoded text, one of True, False and
    Nil with its word, or a class with an identifier that starts with
    an uppercase letter.  The variable on the left of an assignment is
    no expression node and is not meant: it is any identifier that is
    no reserved word, capitalised or not. *)
Theorem parsed_leaves (code : string) (ast : Program) :
  parse_source code = Ok ast →
  (∀ name pos, Var name pos ∈ program_nodes ast → var_ok name = true)
  ∧ (∀ literal_class value pos,
       Literal literal_class value pos ∈ program_nodes ast →
       literal_ok literal_class value = true).
Proof.
  intros [_ H]%ParserShape.parse_source_shape. rewrite Forall_forall in H.
  split; intros; by eapply (H (Var _ _)) || by eapply (H (Literal _ _ _)).
Qed.

Lemma parsed_leaves_witness :
  var_ok "y" = true ∧ literal_ok "class" "Integer" = true.
Proof.
  destruct (parsed_leaves "class Main:Object{run[:y|x:=Integer from: y.]}"
              (ok_or (mkProgram [] None)
                 (parse_source "class Main:Object{run[:y|x:=Integer from: y.]}")))
    as [Hv Hl]; [vm_compute; reflexivity|].
  split.
  - apply (Hv "y" 42). vm_compute. apply list_elem_of_further, list_elem_of_further.
    apply list_elem_of_here.
  - apply (Hl "class" "Integer" 28). vm_compute. apply list_elem_of_further.
    apply list_elem_of_here.
Defined.

(** X13.  No send with arguments of a parsed program has a block
    literal for its target. *)
Theorem parsed_keyword_send_target (code : string) (ast : Program)
    (selector : string) (target : expr) (args : list expr) (pos : nat) :
  parse_source code = Ok ast →
  Send selector target args pos ∈ program_nodes ast →
  args ≠ [] → is_block target = false.
Proof.
  intros [_ H]%ParserShape.parse_source_shape Hin. rewrite Forall_forall in H.
  apply (H _ Hin).
Qed.

Lemma parsed_keyword_send_target_witness : is_block (Var "y" 28) = false.
Proof.
  apply (parsed_keyword_send_target "class Main:Object{run[:y|x:=y foo: 1.]}"
           (ok_or (mkProgram [] None)
              (parse_source "class Main:Object{run[:y|x:=y foo: 1.]}"))
           "foo:" (Var "y" 28) [Literal "Integer" "1" 35] 28).
  - vm_compute. reflexivity.
  - vm_compute. apply list_elem_of_here.
  - discriminate.
Defined.

(** X14.  Where the tail of a keyword message parses after some
    expression, the same tail after a block literal ends the parser with
    an AttributeError: the send takes the position of its target, and a
    block has none. *)
Theorem keyword_send_after_block_raises (fuel : nat) (base : expr) (b : Block)
    (st st' : Parser.state) (e : expr) :
  Parser._parse_send_tail fuel base st = Ok (e, st') →
  Parser._parse_send_tail fuel (BlockExpr b) st = Raise AttributeError.
Proof. apply ParserShape.send_tail_after_block. Qed.

Lemma keyword_send_after_block_raises_witness :
  Parser._parse_send_tail 3 (BlockExpr (mkBlock [] []))
    (Parser.mkState [mkToken IDENT "value" 0; mkToken COLON ":" 5; mkToken NUMBER "1" 7] 0 0)
  = Raise AttributeError.
Proof.
  eapply (keyword_send_after_block_raises 3 (Var "x" 0)). vm_compute. reflexivity.
Defined.

Module ParserOutcome.
Import Parser ParserFacts.
Local Open Scope parser_scope.

#[local] Arguments bindM : simpl never.
#[local] Arguments ret : simpl never.
#[local] Arguments lift : simpl never.
#[local] Arguments consume : simpl never.
#[local] Arguments current_token : simpl never.
#[local] Arguments error_if : simpl never.
#[local] Arguments current_is : simpl never.
#[local] Arguments next_is : simpl never.
#[local] Arguments get_last_token_end : simpl never.
#[local] Arguments error : simpl never.
#[local] Arguments out_of_fuel : simpl never.
#[local] Arguments consume_keyword : simpl never.
#[local] Arguments ident_expr : simpl never.
#[local] Arguments parse_block_header : simpl never.
#[local] Arguments invalid_class_identifier : simpl never.
#[local] Arguments mem_string : simpl never.
#[local] Arguments remaining : simpl never.

Section Rules.
Context (E : exception → Prop).

Lemma ends_ret {A : Type} (Q : A → state → Prop) (a : A) (st : state) :
  Q a st → ends E Q (ret a) st.
Proof. done. Qed.

Lemma ends_bind {A B : Type} (Q : B → state → Prop) (m : M A) (k : A → M B) (st : state) :
  ends E (λ a st', ends E Q (k a) st') m st → ends E Q (bindM m k) st.
Proof. unfold ends, bindM. by destruct (m st) as [[a st']| | |]. Qed.

Lemma ends_mono {A : Type} (Q Q' : A → state → Prop) (m : M A) (st : state) :
  (∀ a st', Q a st' → Q' a st') → ends E Q m st → ends E Q' m st.
Proof. unfold ends. intros H. destruct (m st) as [[a st']| | |]; auto. Qed.

Lemma ends_error {A : Type} (Q : A → state → Prop) (st : state) : ends E Q error st.
Proof. done. Qed.

Lemma ends_error_if (Q : unit → state → Prop) (cond : bool) (st : state) :
  (cond = false → Q tt st) → ends E Q (error_if cond) st.
Proof. destruct cond; [done|]. intros H. by apply H. Qed.

Lemma ends_current_token (Q : option Token → state → Prop) (st : state) :
  Q (tokens st !! pos st) st → ends E Q current_token st.
Proof. done. Qed.

Lemma ends_get_last_token_end (Q : nat → state → Prop) (st : state) :
  Q (last_token_end st) st → ends E Q get_last_token_end st.
Proof. done. Qed.

Lemma ends_current_is (Q : bool → state → Prop) (ty : token_type) (st : state) :
  Q (match tokens st !! pos st with
     | Some t => bool_decide (tok_type t = ty)
     | None => false
     end) st →
  ends E Q (current_is ty) st.
Proof. done. Qed.

Lemma ends_next_is (Q : bool → state → Prop) (ty : token_type) (st : state) :
  Q (match tokens st !! (pos st + 1) with
     | Some t => bool_decide (tok_type t = ty)
     | None => false
     end) st →
  ends E Q (next_is ty) st.
Proof. done. Qed.

(** A token is consumed: one token less is left. *)
Lemma ends_consume (Q : Token → state → Prop) (ty : option token_type) (st : state) :
  (∀ t st', tokens st !! pos st = Some t → (∀ x, ty = Some x → tok_type t = x) →
            tokens st' = tokens st → remaining st' + 1 = remaining st → Q t st') →
  ends E Q (consume ty) st.
Proof.
  intros H. unfold ends, consume, bindM, current_token.
  destruct (tokens st !! pos st) as [t|] eqn:Ht; [|done].
  destruct (error_if _ st) as [[[] st1]| | |] eqn:Herr; try done.
  - apply error_if_Ok in Herr as [Hc ->]. apply H; try done.
    + intros x ->. by apply bool_decide_eq_false, dec_stable in Hc.
    + unfold remaining. simpl. apply lookup_lt_Some in Ht. lia.
  - unfold error_if in Herr. destruct (match ty with Some _ => _ | None => _ end);
      [by injection Herr as <-|discriminate].
  - unfold error_if in Herr. by destruct (match ty with Some _ => _ | None => _ end).
  - unfold error_if in Herr. by destruct (match ty with Some _ => _ | None => _ end).
Qed.

End Rules.

Ltac hstep :=
  lazymatch goal with
  | |- ends _ _ (bindM _ _) _ => apply ends_bind
  | |- ends _ _ (ret _) _ => apply ends_ret
  | |- ends _ _ error _ => apply ends_error
  | |- ends _ _ (error_if _) _ => apply ends_error_if; intros ?
  | |- ends _ _ current_token _ => apply ends_current_token
  | |- ends _ _ get_last_token_end _ => apply ends_get_last_token_end
  | |- ends _ _ (current_is _) _ => apply ends_current_is
  | |- ends _ _ (next_is _) _ => apply ends_next_is
  | |- ends _ _ (consume _) _ => apply ends_consume; intros ? ? ? ? ? ?
  | |- ends _ _ (if ?b then _ else _) _ => destruct b eqn:?
  | |- ends _ _ (match ?o with Some _ => _ | None => _ end) _ => destruct o eqn:?
  end.

(** Calls a method the induction covers and goes on after it. *)
Ltac hcall IH :=
  eapply ends_mono; [|apply IH; [congruence|lia]];
  intros ? ? [? ?]; cbv beta.

Ltac hdone := split; [congruence|lia].

Section Outcome.
Context (E : exception → Prop) (toks : list Token).
Context (HE : E AttributeError).
Context (Hfirst : ∀ t, t ∈ toks → tok_type t = IDENT →
                   match first_char (tok_value t) with
                   | Raise e => E e
                   | _ => True
                   end).

Lemma ends_first_char (Q : ascii → state → Prop) (t : Token) (st st0 : state) :
  tokens st0 = toks → tokens st0 !! pos st0 = Some t →
  (∀ x, Some IDENT = Some x → tok_type t = x) →
  (∀ c, Q c st) → ends E Q (lift (first_char (tok_value t))) st.
Proof.
  intros Hst Ht Hty HQ. unfold ends, lift.
  assert (Hin : t ∈ toks) by (rewrite <- Hst; by eapply list_elem_of_lookup_2).
  specialize (Hfirst t Hin (Hty _ eq_refl)).
  destruct (first_char (tok_value t)) eqn:Hc; try done.
  - by destruct (tok_value t).
  - by destruct (tok_value t).
Qed.

Lemma ends_expr_pos (Q : nat → state → Prop) (base : expr) (st : state) :
  (∀ p, Q p st) → ends E Q (lift (expr_pos base)) st.
Proof. intros HQ. unfold ends, lift. destruct base; simpl; auto. Qed.

Lemma consume_keyword_ends (st : state) :
  tokens st = toks →
  ends E (λ _ st', tokens st' = toks ∧ (remaining st' + 2 ≤ remaining st)%nat)
    consume_keyword st.
Proof.
  intros Hst. unfold consume_keyword. repeat hstep. hdone.
Qed.

Lemma ident_expr_ends (t : Token) (st st0 : state) :
  tokens st0 = toks → tokens st0 !! pos st0 = Some t →
  (∀ x, Some IDENT = Some x → tok_type t = x) →
  ends E (λ _ st', st' = st) (ident_expr t) st.
Proof.
  intros Hst Ht Hty. unfold ident_expr. repeat hstep; try done.
  eapply ends_first_char; try eassumption. intros c. by repeat hstep.
Qed.

Lemma parse_parameters_ends (fuel order : nat) (st : state) :
  tokens st = toks → (4 * remaining st + 1 ≤ fuel)%nat →
  ends E (λ _ st', tokens st' = toks ∧ (remaining st' ≤ remaining st)%nat)
    (parse_parameters fuel order) st.
Proof.
  revert order st. induction fuel as [|fuel IH]; intros order st Hst Hfuel; [lia|].
  simpl. repeat hstep; try hdone.
  eapply ends_first_char; [|eassumption|eassumption|]; [congruence|].
  intros c. repeat hstep. hcall IH. repeat hstep. hdone.
Qed.

Lemma parse_block_header_ends (fuel : nat) (st : state) :
  tokens st = toks → (4 * remaining st + 1 ≤ fuel)%nat →
  ends E (λ _ st', tokens st' = toks ∧ (remaining st' + 1 ≤ remaining st)%nat)
    (parse_block_header fuel) st.
Proof.
  intros Hst Hfuel. unfold parse_block_header. repeat hstep; try hdone.
  eapply ends_mono; [|apply parse_parameters_ends; [congruence|lia]].
  intros ? ? [? ?]; cbv beta. repeat hstep. hdone.
Qed.

(** Every method of the expression grammar ends when the bound on the
    recursion is four times the tokens that are left and a little. *)
Lemma parser_ends (fuel : nat) :
  (∀ st, tokens st = toks → (4 * remaining st + 1 ≤ fuel)%nat →
     ends E (λ _ st', tokens st' = toks ∧ (remaining st' + 1 ≤ remaining st)%nat)
       (parse_block fuel) st)
  ∧ (∀ order st, tokens st = toks → (4 * remaining st + 2 ≤ fuel)%nat →
       ends E (λ _ st', tokens st' = toks ∧ (remaining st' ≤ remaining st)%nat)
         (parse_assigns fuel order) st)
  ∧ (∀ order st, tokens st = toks → (4 * remaining st + 1 ≤ fuel)%nat →
       ends E (λ _ st', tokens st' = toks ∧ (remaining st' + 1 ≤ remaining st)%nat)
         (parse_assignment fuel order) st)
  ∧ (∀ st, tokens st = toks → (4 * remaining st + 3 ≤ fuel)%nat →
       ends E (λ _ st', tokens st' = toks ∧ (remaining st' + 1 ≤ remaining st)%nat)
         (parse_expr fuel) st)
  ∧ (∀ st, tokens st = toks → (4 * remaining st + 2 ≤ fuel)%nat →
       ends E (λ _ st', tokens st' = toks ∧ (remaining st' + 1 ≤ remaining st)%nat)
         (parse_expr_base fuel) st)
  ∧ (∀ base st, tokens st = toks → (4 * remaining st + 2 ≤ fuel)%nat →
       ends E (λ _ st', tokens st' = toks ∧ (remaining st' ≤ remaining st)%nat)
         (parse_expr_tail fuel base) st)
  ∧ (∀ base st, tokens st = toks → (4 * remaining st + 1 ≤ fuel)%nat →
       ends E (λ _ st', tokens st' = toks ∧ (remaining st' + 1 ≤ remaining st)%nat)
         (_parse_send_tail fuel base) st)
  ∧ (∀ st, tokens st = toks → (4 * remaining st + 1 ≤ fuel)%nat →
       ends E (λ _ st', tokens st' = toks ∧ (remaining st' ≤ remaining st)%nat)
         (send_tail_loop fuel) st).
Proof.
  induction fuel as [|fuel (IHblock & IHassigns & IHassign & IHexpr & IHbase & IHtail
                             & IHsend & IHloop)].
  { split; [|split; [|split; [|split; [|split; [|split; [|split]]]]]]; intros; lia. }
  split; [|split; [|split; [|split; [|split; [|split; [|split]]]]]].
  - (* parse_block *)
    intros st Hst Hfuel. simpl. repeat hstep.
    eapply ends_mono; [|apply parse_block_header_ends; [congruence|lia]].
    intros ? ? [? ?]; cbv beta. hstep. hcall IHassigns. repeat hstep. hdone.
  - (* parse_assigns *)
    intros order st Hst Hfuel. simpl. repeat hstep; try hdone.
    hcall IHassign. hstep. hcall IHassigns. hstep. hdone.
  - (* parse_assignment *)
    intros order st Hst Hfuel. simpl. repeat hstep.
    hcall IHexpr. repeat hstep. hdone.
  - (* parse_expr *)
    intros st Hst Hfuel. simpl. hstep. hcall IHbase. hcall IHtail. hdone.
  - (* parse_expr_base *)
    intros st Hst Hfuel. simpl. repeat hstep.
    destruct (tok_type _) eqn:Hty; repeat hstep; try hdone.
    + eapply ends_mono; [|eapply ident_expr_ends; try eassumption; congruence].
      intros ? ? ->. hdone.
    + hcall IHblock. hstep. hdone.
    + hcall IHexpr. repeat hstep. hdone.
  - (* parse_expr_tail *)
    intros base st Hst Hfuel. simpl. repeat hstep; try hdone.
    destruct (tok_type _) eqn:Hty; repeat hstep; try hdone.
    + hcall IHsend. hcall IHtail. hdone.
    + hcall IHtail. hdone.
    + hcall IHsend. hcall IHtail. hdone.
  - (* _parse_send_tail *)
    intros base st Hst Hfuel. simpl. repeat hstep.
    + eapply ends_mono; [|by apply consume_keyword_ends].
      intros ? ? [? ?]; cbv beta. repeat hstep.
      hcall IHbase. hstep. hcall IHloop. hstep.
      apply ends_expr_pos. intros p. hstep. hdone.
    + hcall IHbase. hstep. hcall IHloop. hstep.
      apply ends_expr_pos. intros p. hstep. hdone.
    + unfold ends, lift. exact HE.
  - (* send_tail_loop *)
    intros st Hst Hfuel. simpl. repeat hstep; try hdone.
    eapply ends_mono; [|by apply consume_keyword_ends].
    intros ? ? [? ?]; cbv beta. hstep. hcall IHbase. hstep. hcall IHloop. hstep. hdone.
Qed.

Lemma parse_selector_loop_ends (fuel : nat) (sel : string) (st : state) :
  tokens st = toks → (4 * remaining st + 1 ≤ fuel)%nat →
  ends E (λ _ st', tokens st' = toks ∧ (remaining st' ≤ remaining st)%nat)
    (parse_selector_loop fuel sel) st.
Proof.
  revert sel st. induction fuel as [|fuel IH]; intros sel st Hst Hfuel; [lia|].
  simpl. repeat hstep; try hdone.
  - hcall IH. hdone.
  - hcall IH. hdone.
Qed.

Lemma parse_selector_ends (fuel : nat) (st : state) :
  tokens st = toks → (4 * remaining st ≤ fuel)%nat →
  ends E (λ _ st', tokens st' = toks ∧ (remaining st' + 1 ≤ remaining st)%nat)
    (parse_selector fuel) st.
Proof.
  intros Hst Hfuel. unfold parse_selector. repeat hstep.
  eapply ends_first_char; [|eassumption|eassumption|]; [congruence|].
  intros c. repeat hstep.
  eapply ends_mono; [|apply parse_selector_loop_ends; [congruence|lia]].
  intros ? ? [? ?]; cbv beta. repeat hstep. hdone.
Qed.

Lemma parse_method_ends (fuel : nat) (st : state) :
  tokens st = toks → (4 * remaining st ≤ fuel)%nat →
  ends E (λ _ st', tokens st' = toks ∧ (remaining st' + 1 ≤ remaining st)%nat)
    (parse_method fuel) st.
Proof.
  intros Hst Hfuel. unfold parse_method. hstep.
  eapply ends_mono; [|apply parse_selector_ends; [congruence|lia]].
  intros ? ? [? ?]; cbv beta. hstep.
  eapply ends_mono; [|apply (proj1 (parser_ends fuel)); [congruence|lia]].
  intros ? ? [? ?]; cbv beta. hstep. hdone.
Qed.

Lemma parse_methods_ends (fuel : nat) (st : state) :
  tokens st = toks → (4 * remaining st + 1 ≤ fuel)%nat →
  ends E (λ _ st', tokens st' = toks ∧ (remaining st' ≤ remaining st)%nat)
    (parse_methods fuel) st.
Proof.
  revert st. induction fuel as [|fuel IH]; intros st Hst Hfuel; [lia|].
  simpl. repeat hstep; try hdone.
  eapply ends_mono; [|apply parse_method_ends; [congruence|lia]].
  intros ? ? [? ?]; cbv beta. hstep. hcall IH. hstep. hdone.
Qed.

Lemma invalid_class_identifier_ends (t : Token) (st st0 : state) :
  tokens st0 = toks → tokens st0 !! pos st0 = Some t →
  (∀ x, Some IDENT = Some x → tok_type t = x) →
  ends E (λ _ st', st' = st) (invalid_class_identifier (tok_value t)) st.
Proof.
  intros Hst Ht Hty. unfold invalid_class_identifier. hstep.
  eapply ends_first_char; try eassumption. intros c. by hstep.
Qed.

Lemma parse_class_ends (fuel : nat) (st : state) :
  tokens st = toks → (4 * remaining st ≤ fuel)%nat →
  ends E (λ _ st', tokens st' = toks ∧ (remaining st' + 1 ≤ remaining st)%nat)
    (parse_class fuel) st.
Proof.
  intros Hst Hfuel. unfold parse_class. repeat hstep.
  match goal with
  | Ht : tokens ?s !! pos ?s = Some ?t, Hty : (∀ x, Some IDENT = Some x → tok_type ?t = x)
    |- ends _ _ (invalid_class_identifier (tok_value ?t)) _ =>
      eapply ends_mono;
        [|eapply (invalid_class_identifier_ends t _ s); [congruence|exact Ht|exact Hty]]
  end.
  intros ? ? ->. repeat hstep.
  match goal with
  | Ht : tokens ?s !! pos ?s = Some ?t, Hty : (∀ x, Some IDENT = Some x → tok_type ?t = x)
    |- ends _ _ (invalid_class_identifier (tok_value ?t)) _ =>
      eapply ends_mono;
        [|eapply (invalid_class_identifier_ends t _ s); [congruence|exact Ht|exact Hty]]
  end.
  intros ? ? ->. repeat hstep.
  eapply ends_mono; [|apply parse_methods_ends; [congruence|lia]].
  intros ? ? [? ?]; cbv beta. repeat hstep. hdone.
Qed.

Lemma parse_classes_ends (fuel : nat) (st : state) :
  tokens st = toks → (4 * remaining st + 1 ≤ fuel)%nat →
  ends E (λ _ _, True) (parse_classes fuel) st.
Proof.
  revert st. induction fuel as [|fuel IH]; intros st Hst Hfuel; [lia|].
  simpl. repeat hstep; try done.
  eapply ends_mono; [|apply parse_class_ends; [congruence|lia]].
  intros ? ? [? ?]; cbv beta. hstep.
  eapply ends_mono; [|apply IH; [congruence|lia]]. intros ? ? _. by hstep.
Qed.

End Outcome.

(** [parse] ends on every list of tokens. *)
Lemma parse_ends (E : exception → Prop) (toks : list Token) :
  E AttributeError →
  (∀ t, t ∈ toks → tok_type t = IDENT →
        match first_char (tok_value t) with
        | Raise e => E e
        | _ => True
        end) →
  ends_with E [ERR_SYNTACTIC] (parse toks).
Proof.
  intros HE Hfirst. unfold parse.
  set (toks' := filter (λ t, is_comment t = false) toks).
  assert (Hfirst' : ∀ t, t ∈ toks' → tok_type t = IDENT →
                         match first_char (tok_value t) with
                         | Raise e => E e
                         | _ => True
                         end).
  { intros t Ht. apply Hfirst. unfold toks' in Ht.
    by apply list_elem_of_filter in Ht as [_ Ht]. }
  pose proof (parse_classes_ends E toks' HE Hfirst' (parse_fuel (List.length toks'))
                (mkState toks' 0 0) eq_refl) as H.
  unfold ends in H.
  destruct (parse_classes _ _) as [[cs st']| | |]; simpl.
  - done.
  - rewrite H; [apply list_elem_of_here|].
    unfold remaining, parse_fuel. simpl. lia.
  - apply H. unfold remaining, parse_fuel. simpl. lia.
  - apply H. unfold remaining, parse_fuel. simpl. lia.
Qed.

End ParserOutcome.

(** ** The outcomes of the parser *)

Module CheckFacts.
Import SemanticAnalyzer.

Lemma check_duplicate_classes_outcome (cs : list ClassDef) (seen : gmap string ClassDef)
    (order : list string) :
  check_duplicate_classes cs seen order = Ok (seen_after seen cs, order ++ map cls_name cs)
  ∨ check_duplicate_classes cs seen order = Exit ERR_SEMANTIC_OTHER.
Proof.
  revert seen order. induction cs as [|C cs IH]; intros seen order; simpl.
  - left. by rewrite app_nil_r.
  - case_bool_decide; [by right|].
    destruct (IH (<[cls_name C := C]> seen) (order ++ [cls_name C])) as [-> | ->];
      [left|by right].
    by rewrite <- app_assoc.
Qed.

Lemma dom_seen_after (seen : gmap string ClassDef) (cs : list ClassDef) :
  dom (seen_after seen cs) = dom seen ∪ list_to_set (map cls_name cs).
Proof.
  revert seen. induction cs as [|C cs IH]; intros seen; simpl.
  - set_solver.
  - unfold seen_after in *. simpl. rewrite IH, dom_insert_L. set_solver.
Qed.

Lemma check_duplicate_methods_in_outcome (ms : list Method) (seen : gset string) :
  check_duplicate_methods_in ms seen = Ok tt
  ∨ check_duplicate_methods_in ms seen = Exit ERR_SEMANTIC_OTHER.
Proof.
  revert seen. induction ms as [|m ms IH]; intros seen; simpl; [by left|].
  case_bool_decide; [by right|]. apply IH.
Qed.

Lemma check_duplicate_methods_in_Ok (ms : list Method) (seen : gset string) :
  check_duplicate_methods_in ms seen = Ok tt ↔
  NoDup (map m_selector ms) ∧ ∀ m, m ∈ ms → m_selector m ∉ seen.
Proof.
  revert seen. induction ms as [|m ms IH]; intros seen; simpl.
  - split; [|done]. intros _. split; [constructor|]. by intros m ?%elem_of_nil.
  - case_bool_decide as Hin.
    + split; [discriminate|]. intros [_ H]. exfalso.
      apply (H m); [apply list_elem_of_here|done].
    + rewrite IH. split.
      * intros [Hnd Hfresh]. split.
        -- apply NoDup_cons. split; [|done].
           intros (m' & Heq & Hm')%list_elem_of_fmap.
           apply (Hfresh m' Hm'). rewrite <- Heq. set_solver.
        -- intros m' [->|Hm']%elem_of_cons; [done|].
           specialize (Hfresh m' Hm'). set_solver.
      * intros [Hnd Hfresh]. apply NoDup_cons in Hnd as [Hm Hnd]. split; [done|].
        intros m' Hm'. specialize (Hfresh m' (list_elem_of_further _ _ _ Hm')).
        assert (m_selector m' ≠ m_selector m).
        { intros Heq. apply Hm. rewrite <- Heq. by apply list_elem_of_fmap_2. }
        set_solver.
Qed.

Lemma check_duplicate_methods_outcome (cs : list ClassDef) :
  check_duplicate_methods cs = Ok tt
  ∨ check_duplicate_methods cs = Exit ERR_SEMANTIC_OTHER.
Proof.
  induction cs as [|C cs IH]; simpl; [by left|].
  destruct (check_duplicate_methods_in_outcome (cls_methods C) ∅) as [-> | ->];
    [exact IH|by right].
Qed.

Lemma check_duplicate_methods_Ok (cs : list ClassDef) :
  check_duplicate_methods cs = Ok tt ↔
  ∀ C, C ∈ cs → NoDup (map m_selector (cls_methods C)).
Proof.
  induction cs as [|C cs IH]; simpl.
  - split; [|done]. by intros _ C ?%elem_of_nil.
  - destruct (check_duplicate_methods_in_outcome (cls_methods C) ∅) as [H|H];
      rewrite H; simpl.
    + apply check_duplicate_methods_in_Ok in H as [Hnd _]. rewrite IH. split.
      * intros Hall C' [->|HC']%elem_of_cons; auto.
      * intros Hall C' HC'. apply Hall. by apply list_elem_of_further.
    + split; [discriminate|]. intros Hall. exfalso.
      assert (Hok : check_duplicate_methods_in (cls_methods C) ∅ = Ok tt).
      { apply check_duplicate_methods_in_Ok. split; [|set_solver].
        apply Hall, list_elem_of_here. }
      congruence.
Qed.

(** The search for [run] in a class: the arity error at a [run] with
    parameters, and else whether one was found. *)
Lemma find_run_outcome (ms : list Method) (found : bool) :
  find_run ms found
  = Ok (found || existsb (λ m, String.eqb (m_selector m) "run") ms)
  ∨ find_run ms found = Exit ERR_ARITY.
Proof.
  revert found. induction ms as [|m ms IH]; intros found; simpl.
  - left. by rewrite orb_false_r.
  - destruct (String.eqb (m_selector m) "run").
    + case_bool_decide; [by right|].
      destruct (IH true) as [-> | ->]; [left|by right]. simpl. by rewrite orb_true_r.
    + destruct (IH found) as [-> | ->]; [by left|by right].
Qed.

Lemma find_main_outcome (cs : list ClassDef) (found : bool) :
  find_main cs found
  = Ok (found
        || existsb (λ C, String.eqb (cls_name C) "Main"
                         && existsb (λ m, String.eqb (m_selector m) "run") (cls_methods C))
             cs)
  ∨ find_main cs found = Exit ERR_ARITY.
Proof.
  revert found. induction cs as [|C cs IH]; intros found; simpl.
  - left. by rewrite orb_false_r.
  - destruct (String.eqb (cls_name C) "Main"); simpl.
    + destruct (find_run_outcome (cls_methods C) found) as [-> | ->]; [|by right].
      simpl. destruct (IH (found || existsb (λ m, String.eqb (m_selector m) "run")
                                      (cls_methods C))) as [-> | ->]; [left|by right].
      by rewrite orb_assoc.
    + apply IH.
Qed.

Lemma has_main_run_true (p : Program) :
  has_main_run p = true ↔
  ∃ C m, C ∈ classes p ∧ cls_name C = "Main" ∧ m ∈ cls_methods C ∧ m_selector m = "run".
Proof.
  unfold has_main_run. rewrite existsb_exists. split.
  - intros (C & HC & [Hn Hm]%andb_true_iff).
    apply existsb_exists in Hm as (m & Hm & Hs).
    exists C, m. repeat split; try by apply list_elem_of_In.
    + by apply String_eqb_true.
    + by apply String_eqb_true.
  - intros (C & m & HC & Hn & Hm & Hs). exists C. split; [by apply list_elem_of_In|].
    rewrite Hn. simpl. apply existsb_exists. exists m.
    split; [by apply list_elem_of_In|]. by rewrite Hs.
Qed.

Lemma check_parents_outcome (self : analyzer) (cs : list ClassDef) :
  check_parents self cs = Ok tt ∨ check_parents self cs = Exit ERR_UNDEFINED_VAR.
Proof.
  induction cs as [|C cs IH]; simpl; [by left|].
  destruct (_ && _); [by right|exact IH].
Qed.

Lemma builtin_classes_Object : "Object" ∈ builtin_classes.
Proof. unfold builtin_classes. set_solver. Qed.

Lemma check_parents_Ok (self : analyzer) (cs : list ClassDef) :
  check_parents self cs = Ok tt ↔
  ∀ C, C ∈ cs → cls_parent C ∈ builtin_classes ∨ cls_parent C ∈ global_classes self.
Proof.
  induction cs as [|C cs IH]; simpl.
  - split; [|done]. by intros _ C ?%elem_of_nil.
  - destruct (negb (String.eqb (cls_parent C) "Object")) eqn:Hobj; simpl.
    + case_bool_decide as Hg; simpl.
      * case_bool_decide as Hb; simpl.
        -- split; [discriminate|]. intros Hall. exfalso.
           destruct (Hall C (list_elem_of_here _ _)); done.
        -- rewrite IH. split.
           ++ intros Hall C' [->|HC']%elem_of_cons; [|by auto].
              left. first [done | by apply dec_stable in Hb].
           ++ intros Hall C' HC'. apply Hall. by apply list_elem_of_further.
      * rewrite IH. split.
        -- intros Hall C' [->|HC']%elem_of_cons; [|by auto].
           right. first [done | by apply dec_stable in Hg].
        -- intros Hall C' HC'. apply Hall. by apply list_elem_of_further.
    + apply negb_false_iff, String_eqb_true in Hobj. rewrite IH. split.
      * intros Hall C' [->|HC']%elem_of_cons; [|by auto].
        left. rewrite Hobj. apply builtin_classes_Object.
      * intros Hall C' HC'. apply Hall. by apply list_elem_of_further.
Qed.

Lemma check_duplicate_classes_fresh (cs : list ClassDef) (seen : gmap string ClassDef)
    (order : list string) :
  NoDup (map cls_name cs) → (∀ C, C ∈ cs → seen !! cls_name C = None) →
  check_duplicate_classes cs seen order = Ok (seen_after seen cs, order ++ map cls_name cs).
Proof.
  intros Hnd Hfresh.
  destruct (check_duplicate_classes_outcome cs seen order) as [H|H]; [done|].
  exfalso. revert seen order Hfresh H.
  induction cs as [|C cs IH]; intros seen order Hfresh H; simpl in H; [discriminate|].
  apply NoDup_cons in Hnd as [HC Hnd].
  rewrite bool_decide_eq_false_2 in H.
  - apply (IH Hnd _ _) in H; [done|]. intros C' HC'.
    rewrite lookup_insert_ne; [apply Hfresh; by apply list_elem_of_further|].
    intros Heq. apply HC. rewrite Heq. by apply list_elem_of_fmap_2.
  - rewrite (Hfresh C (list_elem_of_here _ _)). by intros [? ?].
Qed.

Lemma find_run_good (ms : list Method) (found : bool) :
  (∀ m, m ∈ ms → m_selector m = "run" → parameters (m_block m) = []) →
  find_run ms found = Ok (found || existsb (λ m, String.eqb (m_selector m) "run") ms).
Proof.
  intros Hgood. destruct (find_run_outcome ms found) as [H|H]; [done|]. exfalso.
  revert found H. induction ms as [|m ms IH]; intros found H; simpl in H; [discriminate|].
  destruct (String.eqb (m_selector m) "run") eqn:Hs.
  - rewrite (Hgood m (list_elem_of_here _ _) (String_eqb_true _ _ Hs)) in H. simpl in H.
    eapply IH; [|exact H]. intros m' Hm'. apply Hgood. by apply list_elem_of_further.
  - eapply IH; [|exact H]. intros m' Hm'. apply Hgood. by apply list_elem_of_further.
Qed.

Lemma find_main_good (cs : list ClassDef) (found : bool) :
  (∀ C m, C ∈ cs → cls_name C = "Main" → m ∈ cls_methods C → m_selector m = "run" →
          parameters (m_block m) = []) →
  find_main cs found
  = Ok (found
        || existsb (λ C, String.eqb (cls_name C) "Main"
                         && existsb (λ m, String.eqb (m_selector m) "run") (cls_methods C))
             cs).
Proof.
  intros Hgood. destruct (find_main_outcome cs found) as [H|H]; [done|]. exfalso.
  revert found H. induction cs as [|C cs IH]; intros found H; simpl in H; [discriminate|].
  destruct (String.eqb (cls_name C) "Main") eqn:Hn.
  - rewrite find_run_good in H.
    + simpl in H. eapply IH; [|exact H]. intros C' m HC'. apply Hgood.
      by apply list_elem_of_further.
    + intros m. apply Hgood; [apply list_elem_of_here|by apply String_eqb_true].
  - eapply IH; [|exact H]. intros C' m HC'. apply Hgood. by apply list_elem_of_further.
Qed.

Lemma find_main_bad (cs : list ClassDef) (found : bool) :
  (∃ C m, C ∈ cs ∧ cls_name C = "Main" ∧ m ∈ cls_methods C ∧ m_selector m = "run"
          ∧ parameters (m_block m) ≠ []) →
  find_main cs found = Exit ERR_ARITY.
Proof.
  intros (C & m & HC & Hn & Hm & Hs & Hp).
  destruct (find_main_outcome cs found) as [H|H]; [|done]. exfalso.
  pose proof (MainFacts.find_main_Ok _ _ _ H C m HC Hn Hm Hs) as Hlen.
  by destruct (parameters (m_block m)).
Qed.

(** [analyze] after its first two loops. *)
Lemma analyze_distinct (p : Program) :
  NoDup (map cls_name (classes p)) →
  (∀ C, C ∈ classes p → NoDup (map m_selector (cls_methods C))) →
  analyze p
  = (main_found <- find_main (classes p) false ;;
     (if main_found then Ok tt else error_exit ERR_MISSING_MAIN) ;;
     let self := with_classes (seen_after ∅ (classes p)) (map cls_name (classes p)) in
     check_parents self (classes p) ;;
     check_circular_inheritance self ;;
     self <- harvest self p ;;
     analyze_classes self (classes p))%result.
Proof.
  intros Hnd Hms. unfold analyze.
  rewrite (check_duplicate_classes_fresh _ ∅ [] Hnd) by (intros; apply lookup_empty).
  rewrite (proj2 (check_duplicate_methods_Ok _) Hms). reflexivity.
Qed.

Lemma global_classes_with (cs : list ClassDef) (k : string) :
  k ∈ global_classes (with_classes (seen_after ∅ cs) (map cls_name cs))
  ↔ k ∈ map cls_name cs.
Proof.
  unfold with_classes. simpl. rewrite dom_seen_after, dom_empty_L. set_solver.
Qed.

(** What [analyze] has checked of the classes when it ends well. *)
Lemma analyze_checks (p : Program) (self : analyzer) :
  analyze p = Ok self →
  NoDup (map cls_name (classes p))
  ∧ (∀ C, C ∈ classes p → NoDup (map m_selector (cls_methods C)))
  ∧ has_main_run p = true
  ∧ (∀ C, C ∈ classes p → parent_known p C).
Proof.
  intros H. assert (Hnd : NoDup (map cls_name (classes p))).
  { unfold analyze in H. bind_inv H.
    by apply AnalyzerFacts.check_duplicate_classes_NoDup in Hstep as [? _]. }
  assert (Hms : ∀ C, C ∈ classes p → NoDup (map m_selector (cls_methods C))).
  { unfold analyze in H. bind_inv H. bind_inv H. destruct a0.
    by apply check_duplicate_methods_Ok. }
  split; [done|]. split; [done|].
  rewrite (analyze_distinct p Hnd Hms) in H. bind_inv H. bind_inv H. bind_inv H.
  split.
  - destruct a; [|discriminate].
    destruct (find_main_outcome (classes p) false) as [Hf|Hf]; [|congruence].
    rewrite Hf in Hstep. simpl in Hstep. by injection Hstep.
  - destruct a1. pose proof (proj1 (check_parents_Ok _ _) Hstep1) as Hpar. intros C HC.
    destruct (Hpar C HC) as [Hb|Hg]; [by left|right]. by apply global_classes_with.
Qed.

End CheckFacts.

Module BuiltinFacts.
Import SemanticAnalyzer.

Lemma builtin_parents_cases (cls : string) :
  builtin_parents !! cls = None
  ∨ (cls = "Object" ∧ builtin_parents !! cls = Some None)
  ∨ (cls ≠ "Object" ∧ builtin_parents !! cls = Some (Some "Object")).
Proof.
  destruct (decide (cls = "Object")) as [->|?]; [right; left; by split|].
  destruct (decide (cls = "Nil")) as [->|?]; [right; right; by split|].
  destruct (decide (cls = "Integer")) as [->|?]; [right; right; by split|].
  destruct (decide (cls = "String")) as [->|?]; [right; right; by split|].
  destruct (decide (cls = "Block")) as [->|?]; [right; right; by split|].
  destruct (decide (cls = "True")) as [->|?]; [right; right; by split|].
  destruct (decide (cls = "False")) as [->|?]; [right; right; by split|].
  left. unfold builtin_parents. simpl.
  rewrite !lookup_insert_ne by done. apply lookup_empty.
Qed.

Lemma size_builtin_parents : size builtin_parents = 7.
Proof. reflexivity. Qed.

(** The search in the table of the built-in classes. *)
Lemma lookup_builtin_method_spec (cls selector : string) :
  lookup_builtin_method cls selector
  = Ok (bool_decide
          (selector ∈ default ∅ (builtin_methods !! cls)
           ∨ (builtin_parents !! cls = Some (Some "Object")
              ∧ selector ∈ default ∅ (builtin_methods !! "Object")))).
Proof.
  unfold lookup_builtin_method. rewrite size_builtin_parents.
  cbn [lookup_builtin_method_from].
  case_bool_decide as Hown.
  - by rewrite bool_decide_eq_true_2 by (by left).
  - destruct (builtin_parents_cases cls) as [Hp|[[-> Hp]|[Hne Hp]]]; rewrite Hp; simpl.
    + rewrite bool_decide_eq_false_2; [done|]. by intros [?|[? _]].
    + rewrite bool_decide_eq_false_2; [done|]. by intros [?|[? _]].
    + change (builtin_parents !! "Object") with (Some (@None string)). simpl.
      case_bool_decide as Hobj.
      * by rewrite bool_decide_eq_true_2 by (by right).
      * rewrite bool_decide_eq_false_2; [done|]. by intros [?|[_ ?]].
Qed.

End BuiltinFacts.

Module CycleFacts.
Import SemanticAnalyzer.

Lemma grounded_mono (cm : gmap string ClassDef) (n m : nat) (k : string) :
  grounded cm n k → (n ≤ m)%nat → grounded cm m k.
Proof.
  intros H. revert m. induction H as [n k cls Hk Hp|n k cls Hk _ IH]; intros m Hm.
  - destruct m as [|m]; [lia|]. by eapply grounded_out.
  - destruct m as [|m]; [lia|]. eapply grounded_step; [done|]. apply IH. lia.
Qed.

Lemma grounded_in (cm : gmap string ClassDef) (n : nat) (k : string) :
  grounded cm n k → is_Some (cm !! k).
Proof. intros []; eauto. Qed.

Lemma state_of_insert (visited : gmap string nat) (k k' : string) (v : nat) :
  state_of (<[k := v]> visited) k' = if decide (k = k') then v else state_of visited k'.
Proof.
  unfold state_of. destruct (decide (k = k')) as [->|Hne].
  - by rewrite lookup_insert_eq.
  - by rewrite lookup_insert_ne.
Qed.

Section Search.
Context (self : analyzer).
#[local] Abbreviation cm := (class_map self).

Lemma search_inv_visiting (visited : gmap string nat) (G : gset string) (c : string) :
  search_inv cm visited G → state_of visited c = 0 →
  search_inv cm (<[c := 1]> visited) G.
Proof.
  intros (Htwo & Hsub & Hg & Hvals) Hc. split; [|split; [done|split; [done|]]].
  - intros k. rewrite state_of_insert. destruct (decide (c = k)) as [<-|Hne]; [|done].
    split; [done|]. intros Hin. apply Htwo in Hin. congruence.
  - intros k. rewrite state_of_insert. destruct (decide (c = k)); auto.
Qed.

Lemma search_inv_processed (visited : gmap string nat) (G : gset string) (c : string) :
  search_inv cm visited G → state_of visited c = 1 →
  grounded cm (S (size G)) c →
  search_inv cm (<[c := 2]> visited) (G ∪ {[c]}).
Proof.
  intros (Htwo & Hsub & Hg & Hvals) Hc Hgc.
  assert (Hnotin : c ∉ G) by (intros Hin; apply Htwo in Hin; congruence).
  assert (Hsize : size (G ∪ {[c]}) = S (size G)).
  { rewrite size_union by set_solver. rewrite size_singleton. lia. }
  split; [|split; [|split]].
  - intros k. rewrite state_of_insert. destruct (decide (c = k)) as [<-|Hne].
    + set_solver.
    + rewrite Htwo. set_solver.
  - apply grounded_in in Hgc. apply elem_of_dom in Hgc. set_solver.
  - intros k Hk. rewrite Hsize. apply elem_of_union in Hk as [Hk|Hk].
    + eapply grounded_mono; [by apply Hg|lia].
    + apply elem_of_singleton in Hk as ->. done.
  - intros k. rewrite state_of_insert. destruct (decide (c = k)); auto.
Qed.

Lemma unvisited_visiting (visited : gmap string nat) (c : string) :
  unvisited cm (<[c := 1]> visited) = unvisited cm visited ∖ {[c]}.
Proof.
  unfold unvisited. apply set_eq. intros k.
  rewrite elem_of_difference, !elem_of_filter, state_of_insert, elem_of_singleton.
  destruct (decide (c = k)) as [<-|Hne]; [|naive_solver].
  split; [by intros [? _]|]. by intros [_ ?].
Qed.

(** The search from a class the search has not visited: it ends, and
    when it finds no cycle the class is processed. *)
Lemma dfs_check_spec (fuel : nat) (c : string) (visited : gmap string nat)
    (G : gset string) :
  search_inv cm visited G → state_of visited c = 0 → is_Some (cm !! c) →
  (size (unvisited cm visited ∖ {[c]}) < fuel)%nat →
  ∃ b visited', _dfs_check fuel self c visited = Ok (b, visited')
    ∧ (b = false →
       ∃ G', search_inv cm visited' G' ∧ G ⊆ G' ∧ c ∈ G'
             ∧ ∀ k, state_of visited' k = state_of visited k
                    ∨ (state_of visited k = 0 ∧ state_of visited' k = 2)).
Proof.
  revert c visited G. induction fuel as [|fuel IH]; intros c visited G Hinv Hc [cls Hcls] Hfuel;
    [lia|].
  cbn [_dfs_check]. rewrite Hcls.
  pose proof (search_inv_visiting _ _ _ Hinv Hc) as Hinv1.
  assert (Hc1 : state_of (<[c := 1]> visited) c = 1)
    by (rewrite state_of_insert; by destruct (decide (c = c))).
  assert (Hstates : ∀ k, state_of (<[c := 2]> (<[c := 1]> visited)) k = state_of visited k
                         ∨ (state_of visited k = 0
                            ∧ state_of (<[c := 2]> (<[c := 1]> visited)) k = 2)).
  { intros k. rewrite !state_of_insert. destruct (decide (c = k)) as [<-|]; auto. }
  case_bool_decide as Hparent.
  - fold (state_of (<[c := 1]> visited) (cls_parent cls)).
    destruct (state_of (<[c := 1]> visited) (cls_parent cls) =? 1)%nat eqn:H1.
    { eexists true, _. by split. }
    destruct (state_of (<[c := 1]> visited) (cls_parent cls) =? 0)%nat eqn:H0.
    + apply Nat.eqb_eq in H0.
      destruct (IH (cls_parent cls) (<[c := 1]> visited) G Hinv1 H0 Hparent)
        as (b & visited2 & Hrec & Hpost).
      { rewrite unvisited_visiting.
        assert (Hin : cls_parent cls ∈ unvisited cm visited ∖ {[c]}).
        { rewrite <- unvisited_visiting. unfold unvisited. apply elem_of_filter.
          split; [done|]. by apply elem_of_dom. }
        rewrite size_difference by set_solver. rewrite size_singleton.
        assert (size (unvisited cm visited ∖ {[c]}) ≠ 0)
          by (intros Hz%size_empty_inv; set_solver).
        lia. }
      rewrite Hrec. simpl. destruct b.
      { eexists true, _. by split. }
      destruct (Hpost eq_refl) as (G2 & Hinv2 & Hsub & Hpin & Hst).
      eexists false, _. split; [reflexivity|]. intros _.
      assert (Hc2 : state_of visited2 c = 1).
      { destruct (Hst c) as [->|[? _]]; [done|congruence]. }
      exists (G2 ∪ {[c]}). split; [|split; [set_solver|split; [set_solver|]]].
      * apply search_inv_processed; [done|done|].
        eapply grounded_step; [exact Hcls|]. by apply Hinv2.
      * intros k. rewrite state_of_insert. destruct (decide (c = k)) as [<-|Hne]; [auto|].
        destruct (Hst k) as [Hk|[Hk0 Hk2]]; rewrite state_of_insert in *;
          destruct (decide (c = k)); try done; auto.
    + apply Nat.eqb_neq in H1, H0.
      assert (Hp2 : state_of (<[c := 1]> visited) (cls_parent cls) = 2).
      { destruct Hinv1 as (_ & _ & _ & Hvals).
        destruct (Hvals (cls_parent cls)) as [?|[?|?]]; congruence. }
      eexists false, _. split; [reflexivity|]. intros _.
      exists (G ∪ {[c]}). split; [|split; [set_solver|split; [set_solver|done]]].
      apply search_inv_processed; [done|done|].
      eapply grounded_step; [exact Hcls|].
      destruct Hinv1 as (Htwo & _ & Hg & _). by apply Hg, Htwo.
  - eexists false, _. split; [reflexivity|]. intros _.
    exists (G ∪ {[c]}). split; [|split; [set_solver|split; [set_solver|done]]].
    apply search_inv_processed; [done|done|].
    eapply grounded_out; [exact Hcls|].
    destruct (cm !! cls_parent cls) eqn:E; [|done]. exfalso. apply Hparent. eauto.
Qed.

(** The loop over the classes: the circular inheritance error, or
    every class of the list is processed. *)
Lemma check_circular_loop_spec (names : list string) (visited : gmap string nat)
    (G : gset string) :
  search_inv cm visited G → (∀ k, state_of visited k ≠ 1) →
  (∀ k, k ∈ names → is_Some (cm !! k)) →
  check_circular_loop self names visited = Exit ERR_SEMANTIC_OTHER
  ∨ (check_circular_loop self names visited = Ok tt
     ∧ ∀ k, k ∈ names → grounded cm (size cm) k).
Proof.
  revert visited G. induction names as [|c names IH]; intros visited G Hinv Hones Hin.
  - right. split; [done|]. by intros k ?%elem_of_nil.
  - cbn [check_circular_loop]. fold (state_of visited c).
    destruct (state_of visited c =? 0)%nat eqn:H0.
    + apply Nat.eqb_eq in H0.
      destruct (dfs_check_spec (S (size cm)) c visited G Hinv H0)
        as (b & visited' & Hdfs & Hpost).
      { apply Hin, list_elem_of_here. }
      { assert (size (unvisited cm visited ∖ {[c]}) ≤ size (dom cm))%nat.
        { apply subseteq_size. unfold unvisited. set_solver. }
        rewrite size_dom in *. lia. }
      rewrite Hdfs. simpl. destruct b; [by left|].
      destruct (Hpost eq_refl) as (G' & Hinv' & Hsub & Hc & Hst).
      destruct (IH visited' G' Hinv') as [Hexit|[Hok Hall]].
      * intros k Hk. destruct (Hst k) as [Heq|[_ H2]]; [|congruence].
        rewrite Heq in Hk. by apply (Hones k).
      * intros k Hk. apply Hin. by apply list_elem_of_further.
      * by left.
      * right. split; [done|]. intros k [->|Hk]%elem_of_cons; [|by apply Hall].
        destruct Hinv' as (_ & Hsub' & Hg & _).
        eapply grounded_mono; [by apply Hg|]. rewrite <- size_dom. by apply subseteq_size.
    + apply Nat.eqb_neq in H0.
      destruct (IH visited G Hinv Hones) as [Hexit|[Hok Hall]].
      * intros k Hk. apply Hin. by apply list_elem_of_further.
      * by left.
      * right. split; [done|]. intros k [->|Hk]%elem_of_cons; [|by apply Hall].
        destruct Hinv as (Htwo & Hsub' & Hg & Hvals).
        assert (H2 : state_of visited c = 2).
        { destruct (Hvals c) as [?|[?|?]]; [congruence| |done]. by destruct (Hones c). }
        eapply grounded_mono; [by apply Hg, Htwo|]. rewrite <- size_dom.
        by apply subseteq_size.
Qed.

Lemma search_inv_empty : search_inv cm ∅ ∅.
Proof.
  split; [|split; [|split]].
  - intros k. unfold state_of. rewrite lookup_empty. simpl. set_solver.
  - set_solver.
  - set_solver.
  - intros k. left. unfold state_of. by rewrite lookup_empty.
Qed.

Lemma check_circular_inheritance_spec :
  (∀ k, k ∈ class_names self → is_Some (cm !! k)) →
  check_circular_inheritance self = Exit ERR_SEMANTIC_OTHER
  ∨ (check_circular_inheritance self = Ok tt
     ∧ ∀ k, k ∈ class_names self → grounded cm (size cm) k).
Proof.
  intros Hin. unfold check_circular_inheritance.
  apply (check_circular_loop_spec _ ∅ ∅ search_inv_empty); [|done].
  intros k. unfold state_of. by rewrite lookup_empty.
Qed.

(** The search for a method along the parents of a class that leaves
    the dictionary ends. *)
Lemma lookup_method_from_grounded (n fuel : nat) (k selector : string) :
  grounded cm n k → (n ≤ fuel)%nat →
  ∃ b, lookup_method_from fuel self k selector = Ok b.
Proof.
  intros H. revert fuel. induction H as [n k cls Hk Hp|n k cls Hk _ IH]; intros fuel Hfuel;
    (destruct fuel as [|fuel]; [lia|]); cbn [lookup_method_from]; rewrite Hk.
  - destruct (has_method _ _); [by eexists|].
    rewrite bool_decide_eq_false_2 by (rewrite Hp; by intros [? ?]).
    rewrite BuiltinFacts.lookup_builtin_method_spec. by eexists.
  - destruct (has_method _ _); [by eexists|].
    case_bool_decide.
    + apply IH. lia.
    + rewrite BuiltinFacts.lookup_builtin_method_spec. by eexists.
Qed.

Lemma lookup_method_total (cls_name selector : string) :
  (∀ k, is_Some (cm !! k) → grounded cm (size cm) k) →
  ∃ b, lookup_method self cls_name selector = Ok b.
Proof.
  intros Hg. unfold lookup_method.
  destruct (cm !! cls_name) as [cls|] eqn:Hcls.
  - eapply lookup_method_from_grounded; [apply Hg; eauto|lia].
  - cbn [lookup_method_from]. rewrite Hcls.
    rewrite BuiltinFacts.lookup_builtin_method_spec. by eexists.
Qed.

End Search.
End CycleFacts.

Module HierarchyFacts.
Import SemanticAnalyzer.

Lemma seen_after_notin (seen : gmap string ClassDef) (cs : list ClassDef) (k : string) :
  k ∉ map cls_name cs → seen_after seen cs !! k = seen !! k.
Proof.
  revert seen. induction cs as [|C cs IH]; intros seen Hk; [done|].
  unfold seen_after in *. simpl in *. rewrite IH by set_solver.
  apply lookup_insert_ne. set_solver.
Qed.

Lemma seen_after_lookup (seen : gmap string ClassDef) (cs : list ClassDef) (C : ClassDef) :
  NoDup (map cls_name cs) → C ∈ cs → seen_after seen cs !! cls_name C = Some C.
Proof.
  revert seen. induction cs as [|C0 cs IH]; intros seen Hnd HC; [by apply elem_of_nil in HC|].
  simpl in Hnd. apply NoDup_cons in Hnd as [Hnotin Hnd].
  apply elem_of_cons in HC as [->|HC].
  - change (seen_after seen (C0 :: cs)) with (seen_after (<[cls_name C0 := C0]> seen) cs).
    rewrite seen_after_notin by done. apply lookup_insert_eq.
  - by apply IH.
Qed.

Lemma seen_after_is_Some (cs : list ClassDef) (k : string) :
  is_Some (seen_after ∅ cs !! k) ↔ k ∈ map cls_name cs.
Proof.
  rewrite <- elem_of_dom, CheckFacts.dom_seen_after, dom_empty_L. set_solver.
Qed.

Lemma class_map_bump (self : analyzer) (k : string) (N : gset string) :
  class_map (bump self k N) = class_map self
  ∧ global_classes (bump self k N) = global_classes self.
Proof. done. Qed.

Lemma collect_all_class_map (cs : list ClassDef) (self self' : analyzer) :
  collect_all self cs = Ok self' →
  class_map self' = class_map self ∧ global_classes self' = global_classes self.
Proof.
  revert self. induction cs as [|C cs IH]; intros self H; simpl in H.
  - by injection H as <-.
  - bind_inv H. apply AnalyzerFacts.collect_class_bump in Hstep. subst a.
    by apply IH in H as [-> ->].
Qed.

(** The analyzer after an analysis that ends well holds the classes of
    the program under their names. *)
Lemma analyze_class_map (p : Program) (self : analyzer) :
  analyze p = Ok self →
  class_map self = seen_after ∅ (classes p)
  ∧ global_classes self = list_to_set (map cls_name (classes p)).
Proof.
  intros H. pose proof (CheckFacts.analyze_checks _ _ H) as (Hnd & Hms & _ & _).
  apply AnalyzerFacts.analyze_Ok in H as [H _]. unfold prepare in H.
  rewrite (CheckFacts.check_duplicate_classes_fresh _ ∅ [] Hnd) in H
    by (intros; apply lookup_empty).
  simpl in H. bind_inv H. bind_inv H. bind_inv H. bind_inv H. bind_inv H.
  unfold harvest in H. apply collect_all_class_map in H as [-> ->].
  split; [done|]. simpl. rewrite CheckFacts.dom_seen_after, dom_empty_L. set_solver.
Qed.

(** The checks of [analyze] before the search for cycles pass. *)
Lemma analyze_checked (p : Program) :
  NoDup (map cls_name (classes p)) →
  (∀ C, C ∈ classes p → NoDup (map m_selector (cls_methods C))) →
  has_main_run p = true →
  (∀ C m, C ∈ classes p → cls_name C = "Main" → m ∈ cls_methods C →
          m_selector m = "run" → parameters (m_block m) = []) →
  (∀ C, C ∈ classes p → parent_known p C) →
  analyze p
  = (let self := with_classes (seen_after ∅ (classes p)) (map cls_name (classes p)) in
     check_circular_inheritance self ;;
     self <- harvest self p ;;
     analyze_classes self (classes p))%result.
Proof.
  intros Hnd Hms Hmain Hrun Hpar. rewrite (CheckFacts.analyze_distinct p Hnd Hms).
  rewrite (CheckFacts.find_main_good _ _ Hrun).
  unfold has_main_run in Hmain. rewrite Hmain. simpl.
  rewrite (proj2 (CheckFacts.check_parents_Ok _ _)); [done|].
  intros C HC. destruct (Hpar C HC) as [Hb|Hu]; [by left|right].
  by apply CheckFacts.global_classes_with.
Qed.

Lemma check_circular_with (cs : list ClassDef) :
  let self := with_classes (seen_after ∅ cs) (map cls_name cs) in
  check_circular_inheritance self = Exit ERR_SEMANTIC_OTHER
  ∨ (check_circular_inheritance self = Ok tt
     ∧ ∀ k, k ∈ map cls_name cs →
            grounded (seen_after ∅ cs) (size (seen_after ∅ cs)) k).
Proof.
  intros self.
  apply (CycleFacts.check_circular_inheritance_spec self).
  intros k Hk. by apply seen_after_is_Some.
Qed.

Lemma size_seen_after (cs : list ClassDef) :
  NoDup (map cls_name cs) → size (seen_after ∅ cs) = List.length cs.
Proof.
  intros Hnd. rewrite <- size_dom, CheckFacts.dom_seen_after, dom_empty_L.
  rewrite (left_id_L ∅ (∪)), size_list_to_set by done. by rewrite length_map.
Qed.

Lemma grounded_leaves (cm : gmap string ClassDef) (n : nat) (k : string) :
  grounded cm n k → leaves cm n k = true.
Proof.
  induction 1 as [n k cls Hk Hp|n k cls Hk _ IH]; cbn [leaves]; rewrite Hk.
  - destruct n; cbn [leaves]; [by apply bool_decide_eq_true|by rewrite Hp].
  - done.
Qed.

Lemma run_without_parameters_spec (p : Program) :
  run_without_parameters p →
  ∀ C m, C ∈ classes p → cls_name C = "Main" → m ∈ cls_methods C →
         m_selector m = "run" → parameters (m_block m) = [].
Proof.
  intros H C m HC Hn Hm Hs. unfold run_without_parameters in H.
  rewrite Forall_forall in H. specialize (H C HC Hn).
  rewrite Forall_forall in H. by apply H.
Qed.

End HierarchyFacts.

(** ** The checks of the analyzer *)

(** X17.  A program the analyzer accepts has classes of distinct names,
    in every class methods of distinct selectors, a class [Main] with a
    method [run], and for every class a parent that is built in or a
    class of the program. *)
Theorem analyze_accepted_structure (p : Program) (self : SemanticAnalyzer.analyzer) :
  SemanticAnalyzer.analyze p = Ok self →
  distinct_classes p ∧ distinct_methods p ∧ has_main_run p = true ∧ parents_known p.
Proof.
  intros (Hnd & Hms & Hmain & Hpar)%CheckFacts.analyze_checks.
  repeat split; try done; by apply Forall_forall.
Qed.

Lemma analyze_accepted_structure_witness :
  distinct_classes
    (mkProgram [mkClassDef "Main" "Object" [mkMethod "run" (mkBlock [] [])];
                mkClassDef "A" "Main" []] None)
  ∧ distinct_methods
      (mkProgram [mkClassDef "Main" "Object" [mkMethod "run" (mkBlock [] [])];
                  mkClassDef "A" "Main" []] None)
  ∧ has_main_run
      (mkProgram [mkClassDef "Main" "Object" [mkMethod "run" (mkBlock [] [])];
                  mkClassDef "A" "Main" []] None) = true
  ∧ parents_known
      (mkProgram [mkClassDef "Main" "Object" [mkMethod "run" (mkBlock [] [])];
                  mkClassDef "A" "Main" []] None).
Proof.
  apply (analyze_accepted_structure _
           (ok_or (SemanticAnalyzer.mkAnalyzer ∅ ∅ ∅ [])
              (SemanticAnalyzer.analyze
                 (mkProgram [mkClassDef "Main" "Object" [mkMethod "run" (mkBlock [] [])];
                             mkClassDef "A" "Main" []] None)))).
  vm_compute. reflexivity.
Defined.

(** X18.  Two classes of one name end the analysis with exit 35,
    whatever else the program holds; with distinct class names, two
    methods of one selector in a class end it with exit 35. *)
Theorem duplicate_definitions_exit (p : Program) :
  (¬ distinct_classes p → SemanticAnalyzer.analyze p = Exit ERR_SEMANTIC_OTHER)
  ∧ (distinct_classes p → ¬ distinct_methods p →
     SemanticAnalyzer.analyze p = Exit ERR_SEMANTIC_OTHER).
Proof.
  unfold SemanticAnalyzer.analyze. split.
  - intros Hdup.
    destruct (CheckFacts.check_duplicate_classes_outcome (classes p) ∅ []) as [H|H];
      [|by rewrite H].
    by apply AnalyzerFacts.check_duplicate_classes_NoDup in H as [? _].
  - intros Hnd Hdup.
    rewrite (CheckFacts.check_duplicate_classes_fresh _ ∅ [] Hnd)
      by (intros; apply lookup_empty).
    simpl.
    destruct (CheckFacts.check_duplicate_methods_outcome (classes p)) as [H|H];
      [|by rewrite H].
    exfalso. apply Hdup. apply Forall_forall. by apply CheckFacts.check_duplicate_methods_Ok.
Qed.

Lemma duplicate_definitions_exit_witness :
  SemanticAnalyzer.analyze
    (mkProgram [mkClassDef "Main" "Object" [mkMethod "run" (mkBlock [] [])];
                mkClassDef "Main" "Object" []] None)
  = Exit ERR_SEMANTIC_OTHER
  ∧ SemanticAnalyzer.analyze
      (mkProgram [mkClassDef "Main" "Object"
                    [mkMethod "run" (mkBlock [] []); mkMethod "run" (mkBlock [] [])]] None)
    = Exit ERR_SEMANTIC_OTHER.
Proof.
  split.
  - apply (proj1 (duplicate_definitions_exit _)).
    apply (bool_decide_eq_false _). vm_compute. reflexivity.
  - apply (proj2 (duplicate_definitions_exit _)).
    + apply (bool_decide_unpack _). vm_compute. exact I.
    + apply (bool_decide_eq_false _). vm_compute. reflexivity.
Defined.

(** X19.  With distinct classes and methods, a program without a class
    [Main] that has a method [run] ends the analysis with exit 31, and a
    method [run] of [Main] with a parameter ends it with exit 33. *)
Theorem main_run_exit (p : Program) :
  distinct_classes p → distinct_methods p →
  (has_main_run p = false → SemanticAnalyzer.analyze p = Exit ERR_MISSING_MAIN)
  ∧ (¬ run_without_parameters p → SemanticAnalyzer.analyze p = Exit ERR_ARITY).
Proof.
  intros Hnd Hms. rewrite (CheckFacts.analyze_distinct p Hnd) by (by apply Forall_forall).
  split.
  - intros Hmain. rewrite CheckFacts.find_main_good.
    + unfold has_main_run in Hmain. by rewrite Hmain.
    + intros C m HC Hn Hm Hs. exfalso.
      assert (has_main_run p = true) by (apply CheckFacts.has_main_run_true; by exists C, m).
      congruence.
  - intros Hbad.
    destruct (CheckFacts.find_main_outcome (classes p) false) as [H|H]; [|by rewrite H].
    exfalso. apply Hbad. apply Forall_forall. intros C HC Hn.
    apply Forall_forall. intros m Hm Hs.
    pose proof (MainFacts.find_main_Ok _ _ _ H C m HC Hn Hm Hs) as Hlen.
    by destruct (parameters (m_block m)).
Qed.

Lemma main_run_exit_witness :
  SemanticAnalyzer.analyze (mkProgram [mkClassDef "A" "Object" []] None)
  = Exit ERR_MISSING_MAIN
  ∧ SemanticAnalyzer.analyze
      (mkProgram [mkClassDef "Main" "Object" [mkMethod "run" (mkBlock [mkParam "x" 1] [])]]
         None)
    = Exit ERR_ARITY.
Proof.
  split.
  - destruct (main_run_exit (mkProgram [mkClassDef "A" "Object" []] None)) as [H _].
    + apply (bool_decide_unpack _). vm_compute. exact I.
    + apply (bool_decide_unpack _). vm_compute. exact I.
    + apply H. reflexivity.
  - destruct (main_run_exit
                (mkProgram [mkClassDef "Main" "Object"
                              [mkMethod "run" (mkBlock [mkParam "x" 1] [])]] None))
      as [_ H].
    + apply (bool_decide_unpack _). vm_compute. exact I.
    + apply (bool_decide_unpack _). vm_compute. exact I.
    + apply H. apply (bool_decide_eq_false _). vm_compute. reflexivity.
Defined.

(** X20.  When the checks before it pass, a class whose parent is
    neither built in nor a class of the program ends the analysis with
    exit 32. *)
Theorem unknown_parent_exit (p : Program) :
  distinct_classes p → distinct_methods p → has_main_run p = true →
  run_without_parameters p → ¬ parents_known p →
  SemanticAnalyzer.analyze p = Exit ERR_UNDEFINED_VAR.
Proof.
  intros Hnd Hms Hmain Hrun Hpar.
  rewrite (CheckFacts.analyze_distinct p Hnd) by (by apply Forall_forall).
  rewrite (CheckFacts.find_main_good _ _ (HierarchyFacts.run_without_parameters_spec _ Hrun)).
  unfold has_main_run in Hmain. rewrite Hmain. simpl.
  destruct (CheckFacts.check_parents_outcome
              (SemanticAnalyzer.with_classes (seen_after ∅ (classes p))
                 (map cls_name (classes p))) (classes p)) as [H|H]; [|by rewrite H].
  exfalso. apply Hpar. apply Forall_forall. intros C HC.
  destruct (proj1 (CheckFacts.check_parents_Ok _ _) H C HC) as [Hb|Hg]; [by left|right].
  by apply CheckFacts.global_classes_with.
Qed.

Lemma unknown_parent_exit_witness :
  SemanticAnalyzer.analyze
    (mkProgram [mkClassDef "Main" "Nowhere" [mkMethod "run" (mkBlock [] [])]] None)
  = Exit ERR_UNDEFINED_VAR.
Proof.
  apply unknown_parent_exit.
  - apply (bool_decide_unpack _). vm_compute. exact I.
  - apply (bool_decide_unpack _). vm_compute. exact I.
  - reflexivity.
  - apply (bool_decide_unpack _). vm_compute. exact I.
  - apply (bool_decide_eq_false _). vm_compute. reflexivity.
Defined.

(** X21.  The search in the table of the built-in classes finds the
    methods of the class itself and, for a built-in class other than
    Object, those of Object; a class that is not in the table has no
    method.  The search ends without error. *)
Theorem builtin_lookup (cls selector : string) :
  SemanticAnalyzer.lookup_builtin_method cls selector
  = Ok (bool_decide
          (selector ∈ default ∅ (builtin_methods !! cls)
           ∨ (builtin_parents !! cls = Some (Some "Object")
              ∧ selector ∈ default ∅ (builtin_methods !! "Object")))).
Proof. apply BuiltinFacts.lookup_builtin_method_spec. Qed.

(** X22.  In a program the analyzer accepts, the walk from any class to
    its parent, repeated as many times as the program has classes,
    leaves the classes of the program: no class is its own ancestor. *)
Theorem accepted_hierarchy_leaves (p : Program) (self : SemanticAnalyzer.analyzer) :
  SemanticAnalyzer.analyze p = Ok self →
  Forall (λ C, seen_after ∅ (classes p) !! cls_name C = Some C
               ∧ leaves (seen_after ∅ (classes p)) (List.length (classes p)) (cls_name C)
                 = true)
    (classes p).
Proof.
  intros H. pose proof (CheckFacts.analyze_checks _ _ H) as (Hnd & Hms & Hmain & Hpar).
  assert (Hrun : ∀ C m, C ∈ classes p → cls_name C = "Main" → m ∈ cls_methods C →
                        m_selector m = "run" → parameters (m_block m) = []).
  { pose proof (MainFacts.analyze_find_main _ _ H) as [found Hf].
    intros C m HC Hn Hm Hs.
    pose proof (MainFacts.find_main_Ok _ _ _ Hf C m HC Hn Hm Hs).
    by destruct (parameters (m_block m)). }
  rewrite (HierarchyFacts.analyze_checked p Hnd Hms Hmain Hrun Hpar) in H.
  cbv zeta in H. bind_inv H.
  destruct (HierarchyFacts.check_circular_with (classes p)) as [Hc|[_ Hg]]; [congruence|].
  apply Forall_forall. intros C HC. split.
  - by apply HierarchyFacts.seen_after_lookup.
  - apply HierarchyFacts.grounded_leaves.
    rewrite <- (HierarchyFacts.size_seen_after _ Hnd). apply Hg.
    by apply list_elem_of_fmap_2.
Qed.

Lemma accepted_hierarchy_leaves_witness :
  Forall (λ C, seen_after ∅ [mkClassDef "Main" "A" [mkMethod "run" (mkBlock [] [])];
                             mkClassDef "A" "Object" []] !! cls_name C = Some C
               ∧ leaves (seen_after ∅ [mkClassDef "Main" "A" [mkMethod "run" (mkBlock [] [])];
                                       mkClassDef "A" "Object" []]) 2 (cls_name C) = true)
    [mkClassDef "Main" "A" [mkMethod "run" (mkBlock [] [])]; mkClassDef "A" "Object" []].
Proof.
  apply (accepted_hierarchy_leaves
           (mkProgram [mkClassDef "Main" "A" [mkMethod "run" (mkBlock [] [])];
                       mkClassDef "A" "Object" []] None)
           (ok_or (SemanticAnalyzer.mkAnalyzer ∅ ∅ ∅ [])
              (SemanticAnalyzer.analyze
                 (mkProgram [mkClassDef "Main" "A" [mkMethod "run" (mkBlock [] [])];
                             mkClassDef "A" "Object" []] None)))).
  vm_compute. reflexivity.
Defined.

(** ** The analyzer ends *)

Module OutcomeFacts.
Import SemanticAnalyzer.

Lemma finishes_bind {A B : Type} (E : Prop) (codes : list nat) (Q : A → Prop)
    (R : B → Prop) (m : result A) (f : A → result B) :
  finishes E codes Q m → (∀ a, Q a → finishes E codes R (f a)) →
  finishes E codes R (bind m f).
Proof. destruct m; simpl; auto. Qed.

Lemma finishes_mono {A : Type} (E E' : Prop) (codes : list nat) (Q Q' : A → Prop)
    (r : result A) :
  finishes E codes Q r → (E → E') → (∀ a, Q a → Q' a) → finishes E' codes Q' r.
Proof. destruct r; simpl; intuition. Qed.

Lemma is_Some_bump (self : analyzer) (k k' : string) (N : gset string) :
  is_Some (dynamic_attrs (bump self k N) !! k') ↔ is_Some (dynamic_attrs self !! k').
Proof.
  rewrite AnalyzerFacts.lookup_bump. destruct (decide (k = k')); [|done].
  by rewrite fmap_is_Some.
Qed.

Lemma ready_bump (cs : list ClassDef) (self : analyzer) (k : string) (N : gset string) :
  ready cs self → ready cs (bump self k N).
Proof.
  intros [Hg Hk]. split.
  - by rewrite (proj1 (HierarchyFacts.class_map_bump self k N)).
  - intros C HC. apply is_Some_bump. auto.
Qed.

Lemma add_dynamic_attr_total (self : analyzer) (k a : string) :
  is_Some (dynamic_attrs self !! k) →
  add_dynamic_attr self k a = Ok (bump self k {[a]}).
Proof.
  intros [attrs Hk]. unfold add_dynamic_attr, bump. by rewrite Hk.
Qed.

(** The first traversal ends without error when the class has its set
    of attributes. *)
Lemma collect_expr_total (C : ClassDef) (e : expr) (self : analyzer) :
  is_Some (dynamic_attrs self !! cls_name C) →
  collect_dynamic_attributes_expr self e C
  = Ok (bump self (cls_name C) (names (expr_nodes e))).
Proof.
  intros Hk.
  enough (∃ self', collect_dynamic_attributes_expr self e C = Ok self') as [self' H].
  { rewrite H. f_equal. by apply AnalyzerFacts.collect_expr_bump. }
  revert self Hk.
  induction e as [n p|c v p|b IHb|s t args p IHt IHargs|ps asg IHasg|n p e o IHe]
    using expr_mutind with
    (Q := λ b, ∀ self, is_Some (dynamic_attrs self !! cls_name C) →
                       ∃ self', collect_dynamic_attributes self b C = Ok self')
    (R := λ a, ∀ self, is_Some (dynamic_attrs self !! cls_name C) →
                       ∃ self', collect_dynamic_attributes_assign self a C = Ok self');
    intros self Hk; simpl; eauto.
  - change (∃ self', collect_dynamic_attributes_expr self (Send s t args p) C = Ok self').
    rewrite AnalyzerFacts.collect_Send.
    assert (∃ self1, (if is_self t && endswith colon s
                      then add_dynamic_attr self (cls_name C) (drop_last s)
                      else Ok self) = Ok self1
                     ∧ is_Some (dynamic_attrs self1 !! cls_name C)) as (self1 & -> & Hk1).
    { destruct (_ && _); [|eauto].
      rewrite add_dynamic_attr_total by done. eexists. split; [done|].
      by apply is_Some_bump. }
    simpl. destruct (IHt self1 Hk1) as [self2 H2]. rewrite H2. simpl.
    assert (Hk2 : is_Some (dynamic_attrs self2 !! cls_name C)).
    { apply AnalyzerFacts.collect_expr_bump in H2. subst. by apply is_Some_bump. }
    clear H2 Hk1 Hk IHt. revert self2 Hk2.
    induction IHargs as [|a args Ha _ IH]; intros self2 Hk2; simpl; [eauto|].
    destruct (Ha self2 Hk2) as [self3 H3]. rewrite H3. simpl. apply IH.
    apply AnalyzerFacts.collect_expr_bump in H3. subst. by apply is_Some_bump.
  - change (∃ self', collect_dynamic_attributes self (mkBlock ps asg) C = Ok self').
    rewrite AnalyzerFacts.collect_mkBlock. revert self Hk.
    induction IHasg as [|a asg Ha _ IH]; intros self Hk; simpl; [eauto|].
    destruct (Ha self Hk) as [self1 H1]. rewrite H1. simpl. apply IH.
    destruct a as [n p e o]. simpl in H1.
    apply AnalyzerFacts.collect_expr_bump in H1. subst. by apply is_Some_bump.
Qed.

Lemma collect_block_total (C : ClassDef) (b : Block) (self : analyzer) :
  is_Some (dynamic_attrs self !! cls_name C) →
  collect_dynamic_attributes self b C
  = Ok (bump self (cls_name C) (names (block_nodes b))).
Proof.
  intros Hk. pose proof (collect_expr_total C (BlockExpr b) self Hk) as H.
  simpl in H. rewrite H. reflexivity.
Qed.

Ltac code_in := unfold analyzer_codes; rewrite !elem_of_cons; auto 10.

Lemma require_method_finishes (cs : list ClassDef) (self : analyzer)
    (cls selector : string) :
  ready cs self →
  finishes False analyzer_codes (λ _, True) (require_method self cls selector).
Proof.
  intros [Hg _]. unfold require_method.
  destruct (CycleFacts.lookup_method_total self cls selector Hg) as [b ->].
  simpl. destruct b; simpl; [done|code_in].
Qed.

Lemma analyze_self_send_finishes (cs : list ClassDef) (self : analyzer)
    (selector : string) (n : nat) (C : ClassDef) :
  ready cs self → C ∈ cs →
  finishes False analyzer_codes (ready cs) (analyze_self_send self selector n C).
Proof.
  intros Hr HC. unfold analyze_self_send.
  destruct (find_method _ _).
  - case_bool_decide; simpl; [code_in|done].
  - destruct (endswith _ _).
    + case_bool_decide; simpl; [code_in|].
      rewrite add_dynamic_attr_total by (by apply Hr). simpl. by apply ready_bump.
    + case_bool_decide; simpl; [code_in|].
      destruct (proj2 Hr C HC) as [attrs ->].
      case_bool_decide; simpl; [code_in|done].
Qed.

Lemma analyze_args_finishes (cs : list ClassDef) (C : ClassDef)
    (env : gmap string role) (args : list expr) :
  Forall (λ e, ∀ self, ready cs self →
                 finishes (unnamed_var (visited_nodes e)) analyzer_codes (ready cs)
                   (analyze_expr self e env C)) args →
  ∀ self, ready cs self →
    finishes (unnamed_var (flat_map visited_nodes args)) analyzer_codes (ready cs)
      (analyze_args env C self args).
Proof.
  induction 1 as [|e args He _ IH]; intros self Hr; simpl; [done|].
  apply finishes_bind with (Q := ready cs).
  - eapply finishes_mono; [by apply He| |done].
    intros [pos Hpos]. exists pos. apply elem_of_app. by left.
  - intros self1 Hr1. eapply finishes_mono; [by apply IH| |done].
    intros [pos Hpos]. exists pos. apply elem_of_app. by right.
Qed.

(** The analysis of an expression ends: no key is missing, the search
    for a method returns, and an IndexError needs a variable without
    name. *)
Lemma analyze_expr_finishes (cs : list ClassDef) (C : ClassDef)
    (env : gmap string role) (e : expr) :
  C ∈ cs → ∀ self, ready cs self →
  finishes (unnamed_var (visited_nodes e)) analyzer_codes (ready cs)
    (analyze_expr self e env C).
Proof.
  intros HC.
  induction e as [n p|c v p|b _|s t args p IHt IHargs|ps asg _|n p e o _]
    using expr_mutind with (Q := λ _, True) (R := λ _, True);
    try done; intros self Hr.
  - simpl. case_bool_decide; [done|]. destruct n as [|c n]; simpl.
    + split; [done|]. exists p. apply list_elem_of_here.
    + destruct (char_isupper c); simpl; [|code_in].
      case_bool_decide; simpl; [code_in|done].
  - simpl. destruct (_ && _); simpl; [code_in|done].
  - rewrite AnalyzerFacts.analyze_Send, AnalyzerFacts.visited_nodes_Send.
    apply finishes_bind with (Q := λ _, True).
    { destruct (mem_string s reserved); simpl; [code_in|done]. }
    intros _ _. apply finishes_bind with (Q := ready cs).
    { eapply finishes_mono; [by apply IHt| |done].
      intros [pos Hpos]. exists pos. apply list_elem_of_further, elem_of_app. by left. }
    intros self1 Hr1. apply finishes_bind with (Q := ready cs).
    { eapply finishes_mono; [by apply analyze_args_finishes| |done].
      intros [pos Hpos]. exists pos. apply list_elem_of_further, elem_of_app. by right. }
    intros self2 Hr2. apply finishes_bind with (Q := ready cs).
    { destruct (is_self t); [|done].
      eapply finishes_mono; [by apply analyze_self_send_finishes|done|done]. }
    intros self3 Hr3. destruct t as [name pos|lc cls pos|b|s' t' args' p']; try done.
    + destruct name as [|c name]; simpl.
      * split; [done|]. exists pos. apply list_elem_of_further, list_elem_of_here.
      * destruct (char_isupper c); simpl; [|done].
        pose proof (require_method_finishes cs self3 (String c name) s Hr3) as H.
        destruct (require_method _ _ _); simpl in *; tauto.
    + destruct (String.eqb lc "class"); simpl; [|done].
      pose proof (require_method_finishes cs self3 cls s Hr3) as H.
      destruct (require_method _ _ _); simpl in *; tauto.
Qed.

Lemma check_params_outcome (ps : list Param) (seen : gset string) :
  check_params ps seen = Ok tt ∨ check_params ps seen = Exit ERR_SEMANTIC_OTHER.
Proof.
  revert seen. induction ps as [|p ps IH]; intros seen; simpl; [by left|].
  case_bool_decide; [by right|apply IH].
Qed.

Lemma analyze_assigns_finishes (cs : list ClassDef) (C : ClassDef)
    (asg : list Assignment) :
  C ∈ cs → ∀ env self, ready cs self →
  finishes (unnamed_var (flat_map (λ a, visited_nodes (assign_expr a)) asg))
    analyzer_codes (ready cs) (analyze_assigns self asg env C).
Proof.
  intros HC. induction asg as [|a asg IH]; intros env self Hr; simpl; [done|].
  case_bool_decide; simpl; [code_in|].
  apply finishes_bind with (Q := ready cs).
  - eapply finishes_mono; [by apply analyze_expr_finishes| |done].
    intros [pos Hpos]. exists pos. apply elem_of_app. by left.
  - intros self1 Hr1. eapply finishes_mono; [by apply IH| |done].
    intros [pos Hpos]. exists pos. apply elem_of_app. by right.
Qed.

Lemma analyze_block_finishes (cs : list ClassDef) (C : ClassDef) (b : Block)
    (self : analyzer) :
  C ∈ cs → ready cs self →
  finishes (unnamed_var (flat_map (λ a, visited_nodes (assign_expr a)) (assigns b)))
    analyzer_codes (ready cs) (analyze_block self b C).
Proof.
  intros HC Hr. unfold analyze_block.
  destruct (check_params_outcome (parameters b) ∅) as [-> | ->]; simpl; [|code_in].
  rewrite collect_block_total by (by apply Hr). simpl.
  apply analyze_assigns_finishes; [done|]. by apply ready_bump.
Qed.

Lemma analyze_methods_finishes (cs : list ClassDef) (C : ClassDef) (ms : list Method) :
  C ∈ cs → ∀ self, ready cs self →
  finishes (unnamed_var (flat_map method_visited_nodes ms)) analyzer_codes (ready cs)
    (analyze_methods self ms C).
Proof.
  intros HC. induction ms as [|m ms IH]; intros self Hr; simpl; [done|].
  apply finishes_bind with (Q := ready cs).
  - eapply finishes_mono; [by apply analyze_block_finishes| |done].
    intros [pos Hpos]. exists pos. apply elem_of_app. by left.
  - intros self1 Hr1. eapply finishes_mono; [by apply IH| |done].
    intros [pos Hpos]. exists pos. apply elem_of_app. by right.
Qed.

Lemma analyze_classes_finishes (cs cs' : list ClassDef) :
  (∀ C, C ∈ cs' → C ∈ cs) → ∀ self, ready cs self →
  finishes (unnamed_var (flat_map class_visited_nodes cs')) analyzer_codes (ready cs)
    (analyze_classes self cs').
Proof.
  induction cs' as [|C cs' IH]; intros Hin self Hr; simpl; [done|].
  apply finishes_bind with (Q := ready cs).
  - eapply finishes_mono;
      [apply analyze_methods_finishes; [apply Hin, list_elem_of_here|done]| |done].
    intros [pos Hpos]. exists pos. apply elem_of_app. by left.
  - intros self1 Hr1. eapply finishes_mono; [apply IH; [|done]| |done].
    + intros C' HC'. by apply Hin, list_elem_of_further.
    + intros [pos Hpos]. exists pos. apply elem_of_app. by right.
Qed.

Lemma collect_class_total (C : ClassDef) (self : analyzer) :
  is_Some (dynamic_attrs self !! cls_name C) →
  collect_class_dynamic_attributes self C
  = Ok (bump self (cls_name C) (names (class_nodes C))).
Proof.
  intros Hk.
  enough (∃ self', collect_class_dynamic_attributes self C = Ok self') as [self' H].
  { rewrite H. f_equal. by apply AnalyzerFacts.collect_class_bump. }
  unfold collect_class_dynamic_attributes. revert self Hk.
  induction (cls_methods C) as [|m ms IH]; intros self Hk; simpl; [eauto|].
  rewrite collect_block_total by done. simpl. apply IH. by apply is_Some_bump.
Qed.

Lemma collect_all_total (cs cs' : list ClassDef) :
  (∀ C, C ∈ cs' → C ∈ cs) → ∀ self, ready cs self →
  ∃ self', collect_all self cs' = Ok self' ∧ ready cs self'.
Proof.
  induction cs' as [|C cs' IH]; intros Hin self Hr; simpl; [eauto|].
  rewrite collect_class_total by (apply Hr, Hin, list_elem_of_here). simpl.
  apply IH; [|by apply ready_bump].
  intros C' HC'. by apply Hin, list_elem_of_further.
Qed.

(** The analyzer is ready after the cycle check and the set-up of the
    attribute sets. *)
Lemma ready_init (cs : list ClassDef) :
  (∀ k, k ∈ map cls_name cs →
        grounded (seen_after ∅ cs) (size (seen_after ∅ cs)) k) →
  ready cs (init_dynamic_attrs (with_classes (seen_after ∅ cs) (map cls_name cs)) cs).
Proof.
  intros Hg. split.
  - simpl. intros k Hk. by apply Hg, HierarchyFacts.seen_after_is_Some.
  - intros C HC. rewrite AnalyzerFacts.init_dynamic_attrs_lookup.
    rewrite bool_decide_eq_true_2 by (by apply list_elem_of_fmap_2). done.
Qed.

(** The whole analysis ends. *)
Lemma analyze_finishes (p : Program) :
  finishes (unnamed_var (flat_map class_visited_nodes (classes p))) analyzer_codes
    (λ _, True) (analyze p).
Proof.
  unfold analyze.
  destruct (CheckFacts.check_duplicate_classes_outcome (classes p) ∅ []) as [-> | ->];
    simpl; [|code_in].
  destruct (CheckFacts.check_duplicate_methods_outcome (classes p)) as [-> | ->];
    simpl; [|code_in].
  destruct (CheckFacts.find_main_outcome (classes p) false) as [-> | ->];
    simpl; [|code_in].
  destruct (existsb _ _); simpl; [|code_in].
  destruct (CheckFacts.check_parents_outcome
              (with_classes (seen_after ∅ (classes p)) (map cls_name (classes p)))
              (classes p)) as [-> | ->]; simpl; [|code_in].
  destruct (HierarchyFacts.check_circular_with (classes p)) as [-> | [-> Hg]];
    simpl; [code_in|].
  unfold harvest.
  destruct (collect_all_total (classes p) (classes p) (λ _ H, H) _ (ready_init _ Hg))
    as (self & -> & Hr).
  simpl. eapply finishes_mono; [by apply analyze_classes_finishes|done|done].
Qed.

Lemma visited_in_nodes (e' e : expr) : e' ∈ visited_nodes e → e' ∈ expr_nodes e.
Proof.
  induction e as [n p|c v p|b _|s t args p IHt IHargs|ps asg _|n p e o _]
    using expr_mutind with (Q := λ _, True) (R := λ _, True); try done.
  - simpl. intros H. apply elem_of_cons in H as [->|H]; [apply list_elem_of_here|].
    inversion H.
  - rewrite AnalyzerFacts.visited_nodes_Send, ParserFacts.expr_nodes_Send.
    intros H. apply elem_of_cons in H as [->|H]; [apply list_elem_of_here|].
    apply list_elem_of_further. apply elem_of_app in H as [H|H]; apply elem_of_app.
    + left. auto.
    + right. apply XmlFacts.elem_of_flat_map in H as (a & Ha & H).
      apply XmlFacts.elem_of_flat_map. exists a. split; [done|].
      rewrite Forall_forall in IHargs. by apply IHargs.
Qed.

Lemma class_visited_in_nodes (C : ClassDef) (e : expr) :
  e ∈ class_visited_nodes C → e ∈ class_nodes C.
Proof.
  unfold class_visited_nodes, class_nodes, method_visited_nodes, method_nodes.
  intros (m & Hm & H)%XmlFacts.elem_of_flat_map.
  apply XmlFacts.elem_of_flat_map. exists m. split; [done|].
  destruct (m_block m) as [ps asg]. rewrite ParserFacts.block_nodes_mkBlock.
  simpl in H. apply XmlFacts.elem_of_flat_map in H as (a & Ha & H).
  apply XmlFacts.elem_of_flat_map. exists a. split; [done|].
  destruct a as [n p e0 o]. simpl in *. by apply visited_in_nodes.
Qed.

Lemma program_visited_in_nodes (p : Program) (e : expr) :
  e ∈ flat_map class_visited_nodes (classes p) → e ∈ program_nodes p.
Proof.
  intros (C & HC & H)%XmlFacts.elem_of_flat_map.
  apply XmlFacts.elem_of_flat_map. exists C. split; [done|].
  by apply class_visited_in_nodes.
Qed.

End OutcomeFacts.

(** ** What the analysis of the bodies checks *)

Module BodyFacts.
Import SemanticAnalyzer.

Lemma same_classes_refl (self : analyzer) : same_classes self self.
Proof. by split. Qed.

Lemma same_classes_trans (s1 s2 s3 : analyzer) :
  same_classes s1 s2 → same_classes s2 s3 → same_classes s1 s3.
Proof. intros [? ?] [? ?]. split; congruence. Qed.

Lemma same_classes_bump (self : analyzer) (k : string) (N : gset string) :
  same_classes self (bump self k N).
Proof. apply HierarchyFacts.class_map_bump. Qed.

Lemma lookup_method_from_same (self self' : analyzer) (fuel : nat)
    (cls selector : string) :
  class_map self' = class_map self →
  lookup_method_from fuel self' cls selector = lookup_method_from fuel self cls selector.
Proof.
  intros Hcm. revert cls. induction fuel as [|fuel IH]; intros cls; simpl; [done|].
  rewrite Hcm. destruct (class_map self !! cls) as [C|]; [|done].
  destruct (has_method _ _); [done|]. by rewrite IH.
Qed.

Lemma lookup_method_same (self self' : analyzer) (cls selector : string) :
  same_classes self self' →
  lookup_method self' cls selector = lookup_method self cls selector.
Proof.
  intros [Hcm _]. unfold lookup_method. rewrite Hcm.
  by apply lookup_method_from_same.
Qed.

Lemma ref_checked_same (self self' : analyzer) (env : gmap string role) (e : expr) :
  same_classes self self' → ref_checked self' env e → ref_checked self env e.
Proof.
  intros Hs. destruct e as [n p|c v p|b|s t args p]; simpl; try done.
  - by rewrite (proj2 Hs).
  - by rewrite (proj2 Hs).
  - intros [Hr Hl]. split; [done|]. intros cls Hc.
    rewrite <- (lookup_method_same _ _ _ _ Hs). auto.
Qed.

Lemma analyze_self_send_same (self self' : analyzer) (selector : string) (n : nat)
    (C : ClassDef) :
  analyze_self_send self selector n C = Ok self' → same_classes self self'.
Proof.
  unfold analyze_self_send. intros H.
  destruct (find_method _ _).
  - case_bool_decide; [discriminate|]. injection H as <-. apply same_classes_refl.
  - destruct (endswith _ _).
    + case_bool_decide; [discriminate|].
      apply AnalyzerFacts.add_dynamic_attr_bump in H. subst. apply same_classes_bump.
    + case_bool_decide; [discriminate|].
      destruct (dynamic_attrs self !! cls_name C); [|discriminate].
      case_bool_decide; [discriminate|]. injection H as <-. apply same_classes_refl.
Qed.

Lemma require_method_Ok (self : analyzer) (cls selector : string) (u : unit) :
  require_method self cls selector = Ok u → lookup_method self cls selector = Ok true.
Proof.
  unfold require_method. intros H. bind_inv H. by destruct a.
Qed.

Lemma analyze_args_refs (C : ClassDef) (env : gmap string role) (args : list expr) :
  Forall (λ e, ∀ self self', analyze_expr self e env C = Ok self' →
                 same_classes self self'
                 ∧ Forall (ref_checked self env) (visited_nodes e)) args →
  ∀ self self', analyze_args env C self args = Ok self' →
    same_classes self self'
    ∧ Forall (ref_checked self env) (flat_map visited_nodes args).
Proof.
  induction 1 as [|e args He _ IH]; intros self self' H; simpl in H.
  - injection H as <-. split; [apply same_classes_refl|constructor].
  - bind_inv H. apply He in Hstep as [Hs1 Hv1]. apply IH in H as [Hs2 Hv2].
    split; [by eapply same_classes_trans|]. simpl. apply Forall_app. split; [done|].
    eapply Forall_impl; [exact Hv2|]. intros e'. by apply ref_checked_same.
Qed.

(** The second traversal keeps the classes and checks the references of
    every node it visits. *)
Lemma analyze_expr_refs (C : ClassDef) (env : gmap string role) (e : expr)
    (self self' : analyzer) :
  analyze_expr self e env C = Ok self' →
  same_classes self self' ∧ Forall (ref_checked self env) (visited_nodes e).
Proof.
  revert self self'.
  induction e as [n p|c v p|b _|s t args p IHt IHargs|ps asg _|n p e o _]
    using expr_mutind with (Q := λ _, True) (R := λ _, True);
    try done; intros self self' Ha.
  - simpl in Ha. case_bool_decide as Henv.
    { injection Ha as <-. split; [apply same_classes_refl|].
      apply Forall_singleton. by left. }
    bind_inv Ha. destruct n as [|c n]; [discriminate|]. simpl in Hstep.
    injection Hstep as <-. destruct (char_isupper c) eqn:Hup; [|discriminate].
    case_bool_decide as Hg; [discriminate|]. injection Ha as <-.
    split; [apply same_classes_refl|]. apply Forall_singleton. right. split; [done|].
    first [done | by apply dec_stable in Hg].
  - simpl in Ha. destruct (String.eqb c "class") eqn:Hc; simpl in Ha.
    + case_bool_decide as Hg; simpl in Ha.
      * case_bool_decide as Hb; [discriminate|]. injection Ha as <-.
        split; [apply same_classes_refl|]. apply Forall_singleton. intros _. right.
        by apply not_eq_None_Some.
      * injection Ha as <-. split; [apply same_classes_refl|]. apply Forall_singleton.
        intros _. left. first [done | by apply dec_stable in Hg].
    + injection Ha as <-. split; [apply same_classes_refl|]. apply Forall_singleton.
      intros ->. discriminate.
  - simpl in Ha. injection Ha as <-. split; [apply same_classes_refl|].
    by repeat constructor.
  - rewrite AnalyzerFacts.analyze_Send in Ha.
    bind_inv Ha. bind_inv Ha. bind_inv Ha. bind_inv Ha.
    destruct (mem_string s reserved) eqn:Hres; [discriminate|].
    apply IHt in Hstep0 as [Hs1 Hvt].
    eapply analyze_args_refs in Hstep1 as [Hs2 Hvargs]; [|eassumption].
    assert (Hs3 : same_classes a1 a2).
    { destruct (is_self t); [by eapply analyze_self_send_same|].
      injection Hstep2 as <-. apply same_classes_refl. }
    assert (Hs : same_classes self a2).
    { eapply same_classes_trans; [|exact Hs3]. by eapply same_classes_trans. }
    assert (self' = a2
                   ∧ ∀ cls, class_target t = Some cls →
                            lookup_method a2 cls s = Ok true) as [-> Hl].
    { destruct t as [name pos|lc cls pos|b|s' t' args' p']; simpl in *.
      - apply bind_Ok in Ha as (upper & Hup & Ha). apply bind_Ok in Ha as (u & Hreq & Ha).
        injection Ha as <-. split; [done|].
        destruct name as [|c name]; [discriminate|]. simpl in Hup.
        injection Hup as <-. simpl. intros cls Hc.
        destruct (char_isupper c); [|discriminate]. injection Hc as <-.
        by eapply require_method_Ok.
      - apply bind_Ok in Ha as (u & Hreq & Ha).
        injection Ha as <-. split; [done|]. intros cls' Hc.
        destruct (String.eqb lc "class"); [|discriminate]. injection Hc as <-.
        by eapply require_method_Ok.
      - injection Ha as <-. split; [done|]. discriminate.
      - injection Ha as <-. split; [done|]. discriminate. }
    split; [done|]. rewrite AnalyzerFacts.visited_nodes_Send. constructor.
    + split; [done|]. intros cls Hc. rewrite <- (lookup_method_same _ _ _ _ Hs). auto.
    + apply Forall_app. split; [done|].
      eapply Forall_impl; [exact Hvargs|]. intros e'. by apply ref_checked_same.
Qed.

Lemma check_params_Ok (ps : list Param) (seen : gset string) :
  check_params ps seen = Ok tt →
  NoDup (map param_name ps) ∧ ∀ p, p ∈ ps → param_name p ∉ seen.
Proof.
  revert seen. induction ps as [|p ps IH]; intros seen H; simpl in H.
  - split; [constructor|]. intros p Hp. inversion Hp.
  - case_bool_decide as Hin; [discriminate|]. apply IH in H as [Hnd Hout].
    split.
    + simpl. constructor; [|done]. intros (q & Hq & Hqin)%list_elem_of_fmap.
      specialize (Hout q Hqin). set_solver.
    + intros q [->|Hq]%elem_of_cons; [done|]. specialize (Hout q Hq). set_solver.
Qed.

Lemma params_env_lookup (ps : list Param) (k : string) :
  params_env ps !! k = if bool_decide (k ∈ map param_name ps) then Some param else None.
Proof.
  unfold params_env.
  enough (∀ env, foldl (λ env p, <[param_name p := param]> env) env ps !! k
                 = if bool_decide (k ∈ map param_name ps) then Some param else env !! k)
    as H by (by rewrite H).
  induction ps as [|p ps IH]; intros env.
  - cbn [foldl map]. case_bool_decide as Hin; [by apply elem_of_nil in Hin|done].
  - cbn [foldl map]. rewrite IH. case_bool_decide as Hin.
    + rewrite bool_decide_eq_true_2; [done|]. by apply list_elem_of_further.
    + destruct (decide (param_name p = k)) as [<-|Hne].
      * rewrite lookup_insert_eq, bool_decide_eq_true_2; [done|apply list_elem_of_here].
      * rewrite lookup_insert_ne by done. rewrite bool_decide_eq_false_2; [done|].
        intros [?|?]%elem_of_cons; congruence.
Qed.

Lemma block_env_lookup (b : Block) (k : string) :
  block_env b !! k
  = if bool_decide (k = "self" ∨ k ∈ param_names b) then Some param else None.
Proof.
  unfold block_env, param_names. destruct (decide (k = "self")) as [->|Hne].
  - rewrite lookup_insert_eq, bool_decide_eq_true_2; [done|by left].
  - rewrite lookup_insert_ne by done. rewrite params_env_lookup.
    case_bool_decide as Hin.
    + rewrite bool_decide_eq_true_2; [done|by right].
    + rewrite bool_decide_eq_false_2; [done|]. by intros [?|?].
Qed.

Lemma env_after_lookup (pre : list Assignment) (env : gmap string role) (k : string) :
  env_after env pre !! k
  = match env !! k with
    | Some r => Some r
    | None => if bool_decide (k ∈ map assign_var pre) then Some local else None
    end.
Proof.
  unfold env_after. revert env. induction pre as [|a pre IH]; intros env.
  - cbn [foldl map]. destruct (env !! k); [done|].
    case_bool_decide as Hin; [by apply elem_of_nil in Hin|done].
  - cbn [foldl map]. rewrite IH.
    destruct (decide (is_Some (env !! assign_var a))) as [Hin|Hin];
      [rewrite (bool_decide_eq_true_2 (is_Some (env !! assign_var a))) by done
      |rewrite (bool_decide_eq_false_2 (is_Some (env !! assign_var a))) by done].
    + destruct (env !! k) eqn:Hk; [done|].
      assert (k ≠ assign_var a) by (intros ->; rewrite Hk in Hin; by destruct Hin).
      rewrite (bool_decide_ext (k ∈ assign_var a :: map assign_var pre)
                 (k ∈ map assign_var pre)); [done|].
      rewrite elem_of_cons. naive_solver.
    + destruct (decide (assign_var a = k)) as [<-|Hne].
      * rewrite lookup_insert_eq.
        assert (env !! assign_var a = None) as ->.
        { destruct (env !! assign_var a) eqn:Hk; [|done]. destruct Hin. eauto. }
        rewrite bool_decide_eq_true_2; [done|apply list_elem_of_here].
      * rewrite lookup_insert_ne by done. destruct (env !! k); [done|].
        rewrite (bool_decide_ext (k ∈ assign_var a :: map assign_var pre)
                 (k ∈ map assign_var pre)); [done|].
      rewrite elem_of_cons. naive_solver.
Qed.

Lemma analyze_assigns_refs (C : ClassDef) (asg : list Assignment) :
  ∀ (env : gmap string role) (self self' : analyzer),
    analyze_assigns self asg env C = Ok self' →
    same_classes self self'
    ∧ ∀ pre a post, asg = pre ++ a :: post →
        env_after env pre !! assign_var a ≠ Some param
        ∧ Forall (ref_checked self (env_after env pre)) (visited_nodes (assign_expr a)).
Proof.
  induction asg as [|a0 asg IH]; intros env self self' H; simpl in H.
  - injection H as <-. split; [apply same_classes_refl|].
    intros pre a post Heq. by destruct pre.
  - case_bool_decide as Hp; [discriminate|]. bind_inv H.
    apply analyze_expr_refs in Hstep as [Hs1 Hv1]. apply IH in H as [Hs2 Hrest].
    split; [by eapply same_classes_trans|].
    intros pre x post Heq. destruct pre as [|a1 pre]; simpl in Heq.
    + injection Heq as <- <-. done.
    + injection Heq as <- ->. destruct (Hrest pre x post eq_refl) as [Hne Hv].
      split; [done|].
      eapply Forall_impl; [exact Hv|]. intros e'. by apply ref_checked_same.
Qed.

Lemma analyze_block_refs (C : ClassDef) (b : Block) (self self' : analyzer) :
  analyze_block self b C = Ok self' →
  same_classes self self' ∧ body_checked self b.
Proof.
  unfold analyze_block. intros H. cbv zeta in H. fold (block_env b) in H.
  bind_inv H. bind_inv H. destruct a.
  apply check_params_Ok in Hstep as [Hnd _].
  apply AnalyzerFacts.collect_block_bump in Hstep0. subst a0.
  apply analyze_assigns_refs in H as [Hs Hrest].
  pose proof (same_classes_bump self (cls_name C) (names (block_nodes b))) as Hs0.
  split; [by eapply same_classes_trans|]. split; [split; [done|]|].
  - apply Forall_forall. intros a Ha.
    apply list_elem_of_split in Ha as (pre & post & Heq).
    destruct (Hrest pre a post Heq) as [Hne _].
    rewrite env_after_lookup, block_env_lookup in Hne.
    case_bool_decide as Hin; [done|]. split; intros ?; apply Hin; auto.
  - intros pre a post Heq. destruct (Hrest pre a post Heq) as [_ Hv].
    eapply Forall_impl; [exact Hv|]. intros e'. by apply ref_checked_same.
Qed.

Lemma body_checked_same (self self' : analyzer) (b : Block) :
  same_classes self self' → body_checked self' b → body_checked self b.
Proof.
  intros Hs [Hc Hv]. split; [done|]. intros pre x post Heq.
  eapply Forall_impl; [by eapply Hv|]. intros e'. by apply ref_checked_same.
Qed.

Lemma analyze_methods_refs (C : ClassDef) (ms : list Method) :
  ∀ self self', analyze_methods self ms C = Ok self' →
    same_classes self self' ∧ Forall (λ m, body_checked self (m_block m)) ms.
Proof.
  induction ms as [|m ms IH]; intros self self' H; simpl in H.
  - injection H as <-. split; [apply same_classes_refl|constructor].
  - bind_inv H. apply analyze_block_refs in Hstep as [Hs1 Hb]. apply IH in H as [Hs2 Hr].
    split; [by eapply same_classes_trans|]. constructor; [done|].
    eapply Forall_impl; [exact Hr|]. intros m'. by apply body_checked_same.
Qed.

Lemma analyze_classes_refs (cs : list ClassDef) :
  ∀ self self', analyze_classes self cs = Ok self' →
    same_classes self self'
    ∧ Forall (λ C, Forall (λ m, body_checked self (m_block m)) (cls_methods C)) cs.
Proof.
  induction cs as [|C cs IH]; intros self self' H; simpl in H.
  - injection H as <-. split; [apply same_classes_refl|constructor].
  - bind_inv H. apply analyze_methods_refs in Hstep as [Hs1 Hb]. apply IH in H as [Hs2 Hr].
    split; [by eapply same_classes_trans|]. constructor; [done|].
    eapply Forall_impl; [exact Hr|]. intros C' HC'. simpl in *.
    eapply Forall_impl; [exact HC'|]. intros m'. by apply body_checked_same.
Qed.

(** The bodies of an accepted program are checked against the analyzer
    the analysis returns. *)
Lemma analyze_bodies (p : Program) (self : analyzer) :
  analyze p = Ok self →
  ∀ C m, C ∈ classes p → m ∈ cls_methods C → body_checked self (m_block m).
Proof.
  intros H C m HC Hm.
  apply AnalyzerFacts.analyze_prepare in H as (self0 & _ & H).
  apply analyze_classes_refs in H as [Hs Hall].
  rewrite Forall_forall in Hall. specialize (Hall C HC).
  rewrite Forall_forall in Hall. destruct (Hall m Hm) as [Hc Hv].
  split; [done|]. intros pre x post Heq. eapply Forall_impl; [by eapply Hv|].
  intros e' He'. destruct Hs as [Hcm Hg].
  destruct e' as [n q|c v q|b|s t args q]; simpl in *; try done.
  - by rewrite Hg.
  - by rewrite Hg.
  - destruct He' as [Hr Hl]. split; [done|]. intros cls Hc'.
    rewrite (lookup_method_same self0 self) by (by split). auto.
Qed.

Lemma is_Some_env_after (b : Block) (pre : list Assignment) (k : string) :
  is_Some (env_after (block_env b) pre !! k)
  ↔ k = "self" ∨ k ∈ param_names b ∨ k ∈ map assign_var pre.
Proof.
  rewrite env_after_lookup, block_env_lookup.
  case_bool_decide as H1.
  - split; [|by eauto]. intros _. tauto.
  - case_bool_decide as H2.
    + split; [|by eauto]. auto.
    + split; [by intros [? ?]|]. tauto.
Qed.

End BodyFacts.

(** ** The search for a method *)

Module LookupFacts.
Import SemanticAnalyzer.

Lemma has_method_elem (ms : list Method) (selector : string) :
  has_method ms selector = true ↔ selector ∈ map m_selector ms.
Proof.
  unfold has_method. rewrite existsb_exists, list_elem_of_fmap. split.
  - intros (m & Hm%list_elem_of_In & Heq). exists m. split; [|done].
    symmetry. by apply String.eqb_eq.
  - intros (m & -> & Hm). exists m. split; [by apply list_elem_of_In|].
    apply String.eqb_refl.
Qed.

Lemma lookup_builtin_true (cls selector : string) :
  lookup_builtin_method cls selector = Ok true ↔ builtin_understands cls selector.
Proof.
  rewrite BuiltinFacts.lookup_builtin_method_spec. unfold builtin_understands. split.
  - intros H. injection H as H. by apply bool_decide_eq_true in H.
  - intros H. f_equal. by apply bool_decide_eq_true.
Qed.

Section Lookup.
Context (p : Program) (self : analyzer).
Context (Hnd : NoDup (map cls_name (classes p))).
Context (Hcm : class_map self = seen_after ∅ (classes p)).

Lemma class_map_Some (k : string) (C : ClassDef) :
  class_map self !! k = Some C ↔ C ∈ classes p ∧ cls_name C = k.
Proof.
  rewrite Hcm. split.
  - intros H. assert (Hk : k ∈ map cls_name (classes p)).
    { apply HierarchyFacts.seen_after_is_Some. eauto. }
    apply list_elem_of_fmap in Hk as (C' & -> & HC').
    rewrite (HierarchyFacts.seen_after_lookup _ _ _ Hnd HC') in H.
    injection H as <-. done.
  - intros [HC <-]. by apply HierarchyFacts.seen_after_lookup.
Qed.

Lemma class_map_None (k : string) :
  class_map self !! k = None ↔ k ∉ map cls_name (classes p).
Proof.
  rewrite Hcm, <- HierarchyFacts.seen_after_is_Some, eq_None_not_Some. done.
Qed.

Lemma understands_outside (k selector : string) :
  k ∉ map cls_name (classes p) → understands p k selector →
  builtin_understands k selector.
Proof.
  intros Hout H. destruct H as [C s HC _|C s HC _|cls s _ Hb]; [| |done].
  - destruct Hout. by apply list_elem_of_fmap_2.
  - destruct Hout. by apply list_elem_of_fmap_2.
Qed.

(** A successful search finds a method the class understands. *)
Lemma lookup_method_from_sound (fuel : nat) (k selector : string) :
  lookup_method_from fuel self k selector = Ok true → understands p k selector.
Proof.
  revert k. induction fuel as [|fuel IH]; intros k H; simpl in H; [discriminate|].
  destruct (class_map self !! k) as [C|] eqn:Hk.
  - apply class_map_Some in Hk as [HC <-].
    destruct (has_method (cls_methods C) selector) eqn:Hm.
    { apply understands_own; [done|]. by apply has_method_elem. }
    apply understands_inherited; [done|]. case_bool_decide as Hp.
    + by apply IH.
    + apply understands_builtin; [|by apply lookup_builtin_true].
      apply class_map_None. by apply eq_None_not_Some.
  - apply understands_builtin; [by apply class_map_None|by apply lookup_builtin_true].
Qed.

(** The search finds every method the class understands, when the walk
    to the parent leaves the classes within the bound. *)
Lemma lookup_method_from_complete (k selector : string) :
  understands p k selector →
  ∀ fuel, (is_Some (class_map self !! k) → grounded (class_map self) fuel k) →
  lookup_method_from (S fuel) self k selector = Ok true.
Proof.
  induction 1 as [C s HC Hm|C s HC Hu IH|cls s Hout Hb]; intros fuel Hg.
  - simpl. rewrite (proj2 (class_map_Some _ _) (conj HC eq_refl)).
    by rewrite (proj2 (has_method_elem _ _) Hm).
  - pose proof (proj2 (class_map_Some _ _) (conj HC eq_refl)) as Hk.
    specialize (Hg (ex_intro _ _ Hk)).
    change (lookup_method_from (S fuel) self (cls_name C) s)
      with (match class_map self !! cls_name C with
            | Some cls_node =>
                if has_method (cls_methods cls_node) s then Ok true
                else
                  if bool_decide (is_Some (class_map self !! cls_parent cls_node))
                  then lookup_method_from fuel self (cls_parent cls_node) s
                  else lookup_builtin_method (cls_parent cls_node) s
            | None => lookup_builtin_method (cls_name C) s
            end).
    rewrite Hk. destruct (has_method _ _); [done|].
    case_bool_decide as Hp.
    + inversion Hg as [n k cls Hk' Hnone|n k cls Hk' Hpar]; subst;
        rewrite Hk in Hk'; injection Hk' as <-.
      { rewrite Hnone in Hp. by destruct Hp. }
      destruct n as [|n]; [inversion Hpar|]. apply IH. intros _. exact Hpar.
    + apply lookup_builtin_true. apply understands_outside; [|done].
      apply class_map_None. by apply eq_None_not_Some.
  - simpl. rewrite (proj2 (class_map_None _) Hout). by apply lookup_builtin_true.
Qed.

End Lookup.

(** The hierarchy of an accepted program. *)
Lemma analyze_hierarchy (p : Program) (self : analyzer) :
  analyze p = Ok self →
  NoDup (map cls_name (classes p))
  ∧ class_map self = seen_after ∅ (classes p)
  ∧ global_classes self = list_to_set (map cls_name (classes p))
  ∧ ∀ k, is_Some (class_map self !! k) →
         grounded (class_map self) (size (class_map self)) k.
Proof.
  intros H. pose proof (CheckFacts.analyze_checks _ _ H) as (Hnd & Hms & Hmain & Hpar).
  pose proof (HierarchyFacts.analyze_class_map _ _ H) as [Hcm Hgc].
  repeat split; try done.
  assert (Hrun : ∀ C m, C ∈ classes p → cls_name C = "Main" → m ∈ cls_methods C →
                        m_selector m = "run" → parameters (m_block m) = []).
  { pose proof (MainFacts.analyze_find_main _ _ H) as [found Hf].
    intros C m HC Hn Hm Hs.
    pose proof (MainFacts.find_main_Ok _ _ _ Hf C m HC Hn Hm Hs).
    by destruct (parameters (m_block m)). }
  rewrite (HierarchyFacts.analyze_checked p Hnd Hms Hmain Hrun Hpar) in H.
  cbv zeta in H. bind_inv H.
  destruct (HierarchyFacts.check_circular_with (classes p)) as [Hc|[_ Hg]]; [congruence|].
  rewrite Hcm. intros k Hk. by apply Hg, HierarchyFacts.seen_after_is_Some.
Qed.

End LookupFacts.

(** ** The whole program ends *)

Module PipelineFacts.

Lemma parse_source_ends (code : string) :
  ends_with (λ e, e = AttributeError) [ERR_LEXICAL; ERR_SYNTACTIC] (parse_source code).
Proof.
  unfold parse_source, Lexer.tokenize.
  destruct (LexerShape.tokenize_from_outcome (String.length code) code 0 (le_n _))
    as [[toks Htoks]|Herr].
  - rewrite Htoks. simpl.
    apply LexerShape.tokenize_from_shape in Htoks.
    assert (Hfirst : ∀ t, t ∈ toks → tok_type t = IDENT →
                           match first_char (tok_value t) with
                           | Raise e => e = AttributeError
                           | _ => True
                           end).
    { intros t Ht Hty. rewrite Forall_forall in Htoks. specialize (Htoks t Ht).
      unfold token_shape in Htoks. rewrite Hty in Htoks. simpl in Htoks.
      by destruct (tok_value t). }
    pose proof (ParserOutcome.parse_ends (λ e, e = AttributeError) toks eq_refl Hfirst)
      as H.
    destruct (Parser.parse toks) eqn:Hp; simpl in *; try done.
    by apply list_elem_of_further.
  - rewrite Herr. simpl. apply list_elem_of_here.
Qed.

Lemma run_parse_source (code : string) :
  run code
  = (ast <- parse_source code ;;
     SemanticAnalyzer.analyze ast ;;
     Ok (replace "&amp;nbsp;" " " (generate_xml ast))).
Proof. unfold run, parse_source. by destruct (Lexer.tokenize code). Qed.

(** No variable of a parsed tree has the empty name. *)
Lemma parsed_vars_named (code : string) (ast : Program) :
  parse_source code = Ok ast → ¬ unnamed_var (program_nodes ast).
Proof.
  intros H [pos Hpos]. apply ParserShape.parse_source_shape in H as [_ Hn].
  rewrite Forall_forall in Hn. specialize (Hn _ Hpos). simpl in Hn.
  vm_compute in Hn. discriminate.
Qed.

Lemma run_ends (code : string) :
  ends_with (λ e, e = AttributeError) (ERR_LEXICAL :: analyzer_codes) (run code).
Proof.
  rewrite run_parse_source. pose proof (parse_source_ends code) as Hp.
  destruct (parse_source code) as [ast|c|e|] eqn:Hast; simpl in *; try done.
  - pose proof (OutcomeFacts.analyze_finishes ast) as Ha.
    destruct (SemanticAnalyzer.analyze ast) as [self|c|e|]; simpl in *; try done.
    + by apply list_elem_of_further.
    + destruct Ha as [_ [pos Hpos]].
      destruct (parsed_vars_named code ast Hast). exists pos.
      by apply OutcomeFacts.program_visited_in_nodes.
  - apply elem_of_cons in Hp as [->|Hp]; [apply list_elem_of_here|].
    apply list_elem_of_singleton in Hp as ->.
    apply list_elem_of_further, list_elem_of_here.
Qed.

End PipelineFacts.

(** ** The analysis of the method bodies *)

(** X24.  In a program the analyzer accepts, the parameters of every
    method body have distinct names, and no assignment of a method body
    has [self] or a parameter of the body for its variable. *)
Theorem accepted_block_parameters (p : Program) (self : SemanticAnalyzer.analyzer)
    (C : ClassDef) (m : Method) :
  SemanticAnalyzer.analyze p = Ok self → C ∈ classes p → m ∈ cls_methods C →
  block_checked (m_block m).
Proof.
  intros H HC Hm. by destruct (BodyFacts.analyze_bodies p self H C m HC Hm).
Qed.

Lemma accepted_block_parameters_witness :
  block_checked
    (mkBlock [mkParam "a" 1; mkParam "b" 2]
       [mkAssignment "x" 0 (Var "a" 0) 1; mkAssignment "x" 0 (Var "x" 0) 2]).
Proof.
  apply (accepted_block_parameters
           (mkProgram
              [mkClassDef "Main" "Object"
                 [mkMethod "run" (mkBlock [] []);
                  mkMethod "with:and:"
                    (mkBlock [mkParam "a" 1; mkParam "b" 2]
                       [mkAssignment "x" 0 (Var "a" 0) 1;
                        mkAssignment "x" 0 (Var "x" 0) 2])]] None)
           (ok_or (SemanticAnalyzer.mkAnalyzer ∅ ∅ ∅ [])
              (SemanticAnalyzer.analyze
                 (mkProgram
                    [mkClassDef "Main" "Object"
                       [mkMethod "run" (mkBlock [] []);
                        mkMethod "with:and:"
                          (mkBlock [mkParam "a" 1; mkParam "b" 2]
                             [mkAssignment "x" 0 (Var "a" 0) 1;
                              mkAssignment "x" 0 (Var "x" 0) 2])]] None)))
           (mkClassDef "Main" "Object"
              [mkMethod "run" (mkBlock [] []);
               mkMethod "with:and:"
                 (mkBlock [mkParam "a" 1; mkParam "b" 2]
                    [mkAssignment "x" 0 (Var "a" 0) 1;
                     mkAssignment "x" 0 (Var "x" 0) 2])])
           (mkMethod "with:and:"
              (mkBlock [mkParam "a" 1; mkParam "b" 2]
                 [mkAssignment "x" 0 (Var "a" 0) 1;
                  mkAssignment "x" 0 (Var "x" 0) 2]))).
  - vm_compute. reflexivity.
  - apply list_elem_of_here.
  - apply list_elem_of_further, list_elem_of_here.
Defined.

(** X25.  In a program the analyzer accepts, every node the analysis
    visits in the expression of an assignment of a method body refers to
    what is defined: a variable is [self], a parameter of the body, the
    variable of an earlier assignment of the body or, with an uppercase
    initial, a class of the program; a class literal names a class of
    the program or a built-in class; no selector of a send is a
    reserved word. *)
Theorem accepted_references (p : Program) (self : SemanticAnalyzer.analyzer)
    (C : ClassDef) (m : Method) (pre : list Assignment) (a : Assignment)
    (post : list Assignment) :
  SemanticAnalyzer.analyze p = Ok self → C ∈ classes p → m ∈ cls_methods C →
  assigns (m_block m) = pre ++ a :: post →
  Forall (reference_ok p (m_block m) pre) (visited_nodes (assign_expr a)).
Proof.
  intros H HC Hm Heq.
  destruct (BodyFacts.analyze_bodies p self H C m HC Hm) as [_ Hv].
  destruct (LookupFacts.analyze_hierarchy p self H) as (_ & _ & Hgc & _).
  eapply Forall_impl; [by eapply Hv|].
  intros [n q|c v q|b|s t args q]; simpl; try done.
  - rewrite BodyFacts.is_Some_env_after, Hgc, elem_of_list_to_set. tauto.
  - by rewrite Hgc, elem_of_list_to_set.
  - by intros [? _].
Qed.

Lemma accepted_references_witness :
  Forall (reference_ok
            (mkProgram
               [mkClassDef "Main" "Object"
                  [mkMethod "run"
                     (mkBlock []
                        [mkAssignment "x" 0 (Literal "Integer" "1" 0) 1;
                         mkAssignment "y" 0
                           (Send "plus:" (Var "x" 0) [Literal "class" "Main" 0] 0) 2])]]
               None)
            (mkBlock []
               [mkAssignment "x" 0 (Literal "Integer" "1" 0) 1;
                mkAssignment "y" 0
                  (Send "plus:" (Var "x" 0) [Literal "class" "Main" 0] 0) 2])
            [mkAssignment "x" 0 (Literal "Integer" "1" 0) 1])
    (visited_nodes (Send "plus:" (Var "x" 0) [Literal "class" "Main" 0] 0)).
Proof.
  apply (accepted_references
           (mkProgram
              [mkClassDef "Main" "Object"
                 [mkMethod "run"
                    (mkBlock []
                       [mkAssignment "x" 0 (Literal "Integer" "1" 0) 1;
                        mkAssignment "y" 0
                          (Send "plus:" (Var "x" 0) [Literal "class" "Main" 0] 0) 2])]]
              None)
           (ok_or (SemanticAnalyzer.mkAnalyzer ∅ ∅ ∅ [])
              (SemanticAnalyzer.analyze
                 (mkProgram
                    [mkClassDef "Main" "Object"
                       [mkMethod "run"
                          (mkBlock []
                             [mkAssignment "x" 0 (Literal "Integer" "1" 0) 1;
                              mkAssignment "y" 0
                                (Send "plus:" (Var "x" 0) [Literal "class" "Main" 0] 0)
                                2])]]
                    None)))
           (mkClassDef "Main" "Object"
              [mkMethod "run"
                 (mkBlock []
                    [mkAssignment "x" 0 (Literal "Integer" "1" 0) 1;
                     mkAssignment "y" 0
                       (Send "plus:" (Var "x" 0) [Literal "class" "Main" 0] 0) 2])])
           (mkMethod "run"
              (mkBlock []
                 [mkAssignment "x" 0 (Literal "Integer" "1" 0) 1;
                  mkAssignment "y" 0
                    (Send "plus:" (Var "x" 0) [Literal "class" "Main" 0] 0) 2]))
           [mkAssignment "x" 0 (Literal "Integer" "1" 0) 1]
           (mkAssignment "y" 0 (Send "plus:" (Var "x" 0) [Literal "class" "Main" 0] 0) 2)
           []).
  - vm_compute. reflexivity.
  - apply list_elem_of_here.
  - apply list_elem_of_here.
  - reflexivity.
Defined.

(** ** The search for a method *)

(** X27.  In a program the analyzer accepts, every message that the
    analysis visits in a method body and that is sent to a class (a
    class literal, or a variable with an uppercase initial) is
    understood by that class. *)
Theorem accepted_class_sends (p : Program) (self : SemanticAnalyzer.analyzer)
    (C : ClassDef) (m : Method) (a : Assignment) (selector : string) (target : expr)
    (args : list expr) (pos : nat) (cls : string) :
  SemanticAnalyzer.analyze p = Ok self → C ∈ classes p → m ∈ cls_methods C →
  a ∈ assigns (m_block m) →
  Send selector target args pos ∈ visited_nodes (assign_expr a) →
  class_target target = Some cls →
  understands p cls selector.
Proof.
  intros H HC Hm Ha Hsend Ht.
  destruct (BodyFacts.analyze_bodies p self H C m HC Hm) as [_ Hv].
  destruct (LookupFacts.analyze_hierarchy p self H) as (Hnd & Hcm & _ & _).
  apply list_elem_of_split in Ha as (pre & post & Heq).
  specialize (Hv pre a post Heq). rewrite Forall_forall in Hv.
  destruct (Hv _ Hsend) as [_ Hl].
  eapply LookupFacts.lookup_method_from_sound; [done|done|]. by apply Hl.
Qed.

Lemma accepted_class_sends_witness :
  understands
    (mkProgram
       [mkClassDef "Main" "Object"
          [mkMethod "run"
             (mkBlock []
                [mkAssignment "x" 0
                   (Send "from:" (Literal "class" "Integer" 0) [Literal "Integer" "1" 0] 0)
                   1])]] None)
    "Integer" "from:".
Proof.
  apply (accepted_class_sends
           (mkProgram
              [mkClassDef "Main" "Object"
                 [mkMethod "run"
                    (mkBlock []
                       [mkAssignment "x" 0
                          (Send "from:" (Literal "class" "Integer" 0)
                             [Literal "Integer" "1" 0] 0) 1])]] None)
           (ok_or (SemanticAnalyzer.mkAnalyzer ∅ ∅ ∅ [])
              (SemanticAnalyzer.analyze
                 (mkProgram
                    [mkClassDef "Main" "Object"
                       [mkMethod "run"
                          (mkBlock []
                             [mkAssignment "x" 0
                                (Send "from:" (Literal "class" "Integer" 0)
                                   [Literal "Integer" "1" 0] 0) 1])]] None)))
           (mkClassDef "Main" "Object"
              [mkMethod "run"
                 (mkBlock []
                    [mkAssignment "x" 0
                       (Send "from:" (Literal "class" "Integer" 0)
                          [Literal "Integer" "1" 0] 0) 1])])
           (mkMethod "run"
              (mkBlock []
                 [mkAssignment "x" 0
                    (Send "from:" (Literal "class" "Integer" 0)
                       [Literal "Integer" "1" 0] 0) 1]))
           (mkAssignment "x" 0
              (Send "from:" (Literal "class" "Integer" 0) [Literal "Integer" "1" 0] 0) 1)
           "from:" (Literal "class" "Integer" 0) [Literal "Integer" "1" 0] 0 "Integer").
  - vm_compute. reflexivity.
  - apply list_elem_of_here.
  - apply list_elem_of_here.
  - apply list_elem_of_here.
  - apply list_elem_of_here.
  - reflexivity.
Defined.

(** ** Sorting a numbered list *)

Module OrderFacts.

Lemma insert_sorted_last {A : Type} (key : A → nat) (x : A) (acc : list A) :
  (∀ y, y ∈ acc → (key y ≤ key x)%nat) → insert_sorted key x acc = acc ++ [x].
Proof.
  induction acc as [|y acc IH]; intros Hle; simpl; [done|].
  rewrite (proj2 (Nat.leb_le _ _)) by apply Hle, list_elem_of_here.
  rewrite IH; [done|]. intros z Hz. by apply Hle, list_elem_of_further.
Qed.

Lemma sorted_from {A : Type} (key : A → nat) (l : list A) :
  ∀ first acc, (∀ y, y ∈ acc → (key y ≤ first)%nat) →
    numbered_from key first l →
    foldl (λ acc x, insert_sorted key x acc) acc l = acc ++ l.
Proof.
  unfold numbered_from.
  induction l as [|x l IH]; intros first acc Hle Hnum; simpl.
  - by rewrite app_nil_r.
  - simpl in Hnum. injection Hnum as Hx Hl.
    rewrite insert_sorted_last by (intros y Hy; rewrite Hx; by apply Hle).
    rewrite (IH (S first)); [by rewrite <- app_assoc| |done].
    intros y [Hy| ->%list_elem_of_singleton]%elem_of_app; [|lia].
    specialize (Hle y Hy). lia.
Qed.

(** [sorted] returns a list that is numbered in its order as it is. *)
Lemma sorted_numbered {A : Type} (key : A → nat) (first : nat) (l : list A) :
  numbered_from key first l → sorted key l = l.
Proof.
  intros H. unfold sorted. rewrite (sorted_from key l first []); [done| |done].
  intros y Hy. inversion Hy.
Qed.

Lemma generate_xml_block_numbered (b : Block) :
  numbered_from param_order 1 (parameters b) →
  numbered_from assign_order 1 (assigns b) →
  generate_xml_block b = block_in_order b.
Proof.
  destruct b as [ps asg]. simpl parameters. simpl assigns. intros Hp Ha.
  rewrite XmlFacts.generate_xml_block_mkBlock, XmlFacts.xml_assigns_map.
  rewrite (sorted_numbered param_order 1 ps Hp).
  rewrite (sorted_numbered fst 1).
  - unfold block_in_order. simpl. by rewrite map_map.
  - unfold numbered_from in *. by rewrite map_map, length_map.
Qed.

End OrderFacts.

(** ** The order of the children of a block element *)

(** X30.  For every block of a parsed program, a method body or a block
    literal, the sort by order in [generate_xml_block] changes nothing:
    the children of the block element are the parameters in the order
    of their declaration, followed by the assignments in the order of
    the source. *)
Theorem parsed_blocks_xml_order (code : string) (ast : Program) :
  parse_source code = Ok ast →
  Forall (λ b, generate_xml_block b = block_in_order b) (program_blocks ast).
Proof.
  intros H. apply ParserShape.parse_source_blocks in H.
  eapply Forall_impl; [exact H|]. intros b (Hp & Ha & _).
  by apply OrderFacts.generate_xml_block_numbered.
Qed.

Lemma parsed_blocks_xml_order_witness :
  Forall (λ b, generate_xml_block b = block_in_order b)
    (program_blocks
       (ok_or (mkProgram [] None)
          (parse_source "class Main:Object{run[|x:=[:a :b|y:=a.z:=b.].w:=x.]}"))).
Proof.
  apply (parsed_blocks_xml_order "class Main:Object{run[|x:=[:a :b|y:=a.z:=b.].w:=x.]}").
  vm_compute. reflexivity.
Defined.

(** ** The arity check of a message to [self] *)

Module CallFacts.
Import SemanticAnalyzer.

Lemma analyze_self_send_call (self self' : analyzer) (selector : string) (n : nat)
    (C : ClassDef) (m : Method) :
  analyze_self_send self selector n C = Ok self' →
  find_method (cls_methods C) selector = Some m →
  List.length (parameters (m_block m)) = n.
Proof.
  unfold analyze_self_send. intros H Hm. rewrite Hm in H.
  case_bool_decide as Hn; [discriminate|]. first [done | by apply dec_stable in Hn].
Qed.

Lemma analyze_args_calls (C : ClassDef) (env : gmap string role) (args : list expr) :
  Forall (λ e, ∀ self self', analyze_expr self e env C = Ok self' →
                 Forall (call_checked C) (visited_nodes e)) args →
  ∀ self self', analyze_args env C self args = Ok self' →
    Forall (call_checked C) (flat_map visited_nodes args).
Proof.
  induction 1 as [|e args He _ IH]; intros self self' H; simpl in H.
  - constructor.
  - bind_inv H. simpl. apply Forall_app. split; eauto.
Qed.

Lemma analyze_expr_calls (C : ClassDef) (env : gmap string role) (e : expr)
    (self self' : analyzer) :
  analyze_expr self e env C = Ok self' → Forall (call_checked C) (visited_nodes e).
Proof.
  revert self self'.
  induction e as [n p|c v p|b _|s t args p IHt IHargs|ps asg _|n p e o _]
    using expr_mutind with (Q := λ _, True) (R := λ _, True);
    try done; intros self self' Ha; try (by apply Forall_singleton).
  rewrite AnalyzerFacts.analyze_Send in Ha.
  bind_inv Ha. bind_inv Ha. bind_inv Ha. bind_inv Ha.
  rewrite AnalyzerFacts.visited_nodes_Send. constructor.
  - simpl. intros Hself m Hm. rewrite Hself in Hstep2.
    by eapply analyze_self_send_call.
  - apply Forall_app. split; [by eapply IHt|by eapply analyze_args_calls].
Qed.

Lemma analyze_assigns_calls (C : ClassDef) (asg : list Assignment) :
  ∀ env self self', analyze_assigns self asg env C = Ok self' →
    Forall (call_checked C) (flat_map (λ a, visited_nodes (assign_expr a)) asg).
Proof.
  induction asg as [|a0 asg IH]; intros env self self' H; simpl in H.
  - constructor.
  - case_bool_decide; [discriminate|]. bind_inv H. simpl. apply Forall_app.
    split; [by eapply analyze_expr_calls|by eapply IH].
Qed.

Lemma analyze_methods_calls (C : ClassDef) (ms : list Method) :
  ∀ self self', analyze_methods self ms C = Ok self' →
    Forall (call_checked C) (flat_map method_visited_nodes ms).
Proof.
  induction ms as [|m ms IH]; intros self self' H; simpl in H.
  - constructor.
  - bind_inv H. simpl. apply Forall_app. split; [|by eapply IH].
    unfold analyze_block in Hstep. bind_inv Hstep. bind_inv Hstep.
    by eapply analyze_assigns_calls.
Qed.

Lemma analyze_classes_calls (cs : list ClassDef) :
  ∀ self self', analyze_classes self cs = Ok self' →
    ∀ C, C ∈ cs → Forall (call_checked C) (class_visited_nodes C).
Proof.
  induction cs as [|C0 cs IH]; intros self self' H C HC; simpl in H.
  - inversion HC.
  - bind_inv H. apply elem_of_cons in HC as [->|HC].
    + by eapply analyze_methods_calls.
    + by eapply IH.
Qed.

(** In an accepted program every visited message to [self] that names a
    method of the class has the arity of the method. *)
Lemma analyze_calls (p : Program) (self : analyzer) (C : ClassDef) :
  analyze p = Ok self → C ∈ classes p → Forall (call_checked C) (class_visited_nodes C).
Proof.
  intros H HC. apply AnalyzerFacts.analyze_prepare in H as (self0 & _ & H).
  by eapply analyze_classes_calls.
Qed.

Lemma find_method_NoDup (ms : list Method) (m : Method) :
  NoDup (map m_selector ms) → m ∈ ms → find_method ms (m_selector m) = Some m.
Proof.
  unfold find_method. induction ms as [|m0 ms IH]; intros Hnd Hm; [inversion Hm|].
  simpl in *. apply NoDup_cons in Hnd as [Hout Hnd].
  apply elem_of_cons in Hm as [<-|Hm].
  - by rewrite String.eqb_refl.
  - destruct (String.eqb (m_selector m0) (m_selector m)) eqn:Heq; [|by apply IH].
    apply String.eqb_eq in Heq. destruct Hout. rewrite Heq.
    by apply list_elem_of_fmap_2.
Qed.

End CallFacts.

(** ** The colons of a selector and the parameters of its block *)



(** ** The depth of the recursion *)

Module DepthFacts.
Import SemanticAnalyzer.

(** A call that returns within a bound returns the same within every
    larger bound. *)
Lemma dfs_check_mono (self : analyzer) (f : nat) :
  ∀ f' c visited, (f ≤ f')%nat → _dfs_check f self c visited ≠ OutOfFuel →
    _dfs_check f' self c visited = _dfs_check f self c visited.
Proof.
  induction f as [|f IH]; intros f' c visited Hle Hne; [by destruct Hne|].
  destruct f' as [|f']; [lia|]. simpl in *.
  destruct (class_map self !! c) as [cls|]; [|done].
  case_bool_decide; [|done].
  destruct (_ =? 1)%nat; [done|]. destruct (_ =? 0)%nat; [|done].
  rewrite (IH f'); [done|lia|].
  intros Hout. rewrite Hout in Hne. by destruct Hne.
Qed.

Lemma check_circular_loop_within_mono (self : analyzer) (f f' : nat) (names : list string) :
  (f ≤ f')%nat →
  ∀ visited, check_circular_loop_within f self names visited ≠ OutOfFuel →
    check_circular_loop_within f' self names visited
    = check_circular_loop_within f self names visited.
Proof.
  intros Hle. induction names as [|c names IH]; intros visited Hne; simpl in *; [done|].
  destruct (_ =? 0)%nat; [|by apply IH].
  rewrite (dfs_check_mono self f f') by
    (try lia; intros Hout; rewrite Hout in Hne; by destruct Hne).
  destruct (_dfs_check f self c visited) as [[b visited']| | |]; simpl in *; try done.
  destruct b; [done|]. by apply IH.
Qed.

Lemma check_circular_loop_within_fixed (self : analyzer) (names : list string) :
  ∀ visited, check_circular_loop_within (S (size (class_map self))) self names visited
             = check_circular_loop self names visited.
Proof.
  induction names as [|c names IH]; intros visited; [done|].
  cbn [check_circular_loop_within check_circular_loop].
  destruct (_ =? 0)%nat; [|by apply IH].
  destruct (_dfs_check _ self c visited) as [[b visited']| | |]; simpl; try done.
  destruct b; [done|]. by apply IH.
Qed.

(** With the bound of the model the loop reports every cycle. *)
Lemma cycle_reported (cs : list ClassDef) (C : ClassDef) :
  NoDup (map cls_name cs) → C ∈ cs →
  leaves (seen_after ∅ cs) (List.length cs) (cls_name C) = false →
  check_circular_inheritance (with_classes (seen_after ∅ cs) (map cls_name cs))
  = Exit ERR_SEMANTIC_OTHER.
Proof.
  intros Hnd HC Hcycle.
  destruct (HierarchyFacts.check_circular_with cs) as [Hc|[_ Hg]]; [done|].
  exfalso. rewrite <- (HierarchyFacts.size_seen_after _ Hnd) in Hcycle.
  rewrite HierarchyFacts.grounded_leaves in Hcycle; [done|].
  apply Hg. by apply list_elem_of_fmap_2.
Qed.

Lemma cycle_reported_within (limit : nat) (cs : list ClassDef) (C : ClassDef) :
  NoDup (map cls_name cs) → C ∈ cs →
  leaves (seen_after ∅ cs) (List.length cs) (cls_name C) = false →
  check_circular_loop_within limit (with_classes (seen_after ∅ cs) (map cls_name cs))
    (map cls_name cs) ∅ ≠ OutOfFuel →
  check_circular_loop_within limit (with_classes (seen_after ∅ cs) (map cls_name cs))
    (map cls_name cs) ∅ = Exit ERR_SEMANTIC_OTHER.
Proof.
  intros Hnd HC Hcycle Hne.
  set (self := with_classes (seen_after ∅ cs) (map cls_name cs)) in *.
  pose proof (cycle_reported cs C Hnd HC Hcycle) as Hfix. fold self in Hfix.
  unfold check_circular_inheritance in Hfix.
  rewrite <- check_circular_loop_within_fixed in Hfix.
  change (class_names self) with (map cls_name cs) in Hfix.
  set (big := Nat.max limit (S (size (class_map self)))).
  rewrite <- (check_circular_loop_within_mono self limit big) by (try done; lia).
  rewrite (check_circular_loop_within_mono self (S (size (class_map self))) big);
    [done|lia|]. by rewrite Hfix.
Qed.

Lemma lookup_method_from_mono (self : analyzer) (selector : string) (f : nat) :
  ∀ f' cls, (f ≤ f')%nat → lookup_method_from f self cls selector ≠ OutOfFuel →
    lookup_method_from f' self cls selector = lookup_method_from f self cls selector.
Proof.
  induction f as [|f IH]; intros f' cls Hle Hne; [by destruct Hne|].
  destruct f' as [|f']; [lia|]. simpl in *.
  destruct (class_map self !! cls) as [C|]; [|done].
  destruct (has_method _ _); [done|]. case_bool_decide; [|done].
  apply IH; [lia|done].
Qed.

(** The search in an accepted hierarchy, with the bound of the model. *)
Lemma lookup_method_spec (p : Program) (self : analyzer) (cls selector : string) :
  analyze p = Ok self →
  ∃ b, lookup_method_from (S (size (class_map self))) self cls selector = Ok b
       ∧ (b = true ↔ understands p cls selector).
Proof.
  intros H. destruct (LookupFacts.analyze_hierarchy p self H) as (Hnd & Hcm & _ & Hg).
  destruct (CycleFacts.lookup_method_total self cls selector Hg) as [b Hb].
  unfold lookup_method in Hb. exists b. split; [done|]. split.
  - intros ->. by eapply LookupFacts.lookup_method_from_sound.
  - intros Hu.
    rewrite (LookupFacts.lookup_method_from_complete p self Hnd Hcm cls selector Hu) in Hb.
    + by injection Hb.
    + apply Hg.
Qed.

Lemma lookup_method_from_spec (p : Program) (self : analyzer) (cls selector : string)
    (fuel : nat) :
  analyze p = Ok self →
  lookup_method_from fuel self cls selector ≠ OutOfFuel →
  ∃ b, lookup_method_from fuel self cls selector = Ok b
       ∧ (b = true ↔ understands p cls selector).
Proof.
  intros H Hne. destruct (lookup_method_spec p self cls selector H) as (b & Hb & Hiff).
  exists b. split; [|done].
  set (big := Nat.max fuel (S (size (class_map self)))).
  rewrite <- (lookup_method_from_mono self selector fuel big) by (try done; lia).
  rewrite (lookup_method_from_mono self selector (S (size (class_map self))) big);
    [done|lia|]. by rewrite Hb.
Qed.

(** The outcomes of the model of [main]. *)
Lemma main_ends (argv : list string) (stdin : string) :
  ends_with (λ e, e = AttributeError) (ERR_MISSING_PARAM :: ERR_LEXICAL :: analyzer_codes)
    (main argv stdin).
Proof.
  assert (Hten : ends_with (λ e, e = AttributeError)
                   (ERR_MISSING_PARAM :: ERR_LEXICAL :: analyzer_codes)
                   (@error_exit string ERR_MISSING_PARAM))
    by apply list_elem_of_here.
  unfold main. destruct argv as [|a0 [|a1 [|a2 argv]]]; try done.
  - pose proof (PipelineFacts.run_ends stdin) as H.
    destruct (run stdin); simpl in *; try done. by apply list_elem_of_further.
  - by destruct (mem_string a1 ["-h"; "--help"]).
Qed.

End DepthFacts.

(** ** The parser under a bound on the recursion *)

(** X15.  When the bound on the depth of the recursion is at least four
    times the number of tokens plus one, the loop of [Parser.parse] over
    the classes ends on every list of tokens: with the classes, with
    the syntactic error (exit 22, no other code) or with an
    AttributeError or IndexError.  Every loop turn and every nested
    call takes a token, so the parser cannot run forever and nests no
    deeper than the bound.  Of a smaller bound nothing is said: there a
    deeply nested text can reach the recursion limit of the interpreter
    (RecursionError in CPython, [OutOfFuel] in the model). *)
Theorem parser_bounded_outcome (toks : list Token) (fuel : nat) :
  (4 * List.length toks + 1 ≤ fuel)%nat →
  ends (λ e, e = AttributeError ∨ e = IndexError) (λ _ _, True)
    (Parser.parse_classes fuel) (Parser.mkState toks 0 0).
Proof.
  intros Hfuel.
  apply (ParserOutcome.parse_classes_ends (λ e, e = AttributeError ∨ e = IndexError) toks).
  - by left.
  - intros t _ _. destruct (tok_value t); simpl; auto.
  - done.
  - unfold remaining. simpl. lia.
Qed.

Lemma parser_bounded_outcome_witness :
  ends (λ e, e = AttributeError ∨ e = IndexError) (λ _ _, True)
    (Parser.parse_classes 100)
    (Parser.mkState (ok_or [] (Lexer.tokenize "class Main:Object{run[|x:=(1).]}")) 0 0).
Proof.
  apply parser_bounded_outcome. apply Nat.leb_le. vm_compute. reflexivity.
Defined.

(** X16.  The same for the tokens of a source text, without its
    comments: when the bound on the depth of the recursion is at least
    four times their number plus one, the parser ends with the classes,
    with exit 22 or with an AttributeError; the identifiers of the lexer
    are not empty, so no IndexError is raised.  Of a smaller bound
    nothing is said (RecursionError in CPython). *)
Theorem parse_source_bounded_outcome (code : string) (toks : list Token) (fuel : nat) :
  Lexer.tokenize code = Ok toks →
  (4 * List.length (filter (λ t, Parser.is_comment t = false) toks) + 1 ≤ fuel)%nat →
  ends (λ e, e = AttributeError) (λ _ _, True)
    (Parser.parse_classes fuel)
    (Parser.mkState (filter (λ t, Parser.is_comment t = false) toks) 0 0).
Proof.
  intros Htoks Hfuel. unfold Lexer.tokenize in Htoks.
  apply LexerShape.tokenize_from_shape in Htoks.
  apply (ParserOutcome.parse_classes_ends (λ e, e = AttributeError)
           (filter (λ t, Parser.is_comment t = false) toks)).
  - done.
  - intros t Ht Hty. apply list_elem_of_filter in Ht as [_ Ht].
    rewrite Forall_forall in Htoks. specialize (Htoks t Ht).
    unfold token_shape in Htoks. rewrite Hty in Htoks. simpl in Htoks.
    by destruct (tok_value t).
  - done.
  - unfold remaining. simpl. lia.
Qed.

Lemma parse_source_bounded_outcome_witness :
  ends (λ e, e = AttributeError) (λ _ _, True)
    (Parser.parse_classes 100)
    (Parser.mkState
       (filter (λ t, Parser.is_comment t = false)
          (ok_or [] (Lexer.tokenize "class Main:Object{run[|x:=(1).]}"))) 0 0).
Proof.
  apply (parse_source_bounded_outcome "class Main:Object{run[|x:=(1).]}").
  - vm_compute. reflexivity.
  - apply Nat.leb_le. vm_compute. reflexivity.
Defined.

(** ** The cycle check under a bound on the recursion *)

(** X23.  Take the analyzer as [analyze] sets it up for a program with
    distinct class names, and a class from which the walk to the
    parent, repeated as many times as the program has classes, does not
    leave the classes of the program.  When the interpreter allows more
    nested calls of [_dfs_check] than the program has classes, the
    cycle check ends with exit 35: every cycle is found.  With any
    smaller limit it ends with exit 35 or at the limit (RecursionError in
    CPython, [OutOfFuel] in the model); it never returns normally and
    never fails on a missing key. *)
Theorem circular_inheritance_reported (p : Program) (C : ClassDef) (limit : nat) :
  distinct_classes p → C ∈ classes p →
  leaves (seen_after ∅ (classes p)) (List.length (classes p)) (cls_name C) = false →
  (check_circular_loop_within limit
     (SemanticAnalyzer.with_classes (seen_after ∅ (classes p)) (map cls_name (classes p)))
     (map cls_name (classes p)) ∅ = Exit ERR_SEMANTIC_OTHER
   ∨ check_circular_loop_within limit
       (SemanticAnalyzer.with_classes (seen_after ∅ (classes p)) (map cls_name (classes p)))
       (map cls_name (classes p)) ∅ = OutOfFuel)
  ∧ ((List.length (classes p) < limit)%nat →
     check_circular_loop_within limit
       (SemanticAnalyzer.with_classes (seen_after ∅ (classes p)) (map cls_name (classes p)))
       (map cls_name (classes p)) ∅ = Exit ERR_SEMANTIC_OTHER).
Proof.
  intros Hnd HC Hcycle. split.
  - destruct (check_circular_loop_within limit _ _ ∅) as [u|c|e|] eqn:Hr; [| | |by right];
      left; rewrite <- Hr; apply (DepthFacts.cycle_reported_within limit _ C);
      try done; by rewrite Hr.
  - intros Hlimit.
    pose proof (DepthFacts.cycle_reported _ C Hnd HC Hcycle) as Hfix.
    unfold SemanticAnalyzer.check_circular_inheritance in Hfix.
    rewrite <- DepthFacts.check_circular_loop_within_fixed in Hfix.
    simpl SemanticAnalyzer.class_names in Hfix. simpl SemanticAnalyzer.class_map in Hfix.
    rewrite (DepthFacts.check_circular_loop_within_mono _
               (S (size (seen_after ∅ (classes p)))) limit); [done| |by rewrite Hfix].
    rewrite (HierarchyFacts.size_seen_after _ Hnd). lia.
Qed.

Lemma circular_inheritance_reported_witness :
  check_circular_loop_within 4
    (SemanticAnalyzer.with_classes
       (seen_after ∅ [mkClassDef "Main" "Object" []; mkClassDef "A" "B" [];
                      mkClassDef "B" "A" []])
       ["Main"; "A"; "B"])
    ["Main"; "A"; "B"] ∅ = Exit ERR_SEMANTIC_OTHER.
Proof.
  destruct (circular_inheritance_reported
              (mkProgram [mkClassDef "Main" "Object" []; mkClassDef "A" "B" [];
                          mkClassDef "B" "A" []] None)
              (mkClassDef "A" "B" []) 4) as [_ H].
  - apply (bool_decide_unpack _). vm_compute. exact I.
  - apply list_elem_of_further, list_elem_of_here.
  - vm_compute. reflexivity.
  - apply H. simpl. lia.
Defined.

(** ** The search for a method under a bound on the recursion *)

(** X26.  Take the analyzer of an accepted program.  When the bound on
    the depth of the recursion of [lookup_method] exceeds the number of
    classes of the program, the search returns, and it returns True
    exactly when the class understands the selector: a class of the
    program defines the method or inherits it along the chain of its
    parents, and a name that is no class of the program is looked up in
    the table of the built-in classes.  With any smaller bound the
    search returns the same answer or reaches the bound (RecursionError
    in CPython, [OutOfFuel] in the model). *)
Theorem lookup_method_bounded (p : Program) (self : SemanticAnalyzer.analyzer)
    (cls selector : string) (fuel : nat) :
  SemanticAnalyzer.analyze p = Ok self →
  ((size (SemanticAnalyzer.class_map self) < fuel)%nat →
   ∃ b, SemanticAnalyzer.lookup_method_from fuel self cls selector = Ok b
        ∧ (b = true ↔ understands p cls selector))
  ∧ (SemanticAnalyzer.lookup_method_from fuel self cls selector = OutOfFuel
     ∨ ∃ b, SemanticAnalyzer.lookup_method_from fuel self cls selector = Ok b
            ∧ (b = true ↔ understands p cls selector)).
Proof.
  intros H. split.
  - intros Hfuel. apply (DepthFacts.lookup_method_from_spec p); [done|].
    destruct (DepthFacts.lookup_method_spec p self cls selector H) as (b & Hb & _).
    rewrite (DepthFacts.lookup_method_from_mono self selector
               (S (size (SemanticAnalyzer.class_map self))) fuel); [|lia|];
      by rewrite Hb.
  - destruct (SemanticAnalyzer.lookup_method_from fuel self cls selector) eqn:Hr;
      [right| right | right |by left];
      rewrite <- Hr; apply (DepthFacts.lookup_method_from_spec p); try done;
      by rewrite Hr.
Qed.

Lemma lookup_method_bounded_witness :
  ∃ b, SemanticAnalyzer.lookup_method_from 3
         (ok_or (SemanticAnalyzer.mkAnalyzer ∅ ∅ ∅ [])
            (SemanticAnalyzer.analyze
               (mkProgram
                  [mkClassDef "Main" "A" [mkMethod "run" (mkBlock [] [])];
                   mkClassDef "A" "Integer" [mkMethod "twice" (mkBlock [] [])]] None)))
         "Main" "plus:" = Ok b
       ∧ (b = true
          ↔ understands
              (mkProgram
                 [mkClassDef "Main" "A" [mkMethod "run" (mkBlock [] [])];
                  mkClassDef "A" "Integer" [mkMethod "twice" (mkBlock [] [])]] None)
              "Main" "plus:").
Proof.
  destruct (lookup_method_bounded
              (mkProgram
                 [mkClassDef "Main" "A" [mkMethod "run" (mkBlock [] [])];
                  mkClassDef "A" "Integer" [mkMethod "twice" (mkBlock [] [])]] None)
              (ok_or (SemanticAnalyzer.mkAnalyzer ∅ ∅ ∅ [])
                 (SemanticAnalyzer.analyze
                    (mkProgram
                       [mkClassDef "Main" "A" [mkMethod "run" (mkBlock [] [])];
                        mkClassDef "A" "Integer" [mkMethod "twice" (mkBlock [] [])]]
                       None)))
              "Main" "plus:" 3) as [H _].
  - vm_compute. reflexivity.
  - apply H. apply Nat.ltb_lt. vm_compute. reflexivity.
Defined.

(** ** What the analyzer and the program never do *)

(** X28.  On no program does the analysis exit with a code other than
    22, 31, 32, 33, 34 and 35, and on none does it raise a KeyError on
    its dictionaries or an AttributeError; it raises an IndexError only
    when the program holds a variable node with the empty name.
    Nothing is said of the recursion limit of the interpreter: on a
    tree or a chain of parents deeper than the limit CPython raises
    RecursionError, which the model does not have. *)
Theorem analyzer_exit_codes (p : Program) :
  (∀ c, SemanticAnalyzer.analyze p = Exit c → c ∈ analyzer_codes)
  ∧ SemanticAnalyzer.analyze p ≠ Raise KeyError
  ∧ SemanticAnalyzer.analyze p ≠ Raise AttributeError
  ∧ (SemanticAnalyzer.analyze p = Raise IndexError → unnamed_var (program_nodes p)).
Proof.
  pose proof (OutcomeFacts.analyze_finishes p) as H.
  destruct (SemanticAnalyzer.analyze p) as [self|c|e|]; simpl in H;
    repeat split; try done.
  - by intros c' [= <-].
  - destruct H as [-> _]. discriminate.
  - destruct H as [-> _]. discriminate.
  - intros _. destruct H as [_ [pos Hpos]]. exists pos.
    by apply OutcomeFacts.program_visited_in_nodes.
Qed.

Lemma analyzer_exit_codes_witness : ERR_MISSING_MAIN ∈ analyzer_codes.
Proof.
  apply (proj1 (analyzer_exit_codes (mkProgram [mkClassDef "A" "Object" []] None))).
  vm_compute. reflexivity.
Defined.

(** X29.  For no argument list and no input text does the program exit
    with a code other than 10, 21, 22, 31, 32, 33, 34 and 35 (never 11,
    12 or 99 when the input can be read), and for none does it raise a
    KeyError or an IndexError.  Nothing is said of the recursion limit
    of the interpreter: on a text nested deeper than the limit CPython
    raises RecursionError, which the model does not have. *)
Theorem main_exit_codes (argv : list string) (stdin : string) :
  (∀ c, main argv stdin = Exit c → c ∈ ERR_MISSING_PARAM :: ERR_LEXICAL :: analyzer_codes)
  ∧ main argv stdin ≠ Raise KeyError
  ∧ main argv stdin ≠ Raise IndexError.
Proof.
  pose proof (DepthFacts.main_ends argv stdin) as H.
  destruct (main argv stdin) as [xml|c|e|]; simpl in H; repeat split; try done.
  - by intros c' [= <-].
  - subst e. discriminate.
  - subst e. discriminate.
Qed.

Lemma main_exit_codes_witness :
  ERR_VAR_COLLISION ∈ ERR_MISSING_PARAM :: ERR_LEXICAL :: analyzer_codes.
Proof.
  apply (proj1 (main_exit_codes ["parse.py"] "class Main:Object{run[|]foo:[:a|a:=1.]}")).
  vm_compute. reflexivity.
Defined.
